(** * The DOM Promise engine of dom/promise/Promise.cpp

    A shallow embedding of [mozilla::dom::Promise]: the promise objects live
    in a store indexed by identifiers, the runnables dispatched to the
    current thread wait in an event queue, and every member function of the
    class is a function from stores to stores.  The synchronous re-entry
    [RunTask -> PromiseCallback::Call -> ResolveInternal -> RunResolveTask ->
    RunTask] is unfolded with an explicit recursion budget. *)

From stdpp Require Import base decidable option list numbers relations.

(** ** Values of the scripting engine *)

Definition PromiseId := nat.
Definition nsPIDOMWindow := nat.
Definition JSErrorReport := nat.

(** A [JSObject] is either the reflector of a DOM promise (the only objects
    on which [UNWRAP_OBJECT(Promise, ...)] succeeds), an exception object
    carrying an error report, its principal and its script global, or any
    other object. *)
Inductive JSObject :=
| PromiseObject (p : PromiseId)
| ErrorObject (report : JSErrorReport) (systemPrincipal : bool)
              (scriptGlobal : option nsPIDOMWindow)
| PlainObject (o : nat).

(** [JS::Value]: undefined, an object, or any other (primitive) value. *)
Inductive Value :=
| UndefinedValue
| PrimitiveValue (n : Z)
| ObjectValue (o : JSObject).

#[global] Instance JSObject_eq_dec : EqDecision JSObject.
Proof. solve_decision. Defined.
#[global] Instance Value_eq_dec : EqDecision Value.
Proof. solve_decision. Defined.

Definition isUndefined (v : Value) : bool :=
  match v with UndefinedValue => true | _ => false end.

Definition isObject (v : Value) : bool :=
  match v with ObjectValue _ => true | _ => false end.

(** [UNWRAP_OBJECT(Promise, cx, obj, out)]: [Some p] stands for
    [NS_SUCCEEDED(rv)] with [out = p]. *)
Definition UNWRAP_OBJECT (obj : JSObject) : option PromiseId :=
  match obj with PromiseObject p => Some p | _ => None end.

(** [js::ErrorFromException]: the report of an exception object, null for
    every other value. *)
Definition ErrorFromException (v : Value) : option JSErrorReport :=
  match v with
  | ObjectValue (ErrorObject report _ _) => Some report
  | _ => None
  end.

Definition IsSystemPrincipal_of (v : Value) : bool :=
  match v with ObjectValue (ErrorObject _ sys _) => sys | _ => false end.

Definition GetStaticScriptGlobal (v : Value) : option nsPIDOMWindow :=
  match v with ObjectValue (ErrorObject _ _ g) => g | _ => None end.

(** ** Promise state, callbacks, runnables *)

Inductive PromiseState := Pending | Resolved | Rejected.

Inductive PromiseTaskSync := SyncTask | AsyncTask.

(** [PromiseCallback::Task]. *)
Inductive PromiseCallbackTask := PromiseCallback_Resolve | PromiseCallback_Reject.

#[global] Instance PromiseState_eq_dec : EqDecision PromiseState.
Proof. solve_decision. Defined.
#[global] Instance PromiseCallbackTask_eq_dec : EqDecision PromiseCallbackTask.
Proof. solve_decision. Defined.

(** What running a script function yields: a return value or a thrown
    exception. *)
Inductive Completion := Return (v : Value) | Throw (v : Value).

(** [AnyCallback]: a script function handed to [then]/[catch].  Its body is
    represented by its completion as a function of the argument; [callbackId]
    names it in the record of invocations. *)
Record AnyCallback := mkAnyCallback {
  callbackId : nat;
  callbackBody : Value -> Completion
}.

(** Modelled from the spec: the callback classes of PromiseCallback.h/.cpp are
    not part of the sources.  Spec section 3 (Callback) and section 9 give
    their closed set of variants: the chaining adapters that forward a
    settlement into a target promise (also used as the pass-through for an
    absent continuation), and the wrapper of a user continuation with its
    disposition and derived promise. *)
Inductive PromiseCallback :=
| ResolvePromiseCallback (mPromise : PromiseId)
| RejectPromiseCallback (mPromise : PromiseId)
| WrapperPromiseCallback (mNextPromise : PromiseId) (mCallback : AnyCallback)
                         (aTask : PromiseCallbackTask).

(** The promise a callback settles when it is called. *)
Definition callbackTarget (c : PromiseCallback) : PromiseId :=
  match c with
  | ResolvePromiseCallback p => p
  | RejectPromiseCallback p => p
  | WrapperPromiseCallback p _ _ => p
  end.

(** The data members of [Promise]. *)
Record Promise := mkPromise {
  mWindow : option nsPIDOMWindow;
  mResolveCallbacks : list PromiseCallback;
  mRejectCallbacks : list PromiseCallback;
  mResult : Value;
  mState : PromiseState;
  mTaskPending : bool;
  mHadRejectCallback : bool;
  mResolvePending : bool
}.

(** [Promise::Promise(nsPIDOMWindow* aWindow)]. *)
Definition new_Promise (aWindow : option nsPIDOMWindow) : Promise :=
  {| mWindow := aWindow;
     mResolveCallbacks := [];
     mRejectCallbacks := [];
     mResult := UndefinedValue;
     mState := Pending;
     mTaskPending := false;
     mHadRejectCallback := false;
     mResolvePending := false |}.

#[global] Instance Promise_inhabited : Inhabited Promise :=
  populate (new_Promise None).

(** The runnables of the file.  [PromiseTask]/[WorkerPromiseTask] and
    [PromiseResolverTask]/[WorkerPromiseResolverTask] differ only in the
    thread class they are dispatched to and share one constructor each. *)
Inductive Runnable :=
| PromiseTask (aPromise : PromiseId)
| PromiseResolverTask (aPromise : PromiseId) (aValue : Value)
                      (aState : PromiseState)
| AsyncErrorReporter (report : JSErrorReport) (isChromeError : bool)
                     (win : option nsPIDOMWindow).

#[global] Instance Runnable_eq_dec : EqDecision Runnable.
Proof. solve_decision. Defined.

(** The thread the engine runs on: [NS_IsMainThread()], and for a worker the
    answer of [WorkerPrivate::IsChromeWorker()]. *)
Inductive Thread := MainThread | WorkerThread (isChromeWorker : bool).

Definition NS_IsMainThread (t : Thread) : bool :=
  match t with MainThread => true | WorkerThread _ => false end.

(** ** The store *)

(** [heap]: the promise objects, a promise's identifier being its index;
    [functions]: the native function objects made by [CreateFunction], with
    their two reserved slots; [eventQueue]: the runnables dispatched to the
    current thread, oldest first; [mainThreadQueue]: what a worker dispatched
    to the main thread; [invoked]: the script callbacks called so far with
    their argument; [console]: the rejections reported so far. *)
Record World := mkWorld {
  thread : Thread;
  heap : list Promise;
  functions : list (PromiseId * PromiseCallbackTask);
  eventQueue : list Runnable;
  mainThreadQueue : list Runnable;
  invoked : list (nat * Value);
  console : list (JSErrorReport * bool * option nsPIDOMWindow)
}.

Definition emptyWorld (t : Thread) : World :=
  mkWorld t [] [] [] [] [] [].

(** Reading a promise of the store.  An identifier outside the store reads
    as a newly constructed promise, and writes to it are lost: no object of
    the program has such an identifier. *)
Definition promiseAt (w : World) (p : PromiseId) : Promise := heap w !!! p.

Definition updPromise (p : PromiseId) (f : Promise -> Promise) (w : World) : World :=
  mkWorld (thread w) (alter f p (heap w)) (functions w) (eventQueue w)
          (mainThreadQueue w) (invoked w) (console w).

Definition withEventQueue (q : list Runnable) (w : World) : World :=
  mkWorld (thread w) (heap w) (functions w) q
          (mainThreadQueue w) (invoked w) (console w).

(** [NS_DispatchToCurrentThread] / [WorkerPrivate::Dispatch] on the current
    worker: append to the queue of the running thread. *)
Definition DispatchToCurrentThread (r : Runnable) (w : World) : World :=
  withEventQueue (eventQueue w ++ [r]) w.

(** [NS_DispatchToMainThread]. *)
Definition NS_DispatchToMainThread (r : Runnable) (w : World) : World :=
  if NS_IsMainThread (thread w) then DispatchToCurrentThread r w
  else mkWorld (thread w) (heap w) (functions w) (eventQueue w)
               (mainThreadQueue w ++ [r]) (invoked w) (console w).

Definition recordInvocation (c : AnyCallback) (v : Value) (w : World) : World :=
  mkWorld (thread w) (heap w) (functions w) (eventQueue w)
          (mainThreadQueue w) (invoked w ++ [(callbackId c, v)]) (console w).

Definition recordReport (r : JSErrorReport * bool * option nsPIDOMWindow)
    (w : World) : World :=
  mkWorld (thread w) (heap w) (functions w) (eventQueue w)
          (mainThreadQueue w) (invoked w) (console w ++ [r]).

(** [new Promise(aWindow)]: the new object and its identifier. *)
Definition allocPromise (aWindow : option nsPIDOMWindow) (w : World)
    : PromiseId * World :=
  (length (heap w),
   mkWorld (thread w) (heap w ++ [new_Promise aWindow]) (functions w)
           (eventQueue w) (mainThreadQueue w) (invoked w) (console w)).

(** Field updates on a promise record. *)
Definition set_mResolveCallbacks (l : list PromiseCallback) (x : Promise) :=
  mkPromise (mWindow x) l (mRejectCallbacks x) (mResult x) (mState x)
            (mTaskPending x) (mHadRejectCallback x) (mResolvePending x).
Definition set_mRejectCallbacks (l : list PromiseCallback) (x : Promise) :=
  mkPromise (mWindow x) (mResolveCallbacks x) l (mResult x) (mState x)
            (mTaskPending x) (mHadRejectCallback x) (mResolvePending x).
Definition set_mResult (v : Value) (x : Promise) :=
  mkPromise (mWindow x) (mResolveCallbacks x) (mRejectCallbacks x) v (mState x)
            (mTaskPending x) (mHadRejectCallback x) (mResolvePending x).
Definition set_mState (s : PromiseState) (x : Promise) :=
  mkPromise (mWindow x) (mResolveCallbacks x) (mRejectCallbacks x) (mResult x) s
            (mTaskPending x) (mHadRejectCallback x) (mResolvePending x).
Definition set_mTaskPending (b : bool) (x : Promise) :=
  mkPromise (mWindow x) (mResolveCallbacks x) (mRejectCallbacks x) (mResult x)
            (mState x) b (mHadRejectCallback x) (mResolvePending x).
Definition set_mHadRejectCallback (b : bool) (x : Promise) :=
  mkPromise (mWindow x) (mResolveCallbacks x) (mRejectCallbacks x) (mResult x)
            (mState x) (mTaskPending x) b (mResolvePending x).
Definition set_mResolvePending (b : bool) (x : Promise) :=
  mkPromise (mWindow x) (mResolveCallbacks x) (mRejectCallbacks x) (mResult x)
            (mState x) (mTaskPending x) (mHadRejectCallback x) b.
Definition set_mWindow (win : option nsPIDOMWindow) (x : Promise) :=
  mkPromise win (mResolveCallbacks x) (mRejectCallbacks x) (mResult x)
            (mState x) (mTaskPending x) (mHadRejectCallback x) (mResolvePending x).

(** ** Outcomes of a call *)

(** A call completes, trips a [MOZ_ASSERT], or exhausts the recursion
    budget of the embedding. *)
Inductive Res (A : Type) :=
| Ok (a : A)
| AssertionFailure
| OutOfFuel.
Arguments Ok {A} a.
Arguments AssertionFailure {A}.
Arguments OutOfFuel {A}.

Definition bind {A B} (r : Res A) (k : A -> Res B) : Res B :=
  match r with
  | Ok a => k a
  | AssertionFailure => AssertionFailure
  | OutOfFuel => OutOfFuel
  end.

Notation "x <- r ;; k" := (bind r (fun x => k))
  (at level 100, r at next level, right associativity).

(** [MOZ_ASSERT(cond)]. *)
Definition MOZ_ASSERT (cond : bool) : Res unit :=
  if cond then Ok tt else AssertionFailure.

(** ** Member functions that never re-enter the callbacks *)

(** Modelled from the spec: Promise.h is not part of the sources.  Its two
    setters are the synchronous path of spec section 4.1, which "sets
    state/result immediately". *)
Definition SetResult (this : PromiseId) (aValue : Value) (w : World) : World :=
  updPromise this (set_mResult aValue) w.

Definition SetState (this : PromiseId) (aState : PromiseState) (w : World) : World :=
  updPromise this (set_mState aState) w.

(** Modelled from the spec: the default of the [aAsynchronous] argument is
    declared in Promise.h, which is not part of the sources; spec section 4.1
    names the asynchronous path "the default for externally observable
    settlement". *)
Definition defaultTaskSync : PromiseTaskSync := AsyncTask.

Definition statePending (x : Promise) : bool :=
  bool_decide (mState x = Pending).

(** [Promise::AppendCallbacks]; a null callback pointer is [None]. *)
Definition AppendCallbacks (this : PromiseId)
    (aResolveCallback aRejectCallback : option PromiseCallback)
    (w : World) : World :=
  let w1 :=
    match aResolveCallback with
    | Some c =>
        updPromise this
          (fun x => set_mResolveCallbacks (mResolveCallbacks x ++ [c]) x) w
    | None => w
    end in
  let w2 :=
    match aRejectCallback with
    | Some c =>
        updPromise this
          (fun x => set_mRejectCallbacks (mRejectCallbacks x ++ [c])
                      (set_mHadRejectCallback true x)) w1
    | None => w1
    end in
  if negb (statePending (promiseAt w2 this))
     && negb (mTaskPending (promiseAt w2 this))
  then updPromise this (set_mTaskPending true)
         (DispatchToCurrentThread (PromiseTask this) w2)
  else w2.

(** [Promise::MaybeReportRejected].  The [MOZ_ASSERT(mResult.isObject())]
    after the report was found cannot fail: [ErrorFromException] answers
    only on objects. *)
Definition MaybeReportRejected (this : PromiseId) (w : World) : World :=
  let x := promiseAt w this in
  if negb (bool_decide (mState x = Rejected))
     || mHadRejectCallback x
     || isUndefined (mResult x)
  then w
  else
    match ErrorFromException (mResult x) with
    | None => w
    | Some report =>
        let '(win, isChromeError) :=
          match thread w with
          | MainThread =>
              (GetStaticScriptGlobal (mResult x),
               IsSystemPrincipal_of (mResult x))
          | WorkerThread chrome => (None, chrome)
          end in
        NS_DispatchToMainThread
          (AsyncErrorReporter report isChromeError win) w
    end.

(** [Promise::~Promise]. *)
Definition Promise_destructor (this : PromiseId) (w : World) : World :=
  updPromise this (set_mResult UndefinedValue) (MaybeReportRejected this w).

(** The cycle collector's unlink of a promise
    ([NS_IMPL_CYCLE_COLLECTION_UNLINK_BEGIN(Promise)]). *)
Definition Promise_Unlink (this : PromiseId) (w : World) : World :=
  updPromise this
    (fun x => set_mResult UndefinedValue
                (set_mRejectCallbacks []
                   (set_mResolveCallbacks [] (set_mWindow None x))))
    (MaybeReportRejected this w).

(** The promise a resolution value chains to: the value was passed, is an
    object, and unwraps to a promise. *)
Definition nextPromiseOf (aValue : option Value) : option PromiseId :=
  match aValue with
  | Some (ObjectValue valueObj) => UNWRAP_OBJECT valueObj
  | _ => None
  end.

(** [aValue.WasPassed() ? aValue.Value() : JS::UndefinedHandleValue]. *)
Definition valueOrUndefined (aValue : option Value) : Value :=
  match aValue with Some v => v | None => UndefinedValue end.

(** ** Member functions that may re-enter [RunTask] *)

Section Reentry.

(** The nested activation of [RunTask]. *)
Variable RunTask_rec : PromiseId -> World -> Res World.

(** [Promise::RunResolveTask]; in the asynchronous branch the constructor
    of [PromiseResolverMixin] asserts that the state is not [Pending]. *)
Definition RunResolveTask_with (this : PromiseId) (aValue : Value)
    (aState : PromiseState) (aAsynchronous : PromiseTaskSync)
    (w : World) : Res World :=
  match aAsynchronous with
  | AsyncTask =>
      _ <- MOZ_ASSERT (negb (bool_decide (aState = Pending)));;
      Ok (DispatchToCurrentThread
            (PromiseResolverTask this aValue aState) w)
  | SyncTask =>
      RunTask_rec this (SetState this aState (SetResult this aValue w))
  end.

(** [Promise::ResolveInternal]. *)
Definition ResolveInternal_with (this : PromiseId) (aValue : option Value)
    (aAsynchronous : PromiseTaskSync) (w : World) : Res World :=
  let w := updPromise this (set_mResolvePending true) w in
  match nextPromiseOf aValue with
  | Some nextPromise =>
      Ok (AppendCallbacks nextPromise
            (Some (ResolvePromiseCallback this))
            (Some (RejectPromiseCallback this)) w)
  | None =>
      RunResolveTask_with this (valueOrUndefined aValue) Resolved
        aAsynchronous w
  end.

(** [Promise::RejectInternal]. *)
Definition RejectInternal_with (this : PromiseId) (aValue : option Value)
    (aAsynchronous : PromiseTaskSync) (w : World) : Res World :=
  let w := updPromise this (set_mResolvePending true) w in
  RunResolveTask_with this (valueOrUndefined aValue) Rejected
    aAsynchronous w.

(** Modelled from the spec: [PromiseCallback::Call] is defined in
    PromiseCallback.cpp, which is not part of the sources.  Spec section
    4.3: an adapter forwards the settlement into its target through the
    fulfil or the reject path, on the synchronous path that section 4.1
    reserves for chaining.  Spec section 4.2 and section 7: the derived
    promise of a user continuation is fulfilled with the return value of
    [onFulfill], rejected with the return value of [onReject], and
    rejected when the continuation fails. *)
Definition PromiseCallback_Call_with (c : PromiseCallback) (aValue : Value)
    (w : World) : Res World :=
  match c with
  | ResolvePromiseCallback target =>
      ResolveInternal_with target (Some aValue) SyncTask w
  | RejectPromiseCallback target =>
      RejectInternal_with target (Some aValue) SyncTask w
  | WrapperPromiseCallback next cb task =>
      let w := recordInvocation cb aValue w in
      match callbackBody cb aValue, task with
      | Return v, PromiseCallback_Resolve =>
          ResolveInternal_with next (Some v) SyncTask w
      | Return v, PromiseCallback_Reject =>
          RejectInternal_with next (Some v) SyncTask w
      | Throw e, _ =>
          RejectInternal_with next (Some e) SyncTask w
      end
  end.

(** The loop of [RunTask]: [callbacks[i]->Call(value)] for increasing
    [i]. *)
Fixpoint callCallbacks (callbacks : list PromiseCallback) (value : Value)
    (w : World) : Res World :=
  match callbacks with
  | [] => Ok w
  | c :: rest =>
      w' <- PromiseCallback_Call_with c value w;;
      callCallbacks rest value w'
  end.

Definition clearCallbacks (x : Promise) : Promise :=
  set_mRejectCallbacks [] (set_mResolveCallbacks [] x).

(** The callback array [RunTask] swaps out. *)
Definition takenCallbacks (x : Promise) : list PromiseCallback :=
  if bool_decide (mState x = Resolved) then mResolveCallbacks x
  else mRejectCallbacks x.

(** [Promise::RunTask]. *)
Definition RunTask_with (this : PromiseId) (w : World) : Res World :=
  _ <- MOZ_ASSERT (negb (statePending (promiseAt w this)));;
  let callbacks := takenCallbacks (promiseAt w this) in
  let w := updPromise this clearCallbacks w in
  let value := mResult (promiseAt w this) in
  callCallbacks callbacks value w.

End Reentry.

(** [fuel] bounds the depth of nested [RunTask] activations. *)
Fixpoint RunTask (fuel : nat) (this : PromiseId) (w : World) : Res World :=
  match fuel with
  | 0 => OutOfFuel
  | S n => RunTask_with (RunTask n) this w
  end.

Definition RunResolveTask (fuel : nat) := RunResolveTask_with (RunTask fuel).
Definition ResolveInternal (fuel : nat) := ResolveInternal_with (RunTask fuel).
Definition RejectInternal (fuel : nat) := RejectInternal_with (RunTask fuel).
Definition PromiseCallback_Call (fuel : nat) :=
  PromiseCallback_Call_with (RunTask fuel).

(** [Promise::MaybeResolveInternal]. *)
Definition MaybeResolveInternal (fuel : nat) (this : PromiseId)
    (aValue : option Value) (aAsynchronous : PromiseTaskSync)
    (w : World) : Res World :=
  if mResolvePending (promiseAt w this) then Ok w
  else ResolveInternal fuel this aValue aAsynchronous w.

(** [Promise::MaybeRejectInternal]. *)
Definition MaybeRejectInternal (fuel : nat) (this : PromiseId)
    (aValue : option Value) (aAsynchronous : PromiseTaskSync)
    (w : World) : Res World :=
  if mResolvePending (promiseAt w this) then Ok w
  else RejectInternal fuel this aValue aAsynchronous w.

(** [Promise::MaybeResolve] and [Promise::MaybeReject]. *)
Definition MaybeResolve (fuel : nat) (this : PromiseId)
    (aValue : option Value) (w : World) : Res World :=
  MaybeResolveInternal fuel this aValue defaultTaskSync w.

Definition MaybeReject (fuel : nat) (this : PromiseId)
    (aValue : option Value) (w : World) : Res World :=
  MaybeRejectInternal fuel this aValue defaultTaskSync w.

(** ** The script-facing surface *)

(** What the constructor and the factories read from [aGlobal]: the window
    the global answers to [do_QueryInterface], and whether the engine can
    allocate each of the two native function objects. *)
Record GlobalObject := mkGlobalObject {
  GetAsSupports : option nsPIDOMWindow;
  canCreateResolveFunc : bool;
  canCreateRejectFunc : bool
}.

(** [Promise::CreateFunction]: a native function whose reserved slots hold
    the promise and the task; a null result is [None]. *)
Definition CreateFunction (canCreate : bool) (aPromise : PromiseId)
    (aTask : PromiseCallbackTask) (w : World) : option nat * World :=
  if canCreate
  then (Some (length (functions w)),
        mkWorld (thread w) (heap w) (functions w ++ [(aPromise, aTask)])
                (eventQueue w) (mainThreadQueue w) (invoked w) (console w))
  else (None, w).

(** [Promise::JSCallback]: the native behind both capabilities.  [callee] is
    the function object, [args] the call's arguments.  A callee without the
    reserved slots is the [Throw(aCx, NS_ERROR_UNEXPECTED)] branch. *)
Definition JSCallback (fuel : nat) (callee : nat) (args : list Value)
    (w : World) : Res (bool * World) :=
  match functions w !! callee with
  | None => Ok (false, w)
  | Some (promise, task) =>
      let value := Some (match args with [] => UndefinedValue | a :: _ => a end) in
      w' <- (match task with
             | PromiseCallback_Resolve =>
                 MaybeResolveInternal fuel promise value defaultTaskSync w
             | PromiseCallback_Reject =>
                 MaybeRejectInternal fuel promise value defaultTaskSync w
             end);;
      Ok (true, w')
  end.

(** The executor handed to the constructor ([PromiseInit]): the calls it
    makes to the two capabilities, in order, and the exception it finally
    throws, if any. *)
Inductive ExecutorStep :=
| CallResolveFunc (args : list Value)
| CallRejectFunc (args : list Value).

Record PromiseInit := mkPromiseInit {
  initSteps : list ExecutorStep;
  initThrows : option Value
}.

Fixpoint runExecutorSteps (fuel : nat) (resolveFunc rejectFunc : nat)
    (steps : list ExecutorStep) (w : World) : Res World :=
  match steps with
  | [] => Ok w
  | CallResolveFunc args :: rest =>
      r <- JSCallback fuel resolveFunc args w;;
      runExecutorSteps fuel resolveFunc rejectFunc rest (snd r)
  | CallRejectFunc args :: rest =>
      r <- JSCallback fuel rejectFunc args w;;
      runExecutorSteps fuel resolveFunc rejectFunc rest (snd r)
  end.

(** [aInit.Call(promise, resolveFunc, rejectFunc, aRv, eRethrowExceptions)]:
    the store after the executor ran and the exception left in [aRv]. *)
Definition PromiseInit_Call (fuel : nat) (aInit : PromiseInit)
    (resolveFunc rejectFunc : nat) (w : World) : Res (option Value * World) :=
  w' <- runExecutorSteps fuel resolveFunc rejectFunc (initSteps aInit) w;;
  Ok (initThrows aInit, w').

(** The window lookup that opens the constructor and both factories:
    [None] is the early [aRv.Throw(NS_ERROR_UNEXPECTED)], [Some window]
    the window the new promise is bound to (null on a worker). *)
Definition windowOfGlobal (aGlobal : GlobalObject) (w : World)
    : option (option nsPIDOMWindow) :=
  if NS_IsMainThread (thread w) then
    match GetAsSupports aGlobal with
    | Some window => Some (Some window)
    | None => None
    end
  else Some None.

(** [Promise::Constructor]; the result is the returned pointer, [None] for
    [nullptr]. *)
Definition Constructor (fuel : nat) (aGlobal : GlobalObject)
    (aInit : PromiseInit) (w : World) : Res (option PromiseId * World) :=
  match windowOfGlobal aGlobal w with
  | None => Ok (None, w)
  | Some window =>
      let '(promise, w) := allocPromise window w in
      match CreateFunction (canCreateResolveFunc aGlobal) promise
              PromiseCallback_Resolve w with
      | (None, w) => Ok (None, w)
      | (Some resolveFunc, w) =>
          match CreateFunction (canCreateRejectFunc aGlobal) promise
                  PromiseCallback_Reject w with
          | (None, w) => Ok (None, w)
          | (Some rejectFunc, w) =>
              r <- PromiseInit_Call fuel aInit resolveFunc rejectFunc w;;
              match fst r with
              | Some exn =>
                  w' <- MaybeRejectInternal fuel promise (Some exn)
                          defaultTaskSync (snd r);;
                  Ok (Some promise, w')
              | None => Ok (Some promise, snd r)
              end
          end
      end
  end.

(** [Promise::Resolve] (the static factory). *)
Definition Resolve (fuel : nat) (aGlobal : GlobalObject) (aValue : Value)
    (w : World) : Res (option PromiseId * World) :=
  match windowOfGlobal aGlobal w with
  | None => Ok (None, w)
  | Some window =>
      let '(promise, w) := allocPromise window w in
      w' <- MaybeResolveInternal fuel promise (Some aValue) defaultTaskSync w;;
      Ok (Some promise, w')
  end.

(** [Promise::Reject] (the static factory). *)
Definition Reject (fuel : nat) (aGlobal : GlobalObject) (aValue : Value)
    (w : World) : Res (option PromiseId * World) :=
  match windowOfGlobal aGlobal w with
  | None => Ok (None, w)
  | Some window =>
      let '(promise, w) := allocPromise window w in
      w' <- MaybeRejectInternal fuel promise (Some aValue) defaultTaskSync w;;
      Ok (Some promise, w')
  end.

(** Modelled from the spec: [PromiseCallback::Factory] is defined in
    PromiseCallback.cpp, which is not part of the sources.  Spec section 4.2:
    a continuation is wrapped as a callback for the derived promise, and an
    absent one becomes the pass-through of its disposition. *)
Definition PromiseCallback_Factory (aNextPromise : PromiseId)
    (aCallback : option AnyCallback) (aTask : PromiseCallbackTask)
    : PromiseCallback :=
  match aCallback with
  | Some cb => WrapperPromiseCallback aNextPromise cb aTask
  | None =>
      match aTask with
      | PromiseCallback_Resolve => ResolvePromiseCallback aNextPromise
      | PromiseCallback_Reject => RejectPromiseCallback aNextPromise
      end
  end.

(** [Promise::Then]; [GetParentObject()] is the window of the promise. *)
Definition Then (this : PromiseId)
    (aResolveCallback aRejectCallback : option AnyCallback)
    (w : World) : PromiseId * World :=
  let '(promise, w) := allocPromise (mWindow (promiseAt w this)) w in
  let resolveCb :=
    PromiseCallback_Factory promise aResolveCallback PromiseCallback_Resolve in
  let rejectCb :=
    PromiseCallback_Factory promise aRejectCallback PromiseCallback_Reject in
  (promise, AppendCallbacks this (Some resolveCb) (Some rejectCb) w).

(** [Promise::Catch]. *)
Definition Catch (this : PromiseId) (aRejectCallback : option AnyCallback)
    (w : World) : PromiseId * World :=
  Then this None aRejectCallback w.

(** ** The event loop of the current thread *)

(** [Run()] / [WorkerRun()] of each runnable. *)
Definition Runnable_Run (fuel : nat) (r : Runnable) (w : World) : Res World :=
  match r with
  | PromiseTask p =>
      RunTask fuel p (updPromise p (set_mTaskPending false) w)
  | PromiseResolverTask p v s =>
      RunResolveTask fuel p v s SyncTask w
  | AsyncErrorReporter report isChromeError win =>
      Ok (recordReport (report, isChromeError, win) w)
  end.

(** Take the oldest runnable off the queue and run it to completion. *)
Definition ProcessNextEvent (fuel : nat) (w : World) : Res World :=
  match eventQueue w with
  | [] => Ok w
  | r :: rest => Runnable_Run fuel r (withEventQueue rest w)
  end.

(** [n] turns of the event loop. *)
Fixpoint ProcessEvents (n fuel : nat) (w : World) : Res World :=
  match n with
  | 0 => Ok w
  | S k => w' <- ProcessNextEvent fuel w;; ProcessEvents k fuel w'
  end.

(** ** Who may use promises *)

(** What [Promise::EnabledForScope] consults: whether [NS_GetMainThread]
    succeeds, the preference "dom.promise.enabled" if it is set, the thread
    of the caller, and, for a caller on the main thread, the subject
    principal: whether it is the system principal, and its app status. *)
Record ScopeContext := mkScopeContext {
  mainThreadAvailable : bool;
  promisePref : option bool;
  callerThread : Thread;
  subjectIsSystemPrincipal : bool;
  subjectAppStatus : nat
}.

(** [Preferences::GetBool(aPref, aDefault)]. *)
Definition Preferences_GetBool (pref : option bool) (aDefault : bool) : bool :=
  match pref with Some b => b | None => aDefault end.

(** [PromisePrefEnabledRunnable]: [Run] followed by [Enabled]. *)
Definition PromisePrefEnabledRunnable_Enabled (c : ScopeContext) : bool :=
  Preferences_GetBool (promisePref c) false.

(** [Promise::EnabledForScope]; [APP_STATUS_CERTIFIED] is the constant of
    [nsIPrincipal], declared outside the sources. *)
Definition EnabledForScope (APP_STATUS_CERTIFIED : nat) (c : ScopeContext)
    : bool :=
  if negb (mainThreadAvailable c) then false
  else if PromisePrefEnabledRunnable_Enabled c then true
  else
    match callerThread c with
    | WorkerThread isChromeWorker => isChromeWorker
    | MainThread =>
        subjectIsSystemPrincipal c
        || bool_decide (subjectAppStatus c = APP_STATUS_CERTIFIED)
    end.

(* ================================================================= *)
(** * The vocabulary of the properties *)

(** The writes the member functions are made of. *)
Inductive prim : World -> World -> Prop :=
| prim_AppendCallbacks q a b w :
    prim w (AppendCallbacks q a b w)
| prim_setResolvePending p w :
    prim w (updPromise p (set_mResolvePending true) w)
| prim_dispatchResolver p v s w :
    prim w (DispatchToCurrentThread (PromiseResolverTask p v s) w)
| prim_settle p v s w :
    prim w (SetState p s (SetResult p v w))
| prim_take p w :
    prim w (updPromise p clearCallbacks w)
| prim_invoke c v w :
    prim w (recordInvocation c v w).

(** The writes of the script-facing surface and of the event loop, on top
    of those of the member functions.  Taking a [PromiseTask] off the queue
    and clearing [mTaskPending] is one write: nothing runs in between. *)
Inductive mutation : World -> World -> Prop :=
| mutation_prim w w' :
    prim w w' -> mutation w w'
| mutation_alloc win w :
    mutation w (snd (allocPromise win w))
| mutation_function p t w :
    mutation w (snd (CreateFunction true p t w))
| mutation_beginPromiseTask p rest w :
    eventQueue w = PromiseTask p :: rest ->
    mutation w (updPromise p (set_mTaskPending false) (withEventQueue rest w))
| mutation_beginResolverTask p v s rest w :
    eventQueue w = PromiseResolverTask p v s :: rest ->
    mutation w (withEventQueue rest w)
| mutation_report r c win rest w :
    eventQueue w = AsyncErrorReporter r c win :: rest ->
    mutation w (recordReport (r, c, win) (withEventQueue rest w)).

(** One operation of the program: a call of the script-facing surface or a
    turn of the event loop, completed. *)
Inductive Step : World -> World -> Prop :=
| Step_Constructor fuel aGlobal aInit w r w' :
    Constructor fuel aGlobal aInit w = Ok (r, w') -> Step w w'
| Step_Resolve fuel aGlobal aValue w r w' :
    Resolve fuel aGlobal aValue w = Ok (r, w') -> Step w w'
| Step_Reject fuel aGlobal aValue w r w' :
    Reject fuel aGlobal aValue w = Ok (r, w') -> Step w w'
| Step_Then this aResolveCallback aRejectCallback w :
    Step w (snd (Then this aResolveCallback aRejectCallback w))
| Step_JSCallback fuel callee args w r w' :
    JSCallback fuel callee args w = Ok (r, w') -> Step w w'
| Step_ProcessNextEvent fuel w w' :
    ProcessNextEvent fuel w = Ok w' -> Step w w'.

(** The stores a program can be in: those a sequence of operations builds
    from the empty store. *)
Definition Reachable (w : World) : Prop :=
  exists t, rtc Step (emptyWorld t) w.

(** The writes of the script-facing surface: they extend the store and
    take nothing off the queue. *)
Inductive growth : World -> World -> Prop :=
| growth_prim w w' :
    prim w w' -> growth w w'
| growth_alloc win w :
    growth w (snd (allocPromise win w))
| growth_function p t w :
    growth w (snd (CreateFunction true p t w)).

(** The condition under which [AppendCallbacks] dispatches a drain task,
    read before the callbacks are appended. *)
Definition needsDrainTask (x : Promise) : bool :=
  negb (statePending x) && negb (mTaskPending x).

(** The number of drain tasks of [p] waiting in a queue. *)
Definition drainTasks (p : PromiseId) (q : list Runnable) : nat :=
  length (filter (fun r => r = PromiseTask p) q).

(** One drain task waits for a promise exactly when its [mTaskPending] is
    set, and none otherwise. *)
Definition drainCoalesced (w : World) : Prop :=
  forall p,
    drainTasks p (eventQueue w)
    = if mTaskPending (promiseAt w p) then 1 else 0.

(** The callbacks a promise holds for one settlement: both arrays are
    cleared together, so the longer one counts. *)
Definition queuedCallbacks (x : Promise) : nat :=
  length (mResolveCallbacks x) `max` length (mRejectCallbacks x).

(** The callbacks held by all the promises of the store. *)
Definition pendingCallbacks (w : World) : nat :=
  sum_list_with queuedCallbacks (heap w).

(** The callbacks of [cbs] settle promises of the store. *)
Definition targetsInHeap (w : World) (cbs : list PromiseCallback) : Prop :=
  Forall (fun c => callbackTarget c < length (heap w)) cbs.

(** Every stored callback settles a promise of the store. *)
Definition wfTargets (w : World) : Prop :=
  forall p,
    targetsInHeap w
      (mResolveCallbacks (promiseAt w p) ++ mRejectCallbacks (promiseAt w p)).

(** The outcome of a terminating call: the store keeps its size and its
    well-formed targets, and holds at most [extra] callbacks more. *)
Definition completes (r : nat -> Res World) (w : World) (extra : nat) : Prop :=
  exists fuel w',
    r fuel = Ok w'
    /\ wfTargets w'
    /\ length (heap w') = length (heap w)
    /\ pendingCallbacks w' <= extra + pendingCallbacks w.

(** The chaining adapters, as opposed to the wrappers of script callbacks. *)
Definition isAdapter (c : PromiseCallback) : bool :=
  match c with WrapperPromiseCallback _ _ _ => false | _ => true end.

(** The script callbacks among [cbs], each with the argument [v]. *)
Definition userInvocations (cbs : list PromiseCallback) (v : Value)
    : list (nat * Value) :=
  omap (fun c => match c with
                 | WrapperPromiseCallback _ cb _ => Some (callbackId cb, v)
                 | _ => None
                 end) cbs.

(** The promises from [n0] on hold adapters only, and these settle promises
    from [n0] on: settling one of them calls no script callback. *)
Definition derivedClosed (n0 : nat) (w : World) : Prop :=
  forall d, n0 <= d ->
    Forall (fun c => isAdapter c = true /\ n0 <= callbackTarget c)
      (mResolveCallbacks (promiseAt w d) ++ mRejectCallbacks (promiseAt w d)).

(** The callbacks of [cbs] that settle [p]. *)
Fixpoint targetCount (p : PromiseId) (cbs : list PromiseCallback) : nat :=
  match cbs with
  | [] => 0
  | c :: rest =>
      (if decide (callbackTarget c = p) then 1 else 0) + targetCount p rest
  end.

(** The callbacks stored in the resolve arrays of the store that settle [p]. *)
Definition registrations (p : PromiseId) (w : World) : nat :=
  sum_list_with (fun x => targetCount p (mResolveCallbacks x)) (heap w).

(** The settlement tasks of [p] waiting in a queue. *)
Fixpoint resolverTasks (p : PromiseId) (q : list Runnable) : nat :=
  match q with
  | [] => 0
  | PromiseResolverTask p' _ _ :: rest =>
      (if decide (p' = p) then 1 else 0) + resolverTasks p rest
  | _ :: rest => resolverTasks p rest
  end.

(** A native function of the store settles [p]. *)
Definition hasFunction (p : PromiseId) (w : World) : bool :=
  existsb (fun f => bool_decide (fst f = p)) (functions w).

(** 1 when a capability of [p] exists and no settlement was requested. *)
Definition openCapabilities (p : PromiseId) (w : World) : nat :=
  if mResolvePending (promiseAt w p) then 0
  else if hasFunction p w then 1 else 0.

(** Everything in the store that can still settle [p]. *)
Definition sources (p : PromiseId) (w : World) : nat :=
  registrations p w + resolverTasks p (eventQueue w) + openCapabilities p w.

(** The resolve and reject arrays of a promise settle the same promises in
    the same order. *)
Definition pairedCallbacks (w : World) : Prop :=
  forall q,
    map callbackTarget (mResolveCallbacks (promiseAt w q))
    = map callbackTarget (mRejectCallbacks (promiseAt w q)).

(** With [pending] the callbacks already taken out of the store and not yet
    called: every promise has at most one source of settlement, and only a
    pending promise of the store has one. *)
Definition singleSettlement (pending : list PromiseCallback) (w : World) : Prop :=
  pairedCallbacks w
  /\ (forall p, sources p w + targetCount p pending <= 1)
  /\ (forall p, 1 <= sources p w + targetCount p pending ->
        p < length (heap w) /\ mState (promiseAt w p) = Pending).

(** A settled promise keeps its state and its result. *)
Definition settledKept (w w' : World) : Prop :=
  forall p, mState (promiseAt w p) <> Pending ->
    mState (promiseAt w' p) = mState (promiseAt w p)
    /\ mResult (promiseAt w' p) = mResult (promiseAt w p).

(** What calling a callback does to the promise it settles. *)
Definition forwarded (c : PromiseCallback) (v : Value) (w' : World) : Prop :=
  match c with
  | ResolvePromiseCallback t =>
      nextPromiseOf (Some v) = None ->
      mState (promiseAt w' t) = Resolved /\ mResult (promiseAt w' t) = v
  | RejectPromiseCallback t =>
      mState (promiseAt w' t) = Rejected /\ mResult (promiseAt w' t) = v
  | WrapperPromiseCallback _ _ _ => True
  end.

(** The error reporters waiting in a queue. *)
Fixpoint reportTasks (q : list Runnable) : nat :=
  match q with
  | [] => 0
  | AsyncErrorReporter _ _ _ :: rest => S (reportTasks rest)
  | _ :: rest => reportTasks rest
  end.

(** The error reporters dispatched and not yet run, on either queue. *)
Definition dispatchedReports (w : World) : nat :=
  reportTasks (eventQueue w) + reportTasks (mainThreadQueue w).

(** The three conditions under which teardown reports a rejection. *)
Definition reportable (x : Promise) : bool :=
  bool_decide (mState x = Rejected)
  && negb (mHadRejectCallback x)
  && bool_decide (is_Some (ErrorFromException (mResult x))).

(** [then] called once per element of [regs], in order, on one promise. *)
Definition thenAll (this : PromiseId)
    (regs : list (option AnyCallback * option AnyCallback)) (w : World) : World :=
  foldl (fun w r => snd (Then this (fst r) (snd r) w)) w regs.

(** The callbacks these calls append, the derived promises being allocated
    from [n] on. *)
Fixpoint resolveCallbacksOf (n : nat)
    (regs : list (option AnyCallback * option AnyCallback))
    : list PromiseCallback :=
  match regs with
  | [] => []
  | r :: rest =>
      PromiseCallback_Factory n (fst r) PromiseCallback_Resolve
      :: resolveCallbacksOf (S n) rest
  end.

(** The same for the reject arrays. *)
Fixpoint rejectCallbacksOf (n : nat)
    (regs : list (option AnyCallback * option AnyCallback))
    : list PromiseCallback :=
  match regs with
  | [] => []
  | r :: rest =>
      PromiseCallback_Factory n (snd r) PromiseCallback_Reject
      :: rejectCallbacksOf (S n) rest
  end.

(** The invocations a drain owes to a series of [then] calls. *)
Definition invocationsOf (s : PromiseState)
    (regs : list (option AnyCallback * option AnyCallback)) (v : Value)
    : list (nat * Value) :=
  omap (fun r =>
          (fun c => (callbackId c, v))
            <$> (if bool_decide (s = Resolved) then fst r else snd r)) regs.

(** The store in which the constructor runs the executor: the new promise
    and its two capabilities. *)
Definition constructorStore (window : option nsPIDOMWindow) (w : World) : World :=
  snd (CreateFunction true (length (heap w)) PromiseCallback_Reject
         (snd (CreateFunction true (length (heap w)) PromiseCallback_Resolve
                 (snd (allocPromise window w))))).

(** What holds of every promise of a reachable store: a drain task is
    pending only for a settled promise; a settled promise was requested to
    settle; the result of a fulfilled promise is not itself a promise; a
    settled promise that holds callbacks has its drain task pending; a
    pending promise has no result. *)
Definition promiseConsistent (x : Promise) : Prop :=
  (mTaskPending x = true -> statePending x = false)
  /\ (statePending x = false -> mResolvePending x = true)
  /\ (mState x = Resolved -> nextPromiseOf (Some (mResult x)) = None)
  /\ (statePending x = false -> mTaskPending x = false ->
      mResolveCallbacks x = [] /\ mRejectCallbacks x = [])
  /\ (statePending x = true -> mResult x = UndefinedValue).

(** What holds of every queued runnable: a settlement task carries a
    settled state, never fulfils with a promise, and its promise was
    requested to settle. *)
Definition taskConsistent (w : World) (r : Runnable) : Prop :=
  match r with
  | PromiseResolverTask p v s =>
      s <> Pending
      /\ mResolvePending (promiseAt w p) = true
      /\ (s = Resolved -> nextPromiseOf (Some v) = None)
  | _ => True
  end.

(** A consistent store: every promise and every queued runnable is. *)
Definition consistent (w : World) : Prop :=
  (forall p, promiseConsistent (promiseAt w p))
  /\ Forall (taskConsistent w) (eventQueue w).

(** What the rule has to know where a promise is settled. *)
Definition settlesConsistently (t : PromiseId) (v : Value) (s : PromiseState)
    (w : World) : Prop :=
  mResolvePending (promiseAt w t) = true
  /\ (s = Resolved -> nextPromiseOf (Some v) = None).

(** While [q] is pending it holds a callback that settles [t]. *)
Definition waitsOn (t q : PromiseId) (w : World) : Prop :=
  statePending (promiseAt w q) = true ->
  1 <= targetCount t (mResolveCallbacks (promiseAt w q)).

(** [t] is pending and holds a callback that settles [t] itself. *)
Definition selfChained (t : PromiseId) (w : World) : Prop :=
  statePending (promiseAt w t) = true
  /\ 1 <= targetCount t (mResolveCallbacks (promiseAt w t)).

(** The error reports dispatched and delivered so far. *)
Definition reportsMade (w : World) : nat :=
  dispatchedReports w + length (console w).

(** Nothing was invoked or reported and no promise changed its state or its
    result between [w] and [w']. *)
Definition quiet (w w' : World) : Prop :=
  invoked w' = invoked w
  /\ console w' = console w
  /\ forall p,
       mState (promiseAt w' p) = mState (promiseAt w p)
       /\ mResult (promiseAt w' p) = mResult (promiseAt w p).

(** What a call of a callback may add to the work left: a continuation
    registered for fulfilment may return a promise, which chains the derived
    promise to it and may dispatch a drain task; no other call dispatches. *)
Definition mayChain (c : PromiseCallback) : nat :=
  match c with
  | WrapperPromiseCallback _ _ PromiseCallback_Resolve => 1
  | _ => 0
  end.

(** A callback of the reject path: its call rejects its target. *)
Definition rejectsTarget (c : PromiseCallback) : bool :=
  match c with
  | RejectPromiseCallback _ => true
  | WrapperPromiseCallback _ _ PromiseCallback_Reject => true
  | _ => false
  end.

(** The reject arrays hold callbacks of the reject path only. *)
Definition rejectDiscipline (w : World) : Prop :=
  forall p,
    Forall (fun c => rejectsTarget c = true) (mRejectCallbacks (promiseAt w p)).

(** The fulfilment continuations a promise holds. *)
Definition chainers (x : Promise) : nat :=
  sum_list_with mayChain (mResolveCallbacks x).

(** The work left to the event loop: the queued runnables and the
    fulfilment continuations still registered. *)
Definition pendingWork (w : World) : nat :=
  length (eventQueue w) + sum_list_with chainers (heap w).

(** A fulfilled promise whose result is not a promise. *)
Definition fulfilledPlain (this : PromiseId) (w : World) : Prop :=
  mState (promiseAt w this) = Resolved ->
  nextPromiseOf (Some (mResult (promiseAt w this))) = None.

(** An adapter of the fulfil path is called with a value that is not a
    promise. *)
Definition plainFor (v : Value) (c : PromiseCallback) : Prop :=
  forall t, c = ResolvePromiseCallback t -> nextPromiseOf (Some v) = None.

(** A continuation: the wrapper of a script function handed to [then] or
    [catch]. *)
Definition isContinuation (c : PromiseCallback) : nat :=
  match c with
  | WrapperPromiseCallback _ _ _ => 1
  | _ => 0
  end.

(** The continuations a promise holds in its two arrays. *)
Definition continuations (x : Promise) : nat :=
  sum_list_with isContinuation (mResolveCallbacks x)
  + sum_list_with isContinuation (mRejectCallbacks x).

(** The continuations registered in the store and not yet taken. *)
Definition registeredContinuations (w : World) : nat :=
  sum_list_with continuations (heap w).

(** The script functions called so far and those still registered. *)
Definition continuationBudget (w : World) : nat :=
  length (invoked w) + registeredContinuations w.

(** ** Sample stores *)

(** A window global in which both capabilities can be created. *)
Definition sampleGlobal : GlobalObject := mkGlobalObject (Some 1) true true.

(** The store of an outcome, the empty store of the main thread when the
    outcome is a failure. *)
Definition storeOf (r : Res World) : World :=
  match r with Ok w => w | _ => emptyWorld MainThread end.

(** The main thread before any promise exists. *)
Definition mainWorld : World := emptyWorld MainThread.

(** After [Promise.resolve(5)]: promise 0, its settlement task queued. *)
Definition resolvingWorld : World :=
  storeOf (r <- Resolve 0 sampleGlobal (PrimitiveValue 5) mainWorld;;
           Ok (snd r)).

(** One turn of the event loop later: promise 0 is fulfilled with 5. *)
Definition resolvedWorld : World :=
  storeOf (ProcessNextEvent 1 resolvingWorld).

(** An error object of the window of [sampleGlobal]. *)
Definition sampleError : Value := ObjectValue (ErrorObject 9 false (Some 1)).

(** After [Promise.reject(error)] and one turn: promise 0 is rejected with
    the error object and nothing observes it. *)
Definition rejectedWorld : World :=
  storeOf (r <- Reject 0 sampleGlobal sampleError mainWorld;;
           ProcessNextEvent 1 (snd r)).

(** After [new Promise(function () {})]: promise 0 is pending, its
    capabilities are the functions 0 and 1. *)
Definition pendingWorld : World :=
  storeOf (r <- Constructor 0 sampleGlobal (mkPromiseInit [] None) mainWorld;;
           Ok (snd r)).

(** The same with a second pending promise, 1. *)
Definition twoPendingWorld : World :=
  storeOf (r <- Constructor 0 sampleGlobal (mkPromiseInit [] None) pendingWorld;;
           Ok (snd r)).

(** A script callback that returns its argument. *)
Definition sampleCallback (n : nat) : AnyCallback :=
  mkAnyCallback n (fun v => Return v).

(** The executor of the scenario of the specification:
    [resolveCap(1); rejectCap(2)], then a throw of 3. *)
Definition sampleInit : PromiseInit :=
  mkPromiseInit [CallResolveFunc [PrimitiveValue 1];
                 CallRejectFunc [PrimitiveValue 2]]
    (Some (PrimitiveValue 3)).

(** After [then] on the pending promise 0: promise 0 holds the callbacks
    that settle the derived promise 1. *)
Definition waitingWorld : World :=
  snd (Then 0 (Some (sampleCallback 1)) None pendingWorld).

(** After [then] on the fulfilled promise 0: its drain task is queued. *)
Definition lateWorld : World :=
  snd (Then 0 (Some (sampleCallback 1)) None resolvedWorld).

(** A worker that is not a chrome worker, before any promise exists. *)
Definition workerWorld : World := emptyWorld (WorkerThread false).

(** A global that is not a window. *)
Definition plainGlobal : GlobalObject := mkGlobalObject None true true.

(** Web content on the main thread, the preference not set. *)
Definition contentScope : ScopeContext :=
  mkScopeContext true None MainThread false 0.

(** * Properties *)

(** ** Reading the store after a write *)

Lemma length_heap_updPromise p f w :
  length (heap (updPromise p f w)) = length (heap w).
Proof. unfold updPromise; simpl. apply length_alter. Qed.

Lemma promiseAt_updPromise_eq p f w :
  p < length (heap w) ->
  promiseAt (updPromise p f w) p = f (promiseAt w p).
Proof.
  intros Hp. unfold promiseAt, updPromise; simpl.
  by apply list_lookup_total_alter_eq.
Qed.

Lemma promiseAt_updPromise_ne p q f w :
  p <> q -> promiseAt (updPromise p f w) q = promiseAt w q.
Proof.
  intros Hne. unfold promiseAt, updPromise; simpl.
  by apply list_lookup_total_alter_ne.
Qed.

Lemma promiseAt_outside w p :
  length (heap w) <= p -> promiseAt w p = new_Promise None.
Proof.
  intros Hp. unfold promiseAt.
  rewrite list_lookup_total_alt, lookup_ge_None_2; done.
Qed.

Lemma updPromise_outside p f w :
  length (heap w) <= p -> updPromise p f w = w.
Proof.
  intros Hp. destruct w as [t h fs q mq iv co]. unfold updPromise; simpl in *.
  f_equal. apply list_eq. intros i. rewrite list_lookup_alter.
  case_decide; [subst|done].
  by rewrite lookup_ge_None_2.
Qed.

(** A field that [f] leaves alone reads the same after [updPromise p f]. *)
Lemma field_updPromise {A} (g : Promise -> A) p q f w :
  (forall x, g (f x) = g x) ->
  g (promiseAt (updPromise p f w) q) = g (promiseAt w q).
Proof.
  intros Hf. destruct (decide (p = q)) as [->|Hne].
  - destruct (decide (q < length (heap w))) as [Hin|Hout].
    + by rewrite promiseAt_updPromise_eq.
    + rewrite updPromise_outside; [done|lia].
  - by rewrite promiseAt_updPromise_ne.
Qed.

Lemma promiseAt_allocPromise_new win w :
  promiseAt (snd (allocPromise win w)) (length (heap w)) = new_Promise win.
Proof.
  unfold promiseAt, allocPromise; simpl.
  rewrite list_lookup_total_alt, lookup_app_r, Nat.sub_diag; done.
Qed.

Lemma promiseAt_allocPromise_old win w p :
  p < length (heap w) ->
  promiseAt (snd (allocPromise win w)) p = promiseAt w p.
Proof.
  intros Hp. unfold promiseAt, allocPromise; simpl.
  by rewrite !list_lookup_total_alt, lookup_app_l.
Qed.

Lemma length_heap_allocPromise win w :
  length (heap (snd (allocPromise win w))) = S (length (heap w)).
Proof. unfold allocPromise; simpl. rewrite length_app; simpl; lia. Qed.

(** ** What the queue and log updates leave alone *)

Lemma promiseAt_withEventQueue q w p :
  promiseAt (withEventQueue q w) p = promiseAt w p.
Proof. done. Qed.

Lemma promiseAt_DispatchToCurrentThread r w p :
  promiseAt (DispatchToCurrentThread r w) p = promiseAt w p.
Proof. done. Qed.

Lemma promiseAt_NS_DispatchToMainThread r w p :
  promiseAt (NS_DispatchToMainThread r w) p = promiseAt w p.
Proof. unfold NS_DispatchToMainThread. by case_match. Qed.

Lemma promiseAt_recordInvocation c v w p :
  promiseAt (recordInvocation c v w) p = promiseAt w p.
Proof. done. Qed.

Lemma promiseAt_recordReport r w p :
  promiseAt (recordReport r w) p = promiseAt w p.
Proof. done. Qed.

(** A field untouched by every write of [AppendCallbacks]. *)
Lemma field_AppendCallbacks {A} (g : Promise -> A) q a b w p :
  (forall l x, g (set_mResolveCallbacks l x) = g x) ->
  (forall l x, g (set_mRejectCallbacks l x) = g x) ->
  (forall c x, g (set_mHadRejectCallback c x) = g x) ->
  (forall c x, g (set_mTaskPending c x) = g x) ->
  g (promiseAt (AppendCallbacks q a b w) p) = g (promiseAt w p).
Proof.
  intros H1 H2 H3 H4. unfold AppendCallbacks.
  destruct a, b; simpl; case_match;
    repeat first
      [ rewrite promiseAt_DispatchToCurrentThread
      | rewrite (field_updPromise g); [|intros; by rewrite ?H1, ?H2, ?H3, ?H4] ];
    done.
Qed.

Lemma mState_AppendCallbacks q a b w p :
  mState (promiseAt (AppendCallbacks q a b w) p) = mState (promiseAt w p).
Proof. by apply (field_AppendCallbacks mState). Qed.

Lemma mResult_AppendCallbacks q a b w p :
  mResult (promiseAt (AppendCallbacks q a b w) p) = mResult (promiseAt w p).
Proof. by apply (field_AppendCallbacks mResult). Qed.

Lemma mResolvePending_AppendCallbacks q a b w p :
  mResolvePending (promiseAt (AppendCallbacks q a b w) p)
  = mResolvePending (promiseAt w p).
Proof. by apply (field_AppendCallbacks mResolvePending). Qed.

Lemma mWindow_AppendCallbacks q a b w p :
  mWindow (promiseAt (AppendCallbacks q a b w) p) = mWindow (promiseAt w p).
Proof. by apply (field_AppendCallbacks mWindow). Qed.

Lemma invoked_AppendCallbacks q a b w :
  invoked (AppendCallbacks q a b w) = invoked w.
Proof. unfold AppendCallbacks. destruct a, b; simpl; case_match; done. Qed.

Lemma thread_AppendCallbacks q a b w :
  thread (AppendCallbacks q a b w) = thread w.
Proof. unfold AppendCallbacks. destruct a, b; simpl; case_match; done. Qed.

Lemma functions_AppendCallbacks q a b w :
  functions (AppendCallbacks q a b w) = functions w.
Proof. unfold AppendCallbacks. destruct a, b; simpl; case_match; done. Qed.

Lemma length_heap_AppendCallbacks q a b w :
  length (heap (AppendCallbacks q a b w)) = length (heap w).
Proof.
  unfold AppendCallbacks.
  destruct a, b; simpl; case_match; simpl;
    rewrite ?length_alter; done.
Qed.

(** ** Settlement requests *)

Lemma ResolveInternal_async_plain fuel this aValue w :
  nextPromiseOf aValue = None ->
  ResolveInternal fuel this aValue AsyncTask w
  = Ok (DispatchToCurrentThread
          (PromiseResolverTask this (valueOrUndefined aValue) Resolved)
          (updPromise this (set_mResolvePending true) w)).
Proof.
  intros Hv. unfold ResolveInternal, ResolveInternal_with. by rewrite Hv.
Qed.

Lemma ResolveInternal_chain fuel this aValue nextPromise sync w :
  nextPromiseOf aValue = Some nextPromise ->
  ResolveInternal fuel this aValue sync w
  = Ok (AppendCallbacks nextPromise
          (Some (ResolvePromiseCallback this))
          (Some (RejectPromiseCallback this))
          (updPromise this (set_mResolvePending true) w)).
Proof.
  intros Hv. unfold ResolveInternal, ResolveInternal_with. by rewrite Hv.
Qed.

Lemma RejectInternal_async fuel this aValue w :
  RejectInternal fuel this aValue AsyncTask w
  = Ok (DispatchToCurrentThread
          (PromiseResolverTask this (valueOrUndefined aValue) Rejected)
          (updPromise this (set_mResolvePending true) w)).
Proof. done. Qed.

(** After an asynchronous settlement request the promise has kept its state
    and result and has [mResolvePending] set. *)
Lemma ResolveInternal_async_spec fuel this aValue w :
  this < length (heap w) ->
  exists w',
    ResolveInternal fuel this aValue AsyncTask w = Ok w'
    /\ mState (promiseAt w' this) = mState (promiseAt w this)
    /\ mResult (promiseAt w' this) = mResult (promiseAt w this)
    /\ mResolvePending (promiseAt w' this) = true
    /\ length (heap w') = length (heap w).
Proof.
  intros Hin. destruct (nextPromiseOf aValue) as [q|] eqn:Hv.
  - rewrite (ResolveInternal_chain _ _ _ q) by done.
    eexists; split; [done|].
    rewrite mState_AppendCallbacks, mResult_AppendCallbacks,
      mResolvePending_AppendCallbacks, length_heap_AppendCallbacks,
      length_heap_updPromise.
    rewrite (field_updPromise mState), (field_updPromise mResult) by done.
    by rewrite promiseAt_updPromise_eq.
  - rewrite ResolveInternal_async_plain by done.
    eexists; split; [done|].
    rewrite !promiseAt_DispatchToCurrentThread.
    rewrite (field_updPromise mState), (field_updPromise mResult) by done.
    rewrite promiseAt_updPromise_eq by done. simpl.
    by rewrite length_alter.
Qed.

Lemma RejectInternal_async_spec fuel this aValue w :
  this < length (heap w) ->
  exists w',
    RejectInternal fuel this aValue AsyncTask w = Ok w'
    /\ mState (promiseAt w' this) = mState (promiseAt w this)
    /\ mResult (promiseAt w' this) = mResult (promiseAt w this)
    /\ mResolvePending (promiseAt w' this) = true
    /\ length (heap w') = length (heap w).
Proof.
  intros Hin. rewrite RejectInternal_async.
  eexists; split; [done|].
  rewrite !promiseAt_DispatchToCurrentThread.
  rewrite (field_updPromise mState), (field_updPromise mResult) by done.
  rewrite promiseAt_updPromise_eq by done. simpl.
  by rewrite length_alter.
Qed.

(** Once [mResolvePending] is set, both entry points return at once. *)
Lemma MaybeResolveInternal_pending fuel this aValue sync w :
  mResolvePending (promiseAt w this) = true ->
  MaybeResolveInternal fuel this aValue sync w = Ok w.
Proof. intros H. unfold MaybeResolveInternal. by rewrite H. Qed.

Lemma MaybeRejectInternal_pending fuel this aValue sync w :
  mResolvePending (promiseAt w this) = true ->
  MaybeRejectInternal fuel this aValue sync w = Ok w.
Proof. intros H. unfold MaybeRejectInternal. by rewrite H. Qed.

Lemma MaybeResolveInternal_first fuel this aValue sync w :
  mResolvePending (promiseAt w this) = false ->
  MaybeResolveInternal fuel this aValue sync w
  = ResolveInternal fuel this aValue sync w.
Proof. intros H. unfold MaybeResolveInternal. by rewrite H. Qed.

Lemma MaybeRejectInternal_first fuel this aValue sync w :
  mResolvePending (promiseAt w this) = false ->
  MaybeRejectInternal fuel this aValue sync w
  = RejectInternal fuel this aValue sync w.
Proof. intros H. unfold MaybeRejectInternal. by rewrite H. Qed.

(** ** Every call is a sequence of primitive writes *)

Lemma bind_Ok {A B} (r : Res A) (k : A -> Res B) b :
  bind r k = Ok b -> exists a, r = Ok a /\ k a = Ok b.
Proof. destruct r; simpl; intros H; try discriminate. eauto. Qed.

Lemma MOZ_ASSERT_Ok c u : MOZ_ASSERT c = Ok u -> c = true.
Proof. by destruct c. Qed.

Section ReentryTrace.

Variable rec : PromiseId -> World -> Res World.
Hypothesis rec_prims : forall p w w', rec p w = Ok w' -> rtc prim w w'.

Lemma RunResolveTask_with_prims this v s sync w w' :
  RunResolveTask_with rec this v s sync w = Ok w' -> rtc prim w w'.
Proof.
  unfold RunResolveTask_with. destruct sync.
  - intros H. eapply rtc_l; [apply (prim_settle this v s)|].
    by eapply rec_prims.
  - intros H. apply bind_Ok in H as (_ & _ & H). inversion H; subst.
    apply rtc_once. constructor.
Qed.

Lemma ResolveInternal_with_prims this v sync w w' :
  ResolveInternal_with rec this v sync w = Ok w' -> rtc prim w w'.
Proof.
  unfold ResolveInternal_with. intros H.
  eapply rtc_l; [apply (prim_setResolvePending this)|].
  destruct (nextPromiseOf v).
  - inversion H; subst. apply rtc_once. constructor.
  - by eapply RunResolveTask_with_prims.
Qed.

Lemma RejectInternal_with_prims this v sync w w' :
  RejectInternal_with rec this v sync w = Ok w' -> rtc prim w w'.
Proof.
  unfold RejectInternal_with. intros H.
  eapply rtc_l; [apply (prim_setResolvePending this)|].
  by eapply RunResolveTask_with_prims.
Qed.

Lemma PromiseCallback_Call_with_prims c v w w' :
  PromiseCallback_Call_with rec c v w = Ok w' -> rtc prim w w'.
Proof.
  destruct c as [t|t|next cb task]; unfold PromiseCallback_Call_with.
  - apply ResolveInternal_with_prims.
  - apply RejectInternal_with_prims.
  - intros H. eapply rtc_l; [apply (prim_invoke cb v)|].
    destruct (callbackBody cb v), task;
      eauto using ResolveInternal_with_prims, RejectInternal_with_prims.
Qed.

Lemma callCallbacks_prims cbs v w w' :
  callCallbacks rec cbs v w = Ok w' -> rtc prim w w'.
Proof.
  revert w. induction cbs as [|c rest IH]; intros w; simpl.
  - intros H; inversion H; subst. done.
  - intros H. apply bind_Ok in H as (w1 & H1 & H2).
    etrans; [by eapply PromiseCallback_Call_with_prims|by eapply IH].
Qed.

Lemma RunTask_with_prims this w w' :
  RunTask_with rec this w = Ok w' -> rtc prim w w'.
Proof.
  unfold RunTask_with. intros H.
  apply bind_Ok in H as (_ & _ & H).
  eapply rtc_l; [apply (prim_take this)|].
  by eapply callCallbacks_prims.
Qed.

End ReentryTrace.

Lemma RunTask_prims fuel this w w' :
  RunTask fuel this w = Ok w' -> rtc prim w w'.
Proof.
  revert this w w'. induction fuel as [|n IH]; intros this w w'; simpl.
  - discriminate.
  - by apply RunTask_with_prims.
Qed.

Lemma RunResolveTask_prims fuel this v s sync w w' :
  RunResolveTask fuel this v s sync w = Ok w' -> rtc prim w w'.
Proof. apply RunResolveTask_with_prims, RunTask_prims. Qed.

Lemma ResolveInternal_prims fuel this v sync w w' :
  ResolveInternal fuel this v sync w = Ok w' -> rtc prim w w'.
Proof. apply ResolveInternal_with_prims, RunTask_prims. Qed.

Lemma RejectInternal_prims fuel this v sync w w' :
  RejectInternal fuel this v sync w = Ok w' -> rtc prim w w'.
Proof. apply RejectInternal_with_prims, RunTask_prims. Qed.

Lemma MaybeResolveInternal_prims fuel this v sync w w' :
  MaybeResolveInternal fuel this v sync w = Ok w' -> rtc prim w w'.
Proof.
  unfold MaybeResolveInternal. destruct (mResolvePending _).
  - intros H; inversion H; subst; done.
  - apply ResolveInternal_prims.
Qed.

Lemma MaybeRejectInternal_prims fuel this v sync w w' :
  MaybeRejectInternal fuel this v sync w = Ok w' -> rtc prim w w'.
Proof.
  unfold MaybeRejectInternal. destruct (mResolvePending _).
  - intros H; inversion H; subst; done.
  - apply RejectInternal_prims.
Qed.

(** ** The operations a script and the event loop perform *)

Lemma growth_mutation w w' : growth w w' -> mutation w w'.
Proof.
  destruct 1; [by apply mutation_prim|apply mutation_alloc
              |apply mutation_function].
Qed.

Lemma growths_mutations w w' : rtc growth w w' -> rtc mutation w w'.
Proof.
  induction 1 as [|x y z Hxy _ IH]; [done|].
  eapply rtc_l; [by apply growth_mutation|done].
Qed.

Lemma prims_growth w w' : rtc prim w w' -> rtc growth w w'.
Proof.
  induction 1 as [|x y z Hxy _ IH]; [done|].
  eapply rtc_l; [by apply growth_prim|done].
Qed.

Lemma JSCallback_growth fuel callee args w r w' :
  JSCallback fuel callee args w = Ok (r, w') -> rtc growth w w'.
Proof.
  unfold JSCallback. destruct (functions w !! callee) as [[p task]|].
  - intros H. apply bind_Ok in H as (w1 & H1 & H2). inversion H2; subst.
    apply prims_growth. destruct task;
      eauto using MaybeResolveInternal_prims, MaybeRejectInternal_prims.
  - intros H; inversion H; subst. done.
Qed.

Lemma runExecutorSteps_growth fuel f1 f2 steps w w' :
  runExecutorSteps fuel f1 f2 steps w = Ok w' -> rtc growth w w'.
Proof.
  revert w. induction steps as [|[args|args] rest IH]; intros w; simpl.
  - intros H; inversion H; subst; done.
  - intros H. apply bind_Ok in H as ([b w1] & H1 & H2).
    etrans; [by eapply JSCallback_growth|by apply IH].
  - intros H. apply bind_Ok in H as ([b w1] & H1 & H2).
    etrans; [by eapply JSCallback_growth|by apply IH].
Qed.

Lemma Constructor_growth fuel aGlobal aInit w r w' :
  Constructor fuel aGlobal aInit w = Ok (r, w') -> rtc growth w w'.
Proof.
  unfold Constructor. destruct (windowOfGlobal aGlobal w) as [win|].
  2:{ intros H; inversion H; subst; done. }
  pose proof (growth_alloc win w) as Ha.
  destruct (allocPromise win w) as [p w1]. simpl in Ha.
  unfold CreateFunction at 1.
  destruct (canCreateResolveFunc aGlobal).
  2:{ intros H; inversion H; subst. by apply rtc_once. }
  pose proof (growth_function p PromiseCallback_Resolve w1) as Hf1.
  simpl in Hf1. set (w2 := mkWorld _ _ _ _ _ _ _) in *.
  unfold CreateFunction at 1.
  destruct (canCreateRejectFunc aGlobal).
  2:{ intros H; inversion H; subst. eapply rtc_l; [done|by apply rtc_once]. }
  pose proof (growth_function p PromiseCallback_Reject w2) as Hf2.
  simpl in Hf2. set (w3 := mkWorld _ _ _ _ _ _ _) in *.
  intros H. apply bind_Ok in H as ([exn w4] & H1 & H2).
  unfold PromiseInit_Call in H1.
  apply bind_Ok in H1 as (w5 & H1 & H3). inversion H3; subst.
  apply runExecutorSteps_growth in H1.
  eapply rtc_l; [done|]. eapply rtc_l; [done|]. eapply rtc_l; [done|].
  etrans; [done|]. simpl in H2.
  destruct (initThrows aInit).
  - apply bind_Ok in H2 as (w6 & H2 & H4). inversion H4; subst.
    apply prims_growth. by eapply MaybeRejectInternal_prims.
  - inversion H2; subst. done.
Qed.

Lemma Resolve_growth fuel aGlobal aValue w r w' :
  Resolve fuel aGlobal aValue w = Ok (r, w') -> rtc growth w w'.
Proof.
  unfold Resolve. destruct (windowOfGlobal aGlobal w) as [win|].
  2:{ intros H; inversion H; subst; done. }
  pose proof (growth_alloc win w) as Ha.
  destruct (allocPromise win w) as [p w1]. simpl in Ha.
  intros H. apply bind_Ok in H as (w2 & H1 & H2). inversion H2; subst.
  eapply rtc_l; [done|].
  apply prims_growth. by eapply MaybeResolveInternal_prims.
Qed.

Lemma Reject_growth fuel aGlobal aValue w r w' :
  Reject fuel aGlobal aValue w = Ok (r, w') -> rtc growth w w'.
Proof.
  unfold Reject. destruct (windowOfGlobal aGlobal w) as [win|].
  2:{ intros H; inversion H; subst; done. }
  pose proof (growth_alloc win w) as Ha.
  destruct (allocPromise win w) as [p w1]. simpl in Ha.
  intros H. apply bind_Ok in H as (w2 & H1 & H2). inversion H2; subst.
  eapply rtc_l; [done|].
  apply prims_growth. by eapply MaybeRejectInternal_prims.
Qed.

Lemma Then_growth this a b w :
  rtc growth w (snd (Then this a b w)).
Proof.
  unfold Then.
  pose proof (growth_alloc (mWindow (promiseAt w this)) w) as Ha.
  destruct (allocPromise _ w) as [p w1]. simpl in Ha. cbn [snd].
  eapply rtc_l; [exact Ha|]. apply rtc_once, growth_prim.
  apply prim_AppendCallbacks.
Qed.

Lemma prims_mutations w w' : rtc prim w w' -> rtc mutation w w'.
Proof. intros H. by apply growths_mutations, prims_growth. Qed.

Lemma JSCallback_mutations fuel callee args w r w' :
  JSCallback fuel callee args w = Ok (r, w') -> rtc mutation w w'.
Proof. intros H. by apply JSCallback_growth, growths_mutations in H. Qed.

Lemma runExecutorSteps_mutations fuel f1 f2 steps w w' :
  runExecutorSteps fuel f1 f2 steps w = Ok w' -> rtc mutation w w'.
Proof. intros H. by apply runExecutorSteps_growth, growths_mutations in H. Qed.

Lemma Constructor_mutations fuel aGlobal aInit w r w' :
  Constructor fuel aGlobal aInit w = Ok (r, w') -> rtc mutation w w'.
Proof. intros H. by apply Constructor_growth, growths_mutations in H. Qed.

Lemma Resolve_mutations fuel aGlobal aValue w r w' :
  Resolve fuel aGlobal aValue w = Ok (r, w') -> rtc mutation w w'.
Proof. intros H. by apply Resolve_growth, growths_mutations in H. Qed.

Lemma Reject_mutations fuel aGlobal aValue w r w' :
  Reject fuel aGlobal aValue w = Ok (r, w') -> rtc mutation w w'.
Proof. intros H. by apply Reject_growth, growths_mutations in H. Qed.

Lemma Then_mutations this a b w :
  rtc mutation w (snd (Then this a b w)).
Proof. apply growths_mutations, Then_growth. Qed.

Lemma ProcessNextEvent_mutations fuel w w' :
  ProcessNextEvent fuel w = Ok w' -> rtc mutation w w'.
Proof.
  unfold ProcessNextEvent. destruct (eventQueue w) as [|r rest] eqn:Hq.
  - intros H; inversion H; subst; done.
  - destruct r as [p|p v s|r c win]; unfold Runnable_Run; intros H.
    + eapply rtc_l; [by apply (mutation_beginPromiseTask p rest)|].
      apply prims_mutations. by eapply RunTask_prims.
    + eapply rtc_l; [by apply (mutation_beginResolverTask p v s rest)|].
      apply prims_mutations. by eapply RunResolveTask_prims.
    + inversion H; subst. apply rtc_once. by apply mutation_report.
Qed.

Lemma Step_mutations w w' : Step w w' -> rtc mutation w w'.
Proof.
  destruct 1;
    eauto using Constructor_mutations, Resolve_mutations, Reject_mutations,
      Then_mutations, JSCallback_mutations, ProcessNextEvent_mutations.
Qed.

Lemma Steps_mutations w w' : rtc Step w w' -> rtc mutation w w'.
Proof.
  induction 1; [done|]. etrans; [by apply Step_mutations|done].
Qed.

(** ** What no operation undoes *)

(** A boolean member that a write never clears stays set. *)
Lemma kept_updPromise (g : Promise -> bool) p q f w :
  (forall x, g x = true -> g (f x) = true) ->
  g (promiseAt w q) = true ->
  g (promiseAt (updPromise p f w) q) = true.
Proof.
  intros Hf Hg. destruct (decide (p = q)) as [->|Hne].
  - destruct (decide (q < length (heap w))) as [Hin|Hout].
    + rewrite promiseAt_updPromise_eq by done. by apply Hf.
    + rewrite updPromise_outside; [done|lia].
  - by rewrite promiseAt_updPromise_ne.
Qed.

Lemma kept_AppendCallbacks (g : Promise -> bool) q a b w p :
  (forall l x, g (set_mResolveCallbacks l x) = g x) ->
  (forall l x, g (set_mRejectCallbacks l x) = g x) ->
  (forall x, g x = true -> g (set_mHadRejectCallback true x) = true) ->
  (forall x, g x = true -> g (set_mTaskPending true x) = true) ->
  g (promiseAt w p) = true ->
  g (promiseAt (AppendCallbacks q a b w) p) = true.
Proof.
  intros H1 H2 H3 H4 Hg. unfold AppendCallbacks.
  destruct a, b; simpl; case_match;
    repeat first
      [ rewrite promiseAt_DispatchToCurrentThread
      | apply kept_updPromise; [intros x Hx; rewrite ?H1, ?H2; auto|] ];
    done.
Qed.

Lemma kept_allocPromise (g : Promise -> bool) win w p :
  g (new_Promise None) = false ->
  g (promiseAt w p) = true ->
  g (promiseAt (snd (allocPromise win w)) p) = true.
Proof.
  intros Hnew Hg. destruct (decide (p < length (heap w))) as [Hin|Hout].
  - by rewrite promiseAt_allocPromise_old.
  - rewrite promiseAt_outside in Hg by lia. congruence.
Qed.

Lemma kept_mutation (g : Promise -> bool) w w' p :
  (forall l x, g (set_mResolveCallbacks l x) = g x) ->
  (forall l x, g (set_mRejectCallbacks l x) = g x) ->
  (forall v x, g (set_mResult v x) = g x) ->
  (forall s x, g (set_mState s x) = g x) ->
  (forall b x, g (set_mTaskPending b x) = g x) ->
  (forall x, g x = true -> g (set_mHadRejectCallback true x) = true) ->
  (forall x, g x = true -> g (set_mResolvePending true x) = true) ->
  g (new_Promise None) = false ->
  mutation w w' ->
  g (promiseAt w p) = true -> g (promiseAt w' p) = true.
Proof.
  intros H1 H2 H3 H4 H5 H6 H7 Hnew Hm Hg.
  destruct Hm as [w w' Hp| | | | |].
  - destruct Hp.
    + apply kept_AppendCallbacks; auto. intros x Hx. by rewrite H5.
    + by apply kept_updPromise.
    + done.
    + unfold SetState, SetResult.
      apply kept_updPromise; [intros x Hx; by rewrite H4|].
      apply kept_updPromise; [intros x Hx; by rewrite H3|]. done.
    + apply kept_updPromise; [|done].
      intros x Hx. unfold clearCallbacks. by rewrite H2, H1.
    + done.
  - by apply kept_allocPromise.
  - done.
  - apply kept_updPromise; [intros x Hx; by rewrite H5|]. done.
  - done.
  - done.
Qed.

Lemma mutation_mHadRejectCallback w w' p :
  mutation w w' ->
  mHadRejectCallback (promiseAt w p) = true ->
  mHadRejectCallback (promiseAt w' p) = true.
Proof. by apply (kept_mutation mHadRejectCallback). Qed.

Lemma mutation_mResolvePending w w' p :
  mutation w w' ->
  mResolvePending (promiseAt w p) = true ->
  mResolvePending (promiseAt w' p) = true.
Proof. by apply (kept_mutation mResolvePending). Qed.

Lemma mutations_mHadRejectCallback w w' p :
  rtc mutation w w' ->
  mHadRejectCallback (promiseAt w p) = true ->
  mHadRejectCallback (promiseAt w' p) = true.
Proof. induction 1; eauto using mutation_mHadRejectCallback. Qed.

Lemma mutations_mResolvePending w w' p :
  rtc mutation w w' ->
  mResolvePending (promiseAt w p) = true ->
  mResolvePending (promiseAt w' p) = true.
Proof. induction 1; eauto using mutation_mResolvePending. Qed.

(** The store only grows, and the record of invocations is only extended. *)
Lemma mutation_grows w w' :
  mutation w w' ->
  length (heap w) <= length (heap w')
  /\ invoked w `prefix_of` invoked w'
  /\ thread w' = thread w.
Proof.
  destruct 1 as [w w' Hp| | | | |].
  - destruct Hp; simpl;
      rewrite ?length_heap_AppendCallbacks, ?invoked_AppendCallbacks,
        ?thread_AppendCallbacks, ?length_alter;
      repeat split; try done; try lia.
    by apply prefix_app_r.
  - simpl. rewrite length_app. simpl. repeat split; try done; lia.
  - done.
  - simpl. rewrite length_alter. done.
  - done.
  - done.
Qed.

Lemma mutations_grow w w' :
  rtc mutation w w' ->
  length (heap w) <= length (heap w')
  /\ invoked w `prefix_of` invoked w'
  /\ thread w' = thread w.
Proof.
  induction 1 as [|x y z Hxy _ (IH1 & IH2 & IH3)]; [done|].
  destruct (mutation_grows _ _ Hxy) as (H1 & H2 & H3).
  repeat split; [lia|by etrans|congruence].
Qed.

(** ** Scheduling of the drain task *)

Lemma settled_in_heap w p :
  statePending (promiseAt w p) = false -> p < length (heap w).
Proof.
  intros H. destruct (decide (p < length (heap w))) as [|Hout]; [done|].
  rewrite promiseAt_outside in H by lia. done.
Qed.

Lemma AppendCallbacks_unfold q a b w :
  AppendCallbacks q a b w =
  let w2 :=
    match b with
    | Some c =>
        updPromise q
          (fun x => set_mRejectCallbacks (mRejectCallbacks x ++ [c])
                      (set_mHadRejectCallback true x))
          match a with
          | Some c =>
              updPromise q
                (fun x => set_mResolveCallbacks (mResolveCallbacks x ++ [c]) x) w
          | None => w
          end
    | None =>
        match a with
        | Some c =>
            updPromise q
              (fun x => set_mResolveCallbacks (mResolveCallbacks x ++ [c]) x) w
        | None => w
        end
    end in
  if needsDrainTask (promiseAt w q)
  then updPromise q (set_mTaskPending true)
         (DispatchToCurrentThread (PromiseTask q) w2)
  else w2.
Proof.
  unfold AppendCallbacks, needsDrainTask, statePending. cbv zeta.
  destruct a, b;
    rewrite ?(field_updPromise mState), ?(field_updPromise mTaskPending);
    done.
Qed.

Lemma eventQueue_AppendCallbacks q a b w :
  eventQueue (AppendCallbacks q a b w)
  = if needsDrainTask (promiseAt w q)
    then eventQueue w ++ [PromiseTask q] else eventQueue w.
Proof.
  rewrite AppendCallbacks_unfold. cbv zeta.
  destruct (needsDrainTask _), a, b; done.
Qed.

Lemma mTaskPending_AppendCallbacks q a b w p :
  mTaskPending (promiseAt (AppendCallbacks q a b w) p)
  = if decide (p = q)
    then mTaskPending (promiseAt w q) || negb (statePending (promiseAt w q))
    else mTaskPending (promiseAt w p).
Proof.
  rewrite AppendCallbacks_unfold. cbv zeta.
  unfold needsDrainTask.
  destruct (statePending (promiseAt w q)) eqn:Hs; simpl.
  - rewrite orb_false_r. case_decide; subst;
      destruct a, b; rewrite ?(field_updPromise mTaskPending); done.
  - apply settled_in_heap in Hs.
    destruct (mTaskPending (promiseAt w q)) eqn:Hf; simpl.
    + case_decide; subst;
        destruct a, b; rewrite ?(field_updPromise mTaskPending); done.
    + case_decide; subst.
      * rewrite promiseAt_updPromise_eq; [done|].
        destruct a, b; simpl; rewrite ?length_alter; done.
      * rewrite promiseAt_updPromise_ne by done.
        rewrite promiseAt_DispatchToCurrentThread.
        destruct a, b; rewrite ?(field_updPromise mTaskPending); done.
Qed.

Lemma drainTasks_app p q1 q2 :
  drainTasks p (q1 ++ q2) = drainTasks p q1 + drainTasks p q2.
Proof. unfold drainTasks. by rewrite filter_app, length_app. Qed.

Lemma drainTasks_cons p r q :
  drainTasks p (r :: q)
  = (if decide (r = PromiseTask p) then 1 else 0) + drainTasks p q.
Proof.
  unfold drainTasks. rewrite filter_cons. by case_decide.
Qed.

Lemma prim_drainCoalesced w w' :
  prim w w' -> drainCoalesced w -> drainCoalesced w'.
Proof.
  intros Hp Hinv p. specialize (Hinv p) as Hp0.
  destruct Hp as [q a b w|q w|q v s w|q v s w|q w|c v w].
  - rewrite eventQueue_AppendCallbacks, mTaskPending_AppendCallbacks.
    unfold needsDrainTask.
    specialize (Hinv q).
    destruct (statePending (promiseAt w q)), (mTaskPending (promiseAt w q));
      simpl; rewrite ?drainTasks_app, ?drainTasks_cons; simpl;
      change (drainTasks p []) with 0;
      repeat case_decide; subst; try congruence; try lia.
  - rewrite (field_updPromise mTaskPending) by done. done.
  - simpl. rewrite drainTasks_app, drainTasks_cons.
    rewrite decide_False by done.
    change (drainTasks p []) with 0.
    rewrite promiseAt_DispatchToCurrentThread. lia.
  - unfold SetState, SetResult.
    rewrite !(field_updPromise mTaskPending) by done. done.
  - rewrite (field_updPromise mTaskPending) by done. done.
  - done.
Qed.

Lemma mutation_drainCoalesced w w' :
  mutation w w' -> drainCoalesced w -> drainCoalesced w'.
Proof.
  intros Hm Hinv. destruct Hm as [w w' Hp|win w|q t w|q rest w Hq|q v s rest w Hq|r c win rest w Hq].
  - by eapply prim_drainCoalesced.
  - intros p. specialize (Hinv p).
    change (eventQueue (snd (allocPromise win w))) with (eventQueue w).
    destruct (decide (p < length (heap w))) as [Hin|Hout].
    + by rewrite promiseAt_allocPromise_old.
    + rewrite promiseAt_outside in Hinv by lia.
      rewrite Hinv.
      destruct (decide (p = length (heap w))) as [->|Hne].
      * by rewrite promiseAt_allocPromise_new.
      * rewrite promiseAt_outside; [done|].
        rewrite length_heap_allocPromise. lia.
  - done.
  - intros p. pose proof (Hinv p) as Hp. pose proof (Hinv q) as Hq'.
    rewrite Hq, drainTasks_cons in Hp, Hq'. simpl in *.
    rewrite decide_True in Hq' by done.
    destruct (decide (p = q)) as [->|Hne].
    + destruct (mTaskPending (promiseAt w q)) eqn:Hf; [|lia].
      rewrite promiseAt_updPromise_eq.
      * simpl. lia.
      * simpl. destruct (decide (q < length (heap w))); [done|].
        rewrite promiseAt_outside in Hf by lia. done.
    + rewrite promiseAt_updPromise_ne by done.
      rewrite decide_False in Hp by congruence. done.
  - intros p. specialize (Hinv p). rewrite Hq, drainTasks_cons in Hinv.
    rewrite decide_False in Hinv by done. done.
  - intros p. specialize (Hinv p). rewrite Hq, drainTasks_cons in Hinv.
    rewrite decide_False in Hinv by done. done.
Qed.

Lemma Reachable_drainCoalesced w : Reachable w -> drainCoalesced w.
Proof.
  intros [t Hr]. apply Steps_mutations in Hr.
  assert (drainCoalesced (emptyWorld t)) as H0.
  { intros p. rewrite promiseAt_outside by (simpl; lia). done. }
  induction Hr; eauto using mutation_drainCoalesced.
Qed.

(** ** A larger recursion budget gives the same result *)

Section ReentryMono.

Variables rec1 rec2 : PromiseId -> World -> Res World.
Hypothesis rec_le : forall p w w', rec1 p w = Ok w' -> rec2 p w = Ok w'.

Lemma RunResolveTask_with_le this v s sync w w' :
  RunResolveTask_with rec1 this v s sync w = Ok w' ->
  RunResolveTask_with rec2 this v s sync w = Ok w'.
Proof. unfold RunResolveTask_with. destruct sync; [apply rec_le|done]. Qed.

Lemma ResolveInternal_with_le this v sync w w' :
  ResolveInternal_with rec1 this v sync w = Ok w' ->
  ResolveInternal_with rec2 this v sync w = Ok w'.
Proof.
  unfold ResolveInternal_with. destruct (nextPromiseOf v); [done|].
  apply RunResolveTask_with_le.
Qed.

Lemma RejectInternal_with_le this v sync w w' :
  RejectInternal_with rec1 this v sync w = Ok w' ->
  RejectInternal_with rec2 this v sync w = Ok w'.
Proof. unfold RejectInternal_with. apply RunResolveTask_with_le. Qed.

Lemma PromiseCallback_Call_with_le c v w w' :
  PromiseCallback_Call_with rec1 c v w = Ok w' ->
  PromiseCallback_Call_with rec2 c v w = Ok w'.
Proof.
  destruct c as [t|t|next cb task]; unfold PromiseCallback_Call_with.
  - apply ResolveInternal_with_le.
  - apply RejectInternal_with_le.
  - destruct (callbackBody cb v), task;
      auto using ResolveInternal_with_le, RejectInternal_with_le.
Qed.

Lemma callCallbacks_le cbs v w w' :
  callCallbacks rec1 cbs v w = Ok w' ->
  callCallbacks rec2 cbs v w = Ok w'.
Proof.
  revert w. induction cbs as [|c rest IH]; intros w; simpl; [done|].
  intros H. apply bind_Ok in H as (w1 & H1 & H2).
  rewrite (PromiseCallback_Call_with_le _ _ _ _ H1). simpl. by apply IH.
Qed.

Lemma RunTask_with_le this w w' :
  RunTask_with rec1 this w = Ok w' -> RunTask_with rec2 this w = Ok w'.
Proof.
  unfold RunTask_with. intros H.
  apply bind_Ok in H as (u & Hu & H). rewrite Hu. simpl.
  by apply callCallbacks_le.
Qed.

End ReentryMono.

Lemma RunTask_fuel_S fuel this w w' :
  RunTask fuel this w = Ok w' -> RunTask (S fuel) this w = Ok w'.
Proof.
  revert this w w'. induction fuel as [|n IH]; intros this w w'.
  - discriminate.
  - intros H. change (RunTask (S (S n))) with (RunTask_with (RunTask (S n))).
    eapply RunTask_with_le; [|exact H]. apply IH.
Qed.

Lemma RunTask_fuel_le n m this w w' :
  n <= m -> RunTask n this w = Ok w' -> RunTask m this w = Ok w'.
Proof.
  induction 1 as [|m Hle IH]; [done|]. intros Hr. by apply RunTask_fuel_S, IH.
Qed.

Lemma callCallbacks_fuel_le n m cbs v w w' :
  n <= m ->
  callCallbacks (RunTask n) cbs v w = Ok w' ->
  callCallbacks (RunTask m) cbs v w = Ok w'.
Proof.
  intros Hle. apply callCallbacks_le. intros. by eapply RunTask_fuel_le.
Qed.

Lemma RunResolveTask_fuel_le n m this v s sync w w' :
  n <= m ->
  RunResolveTask n this v s sync w = Ok w' ->
  RunResolveTask m this v s sync w = Ok w'.
Proof.
  intros Hle. apply RunResolveTask_with_le. intros. by eapply RunTask_fuel_le.
Qed.

Lemma ResolveInternal_fuel_le n m this v sync w w' :
  n <= m ->
  ResolveInternal n this v sync w = Ok w' ->
  ResolveInternal m this v sync w = Ok w'.
Proof.
  intros Hle. apply ResolveInternal_with_le. intros. by eapply RunTask_fuel_le.
Qed.

Lemma RejectInternal_fuel_le n m this v sync w w' :
  n <= m ->
  RejectInternal n this v sync w = Ok w' ->
  RejectInternal m this v sync w = Ok w'.
Proof.
  intros Hle. apply RejectInternal_with_le. intros. by eapply RunTask_fuel_le.
Qed.

Lemma PromiseCallback_Call_fuel_le n m c v w w' :
  n <= m ->
  PromiseCallback_Call n c v w = Ok w' ->
  PromiseCallback_Call m c v w = Ok w'.
Proof.
  intros Hle. apply PromiseCallback_Call_with_le.
  intros. by eapply RunTask_fuel_le.
Qed.

Lemma Runnable_Run_fuel_le n m r w w' :
  n <= m -> Runnable_Run n r w = Ok w' -> Runnable_Run m r w = Ok w'.
Proof.
  intros Hle. destruct r; unfold Runnable_Run.
  - by apply RunTask_fuel_le.
  - by apply RunResolveTask_fuel_le.
  - done.
Qed.

Lemma ProcessNextEvent_fuel_le n m w w' :
  n <= m -> ProcessNextEvent n w = Ok w' -> ProcessNextEvent m w = Ok w'.
Proof.
  intros Hle. unfold ProcessNextEvent. destruct (eventQueue w); [done|].
  by apply Runnable_Run_fuel_le.
Qed.

(** ** Termination of the synchronous re-entry *)

Lemma RunTask_with_settled rec this w :
  statePending (promiseAt w this) = false ->
  RunTask_with rec this w
  = callCallbacks rec (takenCallbacks (promiseAt w this))
      (mResult (promiseAt w this)) (updPromise this clearCallbacks w).
Proof.
  intros Hs. unfold RunTask_with. rewrite Hs. simpl.
  by rewrite (field_updPromise mResult).
Qed.

Lemma RunTask_with_pending rec this w :
  statePending (promiseAt w this) = true ->
  RunTask_with rec this w = AssertionFailure.
Proof. intros Hs. unfold RunTask_with. by rewrite Hs. Qed.

Lemma sum_list_with_alter {A} (g : A -> nat) (f : A -> A) i (l : list A) x :
  l !! i = Some x ->
  sum_list_with g (alter f i l) + g x = sum_list_with g l + g (f x).
Proof.
  revert i. induction l as [|y l IH]; intros [|i] Hi; simplify_eq/=.
  - lia.
  - specialize (IH i Hi). lia.
Qed.

Lemma promiseAt_lookup w p :
  p < length (heap w) -> heap w !! p = Some (promiseAt w p).
Proof.
  intros Hp. unfold promiseAt.
  destruct (lookup_lt_is_Some_2 (heap w) p Hp) as [x Hx].
  by rewrite (list_lookup_total_correct _ _ _ Hx).
Qed.

Lemma pendingCallbacks_updPromise p f w :
  p < length (heap w) ->
  pendingCallbacks (updPromise p f w) + queuedCallbacks (promiseAt w p)
  = pendingCallbacks w + queuedCallbacks (f (promiseAt w p)).
Proof.
  intros Hp. unfold pendingCallbacks, updPromise; simpl.
  by apply sum_list_with_alter, promiseAt_lookup.
Qed.

Lemma pendingCallbacks_updPromise_same p f w :
  (forall x, queuedCallbacks (f x) = queuedCallbacks x) ->
  pendingCallbacks (updPromise p f w) = pendingCallbacks w.
Proof.
  intros Hf. destruct (decide (p < length (heap w))) as [Hin|Hout].
  - pose proof (pendingCallbacks_updPromise p f w Hin) as H.
    rewrite Hf in H. lia.
  - rewrite updPromise_outside; [done|lia].
Qed.

Lemma wfTargets_updPromise p f w :
  (forall x,
     targetsInHeap w (mResolveCallbacks x ++ mRejectCallbacks x) ->
     targetsInHeap w (mResolveCallbacks (f x) ++ mRejectCallbacks (f x))) ->
  wfTargets w -> wfTargets (updPromise p f w).
Proof.
  intros Hf Hwf q. unfold targetsInHeap. rewrite length_heap_updPromise.
  destruct (decide (p = q)) as [->|Hne].
  - destruct (decide (q < length (heap w))) as [Hin|Hout].
    + rewrite promiseAt_updPromise_eq by done. apply Hf, Hwf.
    + rewrite updPromise_outside by lia. apply Hwf.
  - rewrite promiseAt_updPromise_ne by done. apply Hwf.
Qed.

Lemma wfTargets_AppendCallbacks q c1 c2 w :
  callbackTarget c1 < length (heap w) ->
  callbackTarget c2 < length (heap w) ->
  wfTargets w -> wfTargets (AppendCallbacks q (Some c1) (Some c2) w).
Proof.
  intros H1 H2 Hwf. rewrite AppendCallbacks_unfold. cbv zeta.
  assert (wfTargets
    (updPromise q
       (fun x => set_mRejectCallbacks (mRejectCallbacks x ++ [c2])
                   (set_mHadRejectCallback true x))
       (updPromise q
          (fun x => set_mResolveCallbacks (mResolveCallbacks x ++ [c1]) x) w)))
    as Hw2.
  { apply wfTargets_updPromise.
    - intros x. unfold targetsInHeap. rewrite length_heap_updPromise. simpl.
      rewrite !Forall_app. intros [Ha Hb]. repeat split; try done.
      by apply Forall_singleton.
    - apply wfTargets_updPromise; [|done].
      intros x. unfold targetsInHeap. simpl.
      rewrite !Forall_app. intros [Ha Hb]. repeat split; try done.
      by apply Forall_singleton. }
  destruct (needsDrainTask _); [|done].
  apply wfTargets_updPromise; [by intros x|]. exact Hw2.
Qed.

Lemma pendingCallbacks_AppendCallbacks q c1 c2 w :
  pendingCallbacks (AppendCallbacks q (Some c1) (Some c2) w)
  <= S (pendingCallbacks w).
Proof.
  rewrite AppendCallbacks_unfold. cbv zeta.
  set (f1 := fun x => set_mResolveCallbacks (mResolveCallbacks x ++ [c1]) x).
  set (f2 := fun x => set_mRejectCallbacks (mRejectCallbacks x ++ [c2])
                        (set_mHadRejectCallback true x)).
  assert (pendingCallbacks (updPromise q f2 (updPromise q f1 w))
          <= S (pendingCallbacks w)) as Hw2.
  { destruct (decide (q < length (heap w))) as [Hin|Hout].
    - pose proof (pendingCallbacks_updPromise q f1 w Hin) as Ha.
      pose proof (pendingCallbacks_updPromise q f2 (updPromise q f1 w)) as Hb.
      rewrite length_heap_updPromise in Hb. specialize (Hb Hin).
      rewrite promiseAt_updPromise_eq in Hb by done.
      unfold queuedCallbacks in *. simpl in *.
      rewrite !length_app in *. simpl in *. lia.
    - rewrite !updPromise_outside; rewrite ?length_heap_updPromise; lia. }
  destruct (needsDrainTask _); [|done].
  rewrite pendingCallbacks_updPromise_same by done. exact Hw2.
Qed.

Lemma targetsInHeap_taken w p :
  wfTargets w -> targetsInHeap w (takenCallbacks (promiseAt w p)).
Proof.
  intros Hwf. specialize (Hwf p). unfold targetsInHeap in *.
  apply Forall_app in Hwf as [Ha Hb].
  unfold takenCallbacks. by case_bool_decide.
Qed.

Lemma length_taken_le x : length (takenCallbacks x) <= queuedCallbacks x.
Proof. unfold takenCallbacks, queuedCallbacks. case_bool_decide; lia. Qed.

Lemma completes_weaken r w e e' :
  completes r w e -> e <= e' -> completes r w e'.
Proof.
  intros (fuel & w' & Hr & Hwf & Hlen & Hpc) Hle.
  exists fuel, w'. repeat split; try done. lia.
Qed.

Lemma callCallbacks_completes N :
  forall cbs v w,
    wfTargets w -> targetsInHeap w cbs ->
    length cbs + pendingCallbacks w <= N ->
    completes (fun fuel => callCallbacks (RunTask fuel) cbs v w) w (length cbs).
Proof.
  induction N as [N IHN] using lt_wf_ind.
  (* a synchronous settlement of a target of the store *)
  assert (forall t v s w,
            s <> Pending -> t < length (heap w) -> wfTargets w ->
            pendingCallbacks w < N ->
            completes (fun fuel => RunResolveTask fuel t v s SyncTask w) w 0)
    as Hsettle.
  { intros t v s w Hs Ht Hwf HN.
    set (w2 := SetState t s (SetResult t v w)).
    assert (length (heap w2) = length (heap w)) as Hlen2.
    { unfold w2, SetState, SetResult. by rewrite !length_heap_updPromise. }
    assert (wfTargets w2) as Hwf2.
    { unfold w2, SetState, SetResult.
      apply wfTargets_updPromise; [by intros x|].
      apply wfTargets_updPromise; [by intros x|]. done. }
    assert (pendingCallbacks w2 = pendingCallbacks w) as Hpc2.
    { unfold w2, SetState, SetResult.
      by rewrite !pendingCallbacks_updPromise_same. }
    assert (statePending (promiseAt w2 t) = false) as Hst.
    { unfold w2, SetState. rewrite promiseAt_updPromise_eq.
      - unfold statePending. simpl. by apply bool_decide_eq_false.
      - unfold SetResult. by rewrite length_heap_updPromise. }
    set (w3 := updPromise t clearCallbacks w2).
    assert (wfTargets w3) as Hwf3.
    { apply wfTargets_updPromise; [|done]. intros x _. constructor. }
    pose proof (pendingCallbacks_updPromise t clearCallbacks w2) as Hpc3.
    rewrite Hlen2 in Hpc3. specialize (Hpc3 Ht).
    change (queuedCallbacks (clearCallbacks (promiseAt w2 t))) with 0 in Hpc3.
    fold w3 in Hpc3.
    pose proof (length_taken_le (promiseAt w2 t)) as Htk.
    destruct (IHN (length (takenCallbacks (promiseAt w2 t)) + pendingCallbacks w3))
      with (cbs := takenCallbacks (promiseAt w2 t))
           (v := mResult (promiseAt w2 t)) (w := w3)
      as (fuel & w' & Hr & Hwf' & Hlen' & Hpc'); [lia|done| |done|].
    { pose proof (targetsInHeap_taken w2 t Hwf2) as Ht2.
      unfold targetsInHeap in *. unfold w3.
      by rewrite length_heap_updPromise. }
    exists (S fuel), w'. repeat split; try done.
    - unfold RunResolveTask, RunResolveTask_with. fold w2.
      change (RunTask (S fuel)) with (RunTask_with (RunTask fuel)).
      by rewrite RunTask_with_settled.
    - unfold w3 in Hlen'. rewrite length_heap_updPromise in Hlen'. congruence.
    - lia. }
  assert (forall t v w,
            t < length (heap w) -> wfTargets w -> pendingCallbacks w < N ->
            completes (fun fuel => RejectInternal fuel t v SyncTask w) w 0)
    as Hreject.
  { intros t v w Ht Hwf HN.
    destruct (Hsettle t (valueOrUndefined v) Rejected
                (updPromise t (set_mResolvePending true) w))
      as (fuel & w' & Hr & Hwf' & Hlen' & Hpc'); try done.
    - by rewrite length_heap_updPromise.
    - apply wfTargets_updPromise; [by intros x|done].
    - by rewrite pendingCallbacks_updPromise_same.
    - exists fuel, w'. rewrite length_heap_updPromise in Hlen'.
      rewrite pendingCallbacks_updPromise_same in Hpc' by done. done. }
  assert (forall t v w,
            t < length (heap w) -> wfTargets w -> pendingCallbacks w < N ->
            completes (fun fuel => ResolveInternal fuel t v SyncTask w) w 1)
    as Hresolve.
  { intros t v w Ht Hwf HN.
    destruct (nextPromiseOf v) as [q|] eqn:Hv.
    - exists 0, (AppendCallbacks q (Some (ResolvePromiseCallback t))
                   (Some (RejectPromiseCallback t))
                   (updPromise t (set_mResolvePending true) w)).
      rewrite (ResolveInternal_chain _ _ _ q) by done.
      split; [done|]. split; [|split].
      + apply wfTargets_AppendCallbacks;
          rewrite ?length_heap_updPromise; try done.
        apply wfTargets_updPromise; [by intros x|done].
      + by rewrite length_heap_AppendCallbacks, length_heap_updPromise.
      + etrans; [apply pendingCallbacks_AppendCallbacks|].
        rewrite pendingCallbacks_updPromise_same by done. lia.
    - destruct (Hsettle t (valueOrUndefined v) Resolved
                  (updPromise t (set_mResolvePending true) w))
        as (fuel & w' & Hr & Hwf' & Hlen' & Hpc'); try done.
      + by rewrite length_heap_updPromise.
      + apply wfTargets_updPromise; [by intros x|done].
      + by rewrite pendingCallbacks_updPromise_same.
      + exists fuel, w'. rewrite length_heap_updPromise in Hlen'.
        rewrite pendingCallbacks_updPromise_same in Hpc' by done.
        repeat split; try done; [|lia].
        unfold ResolveInternal, ResolveInternal_with. by rewrite Hv. }
  assert (forall c v w,
            callbackTarget c < length (heap w) -> wfTargets w ->
            pendingCallbacks w < N ->
            completes (fun fuel => PromiseCallback_Call fuel c v w) w 1)
    as Hcall.
  { intros c v w Ht Hwf HN. destruct c as [t|t|next cb task]; simpl in Ht.
    - by apply Hresolve.
    - apply (completes_weaken _ _ 0); [|lia]. by apply Hreject.
    - unfold PromiseCallback_Call, PromiseCallback_Call_with.
      destruct (callbackBody cb v) as [v'|v'], task.
      + by apply (Hresolve next (Some v') (recordInvocation cb v w)).
      + apply (completes_weaken _ _ 0); [|lia].
        by apply (Hreject next (Some v') (recordInvocation cb v w)).
      + apply (completes_weaken _ _ 0); [|lia].
        by apply (Hreject next (Some v') (recordInvocation cb v w)).
      + apply (completes_weaken _ _ 0); [|lia].
        by apply (Hreject next (Some v') (recordInvocation cb v w)). }
  induction cbs as [|c rest IHrest]; intros v w Hwf Hcbs HN.
  - exists 0, w. simpl. repeat split; try done.
  - apply Forall_cons in Hcbs as [Hc Hrest]. simpl in HN.
    destruct (Hcall c v w) as (fuel1 & w1 & Hr1 & Hwf1 & Hlen1 & Hpc1);
      [done|done|lia|].
    destruct (IHrest v w1) as (fuel2 & w2 & Hr2 & Hwf2 & Hlen2 & Hpc2);
      [done| |lia|].
    { unfold targetsInHeap in *. by rewrite Hlen1. }
    exists (fuel1 `max` fuel2), w2. repeat split; try done.
    + assert (PromiseCallback_Call (fuel1 `max` fuel2) c v w = Ok w1) as Hc1.
      { apply (PromiseCallback_Call_fuel_le fuel1); [lia|done]. }
      unfold PromiseCallback_Call in Hc1.
      cbn [callCallbacks]. rewrite Hc1. cbn [bind].
      apply (callCallbacks_fuel_le fuel2); [lia|done].
    + congruence.
    + simpl. lia.
Qed.

Lemma RunTask_completes this w :
  wfTargets w -> statePending (promiseAt w this) = false ->
  exists fuel w',
    RunTask fuel this w = Ok w'
    /\ wfTargets w' /\ length (heap w') = length (heap w).
Proof.
  intros Hwf Hs.
  set (w3 := updPromise this clearCallbacks w).
  destruct (callCallbacks_completes
              (length (takenCallbacks (promiseAt w this)) + pendingCallbacks w3)
              (takenCallbacks (promiseAt w this)) (mResult (promiseAt w this)) w3)
    as (fuel & w' & Hr & Hwf' & Hlen & _); [| |done|].
  - apply wfTargets_updPromise; [|done]. intros x _. constructor.
  - pose proof (targetsInHeap_taken w this Hwf) as Ht.
    unfold targetsInHeap, w3 in *. by rewrite length_heap_updPromise.
  - exists (S fuel), w'. split; [|split; [done|]].
    + change (RunTask (S fuel)) with (RunTask_with (RunTask fuel)).
      by rewrite RunTask_with_settled.
    + unfold w3 in Hlen. by rewrite length_heap_updPromise in Hlen.
Qed.

Lemma RunResolveTask_completes this v s w :
  wfTargets w -> this < length (heap w) -> s <> Pending ->
  exists fuel w',
    RunResolveTask fuel this v s SyncTask w = Ok w'
    /\ wfTargets w' /\ length (heap w') = length (heap w).
Proof.
  intros Hwf Hin Hs.
  set (w2 := SetState this s (SetResult this v w)).
  destruct (RunTask_completes this w2) as (fuel & w' & Hr & Hwf' & Hlen).
  - unfold w2, SetState, SetResult.
    apply wfTargets_updPromise; [by intros x|].
    apply wfTargets_updPromise; [by intros x|]. done.
  - unfold w2, SetState. rewrite promiseAt_updPromise_eq.
    + unfold statePending. simpl. by apply bool_decide_eq_false.
    + unfold SetResult. by rewrite length_heap_updPromise.
  - exists fuel, w'. repeat split; try done.
    unfold w2, SetState, SetResult in Hlen.
    by rewrite !length_heap_updPromise in Hlen.
Qed.

(** ** The invocations of one drain *)

Lemma derivedClosed_updPromise n0 p f w :
  (forall x,
     Forall (fun c => isAdapter c = true /\ n0 <= callbackTarget c)
       (mResolveCallbacks x ++ mRejectCallbacks x) ->
     Forall (fun c => isAdapter c = true /\ n0 <= callbackTarget c)
       (mResolveCallbacks (f x) ++ mRejectCallbacks (f x))) ->
  derivedClosed n0 w -> derivedClosed n0 (updPromise p f w).
Proof.
  intros Hf Hc d Hd. destruct (decide (p = d)) as [->|Hne].
  - destruct (decide (d < length (heap w))) as [Hin|Hout].
    + rewrite promiseAt_updPromise_eq by done. by apply Hf, Hc.
    + rewrite updPromise_outside by lia. by apply Hc.
  - rewrite promiseAt_updPromise_ne by done. by apply Hc.
Qed.

Lemma derivedClosed_AppendCallbacks n0 q c1 c2 w :
  isAdapter c1 = true -> n0 <= callbackTarget c1 ->
  isAdapter c2 = true -> n0 <= callbackTarget c2 ->
  derivedClosed n0 w ->
  derivedClosed n0 (AppendCallbacks q (Some c1) (Some c2) w).
Proof.
  intros Ha1 Ht1 Ha2 Ht2 Hc. rewrite AppendCallbacks_unfold. cbv zeta.
  assert (derivedClosed n0
    (updPromise q
       (fun x => set_mRejectCallbacks (mRejectCallbacks x ++ [c2])
                   (set_mHadRejectCallback true x))
       (updPromise q
          (fun x => set_mResolveCallbacks (mResolveCallbacks x ++ [c1]) x) w)))
    as Hw2.
  { apply derivedClosed_updPromise.
    - intros x. simpl. rewrite !Forall_app. intros [Ha Hb].
      repeat split; try done. by apply Forall_singleton.
    - apply derivedClosed_updPromise; [|done].
      intros x. simpl. rewrite !Forall_app. intros [Ha Hb].
      repeat split; try done. by apply Forall_singleton. }
  destruct (needsDrainTask _); [|done].
  apply derivedClosed_updPromise; [by intros x|]. exact Hw2.
Qed.

Section ReentryClosed.

Variable n0 : nat.
Variable rec : PromiseId -> World -> Res World.
Hypothesis rec_closed : forall t w w',
  n0 <= t -> derivedClosed n0 w -> rec t w = Ok w' ->
  derivedClosed n0 w' /\ invoked w' = invoked w.

Lemma RunResolveTask_with_closed t v s sync w w' :
  n0 <= t -> derivedClosed n0 w ->
  RunResolveTask_with rec t v s sync w = Ok w' ->
  derivedClosed n0 w' /\ invoked w' = invoked w.
Proof.
  intros Ht Hc. unfold RunResolveTask_with. destruct sync.
  - intros H. apply rec_closed in H; [done|done|].
    unfold SetState, SetResult.
    apply derivedClosed_updPromise; [by intros x|].
    apply derivedClosed_updPromise; [by intros x|]. done.
  - intros H. apply bind_Ok in H as (_ & _ & H). inversion H; subst. done.
Qed.

Lemma ResolveInternal_with_closed t v sync w w' :
  n0 <= t -> derivedClosed n0 w ->
  ResolveInternal_with rec t v sync w = Ok w' ->
  derivedClosed n0 w' /\ invoked w' = invoked w.
Proof.
  intros Ht Hc. unfold ResolveInternal_with.
  assert (derivedClosed n0 (updPromise t (set_mResolvePending true) w))
    as Hc1 by (apply derivedClosed_updPromise; [by intros x|done]).
  destruct (nextPromiseOf v) as [q|].
  - intros H. inversion H; subst. split.
    + by apply derivedClosed_AppendCallbacks.
    + by rewrite invoked_AppendCallbacks.
  - intros H. by apply RunResolveTask_with_closed in H.
Qed.

Lemma RejectInternal_with_closed t v sync w w' :
  n0 <= t -> derivedClosed n0 w ->
  RejectInternal_with rec t v sync w = Ok w' ->
  derivedClosed n0 w' /\ invoked w' = invoked w.
Proof.
  intros Ht Hc. unfold RejectInternal_with.
  assert (derivedClosed n0 (updPromise t (set_mResolvePending true) w))
    as Hc1 by (apply derivedClosed_updPromise; [by intros x|done]).
  intros H. by apply RunResolveTask_with_closed in H.
Qed.

(** Calling a callback of a derived promise records the script callback
    it wraps, if any, and nothing else. *)
Lemma PromiseCallback_Call_with_closed c v w w' :
  n0 <= callbackTarget c -> derivedClosed n0 w ->
  PromiseCallback_Call_with rec c v w = Ok w' ->
  derivedClosed n0 w' /\ invoked w' = invoked w ++ userInvocations [c] v.
Proof.
  intros Ht Hc. destruct c as [t|t|next cb task];
    unfold PromiseCallback_Call_with; simpl in Ht.
  - intros H. apply ResolveInternal_with_closed in H as [? ->]; try done.
    by rewrite app_nil_r.
  - intros H. apply RejectInternal_with_closed in H as [? ->]; try done.
    by rewrite app_nil_r.
  - intros H.
    assert (derivedClosed n0 w' /\ invoked w' = invoked (recordInvocation cb v w))
      as [? ->]; [|done].
    destruct (callbackBody cb v), task;
      first [ by apply ResolveInternal_with_closed in H
            | by apply RejectInternal_with_closed in H ].
Qed.

Lemma callCallbacks_closed cbs v w w' :
  Forall (fun c => n0 <= callbackTarget c) cbs -> derivedClosed n0 w ->
  callCallbacks rec cbs v w = Ok w' ->
  derivedClosed n0 w' /\ invoked w' = invoked w ++ userInvocations cbs v.
Proof.
  revert w. induction cbs as [|c rest IH]; intros w Hcbs Hc; simpl.
  - intros H; inversion H; subst. by rewrite app_nil_r.
  - apply Forall_cons in Hcbs as [Hc1 Hrest].
    intros H. apply bind_Ok in H as (w1 & H1 & H2).
    apply PromiseCallback_Call_with_closed in H1 as [Hc' Hi]; try done.
    apply IH in H2 as [Hc'' Hi']; try done. split; [done|].
    rewrite Hi', Hi, <-app_assoc. f_equal.
    unfold userInvocations. simpl. by destruct c.
Qed.

Lemma RunTask_with_closed this w w' :
  Forall (fun c => n0 <= callbackTarget c) (takenCallbacks (promiseAt w this)) ->
  derivedClosed n0 w ->
  RunTask_with rec this w = Ok w' ->
  derivedClosed n0 w'
  /\ invoked w'
     = invoked w
       ++ userInvocations (takenCallbacks (promiseAt w this))
            (mResult (promiseAt w this)).
Proof.
  intros Ht Hc H. unfold RunTask_with in H.
  apply bind_Ok in H as (u & Ha & H). apply MOZ_ASSERT_Ok in Ha.
  rewrite (field_updPromise mResult) in H by done.
  apply callCallbacks_closed in H; try done.
  apply derivedClosed_updPromise; [|done]. intros x _. constructor.
Qed.

End ReentryClosed.

Lemma RunTask_derived_closed n0 fuel t w w' :
  n0 <= t -> derivedClosed n0 w -> RunTask fuel t w = Ok w' ->
  derivedClosed n0 w' /\ invoked w' = invoked w.
Proof.
  revert t w w'. induction fuel as [|n IH]; intros t w w' Ht Hc; simpl.
  - discriminate.
  - intros H.
    pose proof (Hc t Ht) as Hl.
    assert (Forall (fun c => isAdapter c = true /\ n0 <= callbackTarget c)
              (takenCallbacks (promiseAt w t))) as Htk.
    { apply Forall_app in Hl as [Ha Hb]. unfold takenCallbacks.
      by case_bool_decide. }
    apply (RunTask_with_closed n0 (RunTask n) IH) in H as [Hc' Hi]; try done.
    + split; [done|]. rewrite Hi.
      assert (userInvocations (takenCallbacks (promiseAt w t))
                (mResult (promiseAt w t)) = []) as ->; [|by rewrite app_nil_r].
      clear -Htk. induction Htk as [|c l [Ha _] _ IHl]; [done|].
      destruct c; [exact IHl|exact IHl|done].
    + eapply Forall_impl; [exact Htk|]. by intros c [_ ?].
Qed.

(** A drain whose callbacks all settle derived promises records exactly the
    script callbacks it took, in their order, with the promise's result. *)
Lemma RunTask_invocations n0 fuel this w w' :
  Forall (fun c => n0 <= callbackTarget c) (takenCallbacks (promiseAt w this)) ->
  derivedClosed n0 w ->
  RunTask fuel this w = Ok w' ->
  derivedClosed n0 w'
  /\ invoked w'
     = invoked w
       ++ userInvocations (takenCallbacks (promiseAt w this))
            (mResult (promiseAt w this)).
Proof.
  destruct fuel as [|n]; [discriminate|]. intros Ht Hc.
  apply (RunTask_with_closed n0 (RunTask n)); try done.
  intros t w1 w2. apply RunTask_derived_closed.
Qed.

(** ** One settlement per promise *)

Lemma settledKept_refl w : settledKept w w.
Proof. by intros p Hp. Qed.

Lemma settledKept_trans w1 w2 w3 :
  settledKept w1 w2 -> settledKept w2 w3 -> settledKept w1 w3.
Proof.
  intros H12 H23 p Hp. destruct (H12 p Hp) as [Hs Hr].
  destruct (H23 p) as [Hs' Hr']; [congruence|]. split; congruence.
Qed.

Lemma targetCount_app p l1 l2 :
  targetCount p (l1 ++ l2) = targetCount p l1 + targetCount p l2.
Proof. induction l1 as [|c l1 IH]; simpl; [done|]. rewrite IH. lia. Qed.

Lemma targetCount_map p l1 l2 :
  map callbackTarget l1 = map callbackTarget l2 ->
  targetCount p l1 = targetCount p l2.
Proof.
  revert l2. induction l1 as [|c l1 IH]; intros [|c' l2] H;
    try discriminate; [done|].
  simpl in *. injection H as Hc Hl. by rewrite Hc, (IH l2).
Qed.

Lemma resolverTasks_app p q1 q2 :
  resolverTasks p (q1 ++ q2) = resolverTasks p q1 + resolverTasks p q2.
Proof.
  induction q1 as [|r q1 IH]; simpl; [done|].
  destruct r; rewrite IH; lia.
Qed.

Lemma registrations_updPromise p q f w :
  q < length (heap w) ->
  registrations p (updPromise q f w)
  + targetCount p (mResolveCallbacks (promiseAt w q))
  = registrations p w
    + targetCount p (mResolveCallbacks (f (promiseAt w q))).
Proof.
  intros Hq. unfold registrations, updPromise; simpl.
  by apply (sum_list_with_alter
              (fun x => targetCount p (mResolveCallbacks x))), promiseAt_lookup.
Qed.

Lemma registrations_updPromise_same p q f w :
  (forall x, mResolveCallbacks (f x) = mResolveCallbacks x) ->
  registrations p (updPromise q f w) = registrations p w.
Proof.
  intros Hf. destruct (decide (q < length (heap w))) as [Hin|Hout].
  - pose proof (registrations_updPromise p q f w Hin) as H.
    rewrite Hf in H. lia.
  - rewrite updPromise_outside; [done|lia].
Qed.

Lemma openCapabilities_updPromise_same p q f w :
  (forall x, mResolvePending (f x) = mResolvePending x) ->
  openCapabilities p (updPromise q f w) = openCapabilities p w.
Proof.
  intros Hf. unfold openCapabilities.
  by rewrite (field_updPromise mResolvePending).
Qed.

(** A write that touches neither the resolve array nor [mResolvePending]
    leaves the sources alone. *)
Lemma sources_updPromise_same p q f w :
  (forall x, mResolveCallbacks (f x) = mResolveCallbacks x) ->
  (forall x, mResolvePending (f x) = mResolvePending x) ->
  sources p (updPromise q f w) = sources p w.
Proof.
  intros H1 H2. unfold sources.
  rewrite registrations_updPromise_same, openCapabilities_updPromise_same; done.
Qed.

Lemma pairedCallbacks_updPromise q f w :
  (forall x,
     map callbackTarget (mResolveCallbacks x)
     = map callbackTarget (mRejectCallbacks x) ->
     map callbackTarget (mResolveCallbacks (f x))
     = map callbackTarget (mRejectCallbacks (f x))) ->
  pairedCallbacks w -> pairedCallbacks (updPromise q f w).
Proof.
  intros Hf Hp p. destruct (decide (q = p)) as [->|Hne].
  - destruct (decide (p < length (heap w))) as [Hin|Hout].
    + rewrite promiseAt_updPromise_eq by done. apply Hf, Hp.
    + rewrite updPromise_outside by lia. apply Hp.
  - rewrite promiseAt_updPromise_ne by done. apply Hp.
Qed.

(** Setting [mResolvePending] closes the capabilities of the promise. *)
Lemma sources_setResolvePending p t w :
  sources p (updPromise t (set_mResolvePending true) w) <= sources p w.
Proof.
  unfold sources. rewrite registrations_updPromise_same by done.
  change (eventQueue (updPromise t (set_mResolvePending true) w))
    with (eventQueue w).
  assert (openCapabilities p (updPromise t (set_mResolvePending true) w)
          <= openCapabilities p w); [|lia].
  unfold openCapabilities.
  change (hasFunction p (updPromise t (set_mResolvePending true) w))
    with (hasFunction p w).
  destruct (decide (t = p)) as [->|Hne].
  - destruct (decide (p < length (heap w))) as [Hin|Hout].
    + rewrite promiseAt_updPromise_eq by done. simpl. lia.
    + rewrite updPromise_outside by lia. done.
  - rewrite promiseAt_updPromise_ne by done. done.
Qed.

Lemma sources_setResolvePending_closed t w :
  t < length (heap w) ->
  sources t (updPromise t (set_mResolvePending true) w)
  = registrations t w + resolverTasks t (eventQueue w).
Proof.
  intros Hin. unfold sources. rewrite registrations_updPromise_same by done.
  unfold openCapabilities. rewrite promiseAt_updPromise_eq by done.
  simpl. lia.
Qed.

(** The store after the two appends of [AppendCallbacks]. *)
Lemma sources_AppendCallbacks p q c1 c2 w :
  sources p (AppendCallbacks q (Some c1) (Some c2) w)
  = sources p w
    + (if decide (q < length (heap w)) then targetCount p [c1] else 0).
Proof.
  rewrite AppendCallbacks_unfold. cbv zeta.
  set (f1 := fun x => set_mResolveCallbacks (mResolveCallbacks x ++ [c1]) x).
  set (f2 := fun x => set_mRejectCallbacks (mRejectCallbacks x ++ [c2])
                        (set_mHadRejectCallback true x)).
  assert (sources p (updPromise q f2 (updPromise q f1 w))
          = sources p w
            + (if decide (q < length (heap w)) then targetCount p [c1] else 0))
    as Hw2.
  { rewrite sources_updPromise_same by done.
    unfold sources.
    rewrite openCapabilities_updPromise_same by done.
    change (eventQueue (updPromise q f1 w)) with (eventQueue w).
    case_decide as Hin.
    - pose proof (registrations_updPromise p q f1 w Hin) as H.
      unfold f1 in H at 2. simpl in H. rewrite targetCount_app in H. lia.
    - rewrite updPromise_outside by lia. lia. }
  destruct (needsDrainTask _); [|done].
  rewrite sources_updPromise_same by done. rewrite <-Hw2.
  unfold sources.
  change (eventQueue (DispatchToCurrentThread (PromiseTask q)
                        (updPromise q f2 (updPromise q f1 w))))
    with (eventQueue (updPromise q f2 (updPromise q f1 w)) ++ [PromiseTask q]).
  rewrite resolverTasks_app.
  change (resolverTasks p [PromiseTask q]) with 0.
  change (openCapabilities p (DispatchToCurrentThread (PromiseTask q)
                                (updPromise q f2 (updPromise q f1 w))))
    with (openCapabilities p (updPromise q f2 (updPromise q f1 w))).
  change (registrations p (DispatchToCurrentThread (PromiseTask q)
                             (updPromise q f2 (updPromise q f1 w))))
    with (registrations p (updPromise q f2 (updPromise q f1 w))).
  lia.
Qed.

Lemma pairedCallbacks_AppendCallbacks q c1 c2 w :
  callbackTarget c1 = callbackTarget c2 ->
  pairedCallbacks w ->
  pairedCallbacks (AppendCallbacks q (Some c1) (Some c2) w).
Proof.
  intros Ht Hp. rewrite AppendCallbacks_unfold. cbv zeta.
  set (f1 := fun x => set_mResolveCallbacks (mResolveCallbacks x ++ [c1]) x).
  set (f2 := fun x => set_mRejectCallbacks (mRejectCallbacks x ++ [c2])
                        (set_mHadRejectCallback true x)).
  assert (pairedCallbacks (updPromise q f2 (updPromise q f1 w))) as Hw2.
  { intros p. destruct (decide (q = p)) as [->|Hne].
    - destruct (decide (p < length (heap w))) as [Hin|Hout].
      + rewrite promiseAt_updPromise_eq by (by rewrite length_heap_updPromise).
        rewrite promiseAt_updPromise_eq by done. simpl.
        rewrite !map_app, (Hp p). simpl. by rewrite Ht.
      + rewrite !updPromise_outside; rewrite ?length_heap_updPromise;
          try lia. apply Hp.
    - rewrite !promiseAt_updPromise_ne by done. apply Hp. }
  destruct (needsDrainTask _); [|done].
  apply pairedCallbacks_updPromise; [by intros x|]. exact Hw2.
Qed.

(** Moving the invariant from one store to another: at every promise the
    sources did not grow and the state of a promise that has one is the
    same, or the promise is pending in the new store with at most one
    source. *)
Lemma singleSettlement_transfer L L' w w' :
  singleSettlement L w ->
  pairedCallbacks w' ->
  length (heap w) <= length (heap w') ->
  (forall p,
     (sources p w' + targetCount p L' <= sources p w + targetCount p L
      /\ (1 <= sources p w' + targetCount p L' ->
          mState (promiseAt w' p) = mState (promiseAt w p)))
     \/ (sources p w' + targetCount p L' <= 1
         /\ p < length (heap w')
         /\ mState (promiseAt w' p) = Pending)) ->
  singleSettlement L' w'.
Proof.
  intros (Hp & Hle & Hlive) Hp' Hlen Hall. split; [done|]. split.
  - intros p. destruct (Hall p) as [[H1 _]|[H1 _]]; [|done].
    specialize (Hle p). lia.
  - intros p Hone. destruct (Hall p) as [[H1 H2]|(_ & H2 & H3)]; [|done].
    destruct (Hlive p) as [Hin Hst]; [lia|].
    split; [lia|]. rewrite H2; done.
Qed.

Lemma singleSettlement_token_free t L w :
  singleSettlement (ResolvePromiseCallback t :: L) w ->
  sources t w = 0 /\ targetCount t L = 0
  /\ t < length (heap w) /\ mState (promiseAt w t) = Pending.
Proof.
  intros (_ & Hle & Hlive). specialize (Hle t). specialize (Hlive t).
  simpl in *. rewrite decide_True in Hle, Hlive by done.
  destruct Hlive as [? ?]; [lia|]. repeat split; try done; lia.
Qed.

Section ReentrySingle.

Variable rec : PromiseId -> World -> Res World.
Hypothesis rec_single : forall L t w w',
  singleSettlement L w -> rec t w = Ok w' ->
  singleSettlement L w' /\ settledKept w w'.

Lemma RunResolveTask_with_single L t v s sync w w' :
  singleSettlement (ResolvePromiseCallback t :: L) w ->
  RunResolveTask_with rec t v s sync w = Ok w' ->
  singleSettlement L w' /\ settledKept w w'.
Proof.
  intros Hinv.
  destruct (singleSettlement_token_free _ _ _ Hinv) as (Hs0 & Hc0 & Hin & Hst).
  unfold RunResolveTask_with. destruct sync.
  - set (w2 := SetState t s (SetResult t v w)).
    assert (forall p, sources p w2 = sources p w) as Hsrc.
    { intros p. unfold w2, SetState, SetResult.
      by rewrite !sources_updPromise_same. }
    assert (singleSettlement L w2) as Hinv2.
    { eapply singleSettlement_transfer; [exact Hinv| | |].
      - unfold w2, SetState, SetResult.
        apply pairedCallbacks_updPromise; [by intros x|].
        apply pairedCallbacks_updPromise; [by intros x|]. apply Hinv.
      - unfold w2, SetState, SetResult.
        by rewrite !length_heap_updPromise.
      - intros p. left. rewrite Hsrc. simpl. split; [lia|].
        intros Hone. destruct (decide (t = p)) as [->|Hne]; [lia|].
        unfold w2, SetState, SetResult.
        by rewrite !promiseAt_updPromise_ne. }
    assert (settledKept w w2) as Hk.
    { intros p Hp. destruct (decide (t = p)) as [->|Hne]; [done|].
      unfold w2, SetState, SetResult.
      by rewrite !promiseAt_updPromise_ne. }
    intros H. destruct (rec_single L t w2 w' Hinv2 H) as [Hinv' Hk'].
    split; [done|]. by eapply settledKept_trans.
  - intros H. apply bind_Ok in H as (u & _ & H). inversion H; subst.
    split; [|by intros p Hp].
    eapply singleSettlement_transfer; [exact Hinv|apply Hinv|done|].
    intros p. left. split; [|done].
    unfold sources. simpl. rewrite resolverTasks_app. simpl.
    change (registrations p (DispatchToCurrentThread _ w))
      with (registrations p w).
    change (openCapabilities p (DispatchToCurrentThread _ w))
      with (openCapabilities p w).
    repeat case_decide; try congruence; lia.
Qed.

Lemma setResolvePending_single L t w :
  singleSettlement L w ->
  singleSettlement L (updPromise t (set_mResolvePending true) w).
Proof.
  intros Hinv.
  eapply singleSettlement_transfer; [exact Hinv| | |].
  - apply pairedCallbacks_updPromise; [by intros x|]. apply Hinv.
  - by rewrite length_heap_updPromise.
  - intros p. left. split.
    + pose proof (sources_setResolvePending p t w). lia.
    + intros _. by rewrite (field_updPromise mState).
Qed.

Lemma AppendCallbacks_single L t q c1 c2 w :
  callbackTarget c1 = t -> callbackTarget c2 = t ->
  singleSettlement (ResolvePromiseCallback t :: L) w ->
  singleSettlement L (AppendCallbacks q (Some c1) (Some c2) w).
Proof.
  intros Ht1 Ht2 Hinv.
  eapply singleSettlement_transfer; [exact Hinv| | |].
  - apply pairedCallbacks_AppendCallbacks; [congruence|apply Hinv].
  - by rewrite length_heap_AppendCallbacks.
  - intros p. left. rewrite sources_AppendCallbacks, mState_AppendCallbacks.
    split; [|done]. simpl. rewrite Ht1. repeat case_decide; lia.
Qed.

Lemma ResolveInternal_with_single L t v sync w w' :
  singleSettlement (ResolvePromiseCallback t :: L) w ->
  ResolveInternal_with rec t v sync w = Ok w' ->
  singleSettlement L w' /\ settledKept w w'.
Proof.
  intros Hinv. unfold ResolveInternal_with.
  pose proof (setResolvePending_single _ t _ Hinv) as Hinv1.
  assert (settledKept w (updPromise t (set_mResolvePending true) w)) as Hk1.
  { intros p Hp.
    by rewrite (field_updPromise mState), (field_updPromise mResult). }
  destruct (nextPromiseOf v) as [q|].
  - intros H. inversion H; subst. split; [by apply (AppendCallbacks_single L t)|].
    intros p Hp.
    rewrite mState_AppendCallbacks, mResult_AppendCallbacks. by apply Hk1.
  - intros H. apply RunResolveTask_with_single with (L := L) in H; [|done].
    destruct H as [? Hk2]. split; [done|]. by eapply settledKept_trans.
Qed.

Lemma RejectInternal_with_single L t v sync w w' :
  singleSettlement (ResolvePromiseCallback t :: L) w ->
  RejectInternal_with rec t v sync w = Ok w' ->
  singleSettlement L w' /\ settledKept w w'.
Proof.
  intros Hinv. unfold RejectInternal_with.
  pose proof (setResolvePending_single _ t _ Hinv) as Hinv1.
  assert (settledKept w (updPromise t (set_mResolvePending true) w)) as Hk1.
  { intros p Hp.
    by rewrite (field_updPromise mState), (field_updPromise mResult). }
  intros H. apply RunResolveTask_with_single with (L := L) in H; [|done].
  destruct H as [? Hk2]. split; [done|]. by eapply settledKept_trans.
Qed.

Lemma PromiseCallback_Call_with_single L c v w w' :
  singleSettlement (c :: L) w ->
  PromiseCallback_Call_with rec c v w = Ok w' ->
  singleSettlement L w' /\ settledKept w w'.
Proof.
  intros Hinv.
  assert (singleSettlement (ResolvePromiseCallback (callbackTarget c) :: L) w)
    as Htok by (by destruct c).
  destruct c as [t|t|next cb task]; unfold PromiseCallback_Call_with;
    simpl in Htok.
  - by apply ResolveInternal_with_single.
  - by apply RejectInternal_with_single.
  - assert (singleSettlement (ResolvePromiseCallback next :: L)
              (recordInvocation cb v w)) as Htok' by exact Htok.
    assert (forall w'', settledKept (recordInvocation cb v w) w'' ->
                        settledKept w w'') as Hk by (by intros w'' H).
    destruct (callbackBody cb v), task; intros H;
      first [ apply ResolveInternal_with_single with (L := L) in H; [|done]
            | apply RejectInternal_with_single with (L := L) in H; [|done] ];
      destruct H; auto.
Qed.

Lemma callCallbacks_single L cbs v w w' :
  singleSettlement (cbs ++ L) w ->
  callCallbacks rec cbs v w = Ok w' ->
  singleSettlement L w' /\ settledKept w w'.
Proof.
  revert w. induction cbs as [|c rest IH]; intros w Hinv; simpl.
  - intros H; inversion H; subst. split; [done|apply settledKept_refl].
  - intros H. apply bind_Ok in H as (w1 & H1 & H2).
    apply PromiseCallback_Call_with_single with (L := rest ++ L) in H1
      as [Hinv1 Hk1]; [|done].
    apply IH in H2 as [Hinv2 Hk2]; [|done].
    split; [done|]. by eapply settledKept_trans.
Qed.

Lemma RunTask_with_single L this w w' :
  singleSettlement L w ->
  RunTask_with rec this w = Ok w' ->
  singleSettlement L w' /\ settledKept w w'.
Proof.
  intros Hinv H. unfold RunTask_with in H.
  apply bind_Ok in H as (u & Ha & H). apply MOZ_ASSERT_Ok in Ha.
  apply negb_true_iff in Ha. pose proof (settled_in_heap _ _ Ha) as Hin.
  rewrite (field_updPromise mResult) in H by done.
  set (taken := takenCallbacks (promiseAt w this)) in *.
  set (w3 := updPromise this clearCallbacks w) in *.
  assert (forall p, targetCount p taken
                    = targetCount p (mResolveCallbacks (promiseAt w this)))
    as Htk.
  { intros p. unfold taken, takenCallbacks. case_bool_decide; [done|].
    apply targetCount_map. symmetry. apply Hinv. }
  assert (forall p, mState (promiseAt w3 p) = mState (promiseAt w p)) as Hst.
  { intros p. unfold w3. by rewrite (field_updPromise mState). }
  assert (forall p,
            sources p w3
            + targetCount p (mResolveCallbacks (promiseAt w this))
            = sources p w) as Hsrc.
  { intros p. unfold sources.
    pose proof (registrations_updPromise p this clearCallbacks w Hin) as Hr.
    fold w3 in Hr. simpl in Hr.
    change (eventQueue w3) with (eventQueue w).
    assert (openCapabilities p w3 = openCapabilities p w) as ->; [|lia].
    unfold w3. by rewrite openCapabilities_updPromise_same. }
  assert (singleSettlement (taken ++ L) w3) as Hinv3.
  { eapply singleSettlement_transfer; [exact Hinv| | |].
    - apply pairedCallbacks_updPromise; [by intros x|]. apply Hinv.
    - unfold w3. by rewrite length_heap_updPromise.
    - intros p. left. split; [|by rewrite Hst].
      rewrite targetCount_app, Htk. specialize (Hsrc p). lia. }
  assert (settledKept w w3) as Hk3.
  { intros p Hp. unfold w3.
    by rewrite (field_updPromise mState), (field_updPromise mResult). }
  apply callCallbacks_single with (L := L) in H as [Hinv' Hk']; [|done].
  split; [done|]. by eapply settledKept_trans.
Qed.

End ReentrySingle.

Lemma RunTask_single fuel L this w w' :
  singleSettlement L w ->
  RunTask fuel this w = Ok w' ->
  singleSettlement L w' /\ settledKept w w'.
Proof.
  revert L this w w'. induction fuel as [|n IH]; intros L this w w' Hinv; simpl.
  - discriminate.
  - by apply RunTask_with_single.
Qed.

(** *** The operations of the program keep the invariant *)

Lemma updPromise_idem p f w :
  (forall x, f (f x) = f x) ->
  updPromise p f (updPromise p f w) = updPromise p f w.
Proof.
  intros Hf. unfold updPromise; simpl. f_equal.
  rewrite list_alter_alter_eq. apply list_alter_ext; [|done].
  intros x _. apply Hf.
Qed.

Lemma ResolveInternal_resume fuel t v sync w :
  ResolveInternal fuel t v sync (updPromise t (set_mResolvePending true) w)
  = ResolveInternal fuel t v sync w.
Proof.
  unfold ResolveInternal, ResolveInternal_with.
  by rewrite updPromise_idem.
Qed.

Lemma RejectInternal_resume fuel t v sync w :
  RejectInternal fuel t v sync (updPromise t (set_mResolvePending true) w)
  = RejectInternal fuel t v sync w.
Proof.
  unfold RejectInternal, RejectInternal_with.
  by rewrite updPromise_idem.
Qed.

(** A pending promise with no registration and no queued settlement can
    take one settlement request. *)
Lemma request_token t w :
  singleSettlement [] w ->
  t < length (heap w) -> mState (promiseAt w t) = Pending ->
  registrations t w + resolverTasks t (eventQueue w) = 0 ->
  singleSettlement [ResolvePromiseCallback t]
    (updPromise t (set_mResolvePending true) w).
Proof.
  intros Hinv Hin Hst Hfree.
  eapply singleSettlement_transfer; [exact Hinv| | |].
  - apply pairedCallbacks_updPromise; [by intros x|]. apply Hinv.
  - by rewrite length_heap_updPromise.
  - intros p. rewrite (field_updPromise mState) by done.
    rewrite length_heap_updPromise.
    destruct (decide (t = p)) as [<-|Hne].
    + right. rewrite sources_setResolvePending_closed by done. simpl.
      rewrite decide_True by done. split; [lia|done].
    + left. pose proof (sources_setResolvePending p t w). simpl.
      rewrite decide_False by done. split; [lia|done].
Qed.

Lemma hasFunction_lookup w callee t task :
  functions w !! callee = Some (t, task) -> hasFunction t w = true.
Proof.
  intros H. unfold hasFunction. apply existsb_exists.
  exists (t, task). split.
  - apply list_elem_of_In. by eapply list_elem_of_lookup_2.
  - by apply bool_decide_eq_true.
Qed.

Lemma open_capability_free t w :
  singleSettlement [] w ->
  hasFunction t w = true -> mResolvePending (promiseAt w t) = false ->
  t < length (heap w) /\ mState (promiseAt w t) = Pending
  /\ registrations t w + resolverTasks t (eventQueue w) = 0.
Proof.
  intros (_ & Hle & Hlive) Hf Hp.
  specialize (Hle t). specialize (Hlive t).
  unfold sources, openCapabilities in *. rewrite Hp, Hf in *. simpl in *.
  destruct Hlive as [? ?]; [lia|]. repeat split; try done; lia.
Qed.

Lemma MaybeResolveInternal_single fuel t v sync w w' :
  singleSettlement [] w ->
  (mResolvePending (promiseAt w t) = false ->
   t < length (heap w) /\ mState (promiseAt w t) = Pending
   /\ registrations t w + resolverTasks t (eventQueue w) = 0) ->
  MaybeResolveInternal fuel t v sync w = Ok w' ->
  singleSettlement [] w' /\ settledKept w w'.
Proof.
  intros Hinv Hfree. unfold MaybeResolveInternal.
  destruct (mResolvePending (promiseAt w t)) eqn:Hp.
  - intros H; inversion H; subst. split; [done|apply settledKept_refl].
  - destruct Hfree as (Hin & Hst & H0); [done|].
    rewrite <-ResolveInternal_resume. intros H.
    apply (ResolveInternal_with_single (RunTask fuel)) with (L := []) in H.
    + destruct H as [? Hk]. split; [done|].
      eapply settledKept_trans; [|exact Hk]. intros p Hp'.
      by rewrite (field_updPromise mState), (field_updPromise mResult).
    + intros L t' w1 w2. apply RunTask_single.
    + by apply request_token.
Qed.

Lemma MaybeRejectInternal_single fuel t v sync w w' :
  singleSettlement [] w ->
  (mResolvePending (promiseAt w t) = false ->
   t < length (heap w) /\ mState (promiseAt w t) = Pending
   /\ registrations t w + resolverTasks t (eventQueue w) = 0) ->
  MaybeRejectInternal fuel t v sync w = Ok w' ->
  singleSettlement [] w' /\ settledKept w w'.
Proof.
  intros Hinv Hfree. unfold MaybeRejectInternal.
  destruct (mResolvePending (promiseAt w t)) eqn:Hp.
  - intros H; inversion H; subst. split; [done|apply settledKept_refl].
  - destruct Hfree as (Hin & Hst & H0); [done|].
    rewrite <-RejectInternal_resume. intros H.
    apply (RejectInternal_with_single (RunTask fuel)) with (L := []) in H.
    + destruct H as [? Hk]. split; [done|].
      eapply settledKept_trans; [|exact Hk]. intros p Hp'.
      by rewrite (field_updPromise mState), (field_updPromise mResult).
    + intros L t' w1 w2. apply RunTask_single.
    + by apply request_token.
Qed.

Lemma JSCallback_single fuel callee args w r w' :
  singleSettlement [] w ->
  JSCallback fuel callee args w = Ok (r, w') ->
  singleSettlement [] w' /\ settledKept w w'.
Proof.
  intros Hinv. unfold JSCallback.
  destruct (functions w !! callee) as [[t task]|] eqn:Hf.
  - apply hasFunction_lookup in Hf.
    intros H. apply bind_Ok in H as (w1 & H1 & H2). inversion H2; subst.
    destruct task.
    + eapply MaybeResolveInternal_single; [done| |exact H1].
      intros Hp. by apply open_capability_free.
    + eapply MaybeRejectInternal_single; [done| |exact H1].
      intros Hp. by apply open_capability_free.
  - intros H; inversion H; subst. split; [done|apply settledKept_refl].
Qed.

Lemma promiseAt_allocPromise win w p :
  promiseAt (snd (allocPromise win w)) p
  = if decide (p = length (heap w)) then new_Promise win else promiseAt w p.
Proof.
  case_decide as Hp; [subst; apply promiseAt_allocPromise_new|].
  destruct (decide (p < length (heap w))) as [Hin|Hout].
  - by apply promiseAt_allocPromise_old.
  - rewrite !promiseAt_outside; [done|lia|].
    rewrite length_heap_allocPromise. lia.
Qed.

Lemma sources_allocPromise win w p :
  sources p (snd (allocPromise win w)) = sources p w.
Proof.
  unfold sources, registrations, openCapabilities.
  rewrite promiseAt_allocPromise.
  assert (mResolvePending
            (if decide (p = length (heap w)) then new_Promise win
             else promiseAt w p)
          = mResolvePending (promiseAt w p)) as ->.
  { case_decide; [subst|done]. by rewrite promiseAt_outside. }
  unfold allocPromise; simpl. rewrite sum_list_with_app. simpl.
  unfold hasFunction; simpl. lia.
Qed.

Lemma singleSettlement_outside w p :
  singleSettlement [] w -> length (heap w) <= p -> sources p w = 0.
Proof.
  intros (_ & Hle & Hlive) Hp. specialize (Hlive p). simpl in Hlive.
  destruct (decide (sources p w = 0)); [done|].
  destruct Hlive; lia.
Qed.

Lemma allocPromise_single win w :
  singleSettlement [] w ->
  singleSettlement [] (snd (allocPromise win w))
  /\ settledKept w (snd (allocPromise win w))
  /\ sources (length (heap w)) (snd (allocPromise win w)) = 0.
Proof.
  intros Hinv. split; [|split].
  - eapply singleSettlement_transfer; [exact Hinv| | |].
    + intros q. rewrite promiseAt_allocPromise. case_decide; [done|].
      apply Hinv.
    + rewrite length_heap_allocPromise. lia.
    + intros p. left. rewrite sources_allocPromise. split; [done|].
      rewrite promiseAt_allocPromise. case_decide; [subst|done].
      by rewrite promiseAt_outside.
  - intros p Hp. rewrite promiseAt_allocPromise. case_decide; [subst|done].
    rewrite promiseAt_outside in Hp; done.
  - rewrite sources_allocPromise. by apply singleSettlement_outside.
Qed.

Lemma fresh_free t w :
  sources t w = 0 ->
  registrations t w + resolverTasks t (eventQueue w) = 0.
Proof. unfold sources. lia. Qed.

(** Creating a capability for a pending promise that nothing else can
    settle. *)
Lemma CreateFunction_single t task w :
  singleSettlement [] w ->
  t < length (heap w) -> mState (promiseAt w t) = Pending ->
  registrations t w + resolverTasks t (eventQueue w) = 0 ->
  let w' := snd (CreateFunction true t task w) in
  singleSettlement [] w'
  /\ settledKept w w'
  /\ length (heap w') = length (heap w)
  /\ mState (promiseAt w' t) = Pending
  /\ registrations t w' + resolverTasks t (eventQueue w') = 0
  /\ functions w' = functions w ++ [(t, task)]
  /\ (forall p, promiseAt w' p = promiseAt w p).
Proof.
  intros Hinv Hin Hst Hfree. cbv zeta.
  split; [|by repeat split].
  set (w' := snd (CreateFunction true t task w)).
  assert (forall p, registrations p w' = registrations p w) as Hreg by done.
  assert (eventQueue w' = eventQueue w) as Hq by done.
  assert (forall p, promiseAt w' p = promiseAt w p) as Hat by done.
  eapply singleSettlement_transfer; [exact Hinv|apply Hinv|done|].
  intros p. rewrite Hat. change (targetCount p []) with 0.
  destruct (decide (t = p)) as [<-|Hne].
  - right. split; [|done]. unfold sources, openCapabilities.
    rewrite Hreg, Hq. repeat case_match; lia.
  - left. split; [|done].
    unfold sources, openCapabilities. rewrite Hreg, Hq, Hat.
    assert (hasFunction p w' = hasFunction p w) as ->; [|done].
    unfold hasFunction, w'. simpl. rewrite existsb_app. simpl.
    rewrite (bool_decide_eq_false_2 (t = p)) by done.
    by rewrite !orb_false_r.
Qed.

Lemma Then_single this a b w :
  singleSettlement [] w ->
  singleSettlement [] (snd (Then this a b w))
  /\ settledKept w (snd (Then this a b w)).
Proof.
  intros Hinv. unfold Then.
  destruct (allocPromise_single (mWindow (promiseAt w this)) w Hinv)
    as (Hinv1 & Hk1 & Hsrc).
  pose proof (length_heap_allocPromise (mWindow (promiseAt w this)) w) as Hlen.
  pose proof (promiseAt_allocPromise_new (mWindow (promiseAt w this)) w) as Hnew.
  destruct (allocPromise _ w) as [d w1] eqn:Ha.
  assert (d = length (heap w)) as -> by (by inversion Ha).
  cbn [snd fst] in *. split.
  - apply (AppendCallbacks_single [] (length (heap w))).
    + by destruct a.
    + by destruct b.
    + eapply singleSettlement_transfer; [exact Hinv1|apply Hinv1|done|].
      intros p. cbn [targetCount].
      destruct (decide (length (heap w) = p)) as [<-|Hne].
      * right. rewrite Hsrc, Hnew, decide_True by done.
        split; [lia|]. split; [lia|done].
      * left. rewrite decide_False by done. split; [lia|done].
  - eapply settledKept_trans; [exact Hk1|]. intros p Hp.
    by rewrite mState_AppendCallbacks, mResult_AppendCallbacks.
Qed.

Lemma Resolve_single fuel aGlobal aValue w r w' :
  singleSettlement [] w ->
  Resolve fuel aGlobal aValue w = Ok (r, w') ->
  singleSettlement [] w' /\ settledKept w w'.
Proof.
  intros Hinv. unfold Resolve.
  destruct (windowOfGlobal aGlobal w) as [win|].
  2:{ intros H; inversion H; subst. split; [done|apply settledKept_refl]. }
  destruct (allocPromise_single win w Hinv) as (Hinv1 & Hk1 & Hsrc).
  pose proof (length_heap_allocPromise win w) as Hlen.
  pose proof (promiseAt_allocPromise_new win w) as Hnew.
  destruct (allocPromise win w) as [t w1] eqn:Ha.
  assert (t = length (heap w)) as -> by (by inversion Ha).
  cbn [snd fst] in *. intros H. apply bind_Ok in H as (w2 & H1 & H2).
  inversion H2; subst.
  apply MaybeResolveInternal_single in H1 as [? Hk2]; [|done|].
  - split; [done|]. by eapply settledKept_trans.
  - intros _. rewrite Hnew. split; [lia|]. split; [done|].
    by apply fresh_free.
Qed.

Lemma Reject_single fuel aGlobal aValue w r w' :
  singleSettlement [] w ->
  Reject fuel aGlobal aValue w = Ok (r, w') ->
  singleSettlement [] w' /\ settledKept w w'.
Proof.
  intros Hinv. unfold Reject.
  destruct (windowOfGlobal aGlobal w) as [win|].
  2:{ intros H; inversion H; subst. split; [done|apply settledKept_refl]. }
  destruct (allocPromise_single win w Hinv) as (Hinv1 & Hk1 & Hsrc).
  pose proof (length_heap_allocPromise win w) as Hlen.
  pose proof (promiseAt_allocPromise_new win w) as Hnew.
  destruct (allocPromise win w) as [t w1] eqn:Ha.
  assert (t = length (heap w)) as -> by (by inversion Ha).
  cbn [snd fst] in *. intros H. apply bind_Ok in H as (w2 & H1 & H2).
  inversion H2; subst.
  apply MaybeRejectInternal_single in H1 as [? Hk2]; [|done|].
  - split; [done|]. by eapply settledKept_trans.
  - intros _. rewrite Hnew. split; [lia|]. split; [done|].
    by apply fresh_free.
Qed.

Lemma runExecutorSteps_single fuel f1 f2 steps w w' :
  singleSettlement [] w ->
  runExecutorSteps fuel f1 f2 steps w = Ok w' ->
  singleSettlement [] w' /\ settledKept w w'.
Proof.
  revert w. induction steps as [|[args|args] rest IH]; intros w Hinv; simpl.
  - intros H; inversion H; subst. split; [done|apply settledKept_refl].
  - intros H. apply bind_Ok in H as ([b w1] & H1 & H2).
    apply JSCallback_single in H1 as [Hinv1 Hk1]; [|done].
    apply IH in H2 as [? Hk2]; [|done].
    split; [done|]. by eapply settledKept_trans.
  - intros H. apply bind_Ok in H as ([b w1] & H1 & H2).
    apply JSCallback_single in H1 as [Hinv1 Hk1]; [|done].
    apply IH in H2 as [? Hk2]; [|done].
    split; [done|]. by eapply settledKept_trans.
Qed.

Lemma mutation_hasFunction t w w' :
  mutation w w' -> hasFunction t w = true -> hasFunction t w' = true.
Proof.
  destruct 1 as [w w' Hp| |q task w| | |]; try done.
  - destruct Hp; try done.
    unfold hasFunction. by rewrite functions_AppendCallbacks.
  - unfold hasFunction. simpl. rewrite existsb_app. intros ->. done.
Qed.

Lemma mutations_hasFunction t w w' :
  rtc mutation w w' -> hasFunction t w = true -> hasFunction t w' = true.
Proof. induction 1; eauto using mutation_hasFunction. Qed.

Lemma CreateFunction_true p task w :
  CreateFunction true p task w
  = (Some (length (functions w)), snd (CreateFunction true p task w)).
Proof. done. Qed.

Lemma CreateFunction_false p task w :
  CreateFunction false p task w = (None, w).
Proof. done. Qed.

Lemma Constructor_single fuel aGlobal aInit w r w' :
  singleSettlement [] w ->
  Constructor fuel aGlobal aInit w = Ok (r, w') ->
  singleSettlement [] w' /\ settledKept w w'.
Proof.
  intros Hinv. unfold Constructor.
  destruct (windowOfGlobal aGlobal w) as [win|].
  2:{ intros H; inversion H; subst. split; [done|apply settledKept_refl]. }
  destruct (allocPromise_single win w Hinv) as (Hinv1 & Hk1 & Hsrc).
  pose proof (length_heap_allocPromise win w) as Hlen.
  pose proof (promiseAt_allocPromise_new win w) as Hnew.
  destruct (allocPromise win w) as [t w1] eqn:Ha.
  assert (t = length (heap w)) as -> by (by inversion Ha).
  cbn [snd fst] in *. set (t := length (heap w)) in *.
  assert (t < length (heap w1)) as Hin1 by lia.
  assert (mState (promiseAt w1 t) = Pending) as Hst1 by (by rewrite Hnew).
  pose proof (fresh_free _ _ Hsrc) as Hfree1.
  destruct (canCreateResolveFunc aGlobal).
  2:{ rewrite CreateFunction_false. intros H; inversion H; subst. done. }
  rewrite CreateFunction_true.
  destruct (CreateFunction_single t PromiseCallback_Resolve w1
              Hinv1 Hin1 Hst1 Hfree1)
    as (Hinv2 & Hk2 & Hlen2 & Hst2 & Hfree2 & Hfs2 & _).
  set (w2 := snd (CreateFunction true t PromiseCallback_Resolve w1)) in *.
  cbv beta iota.
  destruct (canCreateRejectFunc aGlobal).
  2:{ rewrite CreateFunction_false. intros H; inversion H; subst.
      split; [done|]. by eapply settledKept_trans. }
  rewrite CreateFunction_true.
  assert (t < length (heap w2)) as Hin2 by lia.
  destruct (CreateFunction_single t PromiseCallback_Reject w2
              Hinv2 Hin2 Hst2 Hfree2)
    as (Hinv3 & Hk3 & Hlen3 & Hst3 & Hfree3 & Hfs3 & _).
  set (w3 := snd (CreateFunction true t PromiseCallback_Reject w2)) in *.
  cbv beta iota.
  assert (hasFunction t w3 = true) as Hhas.
  { unfold hasFunction. rewrite Hfs3, existsb_app. simpl.
    rewrite bool_decide_eq_true_2 by done. by rewrite orb_true_r. }
  assert (settledKept w w3) as Hk03.
  { eapply settledKept_trans; [exact Hk1|].
    eapply settledKept_trans; [exact Hk2|exact Hk3]. }
  intros H. apply bind_Ok in H as ([exn w4] & H1 & H2).
  unfold PromiseInit_Call in H1.
  apply bind_Ok in H1 as (w5 & H1 & H3). inversion H3; subst.
  pose proof (runExecutorSteps_mutations _ _ _ _ _ _ H1) as Hm.
  apply runExecutorSteps_single in H1 as [Hinv5 Hk5]; [|done].
  apply (mutations_hasFunction t) in Hm; [|done].
  cbn [fst snd] in H2. destruct (initThrows aInit).
  - apply bind_Ok in H2 as (w6 & H2 & H4). inversion H4; subst.
    apply MaybeRejectInternal_single in H2 as [? Hk6]; [|done|].
    + split; [done|].
      eapply settledKept_trans; [exact Hk03|].
      by eapply settledKept_trans.
    + intros Hp. by apply open_capability_free.
  - inversion H2; subst. split; [done|]. by eapply settledKept_trans.
Qed.

Lemma ProcessNextEvent_single fuel w w' :
  singleSettlement [] w ->
  ProcessNextEvent fuel w = Ok w' ->
  singleSettlement [] w' /\ settledKept w w'.
Proof.
  intros Hinv. unfold ProcessNextEvent.
  destruct (eventQueue w) as [|r rest] eqn:Hq.
  - intros H; inversion H; subst. split; [done|apply settledKept_refl].
  - destruct r as [p|p v s|r c win]; unfold Runnable_Run.
    + set (w1 := updPromise p (set_mTaskPending false) (withEventQueue rest w)).
      assert (singleSettlement [] w1) as Hinv1.
      { eapply singleSettlement_transfer; [exact Hinv| | |].
        - unfold w1. apply pairedCallbacks_updPromise; [by intros x|].
          apply Hinv.
        - unfold w1. by rewrite length_heap_updPromise.
        - intros q. left. unfold w1.
          rewrite sources_updPromise_same by done.
          rewrite (field_updPromise mState) by done. split; [|done].
          unfold sources. simpl. rewrite Hq. simpl. done. }
      intros H. apply RunTask_single with (L := []) in H as [? Hk]; [|done].
      split; [done|]. eapply settledKept_trans; [|exact Hk].
      intros q Hp. unfold w1.
      by rewrite (field_updPromise mState), (field_updPromise mResult).
    + assert (singleSettlement [ResolvePromiseCallback p]
                (withEventQueue rest w)) as Hinv1.
      { eapply singleSettlement_transfer; [exact Hinv|apply Hinv|done|].
        intros q. left. split; [|done].
        unfold sources. simpl. rewrite Hq. simpl.
        change (registrations q (withEventQueue rest w))
          with (registrations q w).
        change (openCapabilities q (withEventQueue rest w))
          with (openCapabilities q w).
        repeat case_decide; try congruence; lia. }
      intros H. unfold RunResolveTask in H.
      apply (RunResolveTask_with_single (RunTask fuel)) with (L := []) in H
        as [? Hk]; [done| |done].
      intros L t w1 w2. apply RunTask_single.
    + intros H; inversion H; subst. split; [|by intros q Hp].
      eapply singleSettlement_transfer; [exact Hinv|apply Hinv|done|].
      intros q. left. split; [|done].
      unfold sources. simpl. rewrite Hq. simpl. done.
Qed.

Lemma Step_single w w' :
  singleSettlement [] w -> Step w w' ->
  singleSettlement [] w' /\ settledKept w w'.
Proof.
  intros Hinv Hs.
  destruct Hs as [fuel g i w r w' H|fuel g v w r w' H|fuel g v w r w' H
                 |this a b w|fuel callee args w r w' H|fuel w w' H].
  - eapply Constructor_single; [exact Hinv|exact H].
  - eapply Resolve_single; [exact Hinv|exact H].
  - eapply Reject_single; [exact Hinv|exact H].
  - by apply Then_single.
  - eapply JSCallback_single; [exact Hinv|exact H].
  - eapply ProcessNextEvent_single; [exact Hinv|exact H].
Qed.

Lemma emptyWorld_single t : singleSettlement [] (emptyWorld t).
Proof.
  split; [|split].
  - intros q. by rewrite promiseAt_outside by (simpl; lia).
  - intros p. unfold sources, openCapabilities.
    rewrite promiseAt_outside by (simpl; lia). simpl. lia.
  - intros p. unfold sources, openCapabilities.
    rewrite promiseAt_outside by (simpl; lia). simpl. lia.
Qed.

Lemma Steps_single w w' :
  singleSettlement [] w -> rtc Step w w' ->
  singleSettlement [] w' /\ settledKept w w'.
Proof.
  intros Hinv Hr. induction Hr as [|x y z Hxy _ IH].
  - split; [done|apply settledKept_refl].
  - destruct (Step_single _ _ Hinv Hxy) as [Hinv' Hk].
    destruct (IH Hinv') as [? Hk']. split; [done|].
    by eapply settledKept_trans.
Qed.

Lemma Reachable_single w : Reachable w -> singleSettlement [] w.
Proof.
  intros [t Hr]. by apply (Steps_single _ _ (emptyWorld_single t)) in Hr as [? _].
Qed.

(** In a store with the invariant every stored callback settles a promise
    of the store. *)
Lemma targetCount_elem c l :
  c ∈ l -> 1 <= targetCount (callbackTarget c) l.
Proof.
  induction 1 as [c l|c c' l _ IH]; simpl.
  - rewrite decide_True by done. lia.
  - lia.
Qed.

Lemma targetCount_pos_elem t l :
  1 <= targetCount t l -> exists c, c ∈ l /\ callbackTarget c = t.
Proof.
  induction l as [|c l IH]; simpl; [lia|].
  case_decide as Hc.
  - intros _. exists c. split; [constructor|done].
  - intros H. destruct IH as (c' & Hin & Ht); [lia|].
    exists c'. split; [by constructor|done].
Qed.

Lemma registrations_ge w p t :
  targetCount t (mResolveCallbacks (promiseAt w p)) <= registrations t w.
Proof.
  destruct (decide (p < length (heap w))) as [Hin|Hout].
  - unfold registrations.
    apply (sum_list_with_in _
             (fun x => targetCount t (mResolveCallbacks x))).
    apply list_elem_of_lookup. exists p. by apply promiseAt_lookup.
  - rewrite promiseAt_outside by lia. simpl. lia.
Qed.

Lemma singleSettlement_wfTargets w :
  singleSettlement [] w -> wfTargets w.
Proof.
  intros (Hp & _ & Hlive) p. unfold targetsInHeap.
  apply Forall_forall. intros c Hc.
  assert (1 <= targetCount (callbackTarget c)
                 (mResolveCallbacks (promiseAt w p))) as Hcount.
  { apply elem_of_app in Hc as [Hc|Hc].
    - by apply targetCount_elem.
    - rewrite (targetCount_map _ _ _ (Hp p)). by apply targetCount_elem. }
  pose proof (registrations_ge w p (callbackTarget c)) as Hge.
  destruct (Hlive (callbackTarget c)) as [? _]; [|done].
  unfold sources. simpl. lia.
Qed.

Lemma Reachable_wfTargets w : Reachable w -> wfTargets w.
Proof. intros H. by apply singleSettlement_wfTargets, Reachable_single. Qed.

(** *** What a settlement leaves behind *)

Lemma settle_single L t v s w :
  singleSettlement (ResolvePromiseCallback t :: L) w ->
  singleSettlement L (SetState t s (SetResult t v w)).
Proof.
  intros Hinv.
  destruct (singleSettlement_token_free _ _ _ Hinv) as (Hs0 & Hc0 & Hin & Hst).
  set (w2 := SetState t s (SetResult t v w)).
  assert (forall p, sources p w2 = sources p w) as Hsrc.
  { intros p. unfold w2, SetState, SetResult.
    by rewrite !sources_updPromise_same. }
  eapply singleSettlement_transfer; [exact Hinv| | |].
  - unfold w2, SetState, SetResult.
    apply pairedCallbacks_updPromise; [by intros x|].
    apply pairedCallbacks_updPromise; [by intros x|]. apply Hinv.
  - unfold w2, SetState, SetResult. by rewrite !length_heap_updPromise.
  - intros p. left. rewrite Hsrc. simpl. split; [lia|].
    intros Hone. destruct (decide (t = p)) as [->|Hne]; [lia|].
    unfold w2, SetState, SetResult.
    by rewrite !promiseAt_updPromise_ne.
Qed.

Lemma promiseAt_settle t v s w :
  t < length (heap w) ->
  mState (promiseAt (SetState t s (SetResult t v w)) t) = s
  /\ mResult (promiseAt (SetState t s (SetResult t v w)) t) = v.
Proof.
  intros Hin. unfold SetState, SetResult.
  rewrite !promiseAt_updPromise_eq; rewrite ?length_heap_updPromise; done.
Qed.

(** A synchronous settlement of a promise that holds the only source of its
    settlement leaves it in the requested state with the given result. *)
Lemma RunResolveTask_sync_result fuel L t v s w w' :
  singleSettlement (ResolvePromiseCallback t :: L) w ->
  s <> Pending ->
  RunResolveTask fuel t v s SyncTask w = Ok w' ->
  mState (promiseAt w' t) = s /\ mResult (promiseAt w' t) = v.
Proof.
  intros Hinv Hs H.
  destruct (singleSettlement_token_free _ _ _ Hinv) as (_ & _ & Hin & _).
  unfold RunResolveTask, RunResolveTask_with in H.
  apply RunTask_single with (L := L) in H as [_ Hk];
    [|by apply settle_single].
  destruct (promiseAt_settle t v s w Hin) as [Hst Hres].
  destruct (Hk t) as [Hst' Hres']; [congruence|]. split; congruence.
Qed.

Lemma ResolveInternal_sync_result fuel L t v w w' :
  singleSettlement (ResolvePromiseCallback t :: L) w ->
  nextPromiseOf v = None ->
  ResolveInternal fuel t v SyncTask w = Ok w' ->
  mState (promiseAt w' t) = Resolved
  /\ mResult (promiseAt w' t) = valueOrUndefined v.
Proof.
  intros Hinv Hv H. unfold ResolveInternal, ResolveInternal_with in H.
  rewrite Hv in H.
  eapply (RunResolveTask_sync_result fuel L); [|done|exact H].
  by apply setResolvePending_single.
Qed.

Lemma RejectInternal_sync_result fuel L t v w w' :
  singleSettlement (ResolvePromiseCallback t :: L) w ->
  RejectInternal fuel t v SyncTask w = Ok w' ->
  mState (promiseAt w' t) = Rejected
  /\ mResult (promiseAt w' t) = valueOrUndefined v.
Proof.
  intros Hinv H. unfold RejectInternal, RejectInternal_with in H.
  eapply (RunResolveTask_sync_result fuel L); [|done|exact H].
  by apply setResolvePending_single.
Qed.

Lemma take_single L this w :
  singleSettlement L w ->
  statePending (promiseAt w this) = false ->
  singleSettlement (takenCallbacks (promiseAt w this) ++ L)
    (updPromise this clearCallbacks w).
Proof.
  intros Hinv Ha. pose proof (settled_in_heap _ _ Ha) as Hin.
  set (taken := takenCallbacks (promiseAt w this)).
  set (w3 := updPromise this clearCallbacks w).
  assert (forall p, targetCount p taken
                    = targetCount p (mResolveCallbacks (promiseAt w this)))
    as Htk.
  { intros p. unfold taken, takenCallbacks. case_bool_decide; [done|].
    apply targetCount_map. symmetry. apply Hinv. }
  assert (forall p, mState (promiseAt w3 p) = mState (promiseAt w p)) as Hst.
  { intros p. unfold w3. by rewrite (field_updPromise mState). }
  assert (forall p,
            sources p w3
            + targetCount p (mResolveCallbacks (promiseAt w this))
            = sources p w) as Hsrc.
  { intros p. unfold sources.
    pose proof (registrations_updPromise p this clearCallbacks w Hin) as Hr.
    fold w3 in Hr. simpl in Hr.
    change (eventQueue w3) with (eventQueue w).
    assert (openCapabilities p w3 = openCapabilities p w) as ->; [|lia].
    unfold w3. by rewrite openCapabilities_updPromise_same. }
  eapply singleSettlement_transfer; [exact Hinv| | |].
  - apply pairedCallbacks_updPromise; [by intros x|]. apply Hinv.
  - unfold w3. by rewrite length_heap_updPromise.
  - intros p. left. split; [|by rewrite Hst].
    rewrite targetCount_app, Htk. specialize (Hsrc p). lia.
Qed.

Lemma forwarded_kept c v w w' :
  forwarded c v w -> settledKept w w' -> forwarded c v w'.
Proof.
  destruct c as [t|t|]; simpl; [| |done].
  - intros H Hk Hv. destruct (H Hv) as [Hs Hr].
    destruct (Hk t) as [Hs' Hr']; [congruence|]. split; congruence.
  - intros [Hs Hr] Hk.
    destruct (Hk t) as [Hs' Hr']; [congruence|]. split; congruence.
Qed.

Lemma PromiseCallback_Call_forwards fuel L c v w w' :
  singleSettlement (c :: L) w ->
  PromiseCallback_Call fuel c v w = Ok w' ->
  forwarded c v w'.
Proof.
  intros Hinv H. destruct c as [t|t|]; simpl; [| |done].
  - intros Hv. by apply (ResolveInternal_sync_result fuel L t (Some v) w).
  - by apply (RejectInternal_sync_result fuel L t (Some v) w).
Qed.

Lemma callCallbacks_forwards fuel L cbs v w w' :
  singleSettlement (cbs ++ L) w ->
  callCallbacks (RunTask fuel) cbs v w = Ok w' ->
  Forall (fun c => forwarded c v w') cbs.
Proof.
  revert w. induction cbs as [|c rest IH]; intros w Hinv; simpl; [done|].
  intros H. apply bind_Ok in H as (w1 & H1 & H2).
  pose proof (PromiseCallback_Call_forwards fuel (rest ++ L) c v w w1 Hinv H1)
    as Hf.
  apply (PromiseCallback_Call_with_single (RunTask fuel)) with (L := rest ++ L)
    in H1 as [Hinv1 _]; [| |done].
  2:{ intros L' t w2 w3. apply RunTask_single. }
  pose proof (callCallbacks_single (RunTask fuel)
                (fun L' t w2 w3 => RunTask_single fuel L' t w2 w3)
                L rest v w1 w' Hinv1 H2) as [_ Hk].
  constructor; [by eapply forwarded_kept|by eapply IH].
Qed.

(** When a promise settles, every chaining adapter it holds for its
    disposition has forwarded the settlement into the adapter's target. *)
Lemma RunResolveTask_forwards fuel t v s w w' :
  singleSettlement [ResolvePromiseCallback t] w ->
  s <> Pending ->
  RunResolveTask fuel t v s SyncTask w = Ok w' ->
  (mState (promiseAt w' t) = s /\ mResult (promiseAt w' t) = v)
  /\ Forall (fun c => forwarded c v w')
       (if bool_decide (s = Resolved) then mResolveCallbacks (promiseAt w t)
        else mRejectCallbacks (promiseAt w t)).
Proof.
  intros Hinv Hs H. split; [by eapply RunResolveTask_sync_result|].
  destruct (singleSettlement_token_free _ _ _ Hinv) as (_ & _ & Hin & _).
  unfold RunResolveTask, RunResolveTask_with in H.
  set (w2 := SetState t s (SetResult t v w)) in *.
  destruct (promiseAt_settle t v s w Hin) as [Hst Hres]. fold w2 in Hst, Hres.
  destruct fuel as [|n]; [discriminate|].
  change (RunTask (S n)) with (RunTask_with (RunTask n)) in H.
  assert (statePending (promiseAt w2 t) = false) as Hsp.
  { unfold statePending. rewrite Hst. by apply bool_decide_eq_false. }
  rewrite RunTask_with_settled in H by done. rewrite Hres in H.
  assert (takenCallbacks (promiseAt w2 t)
          = if bool_decide (s = Resolved) then mResolveCallbacks (promiseAt w t)
            else mRejectCallbacks (promiseAt w t)) as Htk.
  { unfold takenCallbacks. rewrite Hst. unfold w2, SetState, SetResult.
    rewrite !promiseAt_updPromise_eq; rewrite ?length_heap_updPromise; done. }
  rewrite <-Htk.
  eapply (callCallbacks_forwards n []); [|exact H].
  apply take_single; [|done]. by apply settle_single.
Qed.

(** ** The asynchronous entry points always complete *)

Lemma ResolveInternal_async_Ok fuel this aValue w :
  exists w', ResolveInternal fuel this aValue AsyncTask w = Ok w'.
Proof.
  destruct (nextPromiseOf aValue) as [q|] eqn:Hv.
  - rewrite (ResolveInternal_chain _ _ _ q) by done. eauto.
  - rewrite ResolveInternal_async_plain by done. eauto.
Qed.

Lemma MaybeResolveInternal_async_Ok fuel this aValue w :
  exists w', MaybeResolveInternal fuel this aValue AsyncTask w = Ok w'.
Proof.
  unfold MaybeResolveInternal. destruct (mResolvePending _); [eauto|].
  apply ResolveInternal_async_Ok.
Qed.

Lemma MaybeRejectInternal_async_Ok fuel this aValue w :
  exists w', MaybeRejectInternal fuel this aValue AsyncTask w = Ok w'.
Proof.
  unfold MaybeRejectInternal. destruct (mResolvePending _); [eauto|].
  rewrite RejectInternal_async. eauto.
Qed.

(** A call of a capability is a settlement request on its promise. *)
Lemma JSCallback_capability fuel callee args promise task w :
  functions w !! callee = Some (promise, task) ->
  JSCallback fuel callee args w
  = (w' <- (match task with
            | PromiseCallback_Resolve =>
                MaybeResolveInternal fuel promise
                  (Some (match args with [] => UndefinedValue | a :: _ => a end))
                  defaultTaskSync w
            | PromiseCallback_Reject =>
                MaybeRejectInternal fuel promise
                  (Some (match args with [] => UndefinedValue | a :: _ => a end))
                  defaultTaskSync w
            end);;
     Ok (true, w')).
Proof. intros H. unfold JSCallback. by rewrite H. Qed.

Lemma JSCallback_Ok fuel callee args w :
  exists r w', JSCallback fuel callee args w = Ok (r, w').
Proof.
  unfold JSCallback. destruct (functions w !! callee) as [[p task]|]; [|eauto].
  destruct task; unfold defaultTaskSync.
  - destruct (MaybeResolveInternal_async_Ok fuel p
                (Some (match args with [] => UndefinedValue | a :: _ => a end)) w)
      as [w' ->]. simpl. eauto.
  - destruct (MaybeRejectInternal_async_Ok fuel p
                (Some (match args with [] => UndefinedValue | a :: _ => a end)) w)
      as [w' ->]. simpl. eauto.
Qed.

(** Once settlement was requested, a capability call changes nothing. *)
Lemma JSCallback_pending fuel callee args promise task w :
  functions w !! callee = Some (promise, task) ->
  mResolvePending (promiseAt w promise) = true ->
  JSCallback fuel callee args w = Ok (true, w).
Proof.
  intros Hf Hp. rewrite (JSCallback_capability _ _ _ promise task) by done.
  destruct task.
  - by rewrite MaybeResolveInternal_pending.
  - by rewrite MaybeRejectInternal_pending.
Qed.

Lemma runExecutorSteps_pending fuel resolveFunc rejectFunc promise steps w :
  functions w !! resolveFunc = Some (promise, PromiseCallback_Resolve) ->
  functions w !! rejectFunc = Some (promise, PromiseCallback_Reject) ->
  mResolvePending (promiseAt w promise) = true ->
  runExecutorSteps fuel resolveFunc rejectFunc steps w = Ok w.
Proof.
  intros H1 H2 Hp. induction steps as [|[args|args] rest IH]; simpl; [done| |].
  - by rewrite (JSCallback_pending _ _ _ promise PromiseCallback_Resolve).
  - by rewrite (JSCallback_pending _ _ _ promise PromiseCallback_Reject).
Qed.

Lemma runExecutorSteps_Ok fuel f1 f2 steps w :
  exists w', runExecutorSteps fuel f1 f2 steps w = Ok w'.
Proof.
  revert w. induction steps as [|[args|args] rest IH]; intros w; simpl; [eauto| |].
  - destruct (JSCallback_Ok fuel f1 args w) as (r & w1 & ->). simpl. apply IH.
  - destruct (JSCallback_Ok fuel f2 args w) as (r & w1 & ->). simpl. apply IH.
Qed.

(** A settlement request leaves [mResolvePending] set. *)
Lemma ResolveInternal_sets_pending fuel this v sync w w' :
  this < length (heap w) ->
  ResolveInternal fuel this v sync w = Ok w' ->
  mResolvePending (promiseAt w' this) = true.
Proof.
  intros Hin H. rewrite <-ResolveInternal_resume in H.
  apply ResolveInternal_prims, prims_mutations in H.
  eapply mutations_mResolvePending; [exact H|].
  by rewrite promiseAt_updPromise_eq.
Qed.

Lemma RejectInternal_sets_pending fuel this v sync w w' :
  this < length (heap w) ->
  RejectInternal fuel this v sync w = Ok w' ->
  mResolvePending (promiseAt w' this) = true.
Proof.
  intros Hin H. rewrite <-RejectInternal_resume in H.
  apply RejectInternal_prims, prims_mutations in H.
  eapply mutations_mResolvePending; [exact H|].
  by rewrite promiseAt_updPromise_eq.
Qed.

Lemma MaybeResolveInternal_sets_pending fuel this v sync w w' :
  this < length (heap w) ->
  MaybeResolveInternal fuel this v sync w = Ok w' ->
  mResolvePending (promiseAt w' this) = true.
Proof.
  intros Hin. unfold MaybeResolveInternal.
  destruct (mResolvePending (promiseAt w this)) eqn:Hp.
  - intros H; inversion H; subst. done.
  - by apply ResolveInternal_sets_pending.
Qed.

Lemma MaybeRejectInternal_sets_pending fuel this v sync w w' :
  this < length (heap w) ->
  MaybeRejectInternal fuel this v sync w = Ok w' ->
  mResolvePending (promiseAt w' this) = true.
Proof.
  intros Hin. unfold MaybeRejectInternal.
  destruct (mResolvePending (promiseAt w this)) eqn:Hp.
  - intros H; inversion H; subst. done.
  - by apply RejectInternal_sets_pending.
Qed.

(** ** The event queue is first in, first out *)

Lemma prim_eventQueue w w' :
  prim w w' -> eventQueue w `prefix_of` eventQueue w'.
Proof.
  destruct 1; simpl; try done.
  - rewrite eventQueue_AppendCallbacks. case_match; [|done].
    by apply prefix_app_r.
  - by apply prefix_app_r.
Qed.

Lemma prims_eventQueue w w' :
  rtc prim w w' -> eventQueue w `prefix_of` eventQueue w'.
Proof.
  induction 1 as [|x y z Hxy _ IH]; [done|].
  etrans; [by apply prim_eventQueue|done].
Qed.

Lemma pop_resolver_token p v s rest w :
  singleSettlement [] w ->
  eventQueue w = PromiseResolverTask p v s :: rest ->
  singleSettlement [ResolvePromiseCallback p] (withEventQueue rest w).
Proof.
  intros Hinv Hq.
  eapply singleSettlement_transfer; [exact Hinv|apply Hinv|done|].
  intros q. left. split; [|done].
  unfold sources. simpl. rewrite Hq. simpl.
  change (registrations q (withEventQueue rest w)) with (registrations q w).
  change (openCapabilities q (withEventQueue rest w))
    with (openCapabilities q w).
  repeat case_decide; try congruence; lia.
Qed.

(** ** Reports of unhandled rejections *)

Lemma reportTasks_app q1 q2 :
  reportTasks (q1 ++ q2) = reportTasks q1 + reportTasks q2.
Proof.
  induction q1 as [|r q1 IH]; simpl; [done|]. destruct r; rewrite IH; lia.
Qed.

Lemma dispatchedReports_NS_DispatchToMainThread r c win w :
  dispatchedReports (NS_DispatchToMainThread (AsyncErrorReporter r c win) w)
  = S (dispatchedReports w).
Proof.
  unfold NS_DispatchToMainThread, dispatchedReports.
  destruct (NS_IsMainThread (thread w)); simpl;
    rewrite reportTasks_app; simpl; lia.
Qed.

Lemma ErrorFromException_isObject v report :
  ErrorFromException v = Some report ->
  isObject v = true /\ isUndefined v = false.
Proof. destruct v as [| |[]]; simpl; try discriminate. done. Qed.

Lemma MaybeReportRejected_spec this w :
  (reportable (promiseAt w this) = true ->
   exists report isChromeError win,
     ErrorFromException (mResult (promiseAt w this)) = Some report
     /\ MaybeReportRejected this w
        = NS_DispatchToMainThread
            (AsyncErrorReporter report isChromeError win) w)
  /\ (reportable (promiseAt w this) = false ->
      MaybeReportRejected this w = w).
Proof.
  unfold reportable, MaybeReportRejected. cbv zeta.
  destruct (bool_decide (mState (promiseAt w this) = Rejected)); simpl;
    [|split; [done|done]].
  destruct (mHadRejectCallback (promiseAt w this)); simpl; [done|].
  destruct (ErrorFromException (mResult (promiseAt w this))) as [report|] eqn:He.
  - destruct (ErrorFromException_isObject _ _ He) as [_ ->].
    split; [|intros H; by rewrite bool_decide_eq_true_2 in H by eauto].
    intros _. destruct (thread w); eauto.
  - split.
    + intros H. apply bool_decide_eq_true in H as [? ?]. done.
    + intros _. by destruct (isUndefined _).
Qed.

Lemma dispatchedReports_updPromise p f w :
  dispatchedReports (updPromise p f w) = dispatchedReports w.
Proof. done. Qed.

Lemma dispatchedReports_MaybeReportRejected this w :
  dispatchedReports (MaybeReportRejected this w)
  = dispatchedReports w
    + (if reportable (promiseAt w this) then 1 else 0).
Proof.
  destruct (MaybeReportRejected_spec this w) as [Hyes Hno].
  destruct (reportable (promiseAt w this)).
  - destruct Hyes as (r & c & win & _ & ->); [done|].
    rewrite dispatchedReports_NS_DispatchToMainThread. lia.
  - rewrite Hno by done. lia.
Qed.

Lemma mHadRejectCallback_AppendCallbacks_Some this a c w :
  this < length (heap w) ->
  mHadRejectCallback (promiseAt (AppendCallbacks this a (Some c) w) this) = true.
Proof.
  intros Hin. rewrite AppendCallbacks_unfold. cbv zeta.
  assert (forall w0, length (heap w0) = length (heap w) ->
    mHadRejectCallback
      (promiseAt
         (updPromise this
            (fun x => set_mRejectCallbacks (mRejectCallbacks x ++ [c])
                        (set_mHadRejectCallback true x)) w0) this) = true)
    as Hset.
  { intros w0 Hlen. rewrite promiseAt_updPromise_eq; [done|lia]. }
  destruct (needsDrainTask _).
  - rewrite (field_updPromise mHadRejectCallback) by done.
    rewrite promiseAt_DispatchToCurrentThread.
    apply Hset. destruct a; [|done]. by rewrite length_heap_updPromise.
  - apply Hset. destruct a; [|done]. by rewrite length_heap_updPromise.
Qed.

(** ** Registering continuations *)

Lemma Then_result this a b w :
  Then this a b w
  = (length (heap w),
     AppendCallbacks this
       (Some (PromiseCallback_Factory (length (heap w)) a PromiseCallback_Resolve))
       (Some (PromiseCallback_Factory (length (heap w)) b PromiseCallback_Reject))
       (snd (allocPromise (mWindow (promiseAt w this)) w))).
Proof. done. Qed.

Lemma callbacks_AppendCallbacks this c1 c2 w :
  this < length (heap w) ->
  mResolveCallbacks (promiseAt (AppendCallbacks this (Some c1) (Some c2) w) this)
  = mResolveCallbacks (promiseAt w this) ++ [c1]
  /\ mRejectCallbacks (promiseAt (AppendCallbacks this (Some c1) (Some c2) w) this)
     = mRejectCallbacks (promiseAt w this) ++ [c2].
Proof.
  intros Hin. rewrite AppendCallbacks_unfold. cbv zeta.
  assert (forall g : Promise -> list PromiseCallback,
            (forall b x, g (set_mTaskPending b x) = g x) ->
            g (promiseAt
                 (if needsDrainTask (promiseAt w this)
                  then updPromise this (set_mTaskPending true)
                         (DispatchToCurrentThread (PromiseTask this)
                            (updPromise this
                               (fun x => set_mRejectCallbacks
                                           (mRejectCallbacks x ++ [c2])
                                           (set_mHadRejectCallback true x))
                               (updPromise this
                                  (fun x => set_mResolveCallbacks
                                              (mResolveCallbacks x ++ [c1]) x)
                                  w)))
                  else updPromise this
                         (fun x => set_mRejectCallbacks
                                     (mRejectCallbacks x ++ [c2])
                                     (set_mHadRejectCallback true x))
                         (updPromise this
                            (fun x => set_mResolveCallbacks
                                        (mResolveCallbacks x ++ [c1]) x) w))
                 this)
            = g (set_mRejectCallbacks
                   (mRejectCallbacks (promiseAt w this) ++ [c2])
                   (set_mHadRejectCallback true
                      (set_mResolveCallbacks
                         (mResolveCallbacks (promiseAt w this) ++ [c1])
                         (promiseAt w this))))) as Hg.
  { intros g Hg. destruct (needsDrainTask _).
    - rewrite (field_updPromise g) by (intros; apply Hg).
      rewrite promiseAt_DispatchToCurrentThread.
      rewrite !promiseAt_updPromise_eq; rewrite ?length_heap_updPromise; done.
    - rewrite !promiseAt_updPromise_eq; rewrite ?length_heap_updPromise; done. }
  split; [apply (Hg mResolveCallbacks)|apply (Hg mRejectCallbacks)]; done.
Qed.

Lemma callbacks_AppendCallbacks_ne q c1 c2 w p :
  q <> p ->
  mResolveCallbacks (promiseAt (AppendCallbacks q c1 c2 w) p)
  = mResolveCallbacks (promiseAt w p)
  /\ mRejectCallbacks (promiseAt (AppendCallbacks q c1 c2 w) p)
     = mRejectCallbacks (promiseAt w p).
Proof.
  intros Hne. rewrite AppendCallbacks_unfold. cbv zeta.
  destruct (needsDrainTask _), c1, c2;
    rewrite ?promiseAt_updPromise_ne, ?promiseAt_DispatchToCurrentThread,
      ?promiseAt_updPromise_ne by done; done.
Qed.

Lemma wfTargets_allocPromise win w :
  wfTargets w -> wfTargets (snd (allocPromise win w)).
Proof.
  intros Hwf p. unfold targetsInHeap.
  rewrite length_heap_allocPromise, promiseAt_allocPromise.
  case_decide; [constructor|].
  eapply Forall_impl; [apply Hwf|]. intros c Hc. simpl in Hc. lia.
Qed.

Lemma derivedClosed_allocPromise n0 win w :
  derivedClosed n0 w -> derivedClosed n0 (snd (allocPromise win w)).
Proof.
  intros Hc d Hd. rewrite promiseAt_allocPromise.
  case_decide; [constructor|]. by apply Hc.
Qed.

Lemma derivedClosed_AppendCallbacks_below n0 q a b w :
  q < n0 -> derivedClosed n0 w -> derivedClosed n0 (AppendCallbacks q a b w).
Proof.
  intros Hq Hc d Hd.
  destruct (callbacks_AppendCallbacks_ne q a b w d) as [-> ->]; [lia|].
  by apply Hc.
Qed.

Lemma derivedClosed_fresh w : derivedClosed (length (heap w)) w.
Proof. intros d Hd. rewrite promiseAt_outside by done. constructor. Qed.

(** What one [then] does to the promise it is called on and to the rest of
    the store. *)
Lemma Then_spec this a b w :
  this < length (heap w) ->
  let w' := snd (Then this a b w) in
  fst (Then this a b w) = length (heap w)
  /\ length (heap w') = S (length (heap w))
  /\ mResolveCallbacks (promiseAt w' this)
     = mResolveCallbacks (promiseAt w this)
       ++ [PromiseCallback_Factory (length (heap w)) a PromiseCallback_Resolve]
  /\ mRejectCallbacks (promiseAt w' this)
     = mRejectCallbacks (promiseAt w this)
       ++ [PromiseCallback_Factory (length (heap w)) b PromiseCallback_Reject]
  /\ mState (promiseAt w' this) = mState (promiseAt w this)
  /\ mResult (promiseAt w' this) = mResult (promiseAt w this)
  /\ mHadRejectCallback (promiseAt w' this) = true
  /\ invoked w' = invoked w
  /\ eventQueue w'
     = (if needsDrainTask (promiseAt w this)
        then eventQueue w ++ [PromiseTask this] else eventQueue w)
  /\ mTaskPending (promiseAt w' this)
     = (mTaskPending (promiseAt w this)
        || negb (statePending (promiseAt w this)))
  /\ (wfTargets w -> wfTargets w')
  /\ (forall n0, this < n0 -> derivedClosed n0 w -> derivedClosed n0 w').
Proof.
  intros Hin. cbv zeta. rewrite Then_result. cbn [fst snd].
  set (w1 := snd (allocPromise (mWindow (promiseAt w this)) w)).
  assert (length (heap w1) = S (length (heap w))) as Hlen1
    by apply length_heap_allocPromise.
  assert (promiseAt w1 this = promiseAt w this) as Hat1
    by (by apply promiseAt_allocPromise_old).
  assert (this < length (heap w1)) as Hin1 by lia.
  destruct (callbacks_AppendCallbacks this
              (PromiseCallback_Factory (length (heap w)) a PromiseCallback_Resolve)
              (PromiseCallback_Factory (length (heap w)) b PromiseCallback_Reject)
              w1 Hin1) as [Hres Hrej].
  split; [done|]. split; [by rewrite length_heap_AppendCallbacks|].
  split; [by rewrite Hres, Hat1|]. split; [by rewrite Hrej, Hat1|].
  split; [by rewrite mState_AppendCallbacks, Hat1|].
  split; [by rewrite mResult_AppendCallbacks, Hat1|].
  split; [by apply mHadRejectCallback_AppendCallbacks_Some|].
  split; [by rewrite invoked_AppendCallbacks|].
  split; [by rewrite eventQueue_AppendCallbacks, Hat1|].
  split.
  { rewrite mTaskPending_AppendCallbacks, decide_True by done.
    by rewrite Hat1. }
  split.
  - intros Hwf. apply wfTargets_AppendCallbacks.
    + rewrite Hlen1. destruct a; simpl; lia.
    + rewrite Hlen1. destruct b; simpl; lia.
    + by apply wfTargets_allocPromise.
  - intros n0 Hn0 Hc. apply derivedClosed_AppendCallbacks_below; [done|].
    by apply derivedClosed_allocPromise.
Qed.

Lemma thenAll_cons this r regs w :
  thenAll this (r :: regs) w
  = thenAll this regs (snd (Then this (fst r) (snd r) w)).
Proof. done. Qed.

(** What a series of [then] calls does to the promise. *)
Lemma thenAll_spec this regs w :
  this < length (heap w) ->
  let w' := thenAll this regs w in
  length (heap w') = length (heap w) + length regs
  /\ mResolveCallbacks (promiseAt w' this)
     = mResolveCallbacks (promiseAt w this)
       ++ resolveCallbacksOf (length (heap w)) regs
  /\ mRejectCallbacks (promiseAt w' this)
     = mRejectCallbacks (promiseAt w this)
       ++ rejectCallbacksOf (length (heap w)) regs
  /\ mState (promiseAt w' this) = mState (promiseAt w this)
  /\ mResult (promiseAt w' this) = mResult (promiseAt w this)
  /\ invoked w' = invoked w
  /\ eventQueue w'
     = (if needsDrainTask (promiseAt w this)
           && negb (bool_decide (regs = []))
        then eventQueue w ++ [PromiseTask this] else eventQueue w)
  /\ (wfTargets w -> wfTargets w')
  /\ (forall n0, this < n0 -> derivedClosed n0 w -> derivedClosed n0 w').
Proof.
  revert w. induction regs as [|r rest IH]; intros w Hin; cbv zeta.
  - simpl. rewrite !app_nil_r, Nat.add_0_r, andb_false_r. by repeat split.
  - rewrite thenAll_cons.
    destruct (Then_spec this (fst r) (snd r) w Hin)
      as (_ & Hlen & Hres & Hrej & Hst & Hr & _ & Hi & Hq & Htp & Hwf & Hc).
    set (w1 := snd (Then this (fst r) (snd r) w)) in *.
    destruct (IH w1) as (Hlen' & Hres' & Hrej' & Hst' & Hr' & Hi' & Hq' & Hwf' & Hc');
      [lia|].
    split; [simpl; lia|].
    split; [by rewrite Hres', Hres, Hlen, <-app_assoc|].
    split; [by rewrite Hrej', Hrej, Hlen, <-app_assoc|].
    split; [congruence|]. split; [congruence|]. split; [congruence|].
    split; [|split; [auto|intros n0 Hn0 Hcl; auto]].
    rewrite Hq', Hq. unfold needsDrainTask. rewrite Htp.
    unfold statePending. rewrite Hst.
    rewrite (bool_decide_eq_false_2 (r :: rest = [])) by done.
    destruct (bool_decide (mState (promiseAt w this) = Pending)),
      (mTaskPending (promiseAt w this)); simpl; done.
Qed.

Lemma userInvocations_app l1 l2 v :
  userInvocations (l1 ++ l2) v = userInvocations l1 v ++ userInvocations l2 v.
Proof. unfold userInvocations. apply omap_app. Qed.

Lemma userInvocations_resolveCallbacksOf n regs v :
  userInvocations (resolveCallbacksOf n regs) v = invocationsOf Resolved regs v.
Proof.
  revert n. induction regs as [|[a b] rest IH]; intros n; [done|].
  unfold userInvocations, invocationsOf in *. simpl.
  rewrite IH. by destruct a.
Qed.

Lemma userInvocations_rejectCallbacksOf n regs v :
  userInvocations (rejectCallbacksOf n regs) v = invocationsOf Rejected regs v.
Proof.
  revert n. induction regs as [|[a b] rest IH]; intros n; [done|].
  unfold userInvocations, invocationsOf in *. simpl.
  rewrite IH. by destruct b.
Qed.

Lemma targets_resolveCallbacksOf n0 n regs :
  n0 <= n ->
  Forall (fun c => n0 <= callbackTarget c) (resolveCallbacksOf n regs).
Proof.
  revert n. induction regs as [|[a b] rest IH]; intros n Hn; simpl; [done|].
  constructor; [destruct a; simpl; lia|]. apply IH. lia.
Qed.

Lemma targets_rejectCallbacksOf n0 n regs :
  n0 <= n ->
  Forall (fun c => n0 <= callbackTarget c) (rejectCallbacksOf n regs).
Proof.
  revert n. induction regs as [|[a b] rest IH]; intros n Hn; simpl; [done|].
  constructor; [destruct b; simpl; lia|]. apply IH. lia.
Qed.

(** ** Running a queued settlement *)

(** In a store with the invariant, the turn of the event loop that finds a
    settlement task at the head of the queue completes, leaves the promise
    in the state and with the result the task carries, and has forwarded
    the settlement through the chaining adapters the promise held. *)
Lemma run_settlement_task w p v s rest :
  singleSettlement [] w ->
  eventQueue w = PromiseResolverTask p v s :: rest ->
  s <> Pending ->
  exists fuel w',
    ProcessNextEvent fuel w = Ok w'
    /\ mState (promiseAt w' p) = s
    /\ mResult (promiseAt w' p) = v
    /\ Forall (fun c => forwarded c v w')
         (if bool_decide (s = Resolved) then mResolveCallbacks (promiseAt w p)
          else mRejectCallbacks (promiseAt w p))
    /\ singleSettlement [] w'
    /\ settledKept w w'.
Proof.
  intros Hinv Hq Hs.
  pose proof (pop_resolver_token p v s rest w Hinv Hq) as Htok.
  destruct (singleSettlement_token_free _ _ _ Htok) as (_ & _ & Hin & _).
  destruct (RunResolveTask_completes p v s (withEventQueue rest w))
    as (fuel & w' & Hr & _ & _); [|done|done|].
  { by apply singleSettlement_wfTargets in Hinv. }
  exists fuel, w'.
  destruct (RunResolveTask_forwards fuel p v s _ w' Htok Hs Hr) as [[Hst Hres] Hf].
  unfold ProcessNextEvent. rewrite Hq. unfold Runnable_Run.
  split; [done|]. split; [done|]. split; [done|]. split; [done|].
  unfold RunResolveTask in Hr.
  apply (RunResolveTask_with_single (RunTask fuel)) with (L := []) in Hr;
    [done| |done].
  intros L t w1 w2. apply RunTask_single.
Qed.

Lemma Reachable_Step w w' : Reachable w -> Step w w' -> Reachable w'.
Proof.
  intros [t Hr] Hs. exists t. eapply rtc_r; [exact Hr|exact Hs].
Qed.

Lemma Reachable_Steps w w' : Reachable w -> rtc Step w w' -> Reachable w'.
Proof.
  intros [t Hr] Hs. exists t. by etrans.
Qed.

Lemma eventQueue_allocPromise win w :
  eventQueue (snd (allocPromise win w)) = eventQueue w.
Proof. done. Qed.

(** C10: the factories [Resolve] and [Reject] never settle the promise
    they return within the call.  When the factory returns, the new promise
    is [Pending] with an undefined result and [mResolvePending] is already
    set, so every later [MaybeResolveInternal] or [MaybeRejectInternal] on it
    leaves the store as it is; the settlement is a [PromiseResolverTask]
    appended to the event queue (for [Resolve], when the value is not itself
    a promise), and the state and the result are assigned when that task
    runs in a later turn of the event loop. *)
Theorem factories_settle_asynchronously fuel aGlobal aValue w win :
  windowOfGlobal aGlobal w = Some win ->
  let promise := length (heap w) in
  (exists w',
     Resolve fuel aGlobal aValue w = Ok (Some promise, w')
     /\ mState (promiseAt w' promise) = Pending
     /\ mResult (promiseAt w' promise) = UndefinedValue
     /\ mResolvePending (promiseAt w' promise) = true
     /\ (nextPromiseOf (Some aValue) = None ->
         eventQueue w'
         = eventQueue w ++ [PromiseResolverTask promise aValue Resolved])
     /\ (forall fuel' v sync,
           MaybeResolveInternal fuel' promise v sync w' = Ok w'
           /\ MaybeRejectInternal fuel' promise v sync w' = Ok w')
     /\ (Reachable w -> eventQueue w = [] ->
         nextPromiseOf (Some aValue) = None ->
         exists n w'',
           ProcessNextEvent n w' = Ok w''
           /\ mState (promiseAt w'' promise) = Resolved
           /\ mResult (promiseAt w'' promise) = aValue))
  /\
  (exists w',
     Reject fuel aGlobal aValue w = Ok (Some promise, w')
     /\ mState (promiseAt w' promise) = Pending
     /\ mResult (promiseAt w' promise) = UndefinedValue
     /\ mResolvePending (promiseAt w' promise) = true
     /\ eventQueue w'
        = eventQueue w ++ [PromiseResolverTask promise aValue Rejected]
     /\ (forall fuel' v sync,
           MaybeResolveInternal fuel' promise v sync w' = Ok w'
           /\ MaybeRejectInternal fuel' promise v sync w' = Ok w')
     /\ (Reachable w -> eventQueue w = [] ->
         exists n w'',
           ProcessNextEvent n w' = Ok w''
           /\ mState (promiseAt w'' promise) = Rejected
           /\ mResult (promiseAt w'' promise) = aValue)).
Proof.
  intros Hwin. cbv zeta.
  pose proof (promiseAt_allocPromise_new win w) as Hnew.
  pose proof (length_heap_allocPromise win w) as Hlen.
  pose proof (eventQueue_allocPromise win w) as Hq.
  destruct (allocPromise win w) as [p w1] eqn:Ha.
  assert (p = length (heap w)) as -> by (by inversion Ha).
  cbn [snd] in Hnew, Hlen, Hq.
  split.
  - assert (Resolve fuel aGlobal aValue w
            = (w' <- ResolveInternal fuel (length (heap w)) (Some aValue)
                       AsyncTask w1;;
               Ok (Some (length (heap w)), w'))) as HR.
    { unfold Resolve. rewrite Hwin, Ha. unfold defaultTaskSync.
      by rewrite MaybeResolveInternal_first by (by rewrite Hnew). }
    destruct (ResolveInternal_async_spec fuel (length (heap w)) (Some aValue) w1)
      as (w' & He & Hs & Hr & Hp & _); [lia|].
    rewrite He in HR. cbn [bind] in HR.
    exists w'. split; [done|]. rewrite Hs, Hr, Hp, Hnew.
    split; [done|]. split; [done|]. split; [done|]. split; [|split].
    + intros Hv. rewrite ResolveInternal_async_plain in He by done.
      inversion He; subst w'. simpl. by rewrite Hq.
    + intros fuel' v sync.
      by rewrite MaybeResolveInternal_pending, MaybeRejectInternal_pending.
    + intros Hreach Hq0 Hv.
      assert (singleSettlement [] w') as Hinv.
      { apply Reachable_single. eapply Reachable_Step; [exact Hreach|].
        by eapply Step_Resolve. }
      rewrite ResolveInternal_async_plain in He by done.
      destruct (run_settlement_task w' (length (heap w)) aValue Resolved [])
        as (n & w'' & Hrun & Hst & Hres & _); [done| |done|].
      { inversion He; subst w'. simpl. by rewrite Hq, Hq0. }
      by exists n, w''.
  - assert (Reject fuel aGlobal aValue w
            = (w' <- RejectInternal fuel (length (heap w)) (Some aValue)
                       AsyncTask w1;;
               Ok (Some (length (heap w)), w'))) as HR.
    { unfold Reject. rewrite Hwin, Ha. unfold defaultTaskSync.
      by rewrite MaybeRejectInternal_first by (by rewrite Hnew). }
    destruct (RejectInternal_async_spec fuel (length (heap w)) (Some aValue) w1)
      as (w' & He & Hs & Hr & Hp & _); [lia|].
    rewrite He in HR. cbn [bind] in HR.
    exists w'. split; [done|]. rewrite Hs, Hr, Hp, Hnew.
    split; [done|]. split; [done|]. split; [done|].
    assert (eventQueue w'
            = eventQueue w
              ++ [PromiseResolverTask (length (heap w)) aValue Rejected]) as Hq'.
    { rewrite RejectInternal_async in He. inversion He; subst w'.
      simpl. by rewrite Hq. }
    split; [done|]. split.
    + intros fuel' v sync.
      by rewrite MaybeResolveInternal_pending, MaybeRejectInternal_pending.
    + intros Hreach Hq0.
      assert (singleSettlement [] w') as Hinv.
      { apply Reachable_single. eapply Reachable_Step; [exact Hreach|].
        by eapply Step_Reject. }
      destruct (run_settlement_task w' (length (heap w)) aValue Rejected [])
        as (n & w'' & Hrun & Hst & Hres & _); [done| |done|].
      { by rewrite Hq', Hq0. }
      by exists n, w''.
Qed.

Lemma Resolve_unfold fuel aGlobal aValue w win :
  windowOfGlobal aGlobal w = Some win ->
  Resolve fuel aGlobal aValue w
  = (w' <- ResolveInternal fuel (length (heap w)) (Some aValue) AsyncTask
             (snd (allocPromise win w));;
     Ok (Some (length (heap w)), w')).
Proof.
  intros Hwin. unfold Resolve. rewrite Hwin.
  pose proof (promiseAt_allocPromise_new win w) as Hnew.
  destruct (allocPromise win w) as [p w1] eqn:Ha.
  assert (p = length (heap w)) as -> by (by inversion Ha).
  cbn [snd] in *. unfold defaultTaskSync.
  by rewrite MaybeResolveInternal_first by (by rewrite Hnew).
Qed.

Lemma Reject_unfold fuel aGlobal aValue w win :
  windowOfGlobal aGlobal w = Some win ->
  Reject fuel aGlobal aValue w
  = Ok (Some (length (heap w)),
        DispatchToCurrentThread
          (PromiseResolverTask (length (heap w)) aValue Rejected)
          (updPromise (length (heap w)) (set_mResolvePending true)
             (snd (allocPromise win w)))).
Proof.
  intros Hwin. unfold Reject. rewrite Hwin.
  pose proof (promiseAt_allocPromise_new win w) as Hnew.
  destruct (allocPromise win w) as [p w1] eqn:Ha.
  assert (p = length (heap w)) as -> by (by inversion Ha).
  cbn [snd] in *. unfold defaultTaskSync.
  rewrite MaybeRejectInternal_first by (by rewrite Hnew).
  by rewrite RejectInternal_async.
Qed.

(** C4: a rejection value is never unwrapped.  For every value [v], a
    promise object included, [RejectInternal] dispatches a settlement task
    that carries [v] itself; when the task runs the promise is [Rejected]
    with result [v] and the reject adapters registered on it forward [v]
    unchanged; so [Reject(v)] followed by one turn of the event loop leaves
    the returned promise [Rejected] with result [v]. *)
Theorem reject_never_unwraps (v : Value) :
  (forall fuel this w,
     RejectInternal fuel this (Some v) AsyncTask w
     = Ok (DispatchToCurrentThread (PromiseResolverTask this v Rejected)
             (updPromise this (set_mResolvePending true) w)))
  /\ (forall w this rest,
        Reachable w ->
        eventQueue w = PromiseResolverTask this v Rejected :: rest ->
        exists n w',
          ProcessNextEvent n w = Ok w'
          /\ mState (promiseAt w' this) = Rejected
          /\ mResult (promiseAt w' this) = v
          /\ (forall target,
                RejectPromiseCallback target ∈ mRejectCallbacks (promiseAt w this) ->
                mState (promiseAt w' target) = Rejected
                /\ mResult (promiseAt w' target) = v))
  /\ (forall fuel aGlobal w win,
        Reachable w -> eventQueue w = [] ->
        windowOfGlobal aGlobal w = Some win ->
        exists w1 n w2,
          Reject fuel aGlobal v w = Ok (Some (length (heap w)), w1)
          /\ ProcessNextEvent n w1 = Ok w2
          /\ mState (promiseAt w2 (length (heap w))) = Rejected
          /\ mResult (promiseAt w2 (length (heap w))) = v).
Proof.
  split; [done|]. split.
  - intros w this rest Hreach Hq.
    destruct (run_settlement_task w this v Rejected rest)
      as (n & w' & Hrun & Hst & Hres & Hf & _);
      [by apply Reachable_single|done|done|].
    exists n, w'. repeat split; try done.
    all: rewrite bool_decide_eq_false_2 in Hf by done;
      rewrite Forall_forall in Hf; by apply (Hf _ H).
  - intros fuel aGlobal w win Hreach Hq Hwin.
    pose proof (Reject_unfold fuel aGlobal v w win Hwin) as HR.
    eexists. 
    assert (Reachable
              (DispatchToCurrentThread
                 (PromiseResolverTask (length (heap w)) v Rejected)
                 (updPromise (length (heap w)) (set_mResolvePending true)
                    (snd (allocPromise win w))))) as Hreach1.
    { eapply Reachable_Step; [exact Hreach|]. by eapply Step_Reject. }
    destruct (run_settlement_task _ (length (heap w)) v Rejected []
                (Reachable_single _ Hreach1))
      as (n & w2 & Hrun & Hst & Hres & _); [|done|].
    { simpl. by rewrite Hq. }
    exists n, w2. by repeat split.
Qed.

Lemma windowOfGlobal_thread aGlobal w w' :
  thread w' = thread w -> windowOfGlobal aGlobal w' = windowOfGlobal aGlobal w.
Proof. intros H. unfold windowOfGlobal. by rewrite H. Qed.

(** C3: resolving a promise with a value that is itself a promise does
    not settle it.  [ResolveInternal] appends a resolve adapter and a reject
    adapter for this promise to the inner promise and returns, the state and
    the result of this promise unchanged; when the inner promise is settled
    its adapters forward the settlement into this promise, so
    [Resolve(Resolve(v))] ends fulfilled with [v] for a plain [v]; a value on
    which the unwrapping fails is an ordinary result: the fulfilment proceeds
    through [RunResolveTask] and nothing is dropped. *)
Theorem resolve_chains_through_promise :
  (* a chainable value: adapters are attached, nothing is settled *)
  (forall fuel this aValue nextPromise sync w,
     nextPromiseOf aValue = Some nextPromise ->
     exists w',
       ResolveInternal fuel this aValue sync w = Ok w'
       /\ w' = AppendCallbacks nextPromise
                 (Some (ResolvePromiseCallback this))
                 (Some (RejectPromiseCallback this))
                 (updPromise this (set_mResolvePending true) w)
       /\ mState (promiseAt w' this) = mState (promiseAt w this)
       /\ mResult (promiseAt w' this) = mResult (promiseAt w this)
       /\ (nextPromise < length (heap w) ->
           mResolveCallbacks (promiseAt w' nextPromise)
           = mResolveCallbacks (promiseAt w nextPromise)
             ++ [ResolvePromiseCallback this]
           /\ mRejectCallbacks (promiseAt w' nextPromise)
              = mRejectCallbacks (promiseAt w nextPromise)
                ++ [RejectPromiseCallback this]))
  (* the settlement of the inner promise is forwarded by the adapters *)
  /\ (forall w inner v s rest,
        Reachable w ->
        eventQueue w = PromiseResolverTask inner v s :: rest ->
        s <> Pending ->
        exists n w',
          ProcessNextEvent n w = Ok w'
          /\ mState (promiseAt w' inner) = s
          /\ mResult (promiseAt w' inner) = v
          /\ (forall this,
                s = Resolved -> nextPromiseOf (Some v) = None ->
                ResolvePromiseCallback this
                  ∈ mResolveCallbacks (promiseAt w inner) ->
                mState (promiseAt w' this) = Resolved
                /\ mResult (promiseAt w' this) = v)
          /\ (forall this,
                s = Rejected ->
                RejectPromiseCallback this
                  ∈ mRejectCallbacks (promiseAt w inner) ->
                mState (promiseAt w' this) = Rejected
                /\ mResult (promiseAt w' this) = v))
  (* Resolve(Resolve(v)) *)
  /\ (forall fuel aGlobal v w win,
        Reachable w -> eventQueue w = [] ->
        windowOfGlobal aGlobal w = Some win ->
        nextPromiseOf (Some v) = None ->
        let inner := length (heap w) in
        let outer := S (length (heap w)) in
        exists w1 w2 n w3,
          Resolve fuel aGlobal v w = Ok (Some inner, w1)
          /\ Resolve fuel aGlobal (ObjectValue (PromiseObject inner)) w1
             = Ok (Some outer, w2)
          /\ mState (promiseAt w2 outer) = Pending
          /\ ProcessNextEvent n w2 = Ok w3
          /\ mState (promiseAt w3 outer) = Resolved
          /\ mResult (promiseAt w3 outer) = v)
  (* a value on which the chainable test fails is an ordinary result *)
  /\ (forall fuel this aValue sync w,
        nextPromiseOf aValue = None ->
        ResolveInternal fuel this aValue sync w
        = RunResolveTask fuel this (valueOrUndefined aValue) Resolved sync
            (updPromise this (set_mResolvePending true) w)
        /\ ResolveInternal fuel this aValue AsyncTask w
           = Ok (DispatchToCurrentThread
                   (PromiseResolverTask this (valueOrUndefined aValue) Resolved)
                   (updPromise this (set_mResolvePending true) w))).
Proof.
  split; [|split; [|split]].
  - intros fuel this aValue q sync w Hv.
    rewrite (ResolveInternal_chain _ _ _ q) by done.
    eexists. split; [done|]. split; [done|].
    rewrite mState_AppendCallbacks, mResult_AppendCallbacks.
    rewrite (field_updPromise mState), (field_updPromise mResult) by done.
    split; [done|]. split; [done|]. intros Hq.
    destruct (callbacks_AppendCallbacks q (ResolvePromiseCallback this)
                (RejectPromiseCallback this)
                (updPromise this (set_mResolvePending true) w)) as [-> ->].
    { by rewrite length_heap_updPromise. }
    by rewrite (field_updPromise mResolveCallbacks),
      (field_updPromise mRejectCallbacks).
  - intros w inner v s rest Hreach Hq Hs.
    destruct (run_settlement_task w inner v s rest)
      as (n & w' & Hrun & Hst & Hres & Hf & _);
      [by apply Reachable_single|done|done|].
    exists n, w'. split; [done|]. split; [done|]. split; [done|].
    rewrite Forall_forall in Hf. split.
    + intros this -> Hv Hin. rewrite bool_decide_eq_true_2 in Hf by done.
      by apply (Hf _ Hin).
    + intros this -> Hin. rewrite bool_decide_eq_false_2 in Hf by done.
      by apply (Hf _ Hin).
  - intros fuel aGlobal v w win Hreach Hq Hwin Hv. cbv zeta.
    set (inner := length (heap w)).
    pose proof (Resolve_unfold fuel aGlobal v w win Hwin) as HR1.
    rewrite ResolveInternal_async_plain in HR1 by done. cbn [bind] in HR1.
    set (w1 := DispatchToCurrentThread _ _) in HR1.
    assert (Reachable w1) as Hreach1.
    { eapply Reachable_Step; [exact Hreach|]. by eapply Step_Resolve. }
    assert (length (heap w1) = S inner) as Hlen1.
    { unfold w1. simpl. rewrite length_alter, length_app. simpl.
      unfold inner. lia. }
    assert (promiseAt w1 inner
            = set_mResolvePending true (new_Promise win)) as Hat1.
    { unfold w1. rewrite promiseAt_DispatchToCurrentThread.
      rewrite promiseAt_updPromise_eq
        by (rewrite length_heap_allocPromise; unfold inner; lia).
      by rewrite promiseAt_allocPromise_new. }
    assert (eventQueue w1 = [PromiseResolverTask inner v Resolved]) as Hq1.
    { unfold w1. simpl. by rewrite Hq. }
    assert (windowOfGlobal aGlobal w1 = Some win) as Hwin1.
    { by rewrite (windowOfGlobal_thread aGlobal w). }
    pose proof (Resolve_unfold fuel aGlobal (ObjectValue (PromiseObject inner))
                  w1 win Hwin1) as HR2.
    rewrite (ResolveInternal_chain _ _ _ inner) in HR2 by done.
    cbn [bind] in HR2. rewrite Hlen1 in HR2.
    set (w2 := AppendCallbacks inner _ _ _) in HR2.
    assert (Reachable w2) as Hreach2.
    { eapply Reachable_Step; [exact Hreach1|]. by eapply Step_Resolve. }
    set (w1' := updPromise (S inner) (set_mResolvePending true)
                  (snd (allocPromise win w1))) in *.
    assert (length (heap w1') = S (S inner)) as Hlen1'.
    { unfold w1'. rewrite length_heap_updPromise, length_heap_allocPromise. lia. }
    assert (promiseAt w1' inner = promiseAt w1 inner) as Hat1'.
    { unfold w1'. rewrite promiseAt_updPromise_ne by lia.
      apply promiseAt_allocPromise_old. lia. }
    assert (eventQueue w2 = [PromiseResolverTask inner v Resolved]) as Hq2.
    { unfold w2. rewrite eventQueue_AppendCallbacks, Hat1', Hat1. done. }
    destruct (callbacks_AppendCallbacks inner
                (ResolvePromiseCallback (S inner))
                (RejectPromiseCallback (S inner)) w1') as [Hres2 _]; [lia|].
    fold w2 in Hres2. rewrite Hat1', Hat1 in Hres2. simpl in Hres2.
    destruct (run_settlement_task w2 inner v Resolved []
                (Reachable_single _ Hreach2) Hq2)
      as (n & w3 & Hrun & _ & _ & Hf & _); [done|].
    rewrite bool_decide_eq_true_2, Hres2 in Hf by done.
    rewrite Forall_singleton in Hf. destruct (Hf Hv) as [Hst3 Hres3].
    exists w1, w2, n, w3. repeat split; try done.
    unfold w2. rewrite mState_AppendCallbacks. unfold w1'.
    rewrite (field_updPromise mState) by done.
    rewrite <-Hlen1. by rewrite promiseAt_allocPromise_new.
  - intros fuel this aValue sync w Hv. split.
    + unfold ResolveInternal, ResolveInternal_with. by rewrite Hv.
    + by apply ResolveInternal_async_plain.
Qed.

(** ** Teardown *)

Lemma reportable_observed x :
  mHadRejectCallback x = true -> reportable x = false.
Proof. intros H. unfold reportable. rewrite H. by rewrite andb_false_r. Qed.

Lemma reportable_iff x :
  reportable x = true
  <-> mState x = Rejected /\ mHadRejectCallback x = false
      /\ is_Some (ErrorFromException (mResult x)).
Proof.
  unfold reportable. rewrite !andb_true_iff, negb_true_iff.
  rewrite !bool_decide_eq_true. tauto.
Qed.

Lemma dispatchedReports_destructor this w :
  dispatchedReports (Promise_destructor this w)
  = dispatchedReports w + (if reportable (promiseAt w this) then 1 else 0).
Proof.
  unfold Promise_destructor.
  by rewrite dispatchedReports_updPromise, dispatchedReports_MaybeReportRejected.
Qed.

Lemma promiseAt_MaybeReportRejected this w p :
  promiseAt (MaybeReportRejected this w) p = promiseAt w p.
Proof.
  destruct (MaybeReportRejected_spec this w) as [Hyes Hno].
  destruct (reportable (promiseAt w this)).
  - destruct Hyes as (r & c & win & _ & ->); [done|].
    apply promiseAt_NS_DispatchToMainThread.
  - by rewrite Hno.
Qed.

Lemma length_heap_MaybeReportRejected this w :
  length (heap (MaybeReportRejected this w)) = length (heap w).
Proof.
  destruct (MaybeReportRejected_spec this w) as [Hyes Hno].
  destruct (reportable (promiseAt w this)).
  - destruct Hyes as (r & c & win & _ & ->); [done|].
    unfold NS_DispatchToMainThread. by case_match.
  - by rewrite Hno.
Qed.

(** After the cycle collector unlinked a promise its destructor has nothing
    left to report. *)
Lemma reportable_Unlink this w :
  reportable (promiseAt (Promise_Unlink this w) this) = false.
Proof.
  unfold Promise_Unlink.
  destruct (decide (this < length (heap w))) as [Hin|Hout].
  - rewrite promiseAt_updPromise_eq
      by (by rewrite length_heap_MaybeReportRejected).
    unfold reportable. simpl. by rewrite andb_false_r.
  - rewrite updPromise_outside
      by (rewrite length_heap_MaybeReportRejected; lia).
    rewrite promiseAt_MaybeReportRejected, promiseAt_outside by lia. done.
Qed.

Lemma dispatchedReports_Unlink_destructor this w :
  dispatchedReports (Promise_destructor this (Promise_Unlink this w))
  = dispatchedReports w + (if reportable (promiseAt w this) then 1 else 0).
Proof.
  rewrite dispatchedReports_destructor, reportable_Unlink.
  unfold Promise_Unlink.
  rewrite dispatchedReports_updPromise, dispatchedReports_MaybeReportRejected.
  lia.
Qed.

Lemma promiseAt_AppendCallbacks_ne q a b w p :
  q <> p -> promiseAt (AppendCallbacks q a b w) p = promiseAt w p.
Proof.
  intros Hne. rewrite AppendCallbacks_unfold. cbv zeta.
  destruct (needsDrainTask _).
  - rewrite promiseAt_updPromise_ne, promiseAt_DispatchToCurrentThread by done.
    destruct a, b; rewrite ?promiseAt_updPromise_ne by done; done.
  - destruct a, b; rewrite ?promiseAt_updPromise_ne by done; done.
Qed.

(** Only [AppendCallbacks] with a reject callback sets
    [mHadRejectCallback]. *)
Lemma mHadRejectCallback_AppendCallbacks_other q a b w p :
  (q <> p \/ b = None) ->
  mHadRejectCallback (promiseAt (AppendCallbacks q a b w) p)
  = mHadRejectCallback (promiseAt w p).
Proof.
  intros [Hne| ->].
  - by rewrite promiseAt_AppendCallbacks_ne.
  - rewrite AppendCallbacks_unfold. cbv zeta.
    destruct (needsDrainTask _).
    + rewrite (field_updPromise mHadRejectCallback) by done.
      rewrite promiseAt_DispatchToCurrentThread.
      destruct a; rewrite ?(field_updPromise mHadRejectCallback) by done; done.
    + destruct a; rewrite ?(field_updPromise mHadRejectCallback) by done; done.
Qed.

Lemma mutation_sets_mHadRejectCallback w w' p :
  mutation w w' ->
  mHadRejectCallback (promiseAt w p) = false ->
  mHadRejectCallback (promiseAt w' p) = true ->
  exists a c, w' = AppendCallbacks p a (Some c) w.
Proof.
  intros Hm Hf Ht.
  destruct Hm as [w w' Hp|win w|q t w|q rest w Hq|q v s rest w Hq
                 |r c win rest w Hq].
  - destruct Hp as [q a b w|q w|q v s w|q v s w|q w|c v w].
    + destruct (decide (q = p)) as [->|Hne], b as [c|]; eauto.
      all: rewrite mHadRejectCallback_AppendCallbacks_other in Ht by auto;
        congruence.
    + rewrite (field_updPromise mHadRejectCallback) in Ht by done. congruence.
    + rewrite promiseAt_DispatchToCurrentThread in Ht. congruence.
    + unfold SetState, SetResult in Ht.
      rewrite !(field_updPromise mHadRejectCallback) in Ht by done. congruence.
    + rewrite (field_updPromise mHadRejectCallback) in Ht by done. congruence.
    + rewrite promiseAt_recordInvocation in Ht. congruence.
  - rewrite promiseAt_allocPromise in Ht. case_decide; [done|congruence].
  - change (promiseAt (snd (CreateFunction true q t w)) p)
      with (promiseAt w p) in Ht. congruence.
  - rewrite (field_updPromise mHadRejectCallback) in Ht by done.
    rewrite promiseAt_withEventQueue in Ht. congruence.
  - rewrite promiseAt_withEventQueue in Ht. congruence.
  - rewrite promiseAt_recordReport, promiseAt_withEventQueue in Ht. congruence.
Qed.

(** C2: at teardown ([Promise_destructor], also after [Promise_Unlink])
    exactly one error report is dispatched when the promise is [Rejected],
    [mHadRejectCallback] is false and the result is an error object, and
    none otherwise.  A reject callback appended at any time before the
    teardown suppresses the report, whatever the program does in between;
    the flag is set by appending a reject callback and by nothing else; a
    promise rejected with an error object and never given a reject callback
    is reported exactly once. *)
Theorem unhandled_rejection_reported_at_teardown :
  (* one report exactly under the three conditions, none otherwise *)
  (forall w this,
     dispatchedReports (Promise_destructor this w)
     = dispatchedReports w + (if reportable (promiseAt w this) then 1 else 0)
     /\ dispatchedReports (Promise_destructor this (Promise_Unlink this w))
        = dispatchedReports w
          + (if reportable (promiseAt w this) then 1 else 0)
     /\ (reportable (promiseAt w this) = true
         <-> mState (promiseAt w this) = Rejected
             /\ mHadRejectCallback (promiseAt w this) = false
             /\ is_Some (ErrorFromException (mResult (promiseAt w this)))))
  (* a reject callback attached at any time before the drop suppresses it *)
  /\ (forall w this a c w',
        this < length (heap w) ->
        rtc Step (AppendCallbacks this a (Some c) w) w' ->
        dispatchedReports (Promise_destructor this w') = dispatchedReports w'
        /\ dispatchedReports (Promise_destructor this (Promise_Unlink this w'))
           = dispatchedReports w')
  (* the flag is set by attaching a reject callback and by nothing else *)
  /\ (forall w w' this,
        mutation w w' ->
        mHadRejectCallback (promiseAt w this) = false ->
        mHadRejectCallback (promiseAt w' this) = true ->
        exists a c, w' = AppendCallbacks this a (Some c) w)
  (* rejected with an error object, never observed: one report *)
  /\ (forall w this report sys glob,
        mState (promiseAt w this) = Rejected ->
        mHadRejectCallback (promiseAt w this) = false ->
        mResult (promiseAt w this) = ObjectValue (ErrorObject report sys glob) ->
        dispatchedReports (Promise_destructor this w) = S (dispatchedReports w)
        /\ exists isChromeError win,
             MaybeReportRejected this w
             = NS_DispatchToMainThread
                 (AsyncErrorReporter report isChromeError win) w).
Proof.
  split; [|split; [|split]].
  - intros w this. split; [apply dispatchedReports_destructor|].
    split; [apply dispatchedReports_Unlink_destructor|apply reportable_iff].
  - intros w this a c w' Hin Hsteps.
    assert (mHadRejectCallback (promiseAt w' this) = true) as Hflag.
    { eapply mutations_mHadRejectCallback; [by apply Steps_mutations|].
      by apply mHadRejectCallback_AppendCallbacks_Some. }
    rewrite dispatchedReports_destructor, dispatchedReports_Unlink_destructor.
    rewrite (reportable_observed _ Hflag). lia.
  - intros w w' this. apply mutation_sets_mHadRejectCallback.
  - intros w this report sys glob Hst Hflag Hres.
    assert (reportable (promiseAt w this) = true) as Hrep.
    { apply reportable_iff. rewrite Hres. simpl. eauto. }
    split.
    + rewrite dispatchedReports_destructor, Hrep. lia.
    + destruct (MaybeReportRejected_spec this w) as [Hyes _].
      destruct (Hyes Hrep) as (r & ch & win & He & Heq).
      rewrite Hres in He. simpl in He. inversion He; subst. eauto.
Qed.

(** C9: resolving a promise with an inner promise marks the rejection of
    the inner promise as observed.  [ResolveInternal] appends a reject
    adapter to the inner promise through [AppendCallbacks], which sets its
    [mHadRejectCallback]; the flag stays set through every later operation,
    so the teardown of the inner promise never dispatches a report, even when
    it is rejected and its rejection is only forwarded. *)
Theorem chained_promise_is_observed fuel this aValue inner sync w w' :
  nextPromiseOf aValue = Some inner ->
  inner < length (heap w) ->
  ResolveInternal fuel this aValue sync w = Ok w' ->
  mHadRejectCallback (promiseAt w' inner) = true
  /\ RejectPromiseCallback this ∈ mRejectCallbacks (promiseAt w' inner)
  /\ forall w'',
       rtc Step w' w'' ->
       mHadRejectCallback (promiseAt w'' inner) = true
       /\ MaybeReportRejected inner w'' = w''
       /\ dispatchedReports (Promise_destructor inner w'')
          = dispatchedReports w''
       /\ dispatchedReports
            (Promise_destructor inner (Promise_Unlink inner w''))
          = dispatchedReports w''.
Proof.
  intros Hv Hin H. rewrite (ResolveInternal_chain _ _ _ inner) in H by done.
  inversion H; subst w'. clear H.
  assert (inner < length (heap (updPromise this (set_mResolvePending true) w)))
    as Hin1 by (by rewrite length_heap_updPromise).
  pose proof (mHadRejectCallback_AppendCallbacks_Some inner
                (Some (ResolvePromiseCallback this))
                (RejectPromiseCallback this) _ Hin1) as Hflag.
  split; [done|]. split.
  - destruct (callbacks_AppendCallbacks inner (ResolvePromiseCallback this)
                (RejectPromiseCallback this) _ Hin1) as [_ ->].
    apply elem_of_app. right. constructor.
  - intros w'' Hsteps.
    assert (mHadRejectCallback (promiseAt w'' inner) = true) as Hflag'.
    { eapply mutations_mHadRejectCallback; [by apply Steps_mutations|done]. }
    pose proof (reportable_observed _ Hflag') as Hrep.
    split; [done|]. split.
    + by apply MaybeReportRejected_spec.
    + rewrite dispatchedReports_destructor, dispatchedReports_Unlink_destructor.
      rewrite Hrep. lia.
Qed.

(** ** The constructor *)

Lemma prim_functions w w' : prim w w' -> functions w' = functions w.
Proof. destruct 1; try done. apply functions_AppendCallbacks. Qed.

Lemma prims_functions w w' : rtc prim w w' -> functions w' = functions w.
Proof.
  induction 1 as [|x y z Hxy _ IH]; [done|].
  rewrite IH. by apply prim_functions.
Qed.

Lemma Constructor_unfold fuel aGlobal aInit w win :
  windowOfGlobal aGlobal w = Some win ->
  canCreateResolveFunc aGlobal = true ->
  canCreateRejectFunc aGlobal = true ->
  Constructor fuel aGlobal aInit w
  = (w1 <- runExecutorSteps fuel (length (functions w))
             (S (length (functions w))) (initSteps aInit)
             (constructorStore win w);;
     match initThrows aInit with
     | Some exn =>
         w' <- MaybeRejectInternal fuel (length (heap w)) (Some exn)
                 defaultTaskSync w1;;
         Ok (Some (length (heap w)), w')
     | None => Ok (Some (length (heap w)), w1)
     end).
Proof.
  intros Hwin H1 H2. unfold Constructor, constructorStore.
  rewrite Hwin, H1, H2. unfold PromiseInit_Call.
  unfold allocPromise, CreateFunction. cbn [fst snd functions].
  rewrite length_app. cbn [length]. rewrite Nat.add_1_r.
  destruct (runExecutorSteps _ _ _ _ _); done.
Qed.

Lemma constructorStore_spec win w :
  let w0 := constructorStore win w in
  functions w0 !! length (functions w)
  = Some (length (heap w), PromiseCallback_Resolve)
  /\ functions w0 !! S (length (functions w))
     = Some (length (heap w), PromiseCallback_Reject)
  /\ promiseAt w0 (length (heap w)) = new_Promise win
  /\ length (heap w0) = S (length (heap w))
  /\ eventQueue w0 = eventQueue w.
Proof.
  cbv zeta. unfold constructorStore. cbn [CreateFunction snd functions].
  split; [|split; [|split; [|split]]].
  - rewrite lookup_app_l by (rewrite length_app; simpl; lia).
    by rewrite lookup_app_r, Nat.sub_diag.
  - rewrite lookup_app_r by (rewrite length_app; simpl; lia).
    rewrite length_app. simpl.
    by replace (S (length (functions w)) - (length (functions w) + 1)) with 0
      by lia.
  - apply promiseAt_allocPromise_new.
  - apply length_heap_allocPromise.
  - done.
Qed.

(** C7: the constructor runs the executor within the call, with a
    resolve and a reject capability that are settlement requests
    ([MaybeResolveInternal], [MaybeRejectInternal]) on the new promise, and
    it returns the promise whatever the executor does.  When the executor
    throws before calling a capability the thrown value becomes the
    rejection value; once a capability was called, nothing the executor does
    afterwards, a throw included, changes the outcome: after
    [resolveCap(v1)] with a plain [v1] the promise ends fulfilled with
    [v1]. *)
Theorem constructor_runs_executor fuel aGlobal aInit w win :
  windowOfGlobal aGlobal w = Some win ->
  canCreateResolveFunc aGlobal = true ->
  canCreateRejectFunc aGlobal = true ->
  let promise := length (heap w) in
  let resolveFunc := length (functions w) in
  let rejectFunc := S (length (functions w)) in
  (* the executor runs inside the constructor, with two capabilities that
     are settlement requests on the new promise *)
  (Constructor fuel aGlobal aInit w
   = (w1 <- runExecutorSteps fuel resolveFunc rejectFunc (initSteps aInit)
              (constructorStore win w);;
      match initThrows aInit with
      | Some exn =>
          w' <- MaybeRejectInternal fuel promise (Some exn)
                  defaultTaskSync w1;;
          Ok (Some promise, w')
      | None => Ok (Some promise, w1)
      end)
   /\ (forall args w1,
         functions w1 !! resolveFunc = Some (promise, PromiseCallback_Resolve) ->
         JSCallback fuel resolveFunc args w1
         = (w' <- MaybeResolveInternal fuel promise
                    (Some (match args with [] => UndefinedValue | a :: _ => a end))
                    defaultTaskSync w1;;
            Ok (true, w')))
   /\ (forall args w1,
         functions w1 !! rejectFunc = Some (promise, PromiseCallback_Reject) ->
         JSCallback fuel rejectFunc args w1
         = (w' <- MaybeRejectInternal fuel promise
                    (Some (match args with [] => UndefinedValue | a :: _ => a end))
                    defaultTaskSync w1;;
            Ok (true, w'))))
  (* the promise is returned whatever the executor does *)
  /\ (exists w', Constructor fuel aGlobal aInit w = Ok (Some promise, w'))
  (* an executor that throws before any call *)
  /\ (forall exn,
        initSteps aInit = [] -> initThrows aInit = Some exn ->
        Constructor fuel aGlobal aInit w
        = Ok (Some promise,
              DispatchToCurrentThread (PromiseResolverTask promise exn Rejected)
                (updPromise promise (set_mResolvePending true)
                   (constructorStore win w)))
        /\ (Reachable w -> eventQueue w = [] ->
            exists w' n w'',
              Constructor fuel aGlobal aInit w = Ok (Some promise, w')
              /\ ProcessNextEvent n w' = Ok w''
              /\ mState (promiseAt w'' promise) = Rejected
              /\ mResult (promiseAt w'' promise) = exn))
  (* after the first call of a capability nothing the executor does,
     its throwing included, changes the outcome *)
  /\ (forall step rest,
        initSteps aInit = step :: rest ->
        Constructor fuel aGlobal aInit w
        = Constructor fuel aGlobal (mkPromiseInit [step] None) w)
  (* resolveCap(v1) first: fulfilled with v1 *)
  /\ (forall v1 more rest,
        initSteps aInit = CallResolveFunc (v1 :: more) :: rest ->
        nextPromiseOf (Some v1) = None ->
        Reachable w -> eventQueue w = [] ->
        exists w' n w'',
          Constructor fuel aGlobal aInit w = Ok (Some promise, w')
          /\ mState (promiseAt w' promise) = Pending
          /\ ProcessNextEvent n w' = Ok w''
          /\ mState (promiseAt w'' promise) = Resolved
          /\ mResult (promiseAt w'' promise) = v1).
Proof.
  intros Hwin Hc1 Hc2. cbv zeta.
  pose proof (Constructor_unfold fuel aGlobal aInit w win Hwin Hc1 Hc2) as HC.
  destruct (constructorStore_spec win w) as (Hf1 & Hf2 & Hnew & Hlen & Hq0).
  set (w0 := constructorStore win w) in *.
  set (promise := length (heap w)) in *.
  (* what the first capability call does *)
  assert (forall step rest,
            initSteps aInit = step :: rest ->
            exists w1,
              runExecutorSteps fuel (length (functions w))
                (S (length (functions w))) [step] w0 = Ok w1
              /\ runExecutorSteps fuel (length (functions w))
                   (S (length (functions w))) (step :: rest) w0 = Ok w1
              /\ mResolvePending (promiseAt w1 promise) = true
              /\ Constructor fuel aGlobal aInit w = Ok (Some promise, w1))
    as Hfirst.
  { intros step rest Hsteps.
    assert (exists w1 b,
              (match step with
               | CallResolveFunc args =>
                   JSCallback fuel (length (functions w)) args w0
               | CallRejectFunc args =>
                   JSCallback fuel (S (length (functions w))) args w0
               end) = Ok (b, w1)
              /\ mResolvePending (promiseAt w1 promise) = true
              /\ functions w1 = functions w0) as (w1 & b & Hcall & Hp & Hfs).
    { destruct step as [args|args].
      - rewrite (JSCallback_capability _ _ _ promise PromiseCallback_Resolve)
          by done.
        destruct (MaybeResolveInternal_async_Ok fuel promise
                    (Some (match args with [] => UndefinedValue | a :: _ => a end))
                    w0) as [w1 He].
        unfold defaultTaskSync. rewrite He. exists w1, true.
        split; [done|]. split.
        + eapply MaybeResolveInternal_sets_pending; [|exact He]. lia.
        + by apply MaybeResolveInternal_prims, prims_functions in He.
      - rewrite (JSCallback_capability _ _ _ promise PromiseCallback_Reject)
          by done.
        destruct (MaybeRejectInternal_async_Ok fuel promise
                    (Some (match args with [] => UndefinedValue | a :: _ => a end))
                    w0) as [w1 He].
        unfold defaultTaskSync. rewrite He. exists w1, true.
        split; [done|]. split.
        + eapply MaybeRejectInternal_sets_pending; [|exact He]. lia.
        + by apply MaybeRejectInternal_prims, prims_functions in He. }
    assert (forall l,
              runExecutorSteps fuel (length (functions w))
                (S (length (functions w))) (step :: l) w0 = Ok w1) as Hrun.
    { intros l. cbn [runExecutorSteps].
      destruct step; rewrite Hcall; cbn [bind snd];
        apply (runExecutorSteps_pending _ _ _ promise);
        rewrite ?Hfs; done. }
    exists w1. split; [apply Hrun|]. split; [apply Hrun|]. split; [done|].
    rewrite HC, Hsteps, Hrun. cbn [bind].
    destruct (initThrows aInit); [|done].
    by rewrite MaybeRejectInternal_pending. }
  split; [|split; [|split; [|split]]].
  - split; [exact HC|]. split.
    + intros args w1 Hf.
      by rewrite (JSCallback_capability _ _ _ promise PromiseCallback_Resolve).
    + intros args w1 Hf.
      by rewrite (JSCallback_capability _ _ _ promise PromiseCallback_Reject).
  - destruct (initSteps aInit) as [|step rest] eqn:Hsteps.
    + rewrite HC. cbn [runExecutorSteps bind].
      destruct (initThrows aInit) as [exn|]; [|eauto].
      destruct (MaybeRejectInternal_async_Ok fuel promise (Some exn) w0)
        as [w' He].
      unfold defaultTaskSync. rewrite He. eauto.
    + destruct (Hfirst step rest eq_refl) as (w1 & _ & _ & _ & ->). eauto.
  - intros exn Hsteps Hthrows.
    assert (Constructor fuel aGlobal aInit w
            = Ok (Some promise,
                  DispatchToCurrentThread
                    (PromiseResolverTask promise exn Rejected)
                    (updPromise promise (set_mResolvePending true) w0)))
      as HCe.
    { rewrite HC, Hsteps, Hthrows. cbn [runExecutorSteps bind].
      unfold defaultTaskSync.
      rewrite MaybeRejectInternal_first by (by rewrite Hnew).
      by rewrite RejectInternal_async. }
    split; [done|]. intros Hreach Hq.
    set (w' := DispatchToCurrentThread _ _) in HCe.
    assert (Reachable w') as Hreach'.
    { eapply Reachable_Step; [exact Hreach|]. by eapply Step_Constructor. }
    destruct (run_settlement_task w' promise exn Rejected []
                (Reachable_single _ Hreach'))
      as (n & w'' & Hrun & Hst & Hres & _); [|done|].
    { transitivity (eventQueue w0 ++ [PromiseResolverTask promise exn Rejected]);
        [done|by rewrite Hq0, Hq]. }
    exists w', n, w''. by repeat split.
  - intros step rest Hsteps.
    destruct (Hfirst step rest Hsteps) as (w1 & Hrun1 & _ & _ & ->).
    rewrite (Constructor_unfold fuel aGlobal (mkPromiseInit [step] None) w win)
      by done.
    cbn [initSteps initThrows]. fold w0. by rewrite Hrun1.
  - intros v1 more rest Hsteps Hv Hreach Hq.
    destruct (Hfirst _ rest Hsteps) as (w1 & Hrun1 & _ & _ & HCe).
    cbn [runExecutorSteps] in Hrun1.
    rewrite (JSCallback_capability _ _ _ promise PromiseCallback_Resolve)
      in Hrun1 by done.
    unfold defaultTaskSync in Hrun1.
    rewrite MaybeResolveInternal_first in Hrun1 by (by rewrite Hnew).
    rewrite ResolveInternal_async_plain in Hrun1 by done.
    cbn [bind snd] in Hrun1. inversion Hrun1 as [Hw1]. clear Hrun1.
    assert (Reachable w1) as Hreach1.
    { eapply Reachable_Step; [exact Hreach|]. by eapply Step_Constructor. }
    destruct (run_settlement_task w1 promise v1 Resolved []
                (Reachable_single _ Hreach1))
      as (n & w'' & Hrun & Hst & Hres & _); [|done|].
    { rewrite <-Hw1.
      transitivity (eventQueue w0 ++ [PromiseResolverTask promise v1 Resolved]);
        [done|by rewrite Hq0, Hq]. }
    exists w1, n, w''. repeat split; try done.
    rewrite <-Hw1. rewrite promiseAt_DispatchToCurrentThread.
    rewrite (field_updPromise mState) by done. by rewrite Hnew.
Qed.

(** ** A queued settlement decides the promise *)

Lemma growth_eventQueue w w' :
  growth w w' -> eventQueue w `prefix_of` eventQueue w'.
Proof. destruct 1; [by apply prim_eventQueue|done|done]. Qed.

Lemma growths_eventQueue w w' :
  rtc growth w w' -> eventQueue w `prefix_of` eventQueue w'.
Proof.
  induction 1 as [|x y z Hxy _ IH]; [done|].
  etrans; [by apply growth_eventQueue|done].
Qed.

Lemma elem_of_prefix {A} (x : A) (l1 l2 : list A) :
  l1 `prefix_of` l2 -> x ∈ l1 -> x ∈ l2.
Proof. intros [k ->] Hx. apply elem_of_app. by left. Qed.

Lemma resolverTasks_elem p v s q :
  PromiseResolverTask p v s ∈ q -> 1 <= resolverTasks p q.
Proof.
  intros Hin. induction q as [|r q IH]; [by inversion Hin|].
  apply elem_of_cons in Hin as [<-|Hin]; simpl.
  - rewrite decide_True by done. lia.
  - specialize (IH Hin). destruct r; lia.
Qed.

(** While its settlement task waits in the queue a promise is pending. *)
Lemma queued_settlement_pending w p v s :
  singleSettlement [] w ->
  PromiseResolverTask p v s ∈ eventQueue w ->
  mState (promiseAt w p) = Pending.
Proof.
  intros (_ & _ & Hlive) Hin. apply resolverTasks_elem in Hin.
  destruct (Hlive p) as [_ ?]; [|done]. unfold sources. lia.
Qed.

(** One operation later the task is still waiting, or it has run and the
    promise has the state and the result the task carried. *)
Lemma queued_settlement_step w w' p v s :
  singleSettlement [] w -> s <> Pending ->
  PromiseResolverTask p v s ∈ eventQueue w ->
  Step w w' ->
  PromiseResolverTask p v s ∈ eventQueue w'
  \/ (mState (promiseAt w' p) = s /\ mResult (promiseAt w' p) = v).
Proof.
  intros Hinv Hs Hin Hstep.
  destruct Hstep as [fuel g i w r w' H|fuel g x w r w' H|fuel g x w r w' H
                    |this a b w|fuel callee args w r w' H|fuel w w' H].
  - left. eapply elem_of_prefix; [|exact Hin].
    by eapply growths_eventQueue, Constructor_growth.
  - left. eapply elem_of_prefix; [|exact Hin].
    by eapply growths_eventQueue, Resolve_growth.
  - left. eapply elem_of_prefix; [|exact Hin].
    by eapply growths_eventQueue, Reject_growth.
  - left. eapply elem_of_prefix; [|exact Hin].
    apply growths_eventQueue, Then_growth.
  - left. eapply elem_of_prefix; [|exact Hin].
    by eapply growths_eventQueue, JSCallback_growth.
  - unfold ProcessNextEvent in H.
    destruct (eventQueue w) as [|r rest] eqn:Hq; [by inversion Hin|].
    destruct (decide (r = PromiseResolverTask p v s)) as [->|Hne].
    + right. unfold Runnable_Run in H.
      eapply (RunResolveTask_sync_result fuel []); [|done|exact H].
      by eapply pop_resolver_token.
    + left. apply elem_of_cons in Hin as [Heq|Hin]; [congruence|].
      assert (rest `prefix_of` eventQueue w') as Hpre.
      { destruct r as [q|q x s'|rp c win]; unfold Runnable_Run in H.
        - apply RunTask_prims, prims_eventQueue in H. exact H.
        - apply RunResolveTask_prims, prims_eventQueue in H. exact H.
        - inversion H; subst. done. }
      by eapply elem_of_prefix.
Qed.

Lemma queued_settlement_future w w' p v s :
  singleSettlement [] w -> s <> Pending ->
  (PromiseResolverTask p v s ∈ eventQueue w
   \/ (mState (promiseAt w p) = s /\ mResult (promiseAt w p) = v)) ->
  rtc Step w w' ->
  (PromiseResolverTask p v s ∈ eventQueue w'
   /\ mState (promiseAt w' p) = Pending)
  \/ (mState (promiseAt w' p) = s /\ mResult (promiseAt w' p) = v).
Proof.
  intros Hinv Hs HJ Hsteps. revert Hinv HJ.
  induction Hsteps as [w|w w1 w' Hstep _ IH]; intros Hinv HJ.
  - destruct HJ as [Hin|Hdone]; [left|by right].
    split; [done|]. by eapply queued_settlement_pending.
  - destruct (Step_single _ _ Hinv Hstep) as [Hinv1 Hk]. apply IH; [done|].
    destruct HJ as [Hin|[Hst Hres]].
    + eapply queued_settlement_step; [exact Hinv|exact Hs|exact Hin|exact Hstep].
    + right. destruct (Hk p) as [Hst' Hres']; [congruence|].
      split; congruence.
Qed.

(** C1, with the first value restricted to one that is not a promise: at
    most one settlement request on a promise takes effect.  The first call
    of [MaybeResolveInternal] or [MaybeRejectInternal] sets
    [mResolvePending] and every later call of either leaves the store as it
    is; after [resolveCap(v1)] followed by [rejectCap(v2)] the second call
    changed nothing and, [v1] not being a promise, the promise stays
    [Pending] until its queued settlement task runs and is [Resolved] with
    result [v1] from then on.  The state of a promise moves at most once,
    from [Pending]: a settled promise keeps its state and its result through
    every later operation. *)
Theorem first_settlement_request_wins w :
  Reachable w ->
  (* the first request sets mResolvePending, every later one is a no-op *)
  (forall fuel this v sync w',
     this < length (heap w) ->
     MaybeResolveInternal fuel this v sync w = Ok w'
     \/ MaybeRejectInternal fuel this v sync w = Ok w' ->
     mResolvePending (promiseAt w' this) = true
     /\ forall fuel' v' sync',
          MaybeResolveInternal fuel' this v' sync' w' = Ok w'
          /\ MaybeRejectInternal fuel' this v' sync' w' = Ok w')
  (* resolveCap(v1) followed by rejectCap(v2) on a promise not yet
     requested to settle *)
  /\ (forall fuel resolveFunc rejectFunc this v1 v2,
        functions w !! resolveFunc = Some (this, PromiseCallback_Resolve) ->
        functions w !! rejectFunc = Some (this, PromiseCallback_Reject) ->
        mResolvePending (promiseAt w this) = false ->
        exists w1,
          JSCallback fuel resolveFunc [v1] w = Ok (true, w1)
          /\ JSCallback fuel rejectFunc [v2] w1 = Ok (true, w1)
          /\ (nextPromiseOf (Some v1) = None ->
              eventQueue w1
              = eventQueue w ++ [PromiseResolverTask this v1 Resolved]
              /\ (forall w',
                    rtc Step w1 w' ->
                    (PromiseResolverTask this v1 Resolved ∈ eventQueue w'
                     /\ mState (promiseAt w' this) = Pending)
                    \/ (mState (promiseAt w' this) = Resolved
                        /\ mResult (promiseAt w' this) = v1))
              /\ (eventQueue w = [] ->
                  exists n w2,
                    ProcessNextEvent n w1 = Ok w2
                    /\ mState (promiseAt w2 this) = Resolved
                    /\ mResult (promiseAt w2 this) = v1)))
  (* a settled promise keeps its state and result through every later
     operation *)
  /\ (forall w' p,
        rtc Step w w' ->
        mState (promiseAt w p) <> Pending ->
        mState (promiseAt w' p) = mState (promiseAt w p)
        /\ mResult (promiseAt w' p) = mResult (promiseAt w p)).
Proof.
  intros Hreach. pose proof (Reachable_single _ Hreach) as Hinv.
  split; [|split].
  - intros fuel this v sync w' Hin Hcall.
    assert (mResolvePending (promiseAt w' this) = true) as Hp.
    { destruct Hcall as [H|H].
      - by eapply MaybeResolveInternal_sets_pending.
      - by eapply MaybeRejectInternal_sets_pending. }
    split; [done|]. intros fuel' v' sync'.
    by rewrite MaybeResolveInternal_pending, MaybeRejectInternal_pending.
  - intros fuel resolveFunc rejectFunc this v1 v2 Hf1 Hf2 Hp.
    destruct (open_capability_free this w Hinv) as (Hin & Hst & Hfree);
      [by eapply hasFunction_lookup|done|].
    rewrite (JSCallback_capability _ _ _ this PromiseCallback_Resolve) by done.
    unfold defaultTaskSync. rewrite MaybeResolveInternal_first by done.
    destruct (ResolveInternal_async_spec fuel this (Some v1) w Hin)
      as (w1 & He & _ & _ & Hp1 & _).
    rewrite He. cbn [bind]. exists w1. split; [done|].
    assert (functions w1 = functions w) as Hfs.
    { by apply ResolveInternal_prims, prims_functions in He. }
    split.
    { apply (JSCallback_pending _ _ _ this PromiseCallback_Reject);
        [by rewrite Hfs|done]. }
    intros Hv.
    assert (Reachable w1) as Hreach1.
    { eapply Reachable_Step; [exact Hreach|].
      eapply (Step_JSCallback fuel resolveFunc [v1]).
      rewrite (JSCallback_capability _ _ _ this PromiseCallback_Resolve)
        by done.
      unfold defaultTaskSync. rewrite MaybeResolveInternal_first by done.
      by rewrite He. }
    pose proof (Reachable_single _ Hreach1) as Hinv1.
    rewrite ResolveInternal_async_plain in He by done.
    assert (eventQueue w1
            = eventQueue w ++ [PromiseResolverTask this v1 Resolved]) as Hq1.
    { by inversion He. }
    split; [done|]. split.
    + intros w' Hsteps.
      apply (queued_settlement_future w1 w' this v1 Resolved); try done.
      left. rewrite Hq1. apply elem_of_app. right. constructor.
    + intros Hq.
      destruct (run_settlement_task w1 this v1 Resolved [] Hinv1)
        as (n & w2 & Hrun & Hst2 & Hres2 & _); [by rewrite Hq1, Hq|done|].
      by exists n, w2.
  - intros w' p Hsteps Hp.
    destruct (Steps_single _ _ Hinv Hsteps) as [_ Hk]. by apply Hk.
Qed.

(** ** Draining after registrations *)

Lemma thenAll_Steps this regs w : rtc Step w (thenAll this regs w).
Proof.
  revert w. induction regs as [|r rest IH]; intros w; [done|].
  rewrite thenAll_cons. eapply rtc_l; [apply Step_Then|apply IH].
Qed.

(** A drain of a settled promise whose callbacks all settle promises from
    [n0] on completes and records the script callbacks it took, in order. *)
Lemma drain_invocations n0 this w :
  wfTargets w ->
  statePending (promiseAt w this) = false ->
  Forall (fun c => n0 <= callbackTarget c) (takenCallbacks (promiseAt w this)) ->
  derivedClosed n0 w ->
  exists fuel w',
    RunTask fuel this w = Ok w'
    /\ invoked w'
       = invoked w
         ++ userInvocations (takenCallbacks (promiseAt w this))
              (mResult (promiseAt w this)).
Proof.
  intros Hwf Hs Ht Hc.
  destruct (RunTask_completes this w Hwf Hs) as (fuel & w' & Hr & _).
  exists fuel, w'. split; [done|].
  by destruct (RunTask_invocations n0 fuel this w w' Ht Hc Hr).
Qed.

Lemma takenCallbacks_thenAll this regs w s :
  this < length (heap w) ->
  mResolveCallbacks (promiseAt w this) = [] ->
  mRejectCallbacks (promiseAt w this) = [] ->
  (if bool_decide (s = Resolved)
   then mResolveCallbacks (promiseAt (thenAll this regs w) this)
   else mRejectCallbacks (promiseAt (thenAll this regs w) this))
  = (if bool_decide (s = Resolved)
     then resolveCallbacksOf (length (heap w)) regs
     else rejectCallbacksOf (length (heap w)) regs).
Proof.
  intros Hin H1 H2.
  destruct (thenAll_spec this regs w Hin) as (_ & -> & -> & _).
  by rewrite H1, H2.
Qed.

Lemma userInvocations_thenAll s regs v n :
  userInvocations
    (if bool_decide (s = Resolved) then resolveCallbacksOf n regs
     else rejectCallbacksOf n regs) v
  = invocationsOf s regs v.
Proof.
  case_bool_decide as Hs.
  - subst. apply userInvocations_resolveCallbacksOf.
  - rewrite userInvocations_rejectCallbacksOf. unfold invocationsOf.
    by rewrite !bool_decide_eq_false_2.
Qed.

Lemma targets_thenAll s n0 regs :
  Forall (fun c => n0 <= callbackTarget c)
    (if bool_decide (s = Resolved) then resolveCallbacksOf n0 regs
     else rejectCallbacksOf n0 regs).
Proof.
  case_bool_decide; [by apply targets_resolveCallbacksOf
                    |by apply targets_rejectCallbacksOf].
Qed.

(** C5: [RunTask] asserts that the promise is settled; it takes the
    callback array of the disposition that matches the state, clears both
    arrays, so that callbacks appended afterwards start new arrays, and
    calls the taken callbacks one after the other, in the order of the
    array, with the result of the promise.  Continuations registered in some
    order on a pending promise are invoked in that order when the promise is
    settled. *)
Theorem drain_fires_callbacks_in_order :
  (* the precondition *)
  (forall fuel this w,
     mState (promiseAt w this) = Pending ->
     RunTask (S fuel) this w = AssertionFailure)
  (* the array of the disposition is taken, both arrays are cleared, the
     taken callbacks are called in order with the result *)
  /\ (forall fuel this w,
        mState (promiseAt w this) <> Pending ->
        RunTask (S fuel) this w
        = callCallbacks (RunTask fuel)
            (if bool_decide (mState (promiseAt w this) = Resolved)
             then mResolveCallbacks (promiseAt w this)
             else mRejectCallbacks (promiseAt w this))
            (mResult (promiseAt w this))
            (updPromise this clearCallbacks w)
        /\ mResolveCallbacks (promiseAt (updPromise this clearCallbacks w) this)
           = []
        /\ mRejectCallbacks (promiseAt (updPromise this clearCallbacks w) this)
           = []
        /\ forall c1 c2,
             mResolveCallbacks
               (promiseAt
                  (AppendCallbacks this (Some c1) (Some c2)
                     (updPromise this clearCallbacks w)) this) = [c1]
             /\ mRejectCallbacks
                  (promiseAt
                     (AppendCallbacks this (Some c1) (Some c2)
                        (updPromise this clearCallbacks w)) this) = [c2])
  /\ (forall fuel c rest v w,
        callCallbacks (RunTask fuel) (c :: rest) v w
        = (w' <- PromiseCallback_Call fuel c v w;;
           callCallbacks (RunTask fuel) rest v w'))
  (* continuations registered on a pending promise are invoked in the
     order of registration when its settlement task runs *)
  /\ (forall w this v s rest regs,
        Reachable w ->
        eventQueue w = PromiseResolverTask this v s :: rest ->
        s <> Pending ->
        mResolveCallbacks (promiseAt w this) = [] ->
        mRejectCallbacks (promiseAt w this) = [] ->
        exists n w',
          ProcessNextEvent n (thenAll this regs w) = Ok w'
          /\ mState (promiseAt w' this) = s
          /\ invoked w' = invoked w ++ invocationsOf s regs v).
Proof.
  split; [|split; [|split]].
  - intros fuel this w Hs.
    change (RunTask (S fuel)) with (RunTask_with (RunTask fuel)).
    apply RunTask_with_pending. unfold statePending.
    by apply bool_decide_eq_true.
  - intros fuel this w Hs.
    assert (statePending (promiseAt w this) = false) as Hsp.
    { unfold statePending. by apply bool_decide_eq_false. }
    pose proof (settled_in_heap _ _ Hsp) as Hin.
    split; [|split; [|split]].
    + change (RunTask (S fuel)) with (RunTask_with (RunTask fuel)).
      by rewrite RunTask_with_settled.
    + by rewrite promiseAt_updPromise_eq.
    + by rewrite promiseAt_updPromise_eq.
    + intros c1 c2.
      destruct (callbacks_AppendCallbacks this c1 c2
                  (updPromise this clearCallbacks w)) as [-> ->].
      { by rewrite length_heap_updPromise. }
      by rewrite promiseAt_updPromise_eq.
  - done.
  - intros w this v s rest regs Hreach Hq Hs Hres Hrej.
    pose proof (Reachable_single _ Hreach) as Hinv.
    assert (mState (promiseAt w this) = Pending) as Hpend.
    { eapply queued_settlement_pending; [done|]. rewrite Hq. constructor. }
    assert (this < length (heap w)) as Hin.
    { pose proof (pop_resolver_token this v s rest w Hinv Hq) as Htok.
      by destruct (singleSettlement_token_free _ _ _ Htok) as (_ & _ & ? & _). }
    destruct (thenAll_spec this regs w Hin)
      as (Hlen & Hres1 & Hrej1 & Hst1 & _ & Hi1 & Hq1 & Hwf1 & Hc1).
    set (w1 := thenAll this regs w) in *.
    assert (Reachable w1) as Hreach1.
    { eapply Reachable_Steps; [exact Hreach|apply thenAll_Steps]. }
    pose proof (Reachable_single _ Hreach1) as Hinv1.
    assert (eventQueue w1 = PromiseResolverTask this v s :: rest) as Hq1'.
    { rewrite Hq1. unfold needsDrainTask, statePending.
      by rewrite Hpend, Hq. }
    pose proof (pop_resolver_token this v s rest w1 Hinv1 Hq1') as Htok1.
    set (w2 := SetState this s (SetResult this v (withEventQueue rest w1))).
    assert (this < length (heap w1)) as Hin1 by lia.
    destruct (promiseAt_settle this v s (withEventQueue rest w1) Hin1)
      as [Hst2 Hres2]. fold w2 in Hst2, Hres2.
    assert (takenCallbacks (promiseAt w2 this)
            = if bool_decide (s = Resolved)
              then resolveCallbacksOf (length (heap w)) regs
              else rejectCallbacksOf (length (heap w)) regs) as Htk.
    { unfold takenCallbacks. rewrite Hst2. unfold w2, SetState, SetResult.
      rewrite (field_updPromise mResolveCallbacks),
        (field_updPromise mRejectCallbacks) by done.
      rewrite (field_updPromise mResolveCallbacks),
        (field_updPromise mRejectCallbacks) by done.
      rewrite !promiseAt_withEventQueue, Hres1, Hrej1, Hres, Hrej. done. }
    destruct (drain_invocations (length (heap w)) this w2)
      as (n & w' & Hrun & Hi).
    { unfold w2, SetState, SetResult.
      apply wfTargets_updPromise; [by intros x|].
      apply wfTargets_updPromise; [by intros x|].
      by apply singleSettlement_wfTargets in Hinv1. }
    { unfold statePending. rewrite Hst2. by apply bool_decide_eq_false. }
    { rewrite Htk. apply targets_thenAll. }
    { unfold w2, SetState, SetResult.
      apply derivedClosed_updPromise; [by intros x|].
      apply derivedClosed_updPromise; [by intros x|].
      apply (Hc1 (length (heap w))); [done|apply derivedClosed_fresh]. }
    exists n, w'. unfold ProcessNextEvent. rewrite Hq1'.
    unfold Runnable_Run, RunResolveTask, RunResolveTask_with. fold w2.
    split; [done|]. split.
    + by destruct (RunResolveTask_sync_result n [] this v s
                     (withEventQueue rest w1) w' Htok1 Hs Hrun).
    + rewrite Hi, Htk, Hres2, userInvocations_thenAll.
      f_equal. unfold w2. simpl. exact Hi1.
Qed.

(** The turn of the event loop that runs the drain task of a settled
    promise on which [regs] were registered since it last drained. *)
Lemma drain_after_thenAll w this regs :
  Reachable w ->
  mState (promiseAt w this) <> Pending ->
  mResolveCallbacks (promiseAt w this) = [] ->
  mRejectCallbacks (promiseAt w this) = [] ->
  eventQueue w = [] ->
  regs <> [] ->
  mTaskPending (promiseAt w this) = false
  /\ eventQueue (thenAll this regs w) = [PromiseTask this]
  /\ invoked (thenAll this regs w) = invoked w
  /\ exists n w',
       ProcessNextEvent n (thenAll this regs w) = Ok w'
       /\ invoked w'
          = invoked w
            ++ invocationsOf (mState (promiseAt w this)) regs
                 (mResult (promiseAt w this)).
Proof.
  intros Hreach Hs Hres Hrej Hq Hregs.
  assert (statePending (promiseAt w this) = false) as Hsp.
  { unfold statePending. by apply bool_decide_eq_false. }
  pose proof (settled_in_heap _ _ Hsp) as Hin.
  assert (mTaskPending (promiseAt w this) = false) as Hflag.
  { pose proof (Reachable_drainCoalesced _ Hreach this) as Hd.
    rewrite Hq in Hd. by destruct (mTaskPending _). }
  destruct (thenAll_spec this regs w Hin)
    as (Hlen & Hres1 & Hrej1 & Hst1 & Hr1 & Hi1 & Hq1 & Hwf1 & Hc1).
  set (w1 := thenAll this regs w) in *.
  assert (eventQueue w1 = [PromiseTask this]) as Hq1'.
  { rewrite Hq1. unfold needsDrainTask. rewrite Hsp, Hflag, Hq.
    by rewrite (bool_decide_eq_false_2 (regs = [])). }
  split; [done|]. split; [done|]. split; [done|].
  assert (Reachable w1) as Hreach1.
  { eapply Reachable_Steps; [exact Hreach|apply thenAll_Steps]. }
  set (w2 := updPromise this (set_mTaskPending false) (withEventQueue [] w1)).
  assert (forall g : Promise -> list PromiseCallback,
            (forall b x, g (set_mTaskPending b x) = g x) ->
            g (promiseAt w2 this) = g (promiseAt w1 this)) as Hg.
  { intros g Hg. unfold w2. by rewrite (field_updPromise g). }
  assert (takenCallbacks (promiseAt w2 this)
          = if bool_decide (mState (promiseAt w this) = Resolved)
            then resolveCallbacksOf (length (heap w)) regs
            else rejectCallbacksOf (length (heap w)) regs) as Htk.
  { unfold takenCallbacks.
    rewrite (Hg mResolveCallbacks), (Hg mRejectCallbacks) by done.
    unfold w2. rewrite (field_updPromise mState) by done.
    rewrite promiseAt_withEventQueue, Hst1, Hres1, Hrej1, Hres, Hrej. done. }
  destruct (drain_invocations (length (heap w)) this w2)
    as (n & w' & Hrun & Hi).
  { unfold w2. apply wfTargets_updPromise; [by intros x|].
    by apply Reachable_wfTargets in Hreach1. }
  { unfold w2, statePending. rewrite (field_updPromise mState) by done.
    rewrite promiseAt_withEventQueue, Hst1. by apply bool_decide_eq_false. }
  { rewrite Htk. apply targets_thenAll. }
  { unfold w2. apply derivedClosed_updPromise; [by intros x|].
    apply (Hc1 (length (heap w))); [done|apply derivedClosed_fresh]. }
  exists n, w'. unfold ProcessNextEvent. rewrite Hq1'.
  unfold Runnable_Run. fold w2. split; [done|].
  rewrite Hi, Htk, userInvocations_thenAll.
  unfold w2 at 2. rewrite (field_updPromise mResult) by done.
  rewrite promiseAt_withEventQueue, Hr1. f_equal. exact Hi1.
Qed.

(** C6: [AppendCallbacks] dispatches a drain task only when the promise
    is settled and [mTaskPending] is false, and sets the flag; the task
    clears the flag before [RunTask] reads the arrays, so the task serves
    every callback appended before it runs: a series of registrations on a
    settled promise dispatches one task, and that task invokes them all.  In
    every reachable store the queue holds one drain task of a promise when
    its flag is set and none otherwise, hence never two. *)
Theorem drain_task_is_coalesced :
  (* when [AppendCallbacks] dispatches a drain task *)
  (forall w this a b,
     let w' := AppendCallbacks this a b w in
     eventQueue w'
     = (if negb (statePending (promiseAt w this))
           && negb (mTaskPending (promiseAt w this))
        then eventQueue w ++ [PromiseTask this] else eventQueue w)
     /\ mTaskPending (promiseAt w' this)
        = (mTaskPending (promiseAt w this)
           || negb (statePending (promiseAt w this)))
     /\ eventQueue (AppendCallbacks this a b w')
        = eventQueue w')
  (* the task clears the flag, then drains what the store holds then *)
  /\ (forall fuel this w,
        Runnable_Run fuel (PromiseTask this) w
        = RunTask fuel this (updPromise this (set_mTaskPending false) w)
        /\ mTaskPending
             (promiseAt (updPromise this (set_mTaskPending false) w) this)
           = false
        /\ takenCallbacks
             (promiseAt (updPromise this (set_mTaskPending false) w) this)
           = takenCallbacks (promiseAt w this))
  (* all the registrations made before the task runs are served by it *)
  /\ (forall w this regs,
        Reachable w ->
        mState (promiseAt w this) <> Pending ->
        mResolveCallbacks (promiseAt w this) = [] ->
        mRejectCallbacks (promiseAt w this) = [] ->
        eventQueue w = [] ->
        regs <> [] ->
        eventQueue (thenAll this regs w) = [PromiseTask this]
        /\ exists n w',
             ProcessNextEvent n (thenAll this regs w) = Ok w'
             /\ invoked w'
                = invoked w
                  ++ invocationsOf (mState (promiseAt w this)) regs
                       (mResult (promiseAt w this)))
  (* never two drain tasks of one promise in the queue *)
  /\ (forall w this,
        Reachable w ->
        drainTasks this (eventQueue w)
        = (if mTaskPending (promiseAt w this) then 1 else 0)
        /\ drainTasks this (eventQueue w) <= 1).
Proof.
  split; [|split; [|split]].
  - intros w this a b. cbv zeta.
    pose proof (eventQueue_AppendCallbacks this a b w) as Hq.
    pose proof (mTaskPending_AppendCallbacks this a b w this) as Hf.
    rewrite decide_True in Hf by done.
    split; [exact Hq|]. split; [exact Hf|].
    rewrite (eventQueue_AppendCallbacks this a b (AppendCallbacks this a b w)).
    unfold needsDrainTask. rewrite Hf.
    assert (statePending (promiseAt (AppendCallbacks this a b w) this)
            = statePending (promiseAt w this)) as ->.
    { unfold statePending. by rewrite mState_AppendCallbacks. }
    by destruct (statePending (promiseAt w this)),
      (mTaskPending (promiseAt w this)).
  - intros fuel this w. split; [done|]. split.
    + destruct (decide (this < length (heap w))) as [Hin|Hout].
      * by rewrite promiseAt_updPromise_eq.
      * rewrite updPromise_outside by lia.
        by rewrite promiseAt_outside by lia.
    + unfold takenCallbacks.
      by rewrite (field_updPromise mState),
        (field_updPromise mResolveCallbacks),
        (field_updPromise mRejectCallbacks).
  - intros w this regs Hreach Hs Hres Hrej Hq Hregs.
    destruct (drain_after_thenAll w this regs Hreach Hs Hres Hrej Hq Hregs)
      as (_ & Hq1 & _ & Hrun). done.
  - intros w this Hreach.
    pose proof (Reachable_drainCoalesced _ Hreach this) as Hd.
    split; [done|]. rewrite Hd. by destruct (mTaskPending _); lia.
Qed.

(** C8: a callback registered on a promise that is already settled is
    invoked once, in a later task.  The registration invokes nothing: it
    dispatches a drain task, and the callback of the disposition of the
    promise is invoked, once, with the result of the promise, when that task
    runs in the next turn of the event loop. *)
Theorem late_registration_runs_in_a_later_task :
  (* registering calls nothing *)
  (forall w this a b,
     invoked (snd (Then this a b w)) = invoked w
     /\ forall c1 c2, invoked (AppendCallbacks this c1 c2 w) = invoked w)
  (* on a fulfilled promise the fulfil continuation runs once, in the drain
     task the registration dispatched *)
  /\ (forall w this c other,
        Reachable w ->
        mState (promiseAt w this) = Resolved ->
        mResolveCallbacks (promiseAt w this) = [] ->
        mRejectCallbacks (promiseAt w this) = [] ->
        eventQueue w = [] ->
        let w1 := snd (Then this (Some c) other w) in
        invoked w1 = invoked w
        /\ eventQueue w1 = [PromiseTask this]
        /\ exists n w2,
             ProcessNextEvent n w1 = Ok w2
             /\ invoked w2
                = invoked w ++ [(callbackId c, mResult (promiseAt w this))])
  (* on a rejected promise the reject continuation does *)
  /\ (forall w this c other,
        Reachable w ->
        mState (promiseAt w this) = Rejected ->
        mResolveCallbacks (promiseAt w this) = [] ->
        mRejectCallbacks (promiseAt w this) = [] ->
        eventQueue w = [] ->
        let w1 := snd (Then this other (Some c) w) in
        invoked w1 = invoked w
        /\ eventQueue w1 = [PromiseTask this]
        /\ exists n w2,
             ProcessNextEvent n w1 = Ok w2
             /\ invoked w2
                = invoked w ++ [(callbackId c, mResult (promiseAt w this))]).
Proof.
  split; [|split].
  - intros w this a b. split.
    + rewrite Then_result. cbn [snd]. by rewrite invoked_AppendCallbacks.
    + intros c1 c2. apply invoked_AppendCallbacks.
  - intros w this c other Hreach Hs Hres Hrej Hq. cbv zeta.
    destruct (drain_after_thenAll w this [(Some c, other)] Hreach)
      as (_ & Hq1 & Hi1 & n & w2 & Hrun & Hi2); try done; [congruence|].
    change (thenAll this [(Some c, other)] w)
      with (snd (Then this (Some c) other w)) in *.
    split; [done|]. split; [done|]. exists n, w2. split; [done|].
    rewrite Hi2, Hs. done.
  - intros w this c other Hreach Hs Hres Hrej Hq. cbv zeta.
    destruct (drain_after_thenAll w this [(other, Some c)] Hreach)
      as (_ & Hq1 & Hi1 & n & w2 & Hrun & Hi2); try done; [congruence|].
    change (thenAll this [(other, Some c)] w)
      with (snd (Then this other (Some c) w)) in *.
    split; [done|]. split; [done|]. exists n, w2. split; [done|].
    rewrite Hi2, Hs. done.
Qed.

(** ** The sample stores are reachable *)

Lemma mainWorld_Reachable : Reachable mainWorld.
Proof. exists MainThread. apply rtc_refl. Qed.

Lemma resolvingWorld_Reachable : Reachable resolvingWorld.
Proof.
  exists MainThread. apply rtc_once.
  apply (Step_Resolve 0 sampleGlobal (PrimitiveValue 5) _ (Some 0)).
  reflexivity.
Qed.

Lemma resolvedWorld_Reachable : Reachable resolvedWorld.
Proof.
  eapply Reachable_Step; [exact resolvingWorld_Reachable|].
  apply (Step_ProcessNextEvent 1). reflexivity.
Qed.

Lemma rejectedWorld_Reachable : Reachable rejectedWorld.
Proof.
  exists MainThread. eapply rtc_l.
  - apply (Step_Reject 0 sampleGlobal sampleError _ (Some 0)). reflexivity.
  - apply rtc_once. apply (Step_ProcessNextEvent 1). reflexivity.
Qed.

Lemma pendingWorld_Reachable : Reachable pendingWorld.
Proof.
  exists MainThread. apply rtc_once.
  apply (Step_Constructor 0 sampleGlobal (mkPromiseInit [] None) _ (Some 0)).
  reflexivity.
Qed.

Lemma twoPendingWorld_Reachable : Reachable twoPendingWorld.
Proof.
  eapply Reachable_Step; [exact pendingWorld_Reachable|].
  apply (Step_Constructor 0 sampleGlobal (mkPromiseInit [] None) _ (Some 1)).
  reflexivity.
Qed.

(** ** Concrete runs *)

Lemma first_settlement_request_wins_witness :
  Reachable pendingWorld
  /\ exists w1 n w2,
       JSCallback 0 0 [PrimitiveValue 1] pendingWorld = Ok (true, w1)
       /\ JSCallback 0 1 [PrimitiveValue 2] w1 = Ok (true, w1)
       /\ ProcessNextEvent n w1 = Ok w2
       /\ mState (promiseAt w2 0) = Resolved
       /\ mResult (promiseAt w2 0) = PrimitiveValue 1.
Proof.
  split; [exact pendingWorld_Reachable|].
  destruct (proj1 (proj2 (first_settlement_request_wins pendingWorld
                            pendingWorld_Reachable))
              0 0 1 0 (PrimitiveValue 1) (PrimitiveValue 2)
              eq_refl eq_refl eq_refl)
    as (w1 & H1 & H2 & H3).
  destruct (H3 eq_refl) as (_ & _ & H4).
  destruct (H4 eq_refl) as (n & w2 & H5 & H6 & H7).
  exists w1, n, w2. repeat split; assumption.
Defined.

(** The first request is not always a fulfilment with [v1]: when [v1] is a
    promise the outcome is the one of that promise.  The executor of promise
    1 calls [resolveCap] with promise 0, then [rejectCap(2)].  With promise
    0 pending, promise 1 is still pending, with no result, once the queue is
    empty; with promise 0 rejected with 7, promise 1 ends rejected with 7. *)
Lemma settlement_with_promise_counterexample :
  (r <- Constructor 0 sampleGlobal
          (mkPromiseInit [CallResolveFunc [ObjectValue (PromiseObject 0)];
                          CallRejectFunc [PrimitiveValue 2]] None)
          pendingWorld;;
   w <- ProcessEvents 3 2 (snd r);;
   Ok (fst r, mState (promiseAt w 1), mResult (promiseAt w 1), eventQueue w))
  = Ok (Some 1, Pending, UndefinedValue, [])
  /\ (r1 <- Constructor 0 sampleGlobal
              (mkPromiseInit [CallRejectFunc [PrimitiveValue 7]] None)
              mainWorld;;
      r2 <- Constructor 0 sampleGlobal
              (mkPromiseInit [CallResolveFunc [ObjectValue (PromiseObject 0)];
                              CallRejectFunc [PrimitiveValue 2]] None)
              (snd r1);;
      w <- ProcessEvents 3 2 (snd r2);;
      Ok (fst r2, mState (promiseAt w 1), mResult (promiseAt w 1),
          eventQueue w))
     = Ok (Some 1, Rejected, PrimitiveValue 7, []).
Proof. split; reflexivity. Qed.

Lemma unhandled_rejection_reported_at_teardown_witness :
  mState (promiseAt rejectedWorld 0) = Rejected
  /\ mHadRejectCallback (promiseAt rejectedWorld 0) = false
  /\ dispatchedReports (Promise_destructor 0 rejectedWorld)
     = S (dispatchedReports rejectedWorld)
  /\ dispatchedReports
       (Promise_destructor 0
          (AppendCallbacks 0 None (Some (RejectPromiseCallback 1))
             rejectedWorld))
     = dispatchedReports
         (AppendCallbacks 0 None (Some (RejectPromiseCallback 1))
            rejectedWorld).
Proof.
  split; [reflexivity|]. split; [reflexivity|]. split.
  - exact (proj1 (proj2 (proj2 (proj2 unhandled_rejection_reported_at_teardown))
                    rejectedWorld 0 9 false (Some 1)
                    eq_refl eq_refl eq_refl)).
  - refine (proj1 (proj1 (proj2 unhandled_rejection_reported_at_teardown)
                     rejectedWorld 0 None (RejectPromiseCallback 1) _ _ _)).
    + vm_compute. lia.
    + apply rtc_refl.
Defined.

Lemma resolve_chains_through_promise_witness :
  exists w1 w2 n w3,
    Resolve 0 sampleGlobal (PrimitiveValue 5) mainWorld = Ok (Some 0, w1)
    /\ Resolve 0 sampleGlobal (ObjectValue (PromiseObject 0)) w1
       = Ok (Some 1, w2)
    /\ mState (promiseAt w2 1) = Pending
    /\ ProcessNextEvent n w2 = Ok w3
    /\ mState (promiseAt w3 1) = Resolved
    /\ mResult (promiseAt w3 1) = PrimitiveValue 5.
Proof.
  exact (proj1 (proj2 (proj2 resolve_chains_through_promise))
           0 sampleGlobal (PrimitiveValue 5) mainWorld (Some 1)
           mainWorld_Reachable eq_refl eq_refl eq_refl).
Defined.

Lemma reject_never_unwraps_witness :
  Reachable resolvedWorld
  /\ mState (promiseAt resolvedWorld 0) = Resolved
  /\ mResult (promiseAt resolvedWorld 0) = PrimitiveValue 5
  /\ exists w1 n w2,
       Reject 0 sampleGlobal (ObjectValue (PromiseObject 0)) resolvedWorld
       = Ok (Some 1, w1)
       /\ ProcessNextEvent n w1 = Ok w2
       /\ mState (promiseAt w2 1) = Rejected
       /\ mResult (promiseAt w2 1) = ObjectValue (PromiseObject 0).
Proof.
  split; [exact resolvedWorld_Reachable|].
  split; [reflexivity|]. split; [reflexivity|].
  exact (proj2 (proj2 (reject_never_unwraps (ObjectValue (PromiseObject 0))))
           0 sampleGlobal resolvedWorld (Some 1)
           resolvedWorld_Reachable eq_refl eq_refl).
Defined.

Lemma drain_fires_callbacks_in_order_witness :
  eventQueue resolvingWorld = [PromiseResolverTask 0 (PrimitiveValue 5) Resolved]
  /\ exists n w',
       ProcessNextEvent n
         (thenAll 0 [(Some (sampleCallback 1), None);
                     (Some (sampleCallback 2), None);
                     (Some (sampleCallback 3), None)] resolvingWorld)
       = Ok w'
       /\ mState (promiseAt w' 0) = Resolved
       /\ invoked w' = [(1, PrimitiveValue 5); (2, PrimitiveValue 5);
                        (3, PrimitiveValue 5)].
Proof.
  split; [reflexivity|].
  refine (proj2 (proj2 (proj2 drain_fires_callbacks_in_order))
            resolvingWorld 0 (PrimitiveValue 5) Resolved []
            [(Some (sampleCallback 1), None);
             (Some (sampleCallback 2), None);
             (Some (sampleCallback 3), None)]
            resolvingWorld_Reachable eq_refl _ eq_refl eq_refl).
  discriminate.
Defined.

Lemma drain_task_is_coalesced_witness :
  eventQueue
    (thenAll 0 [(Some (sampleCallback 1), None);
                (Some (sampleCallback 2), None)] resolvedWorld)
  = [PromiseTask 0]
  /\ exists n w',
       ProcessNextEvent n
         (thenAll 0 [(Some (sampleCallback 1), None);
                     (Some (sampleCallback 2), None)] resolvedWorld)
       = Ok w'
       /\ invoked w' = [(1, PrimitiveValue 5); (2, PrimitiveValue 5)].
Proof.
  refine (proj1 (proj2 (proj2 drain_task_is_coalesced))
            resolvedWorld 0
            [(Some (sampleCallback 1), None);
             (Some (sampleCallback 2), None)]
            resolvedWorld_Reachable _ eq_refl eq_refl eq_refl _);
    discriminate.
Defined.

Lemma constructor_runs_executor_witness :
  windowOfGlobal sampleGlobal mainWorld = Some (Some 1)
  /\ exists w' n w'',
       Constructor 0 sampleGlobal sampleInit mainWorld = Ok (Some 0, w')
       /\ mState (promiseAt w' 0) = Pending
       /\ ProcessNextEvent n w' = Ok w''
       /\ mState (promiseAt w'' 0) = Resolved
       /\ mResult (promiseAt w'' 0) = PrimitiveValue 1.
Proof.
  split; [reflexivity|].
  exact (proj2 (proj2 (proj2 (proj2
           (constructor_runs_executor 0 sampleGlobal sampleInit mainWorld
              (Some 1) eq_refl eq_refl eq_refl))))
           (PrimitiveValue 1) [] [CallRejectFunc [PrimitiveValue 2]]
           eq_refl eq_refl mainWorld_Reachable eq_refl).
Defined.

Lemma late_registration_runs_in_a_later_task_witness :
  mState (promiseAt resolvedWorld 0) = Resolved
  /\ invoked (snd (Then 0 (Some (sampleCallback 7)) None resolvedWorld)) = []
  /\ eventQueue (snd (Then 0 (Some (sampleCallback 7)) None resolvedWorld))
     = [PromiseTask 0]
  /\ exists n w2,
       ProcessNextEvent n
         (snd (Then 0 (Some (sampleCallback 7)) None resolvedWorld)) = Ok w2
       /\ invoked w2 = [(7, PrimitiveValue 5)].
Proof.
  split; [reflexivity|].
  exact (proj1 (proj2 late_registration_runs_in_a_later_task)
           resolvedWorld 0 (sampleCallback 7) None
           resolvedWorld_Reachable eq_refl eq_refl eq_refl eq_refl).
Defined.

Lemma chained_promise_is_observed_witness :
  mHadRejectCallback (promiseAt twoPendingWorld 0) = false
  /\ exists w',
       ResolveInternal 0 1 (Some (ObjectValue (PromiseObject 0))) AsyncTask
         twoPendingWorld = Ok w'
       /\ mHadRejectCallback (promiseAt w' 0) = true
       /\ RejectPromiseCallback 1 ∈ mRejectCallbacks (promiseAt w' 0)
       /\ MaybeReportRejected 0 w' = w'.
Proof.
  split; [reflexivity|]. eexists. split; [reflexivity|].
  destruct (chained_promise_is_observed 0 1
              (Some (ObjectValue (PromiseObject 0))) 0 AsyncTask
              twoPendingWorld _ eq_refl
              (le_S _ _ (le_n 1)) eq_refl) as (H1 & H2 & H3).
  split; [exact H1|]. split; [exact H2|].
  exact (proj1 (proj2 (H3 _ (rtc_refl _ _)))).
Defined.

Lemma factories_settle_asynchronously_witness :
  windowOfGlobal sampleGlobal mainWorld = Some (Some 1)
  /\ (exists w',
        Resolve 0 sampleGlobal (PrimitiveValue 5) mainWorld = Ok (Some 0, w')
        /\ mState (promiseAt w' 0) = Pending
        /\ mResult (promiseAt w' 0) = UndefinedValue
        /\ mResolvePending (promiseAt w' 0) = true)
  /\ (exists w',
        Reject 0 sampleGlobal (PrimitiveValue 5) mainWorld = Ok (Some 0, w')
        /\ mState (promiseAt w' 0) = Pending
        /\ mResult (promiseAt w' 0) = UndefinedValue
        /\ mResolvePending (promiseAt w' 0) = true).
Proof.
  split; [reflexivity|].
  destruct (factories_settle_asynchronously 0 sampleGlobal (PrimitiveValue 5)
              mainWorld (Some 1) eq_refl)
    as [(w1 & A1 & A2 & A3 & A4 & _) (w2 & B1 & B2 & B3 & B4 & _)].
  split; [exists w1|exists w2]; repeat split; assumption.
Defined.

(** ** The scenarios of the specification, computed *)

(** [Resolve(Resolve(5))]: the outer promise ends fulfilled with 5. *)
Example Resolve_of_Resolve :
  (r1 <- Resolve 0 sampleGlobal (PrimitiveValue 5) mainWorld;;
   r2 <- Resolve 0 sampleGlobal (ObjectValue (PromiseObject 0)) (snd r1);;
   w <- ProcessEvents 2 2 (snd r2);;
   Ok (mState (promiseAt w 1), mResult (promiseAt w 1)))
  = Ok (Resolved, PrimitiveValue 5).
Proof. reflexivity. Qed.

(** [Reject(Resolve(5))]: the outer promise ends rejected with the inner
    promise object. *)
Example Reject_of_Resolve :
  (r1 <- Resolve 0 sampleGlobal (PrimitiveValue 5) mainWorld;;
   r2 <- Reject 0 sampleGlobal (ObjectValue (PromiseObject 0)) (snd r1);;
   w <- ProcessEvents 2 2 (snd r2);;
   Ok (mState (promiseAt w 1), mResult (promiseAt w 1)))
  = Ok (Rejected, ObjectValue (PromiseObject 0)).
Proof. reflexivity. Qed.

(** The executor calls [resolveCap(1)], [rejectCap(2)] and throws 3: the
    promise ends fulfilled with 1. *)
Example Constructor_first_call_wins :
  (r <- Constructor 0 sampleGlobal sampleInit mainWorld;;
   w <- ProcessEvents 2 2 (snd r);;
   Ok (fst r, mState (promiseAt w 0), mResult (promiseAt w 0), eventQueue w))
  = Ok (Some 0, Resolved, PrimitiveValue 1, []).
Proof. reflexivity. Qed.

(** A rejected inner promise consumed by chaining: its teardown reports
    nothing, the teardown of the outer promise, which nothing observes,
    reports the forwarded error. *)
Example chained_rejection_reports :
  (r1 <- Reject 0 sampleGlobal sampleError mainWorld;;
   r2 <- Resolve 0 sampleGlobal (ObjectValue (PromiseObject 0)) (snd r1);;
   w <- ProcessEvents 2 2 (snd r2);;
   Ok (mState (promiseAt w 0), mState (promiseAt w 1),
       dispatchedReports (Promise_destructor 0 w),
       dispatchedReports (Promise_destructor 1 w)))
  = Ok (Rejected, Rejected, 0, 1).
Proof. reflexivity. Qed.

(** A rejection with a value that is not an error object is not reported. *)
Example plain_rejection_not_reported :
  (r <- Reject 0 sampleGlobal (PrimitiveValue 5) mainWorld;;
   w <- ProcessEvents 2 2 (snd r);;
   Ok (mState (promiseAt w 0), mHadRejectCallback (promiseAt w 0),
       dispatchedReports (Promise_destructor 0 w)))
  = Ok (Rejected, false, 0).
Proof. reflexivity. Qed.

(** * Further properties *)

(** ** A rule for invariants of the store *)

(** Taking a drain task off the queue and clearing [mTaskPending]. *)
Lemma beginDrain_single p rest w :
  singleSettlement [] w ->
  eventQueue w = PromiseTask p :: rest ->
  singleSettlement []
    (updPromise p (set_mTaskPending false) (withEventQueue rest w)).
Proof.
  intros Hss Hq.
  eapply singleSettlement_transfer; [exact Hss| | |].
  - apply pairedCallbacks_updPromise; [by intros x|]. apply Hss.
  - by rewrite length_heap_updPromise.
  - intros q. left.
    rewrite sources_updPromise_same by done.
    rewrite (field_updPromise mState) by done. split; [|done].
    unfold sources. simpl. rewrite Hq. simpl. done.
Qed.

(** A property of stores holds in every reachable store when it holds in
    the empty store and every write of the program keeps it.  A write is
    considered where the program makes it: the settlement of [t] and the
    writes that lead to it happen while [t] is the one promise being
    settled (the head of the list of [singleSettlement]); setting the state
    and the result and taking the callbacks is one write, as [RunTask]
    follows [SetState] at once, and so is the start of a drain task.  [settles t v s
    w] is what the property needs to know where [t] is settled with [v] and
    [s]: it is established where [ResolveInternal] and [RejectInternal] set
    [mResolvePending], and carried by the queued settlement tasks.  The
    callbacks appended are those of [then]; the adapters of a chain are the
    ones [then] makes for absent continuations. *)
Section InvariantRule.

Variable Inv : World -> Prop.
Variable settles : PromiseId -> Value -> PromiseState -> World -> Prop.

Hypothesis Inv_request : forall L t w,
  singleSettlement (ResolvePromiseCallback t :: L) w ->
  Inv w -> Inv (updPromise t (set_mResolvePending true) w).
Hypothesis Inv_append : forall L t q a b w,
  singleSettlement (ResolvePromiseCallback t :: L) w ->
  Inv w ->
  Inv (AppendCallbacks q
         (Some (PromiseCallback_Factory t a PromiseCallback_Resolve))
         (Some (PromiseCallback_Factory t b PromiseCallback_Reject)) w).
Hypothesis Inv_dispatch : forall L t v s w,
  singleSettlement (ResolvePromiseCallback t :: L) w ->
  s <> Pending -> settles t v s w -> Inv w ->
  Inv (DispatchToCurrentThread (PromiseResolverTask t v s) w).
Hypothesis Inv_settle : forall L t v s w,
  singleSettlement (ResolvePromiseCallback t :: L) w ->
  s <> Pending -> settles t v s w -> Inv w ->
  Inv (updPromise t clearCallbacks (SetState t s (SetResult t v w))).
Hypothesis Inv_invoke : forall c v w,
  Inv w -> Inv (recordInvocation c v w).
Hypothesis settles_resolve : forall L t v w,
  singleSettlement (ResolvePromiseCallback t :: L) w ->
  nextPromiseOf v = None -> Inv w ->
  settles t (valueOrUndefined v) Resolved
    (updPromise t (set_mResolvePending true) w).
Hypothesis settles_reject : forall L t v w,
  singleSettlement (ResolvePromiseCallback t :: L) w ->
  Inv w ->
  settles t (valueOrUndefined v) Rejected
    (updPromise t (set_mResolvePending true) w).

Section Budget.

Variable n : nat.
Hypothesis RunTask_keeps_n : forall L t w w',
  singleSettlement L w -> RunTask n t w = Ok w' ->
  statePending (promiseAt w t) = false
  /\ (Inv (updPromise t clearCallbacks w) -> Inv w').

Lemma RunResolveTask_keeps_n L t v s sync w w' :
  singleSettlement (ResolvePromiseCallback t :: L) w ->
  settles t v s w -> Inv w ->
  RunResolveTask n t v s sync w = Ok w' -> Inv w'.
Proof.
  intros Hss Hset Hinv. unfold RunResolveTask, RunResolveTask_with.
  destruct sync.
  - intros H.
    pose proof (settle_single L t v s w Hss) as Hss2.
    destruct (RunTask_keeps_n _ _ _ _ Hss2 H) as [Hs Hk]. apply Hk.
    apply (Inv_settle L); try done.
    destruct (singleSettlement_token_free _ _ _ Hss) as (_ & _ & Hin & _).
    intros ->. destruct (promiseAt_settle t v Pending w Hin) as [Hst _].
    unfold statePending in Hs. by rewrite Hst in Hs.
  - intros H. apply bind_Ok in H as (u & Ha & H). apply MOZ_ASSERT_Ok in Ha.
    inversion H; subst. apply (Inv_dispatch L); try done.
    by apply negb_true_iff, bool_decide_eq_false in Ha.
Qed.

Lemma ResolveInternal_keeps_n L t v sync w w' :
  singleSettlement (ResolvePromiseCallback t :: L) w -> Inv w ->
  ResolveInternal n t v sync w = Ok w' -> Inv w'.
Proof.
  intros Hss Hinv. unfold ResolveInternal, ResolveInternal_with.
  pose proof (setResolvePending_single _ t _ Hss) as Hss1.
  pose proof (Inv_request L t w Hss Hinv) as Hinv1.
  destruct (nextPromiseOf v) as [q|] eqn:Hv.
  - intros H; inversion H; subst.
    exact (Inv_append L t q None None _ Hss1 Hinv1).
  - apply (RunResolveTask_keeps_n L); try done.
    by apply (settles_resolve L).
Qed.

Lemma RejectInternal_keeps_n L t v sync w w' :
  singleSettlement (ResolvePromiseCallback t :: L) w -> Inv w ->
  RejectInternal n t v sync w = Ok w' -> Inv w'.
Proof.
  intros Hss Hinv. unfold RejectInternal, RejectInternal_with.
  pose proof (setResolvePending_single _ t _ Hss) as Hss1.
  pose proof (Inv_request L t w Hss Hinv) as Hinv1.
  apply (RunResolveTask_keeps_n L); try done.
  by apply (settles_reject L).
Qed.

Lemma PromiseCallback_Call_keeps_n L c v w w' :
  singleSettlement (c :: L) w -> Inv w ->
  PromiseCallback_Call n c v w = Ok w' -> Inv w'.
Proof.
  intros Hss Hinv.
  assert (singleSettlement (ResolvePromiseCallback (callbackTarget c) :: L) w)
    as Htok by (by destruct c).
  destruct c as [t|t|next cb task];
    unfold PromiseCallback_Call, PromiseCallback_Call_with; simpl in Htok.
  - intros H. eapply (ResolveInternal_keeps_n L); [exact Htok|exact Hinv|exact H].
  - intros H. eapply (RejectInternal_keeps_n L); [exact Htok|exact Hinv|exact H].
  - assert (singleSettlement (ResolvePromiseCallback next :: L)
              (recordInvocation cb v w)) as Htok' by exact Htok.
    pose proof (Inv_invoke cb v w Hinv) as Hinv1.
    destruct (callbackBody cb v), task; intros H;
      first [ eapply (ResolveInternal_keeps_n L);
                [exact Htok'|exact Hinv1|exact H]
            | eapply (RejectInternal_keeps_n L);
                [exact Htok'|exact Hinv1|exact H] ].
Qed.

Lemma callCallbacks_keeps_n L cbs v w w' :
  singleSettlement (cbs ++ L) w -> Inv w ->
  callCallbacks (RunTask n) cbs v w = Ok w' -> Inv w'.
Proof.
  revert w. induction cbs as [|c rest IH]; intros w Hss Hinv; simpl.
  - by intros H; inversion H; subst.
  - intros H. apply bind_Ok in H as (w1 & H1 & H2).
    pose proof H1 as H1'.
    apply (PromiseCallback_Call_with_single (RunTask n))
      with (L := rest ++ L) in H1' as [Hss1 _]; [|apply RunTask_single|done].
    eapply IH; [exact Hss1| |exact H2].
    by eapply (PromiseCallback_Call_keeps_n (rest ++ L)).
Qed.

Lemma RunTask_keeps_S L this w w' :
  singleSettlement L w -> RunTask (S n) this w = Ok w' ->
  statePending (promiseAt w this) = false
  /\ (Inv (updPromise this clearCallbacks w) -> Inv w').
Proof.
  intros Hss H. simpl in H. unfold RunTask_with in H.
  apply bind_Ok in H as (u & Ha & H). apply MOZ_ASSERT_Ok in Ha.
  apply negb_true_iff in Ha. split; [done|]. intros Hinv.
  rewrite (field_updPromise mResult) in H by done.
  eapply (callCallbacks_keeps_n L); [|exact Hinv|exact H].
  by apply take_single.
Qed.

End Budget.

Lemma RunTask_keeps fuel L this w w' :
  singleSettlement L w -> RunTask fuel this w = Ok w' ->
  statePending (promiseAt w this) = false
  /\ (Inv (updPromise this clearCallbacks w) -> Inv w').
Proof.
  revert L this w w'. induction fuel as [|n IH]; intros L this w w'.
  - discriminate.
  - by apply RunTask_keeps_S.
Qed.

Hypothesis Inv_first : forall t w,
  singleSettlement [] w ->
  singleSettlement [ResolvePromiseCallback t]
    (updPromise t (set_mResolvePending true) w) ->
  mResolvePending (promiseAt w t) = false ->
  Inv w -> Inv (updPromise t (set_mResolvePending true) w).

(** A settlement request on a promise that nothing else can settle. *)
Lemma MaybeResolveInternal_keeps fuel t v sync w w' :
  singleSettlement [] w ->
  (mResolvePending (promiseAt w t) = false ->
   t < length (heap w) /\ mState (promiseAt w t) = Pending
   /\ registrations t w + resolverTasks t (eventQueue w) = 0) ->
  Inv w ->
  MaybeResolveInternal fuel t v sync w = Ok w' -> Inv w'.
Proof.
  intros Hss Hfree Hinv. unfold MaybeResolveInternal.
  destruct (mResolvePending (promiseAt w t)) eqn:Hp.
  - by intros H; inversion H; subst.
  - destruct Hfree as (Hin & Hst & H0); [done|].
    pose proof (request_token t w Hss Hin Hst H0) as Htok.
    rewrite <-ResolveInternal_resume.
    apply (ResolveInternal_keeps_n fuel) with (L := []); [|done|].
    + intros L' t' w1 w2. apply RunTask_keeps.
    + by apply Inv_first.
Qed.

Lemma MaybeRejectInternal_keeps fuel t v sync w w' :
  singleSettlement [] w ->
  (mResolvePending (promiseAt w t) = false ->
   t < length (heap w) /\ mState (promiseAt w t) = Pending
   /\ registrations t w + resolverTasks t (eventQueue w) = 0) ->
  Inv w ->
  MaybeRejectInternal fuel t v sync w = Ok w' -> Inv w'.
Proof.
  intros Hss Hfree Hinv. unfold MaybeRejectInternal.
  destruct (mResolvePending (promiseAt w t)) eqn:Hp.
  - by intros H; inversion H; subst.
  - destruct Hfree as (Hin & Hst & H0); [done|].
    pose proof (request_token t w Hss Hin Hst H0) as Htok.
    rewrite <-RejectInternal_resume.
    apply (RejectInternal_keeps_n fuel) with (L := []); [|done|].
    + intros L' t' w1 w2. apply RunTask_keeps.
    + by apply Inv_first.
Qed.

Lemma JSCallback_keeps fuel callee args w r w' :
  singleSettlement [] w -> Inv w ->
  JSCallback fuel callee args w = Ok (r, w') -> Inv w'.
Proof.
  intros Hss Hinv. unfold JSCallback.
  destruct (functions w !! callee) as [[t task]|] eqn:Hf.
  - apply hasFunction_lookup in Hf.
    intros H. apply bind_Ok in H as (w1 & H1 & H2). inversion H2; subst.
    destruct task.
    + eapply MaybeResolveInternal_keeps; [done| |done|exact H1].
      intros Hp. by apply open_capability_free.
    + eapply MaybeRejectInternal_keeps; [done| |done|exact H1].
      intros Hp. by apply open_capability_free.
  - by intros H; inversion H; subst.
Qed.

Lemma runExecutorSteps_keeps fuel f1 f2 steps w w' :
  singleSettlement [] w -> Inv w ->
  runExecutorSteps fuel f1 f2 steps w = Ok w' -> Inv w'.
Proof.
  revert w. induction steps as [|[args|args] rest IH]; intros w Hss Hinv; simpl.
  - by intros H; inversion H; subst.
  - intros H. apply bind_Ok in H as ([b w1] & H1 & H2).
    pose proof (JSCallback_single _ _ _ _ _ _ Hss H1) as [Hss1 _].
    apply (IH w1 Hss1); [|exact H2].
    eapply JSCallback_keeps; [exact Hss|exact Hinv|exact H1].
  - intros H. apply bind_Ok in H as ([b w1] & H1 & H2).
    pose proof (JSCallback_single _ _ _ _ _ _ Hss H1) as [Hss1 _].
    apply (IH w1 Hss1); [|exact H2].
    eapply JSCallback_keeps; [exact Hss|exact Hinv|exact H1].
Qed.

Hypothesis Inv_alloc : forall win w,
  singleSettlement [] w -> Inv w -> Inv (snd (allocPromise win w)).
Hypothesis Inv_function : forall t task w,
  singleSettlement [] w -> t < length (heap w) ->
  Inv w -> Inv (snd (CreateFunction true t task w)).
Hypothesis Inv_beginDrain : forall p rest w,
  singleSettlement [] w ->
  eventQueue w = PromiseTask p :: rest ->
  statePending (promiseAt w p) = false -> Inv w ->
  Inv (updPromise p clearCallbacks
         (updPromise p (set_mTaskPending false) (withEventQueue rest w))).
Hypothesis Inv_beginSettle : forall p v s rest w,
  singleSettlement [] w ->
  eventQueue w = PromiseResolverTask p v s :: rest -> Inv w ->
  Inv (withEventQueue rest w) /\ settles p v s (withEventQueue rest w).
Hypothesis Inv_report : forall r c win rest w,
  singleSettlement [] w ->
  eventQueue w = AsyncErrorReporter r c win :: rest -> Inv w ->
  Inv (recordReport (r, c, win) (withEventQueue rest w)).

Lemma Constructor_keeps fuel aGlobal aInit w r w' :
  singleSettlement [] w -> Inv w ->
  Constructor fuel aGlobal aInit w = Ok (r, w') -> Inv w'.
Proof.
  intros Hss Hinv. unfold Constructor.
  destruct (windowOfGlobal aGlobal w) as [win|].
  2:{ by intros H; inversion H; subst. }
  destruct (allocPromise_single win w Hss) as (Hss1 & _ & Hsrc).
  pose proof (Inv_alloc win w Hss Hinv) as Hinv1.
  pose proof (length_heap_allocPromise win w) as Hlen.
  pose proof (promiseAt_allocPromise_new win w) as Hnew.
  destruct (allocPromise win w) as [t w1] eqn:Ha.
  assert (t = length (heap w)) as -> by (by inversion Ha).
  cbn [snd fst] in *. set (t := length (heap w)) in *.
  assert (t < length (heap w1)) as Hin1 by lia.
  assert (mState (promiseAt w1 t) = Pending) as Hst1 by (by rewrite Hnew).
  pose proof (fresh_free _ _ Hsrc) as Hfree1.
  destruct (canCreateResolveFunc aGlobal).
  2:{ rewrite CreateFunction_false. by intros H; inversion H; subst. }
  rewrite CreateFunction_true.
  destruct (CreateFunction_single t PromiseCallback_Resolve w1
              Hss1 Hin1 Hst1 Hfree1)
    as (Hss2 & _ & Hlen2 & Hst2 & Hfree2 & Hfs2 & _).
  pose proof (Inv_function t PromiseCallback_Resolve w1 Hss1 Hin1 Hinv1)
    as Hinv2.
  set (w2 := snd (CreateFunction true t PromiseCallback_Resolve w1)) in *.
  cbv beta iota.
  destruct (canCreateRejectFunc aGlobal).
  2:{ rewrite CreateFunction_false. by intros H; inversion H; subst. }
  rewrite CreateFunction_true.
  assert (t < length (heap w2)) as Hin2 by lia.
  destruct (CreateFunction_single t PromiseCallback_Reject w2
              Hss2 Hin2 Hst2 Hfree2)
    as (Hss3 & _ & Hlen3 & Hst3 & Hfree3 & Hfs3 & _).
  pose proof (Inv_function t PromiseCallback_Reject w2 Hss2 Hin2 Hinv2)
    as Hinv3.
  set (w3 := snd (CreateFunction true t PromiseCallback_Reject w2)) in *.
  cbv beta iota.
  assert (hasFunction t w3 = true) as Hhas.
  { unfold hasFunction. rewrite Hfs3, existsb_app. simpl.
    rewrite bool_decide_eq_true_2 by done. by rewrite orb_true_r. }
  intros H. apply bind_Ok in H as ([exn w4] & H1 & H2).
  unfold PromiseInit_Call in H1.
  apply bind_Ok in H1 as (w5 & H1 & H3). inversion H3; subst.
  pose proof (runExecutorSteps_mutations _ _ _ _ _ _ H1) as Hm.
  pose proof (runExecutorSteps_single _ _ _ _ _ _ Hss3 H1) as [Hss5 _].
  apply runExecutorSteps_keeps in H1; [|done|done].
  apply (mutations_hasFunction t) in Hm; [|done].
  cbn [fst snd] in H2. destruct (initThrows aInit).
  - apply bind_Ok in H2 as (w6 & H2 & H4). inversion H4; subst.
    eapply MaybeRejectInternal_keeps; [exact Hss5| |exact H1|exact H2].
    intros Hp. by apply open_capability_free.
  - by inversion H2; subst.
Qed.

Lemma Resolve_keeps fuel aGlobal aValue w r w' :
  singleSettlement [] w -> Inv w ->
  Resolve fuel aGlobal aValue w = Ok (r, w') -> Inv w'.
Proof.
  intros Hss Hinv. unfold Resolve.
  destruct (windowOfGlobal aGlobal w) as [win|].
  2:{ by intros H; inversion H; subst. }
  destruct (allocPromise_single win w Hss) as (Hss1 & _ & Hsrc).
  pose proof (Inv_alloc win w Hss Hinv) as Hinv1.
  pose proof (length_heap_allocPromise win w) as Hlen.
  pose proof (promiseAt_allocPromise_new win w) as Hnew.
  destruct (allocPromise win w) as [t w1] eqn:Ha.
  assert (t = length (heap w)) as -> by (by inversion Ha).
  cbn [snd fst] in *. intros H. apply bind_Ok in H as (w2 & H1 & H2).
  inversion H2; subst.
  eapply MaybeResolveInternal_keeps; [exact Hss1| |exact Hinv1|exact H1].
  intros _. rewrite Hnew. split; [lia|]. split; [done|].
  by apply fresh_free.
Qed.

Lemma Reject_keeps fuel aGlobal aValue w r w' :
  singleSettlement [] w -> Inv w ->
  Reject fuel aGlobal aValue w = Ok (r, w') -> Inv w'.
Proof.
  intros Hss Hinv. unfold Reject.
  destruct (windowOfGlobal aGlobal w) as [win|].
  2:{ by intros H; inversion H; subst. }
  destruct (allocPromise_single win w Hss) as (Hss1 & _ & Hsrc).
  pose proof (Inv_alloc win w Hss Hinv) as Hinv1.
  pose proof (length_heap_allocPromise win w) as Hlen.
  pose proof (promiseAt_allocPromise_new win w) as Hnew.
  destruct (allocPromise win w) as [t w1] eqn:Ha.
  assert (t = length (heap w)) as -> by (by inversion Ha).
  cbn [snd fst] in *. intros H. apply bind_Ok in H as (w2 & H1 & H2).
  inversion H2; subst.
  eapply MaybeRejectInternal_keeps; [exact Hss1| |exact Hinv1|exact H1].
  intros _. rewrite Hnew. split; [lia|]. split; [done|].
  by apply fresh_free.
Qed.

(** The store in which [Then] appends its two callbacks: the derived
    promise is the one being provided for. *)
Lemma Then_token this w :
  singleSettlement [] w ->
  singleSettlement [ResolvePromiseCallback (length (heap w))]
    (snd (allocPromise (mWindow (promiseAt w this)) w)).
Proof.
  intros Hss.
  destruct (allocPromise_single (mWindow (promiseAt w this)) w Hss)
    as (Hss1 & _ & Hsrc).
  pose proof (length_heap_allocPromise (mWindow (promiseAt w this)) w) as Hlen.
  pose proof (promiseAt_allocPromise_new (mWindow (promiseAt w this)) w) as Hnew.
  eapply singleSettlement_transfer; [exact Hss1|apply Hss1|done|].
  intros p. cbn [targetCount].
  destruct (decide (length (heap w) = p)) as [<-|Hne].
  - right. rewrite Hsrc, Hnew, decide_True by done.
    split; [lia|]. split; [lia|done].
  - left. rewrite decide_False by done. split; [lia|done].
Qed.

Lemma Then_keeps this a b w :
  singleSettlement [] w -> Inv w -> Inv (snd (Then this a b w)).
Proof.
  intros Hss Hinv. rewrite Then_result. cbn [snd].
  apply (Inv_append [] (length (heap w))).
  - by apply Then_token.
  - by apply Inv_alloc.
Qed.

Lemma ProcessNextEvent_keeps fuel w w' :
  singleSettlement [] w -> Inv w ->
  ProcessNextEvent fuel w = Ok w' -> Inv w'.
Proof.
  intros Hss Hinv. unfold ProcessNextEvent.
  destruct (eventQueue w) as [|r rest] eqn:Hq.
  - by intros H; inversion H; subst.
  - destruct r as [p|p v s|r c win]; unfold Runnable_Run.
    + set (w1 := updPromise p (set_mTaskPending false) (withEventQueue rest w)).
      assert (singleSettlement [] w1) as Hss1
        by (by apply beginDrain_single).
      intros H. apply (RunTask_keeps fuel []) in H as [Hs H]; [|done].
      apply H. apply Inv_beginDrain; try done.
      unfold w1 in Hs. unfold statePending in *.
      by rewrite (field_updPromise mState) in Hs.
    + pose proof (pop_resolver_token p v s rest w Hss Hq) as Htok.
      destruct (Inv_beginSettle p v s rest w Hss Hq Hinv) as [Hinv1 Hset].
      apply (RunResolveTask_keeps_n fuel) with (L := []); try done.
      intros L' t' w1 w2. apply RunTask_keeps.
    + intros H; inversion H; subst. by apply Inv_report.
Qed.

Lemma Step_keeps w w' :
  singleSettlement [] w -> Inv w -> Step w w' -> Inv w'.
Proof.
  intros Hss Hinv Hs.
  destruct Hs as [fuel g i w r w' H|fuel g v w r w' H|fuel g v w r w' H
                 |this a b w|fuel callee args w r w' H|fuel w w' H].
  - eapply Constructor_keeps; [exact Hss|exact Hinv|exact H].
  - eapply Resolve_keeps; [exact Hss|exact Hinv|exact H].
  - eapply Reject_keeps; [exact Hss|exact Hinv|exact H].
  - by apply Then_keeps.
  - eapply JSCallback_keeps; [exact Hss|exact Hinv|exact H].
  - eapply ProcessNextEvent_keeps; [exact Hss|exact Hinv|exact H].
Qed.

Lemma Steps_keep w w' :
  singleSettlement [] w -> Inv w -> rtc Step w w' -> Inv w'.
Proof.
  intros Hss Hinv Hr. revert Hss Hinv.
  induction Hr as [|x y z Hxy _ IH]; [done|].
  intros Hss Hinv. apply IH.
  - by eapply Step_single.
  - by eapply Step_keeps.
Qed.

Lemma Reachable_keeps w :
  (forall t, Inv (emptyWorld t)) -> Reachable w -> Inv w.
Proof.
  intros H0 [t Hr].
  eapply Steps_keep; [apply emptyWorld_single|apply H0|exact Hr].
Qed.

End InvariantRule.

(** ** Consistency of the promises and of the queued tasks *)

Ltac promise_consistency :=
  unfold promiseConsistent, statePending in *; simpl in *;
  intuition (auto; congruence).

Lemma promiseConsistent_new win : promiseConsistent (new_Promise win).
Proof. by repeat split. Qed.

Lemma taskConsistent_mono w w' r :
  (forall p, mResolvePending (promiseAt w p) = true ->
             mResolvePending (promiseAt w' p) = true) ->
  taskConsistent w r -> taskConsistent w' r.
Proof.
  intros Hf. destruct r as [|p v s|]; try done.
  intros (? & ? & ?). repeat split; auto.
Qed.

Lemma consistent_updPromise p f w :
  (promiseConsistent (promiseAt w p) -> promiseConsistent (f (promiseAt w p))) ->
  (forall x, mResolvePending x = true -> mResolvePending (f x) = true) ->
  consistent w -> consistent (updPromise p f w).
Proof.
  intros Hf Hflag [Ha Hb]. split.
  - intros q. destruct (decide (p = q)) as [->|Hne].
    + destruct (decide (q < length (heap w))).
      * rewrite promiseAt_updPromise_eq by done. apply Hf, Ha.
      * rewrite updPromise_outside by lia. apply Ha.
    + rewrite promiseAt_updPromise_ne by done. apply Ha.
  - change (eventQueue (updPromise p f w)) with (eventQueue w).
    eapply Forall_impl; [exact Hb|]. intros r. apply taskConsistent_mono.
    intros q. destruct (decide (p = q)) as [->|Hne].
    + destruct (decide (q < length (heap w))).
      * rewrite promiseAt_updPromise_eq by done. apply Hflag.
      * rewrite updPromise_outside by lia. done.
    + rewrite promiseAt_updPromise_ne by done. done.
Qed.

Lemma consistent_pop r rest w :
  eventQueue w = r :: rest ->
  consistent w ->
  consistent (withEventQueue rest w) /\ taskConsistent w r.
Proof.
  intros Hq [Ha Hb]. rewrite Hq in Hb. apply Forall_cons in Hb as [Hr Hrest].
  split; [|done]. split; [exact Ha|exact Hrest].
Qed.

Lemma consistent_AppendCallbacks q a b w :
  consistent w -> consistent (AppendCallbacks q a b w).
Proof.
  intros [Ha Hb]. split.
  - intros p. destruct (Ha p) as (H1 & H2 & H3 & H4 & H5).
    unfold promiseConsistent, statePending.
    rewrite mTaskPending_AppendCallbacks, mState_AppendCallbacks,
      mResult_AppendCallbacks, mResolvePending_AppendCallbacks.
    fold (statePending (promiseAt w p)).
    split; [|split; [done|split; [done|split; [|done]]]].
    + case_decide; subst; [|done].
      destruct (mTaskPending (promiseAt w q)); simpl; [done|].
      by intros ?%negb_true_iff.
    + intros Hs. case_decide; subst.
      * rewrite Hs. simpl. by rewrite orb_true_r.
      * destruct (callbacks_AppendCallbacks_ne q a b w p) as [-> ->]; auto.
  - rewrite eventQueue_AppendCallbacks.
    assert (Forall (taskConsistent (AppendCallbacks q a b w)) (eventQueue w))
      as Hb'.
    { eapply Forall_impl; [exact Hb|]. intros r. apply taskConsistent_mono.
      intros p. by rewrite mResolvePending_AppendCallbacks. }
    destruct (needsDrainTask _); [|done].
    apply Forall_app. split; [done|]. by apply Forall_singleton.
Qed.

Lemma consistent_request t w :
  consistent w -> consistent (updPromise t (set_mResolvePending true) w).
Proof.
  apply consistent_updPromise; [|by intros x Hx].
  intros Hc. promise_consistency.
Qed.

Lemma Steps_consistent w w' :
  singleSettlement [] w -> consistent w -> rtc Step w w' -> consistent w'.
Proof.
  apply (Steps_keep consistent settlesConsistently).
  - intros L t w0 _. apply consistent_request.
  - intros L t q a b w0 _. apply consistent_AppendCallbacks.
  - intros L t v s w0 _ Hs [Hf Hv] [Ha Hb]. split; [exact Ha|].
    simpl. apply Forall_app. split; [exact Hb|].
    apply Forall_singleton. by repeat split.
  - intros L t v s w0 Hss Hs [Hf Hv] Hinv.
    unfold SetState, SetResult.
    assert (updPromise t clearCallbacks
              (updPromise t (set_mState s) (updPromise t (set_mResult v) w0))
            = updPromise t
                (fun x => clearCallbacks (set_mState s (set_mResult v x))) w0)
      as ->.
    { unfold updPromise. simpl. f_equal.
      by rewrite !list_alter_alter_eq. }
    apply consistent_updPromise; [|done|done].
    intros _. unfold promiseConsistent, statePending. simpl.
    rewrite bool_decide_eq_false_2 by done. promise_consistency.
  - by intros c v w0.
  - intros L t v w0 Hss Hv _. 
    destruct (singleSettlement_token_free _ _ _ Hss) as (_ & _ & Hin & _).
    split; [by rewrite promiseAt_updPromise_eq|].
    intros _. by destruct v.
  - intros L t v w0 Hss _.
    destruct (singleSettlement_token_free _ _ _ Hss) as (_ & _ & Hin & _).
    split; [by rewrite promiseAt_updPromise_eq|done].
  - intros t w0 _ _ _. apply consistent_request.
  - intros win w0 _ [Ha Hb]. split.
    + intros p. rewrite promiseAt_allocPromise.
      case_decide; [apply promiseConsistent_new|apply Ha].
    + change (eventQueue (snd (allocPromise win w0))) with (eventQueue w0).
      eapply Forall_impl; [exact Hb|]. intros r. apply taskConsistent_mono.
      intros p Hp. rewrite promiseAt_allocPromise.
      case_decide; [subst|done]. by rewrite promiseAt_outside in Hp.
  - by intros t task w0 _ _.
  - intros p rest w0 _ Hq Hs Hinv.
    destruct (consistent_pop _ _ _ Hq Hinv) as [Hinv1 _].
    assert (updPromise p clearCallbacks
              (updPromise p (set_mTaskPending false) (withEventQueue rest w0))
            = updPromise p
                (fun x => clearCallbacks (set_mTaskPending false x))
                (withEventQueue rest w0)) as ->.
    { unfold updPromise. simpl. f_equal. by rewrite list_alter_alter_eq. }
    apply consistent_updPromise; [|done|done].
    intros Hc. promise_consistency.
  - intros p v s rest w0 _ Hq Hinv.
    destruct (consistent_pop _ _ _ Hq Hinv) as [Hinv1 (Hs & Hf & Hv)].
    split; [exact Hinv1|]. split; [exact Hf|exact Hv].
  - intros r c win rest w0 _ Hq Hinv.
    by destruct (consistent_pop _ _ _ Hq Hinv) as [Hinv1 _].
Qed.

Lemma Reachable_consistent w : Reachable w -> consistent w.
Proof.
  intros [t Hr]. eapply Steps_consistent; [apply emptyWorld_single| |exact Hr].
  split; [|by apply Forall_nil].
  intros p. rewrite promiseAt_outside by (simpl; lia).
  apply promiseConsistent_new.
Qed.

(** ** The queued tasks can run *)

Lemma drainTasks_elem p q : PromiseTask p ∈ q -> 1 <= drainTasks p q.
Proof.
  intros Hin. unfold drainTasks.
  assert (PromiseTask p ∈ filter (fun r => r = PromiseTask p) q) as H.
  { by apply list_elem_of_filter. }
  destruct (filter _ q); [by inversion H|simpl; lia].
Qed.

(** X1: in every reachable store the queued tasks meet the assertions
    they will run into.  A queued [PromiseTask] belongs to a promise of the
    store that is settled and has [mTaskPending] set, so the
    [MOZ_ASSERT(mState != Pending)] of [RunTask] holds; a queued
    [PromiseResolverTask] carries a state other than [Pending], as the
    constructor of [PromiseResolverMixin] asserts, and its promise is in the
    store and still pending. *)
Theorem queued_tasks_meet_their_assertions w r :
  Reachable w -> r ∈ eventQueue w ->
  match r with
  | PromiseTask p =>
      mState (promiseAt w p) <> Pending
      /\ mTaskPending (promiseAt w p) = true
      /\ p < length (heap w)
  | PromiseResolverTask p v s =>
      s <> Pending
      /\ mState (promiseAt w p) = Pending
      /\ p < length (heap w)
  | AsyncErrorReporter _ _ _ => True
  end.
Proof.
  intros Hr Hin. destruct r as [p|p v s|]; [| |done].
  - pose proof (Reachable_drainCoalesced w Hr p) as Hc.
    pose proof (drainTasks_elem _ _ Hin) as Hd.
    destruct (mTaskPending (promiseAt w p)) eqn:Hf; [|lia].
    pose proof (proj1 (proj1 (Reachable_consistent w Hr) p) Hf) as Hs.
    split; [|split; [done|by apply settled_in_heap]].
    unfold statePending in Hs. by apply bool_decide_eq_false in Hs.
  - pose proof (Reachable_single w Hr) as Hss.
    pose proof (proj2 (Reachable_consistent w Hr)) as Hq.
    rewrite Forall_forall in Hq. destruct (Hq _ Hin) as (Hs & _).
    split; [done|].
    split; [by eapply queued_settlement_pending|].
    destruct Hss as (_ & _ & Hlive). apply (Hlive p).
    pose proof (resolverTasks_elem _ _ _ _ Hin). unfold sources. simpl. lia.
Qed.

Lemma ProcessNextEvent_progress w :
  Reachable w -> exists fuel w', ProcessNextEvent fuel w = Ok w'.
Proof.
  intros Hr. unfold ProcessNextEvent.
  destruct (eventQueue w) as [|r rest] eqn:Hq; [by exists 0, w|].
  destruct r as [p|p v s|r c win].
  - assert (PromiseTask p ∈ eventQueue w) as Hin by (rewrite Hq; by left).
    pose proof (Reachable_drainCoalesced w Hr p) as Hc.
    pose proof (drainTasks_elem _ _ Hin) as Hd.
    destruct (mTaskPending (promiseAt w p)) eqn:Hf; [|lia].
    pose proof (proj1 (proj1 (Reachable_consistent w Hr) p) Hf) as Hs.
    set (w1 := updPromise p (set_mTaskPending false) (withEventQueue rest w)).
    destruct (RunTask_completes p w1) as (fuel & w' & H & _).
    + unfold w1. apply wfTargets_updPromise.
      * intros x Hx. exact Hx.
      * apply (Reachable_wfTargets w Hr).
    + unfold w1, statePending. by rewrite (field_updPromise mState).
    + by exists fuel, w'.
  - assert (PromiseResolverTask p v s ∈ eventQueue w) as Hin
      by (rewrite Hq; by left).
    pose proof (proj2 (Reachable_consistent w Hr)) as Hc.
    rewrite Forall_forall in Hc. destruct (Hc _ Hin) as (Hs & _).
    destruct (run_settlement_task w p v s rest (Reachable_single w Hr) Hq Hs)
      as (fuel & w' & H & _).
    unfold ProcessNextEvent in H. rewrite Hq in H. by exists fuel, w'.
  - by exists 0, (recordReport (r, c, win) (withEventQueue rest w)).
Qed.

Lemma ProcessEvents_fuel_le k n m w w' :
  n <= m -> ProcessEvents k n w = Ok w' -> ProcessEvents k m w = Ok w'.
Proof.
  intros Hle. revert w. induction k as [|k IH]; intros w; simpl; [done|].
  intros H. apply bind_Ok in H as (w1 & H1 & H2).
  rewrite (ProcessNextEvent_fuel_le n m w w1 Hle H1). simpl. by apply IH.
Qed.

Lemma ProcessEvents_Steps k fuel w w' :
  ProcessEvents k fuel w = Ok w' -> rtc Step w w'.
Proof.
  revert w. induction k as [|k IH]; intros w; simpl.
  - by intros H; inversion H; subst.
  - intros H. apply bind_Ok in H as (w1 & H1 & H2).
    eapply rtc_l; [by eapply Step_ProcessNextEvent|by apply IH].
Qed.

(** X2: from a reachable store every turn of the event loop completes:
    for every number of turns there is a recursion budget with which
    [ProcessEvents] returns a store, no assertion having failed, and that
    store is reachable again. *)
Theorem event_loop_turns_complete w k :
  Reachable w ->
  exists fuel w', ProcessEvents k fuel w = Ok w' /\ Reachable w'.
Proof.
  intros Hr. revert w Hr. induction k as [|k IH]; intros w Hr.
  - by exists 0, w.
  - destruct (ProcessNextEvent_progress w Hr) as (f1 & w1 & H1).
    assert (Reachable w1) as Hr1.
    { eapply Reachable_Step; [exact Hr|]. by eapply Step_ProcessNextEvent. }
    destruct (IH w1 Hr1) as (f2 & w2 & H2 & Hr2).
    exists (f1 `max` f2), w2. split; [|done]. simpl.
    rewrite (ProcessNextEvent_fuel_le f1 (f1 `max` f2) w w1) by (done || lia).
    simpl. apply (ProcessEvents_fuel_le k f2); [lia|done].
Qed.

(** ** What the consistency of the store gives *)

(** X3: the result of a fulfilled promise is never a promise object, and
    no queued settlement task fulfils with one: [ResolveInternal] chains to
    such a value instead of settling with it. *)
Theorem fulfilment_value_is_never_a_promise w :
  Reachable w ->
  (forall p inner,
     mState (promiseAt w p) = Resolved ->
     mResult (promiseAt w p) <> ObjectValue (PromiseObject inner))
  /\ (forall p v inner,
        PromiseResolverTask p v Resolved ∈ eventQueue w ->
        v <> ObjectValue (PromiseObject inner)).
Proof.
  intros Hr. destruct (Reachable_consistent w Hr) as [Ha Hb]. split.
  - intros p inner Hs Heq. destruct (Ha p) as (_ & _ & H3 & _).
    specialize (H3 Hs). by rewrite Heq in H3.
  - intros p v inner Hin ->. rewrite Forall_forall in Hb.
    destruct (Hb _ Hin) as (_ & _ & H3). by specialize (H3 eq_refl).
Qed.

(** X4: a settled promise was requested to settle, so every later request
    on it changes nothing: [MaybeResolveInternal], [MaybeRejectInternal],
    [MaybeResolve], [MaybeReject] and both capabilities return the store as
    it is. *)
Theorem settled_promise_ignores_requests w p :
  Reachable w -> mState (promiseAt w p) <> Pending ->
  mResolvePending (promiseAt w p) = true
  /\ (forall fuel v sync,
        MaybeResolveInternal fuel p v sync w = Ok w
        /\ MaybeRejectInternal fuel p v sync w = Ok w)
  /\ (forall fuel v,
        MaybeResolve fuel p v w = Ok w /\ MaybeReject fuel p v w = Ok w)
  /\ (forall fuel callee task args,
        functions w !! callee = Some (p, task) ->
        JSCallback fuel callee args w = Ok (true, w)).
Proof.
  intros Hr Hs. destruct (Reachable_consistent w Hr) as [Ha _].
  destruct (Ha p) as (_ & H2 & _).
  assert (mResolvePending (promiseAt w p) = true) as Hf.
  { apply H2. unfold statePending. by apply bool_decide_eq_false. }
  split; [done|].
  assert (forall fuel v sync,
            MaybeResolveInternal fuel p v sync w = Ok w
            /\ MaybeRejectInternal fuel p v sync w = Ok w) as Hno.
  { intros fuel v sync. unfold MaybeResolveInternal, MaybeRejectInternal.
    by rewrite Hf. }
  split; [done|]. split.
  - intros fuel v. unfold MaybeResolve, MaybeReject. apply Hno.
  - intros fuel callee task args Hfn. unfold JSCallback. rewrite Hfn.
    destruct task.
    + by rewrite (proj1 (Hno fuel _ _)).
    + by rewrite (proj2 (Hno fuel _ _)).
Qed.

Lemma drainTasks_pos_elem p q : 1 <= drainTasks p q -> PromiseTask p ∈ q.
Proof.
  unfold drainTasks. intros H.
  destruct (filter (fun r => r = PromiseTask p) q) as [|r l] eqn:Hf;
    [simpl in H; lia|].
  assert (r ∈ filter (fun r => r = PromiseTask p) q) as Hin
    by (rewrite Hf; by left).
  apply list_elem_of_filter in Hin as [-> Hin]. done.
Qed.

(** X9: no callback waits on a settled promise without a drain task: in
    every reachable store a settled promise that holds a callback has
    [mTaskPending] set and its [PromiseTask] is in the queue. *)
Theorem no_callback_is_lost w p :
  Reachable w -> mState (promiseAt w p) <> Pending ->
  mResolveCallbacks (promiseAt w p) <> []
  \/ mRejectCallbacks (promiseAt w p) <> [] ->
  mTaskPending (promiseAt w p) = true
  /\ PromiseTask p ∈ eventQueue w.
Proof.
  intros Hr Hs Hcb. destruct (Reachable_consistent w Hr) as [Ha _].
  destruct (Ha p) as (_ & _ & _ & H4 & _).
  assert (mTaskPending (promiseAt w p) = true) as Hf.
  { destruct (mTaskPending (promiseAt w p)) eqn:Hf; [done|].
    destruct H4 as [H5 H6]; [|done|].
    - unfold statePending. by apply bool_decide_eq_false.
    - destruct Hcb; congruence. }
  split; [done|]. apply drainTasks_pos_elem.
  rewrite (Reachable_drainCoalesced w Hr p), Hf. done.
Qed.

(** ** A promise that waits on another *)

Lemma promiseAt_updPromise p q f w :
  promiseAt (updPromise p f w) q
  = if decide (p = q /\ q < length (heap w)) then f (promiseAt w q)
    else promiseAt w q.
Proof.
  case_decide as H.
  - destruct H as [-> Hin]. by apply promiseAt_updPromise_eq.
  - destruct (decide (p = q)) as [->|Hne].
    + rewrite updPromise_outside; [done|]. 
      destruct (decide (length (heap w) <= q)); [done|].
      exfalso. apply H. split; [done|lia].
    + by apply promiseAt_updPromise_ne.
Qed.

Lemma resolveCallbacks_AppendCallbacks q c1 c2 w p :
  mResolveCallbacks (promiseAt w p)
  `prefix_of`
  mResolveCallbacks (promiseAt (AppendCallbacks q (Some c1) (Some c2) w) p).
Proof.
  destruct (decide (q = p)) as [->|Hne].
  - destruct (decide (p < length (heap w))) as [Hin|Hout].
    + destruct (callbacks_AppendCallbacks p c1 c2 w Hin) as [-> _].
      by apply prefix_app_r.
    + rewrite (promiseAt_outside w) by lia.
      apply prefix_nil.
  - by destruct (callbacks_AppendCallbacks_ne q (Some c1) (Some c2) w p Hne)
      as [-> _].
Qed.

Lemma targetCount_prefix t l1 l2 :
  l1 `prefix_of` l2 -> targetCount t l1 <= targetCount t l2.
Proof. intros [k ->]. rewrite targetCount_app. lia. Qed.

Lemma settle_take_promiseAt t v s w p :
  promiseAt (updPromise t clearCallbacks (SetState t s (SetResult t v w))) p
  = if decide (t = p /\ p < length (heap w))
    then clearCallbacks (set_mState s (set_mResult v (promiseAt w p)))
    else promiseAt w p.
Proof.
  unfold SetState, SetResult.
  rewrite !promiseAt_updPromise, !length_heap_updPromise.
  by repeat case_decide.
Qed.

Lemma beginDrain_promiseAt p rest w q :
  promiseAt (updPromise p clearCallbacks
               (updPromise p (set_mTaskPending false) (withEventQueue rest w))) q
  = if decide (p = q /\ q < length (heap w))
    then clearCallbacks (set_mTaskPending false (promiseAt w q))
    else promiseAt w q.
Proof.
  rewrite !promiseAt_updPromise, !length_heap_updPromise.
  change (length (heap (withEventQueue rest w))) with (length (heap w)).
  change (promiseAt (withEventQueue rest w) q) with (promiseAt w q).
  by repeat case_decide.
Qed.

Lemma Steps_waitsOn t q w w' :
  singleSettlement [] w -> waitsOn t q w -> rtc Step w w' -> waitsOn t q w'.
Proof.
  apply (Steps_keep (waitsOn t q) (fun _ _ _ _ => True)).
  - intros L t' w0 _ Hinv. unfold waitsOn, statePending in *.
    rewrite (field_updPromise mState), (field_updPromise mResolveCallbacks);
      done.
  - intros L t' q' a b w0 _ Hinv. unfold waitsOn, statePending in *.
    rewrite mState_AppendCallbacks. intros Hs. specialize (Hinv Hs).
    pose proof (targetCount_prefix t _ _
                  (resolveCallbacks_AppendCallbacks q'
                     (PromiseCallback_Factory t' a PromiseCallback_Resolve)
                     (PromiseCallback_Factory t' b PromiseCallback_Reject)
                     w0 q)). lia.
  - by intros L t' v s w0 _ _ _ Hinv.
  - intros L t' v s w0 _ Hs _ Hinv. unfold waitsOn.
    rewrite settle_take_promiseAt. case_decide as Hd; [|done].
    unfold statePending. simpl. by rewrite bool_decide_eq_false_2.
  - by intros c v w0.
  - done.
  - done.
  - intros t' w0 _ _ _ Hinv. unfold waitsOn, statePending in *.
    rewrite (field_updPromise mState), (field_updPromise mResolveCallbacks);
      done.
  - intros win w0 _ Hinv. unfold waitsOn in *.
    rewrite promiseAt_allocPromise. case_decide; [subst|done].
    rewrite promiseAt_outside in Hinv by lia. intros _.
    specialize (Hinv eq_refl). simpl in Hinv. lia.
  - by intros t' task w0 _ _.
  - intros p rest w0 _ _ Hs Hinv. unfold waitsOn.
    rewrite beginDrain_promiseAt. case_decide as Hd; [|done].
    destruct Hd as [-> _]. unfold statePending in *. simpl. by rewrite Hs.
  - by intros p v s rest w0 _ _ Hinv.
  - by intros r c win rest w0 _ _ Hinv.
Qed.

Lemma selfChained_sources L t w :
  singleSettlement L w -> selfChained t w ->
  targetCount t L = 0 /\ registrations t w = 1
  /\ resolverTasks t (eventQueue w) = 0.
Proof.
  intros (_ & Hle & _) [_ Hreg]. specialize (Hle t).
  pose proof (registrations_ge w t t). unfold sources in Hle. lia.
Qed.

Lemma Steps_selfChained t w w' :
  singleSettlement [] w -> selfChained t w -> rtc Step w w' ->
  selfChained t w'.
Proof.
  apply (Steps_keep (selfChained t) (fun _ _ _ _ => True)).
  - intros L t' w0 _ Hinv. unfold selfChained, statePending in *.
    rewrite (field_updPromise mState), (field_updPromise mResolveCallbacks);
      done.
  - intros L t' q' a b w0 _ [Hs Hreg].
    unfold selfChained, statePending in *.
    rewrite mState_AppendCallbacks. split; [done|].
    pose proof (targetCount_prefix t _ _
                  (resolveCallbacks_AppendCallbacks q'
                     (PromiseCallback_Factory t' a PromiseCallback_Resolve)
                     (PromiseCallback_Factory t' b PromiseCallback_Reject)
                     w0 t)). lia.
  - by intros L t' v s w0 _ _ _ Hinv.
  - intros L t' v s w0 Hss Hs _ Hinv. unfold selfChained.
    rewrite settle_take_promiseAt. case_decide as Hd; [|done].
    destruct Hd as [-> _].
    destruct (selfChained_sources _ _ _ Hss Hinv) as (Hc & _).
    simpl in Hc. rewrite decide_True in Hc by done. lia.
  - by intros c v w0.
  - done.
  - done.
  - intros t' w0 _ _ _ Hinv. unfold selfChained, statePending in *.
    rewrite (field_updPromise mState), (field_updPromise mResolveCallbacks);
      done.
  - intros win w0 _ [Hs Hreg]. unfold selfChained in *.
    rewrite promiseAt_allocPromise. case_decide; [subst|done].
    rewrite promiseAt_outside in Hreg by lia. simpl in Hreg. lia.
  - by intros t' task w0 _ _.
  - intros p rest w0 _ _ Hs [Hst Hreg]. unfold selfChained.
    rewrite beginDrain_promiseAt. case_decide as Hd; [|done].
    destruct Hd as [-> _]. congruence.
  - by intros p v s rest w0 _ _ Hinv.
  - by intros r c win rest w0 _ _ Hinv.
Qed.

Lemma registered_target w q c :
  pairedCallbacks w ->
  c ∈ mResolveCallbacks (promiseAt w q) \/ c ∈ mRejectCallbacks (promiseAt w q) ->
  1 <= targetCount (callbackTarget c) (mResolveCallbacks (promiseAt w q)).
Proof.
  intros Hp [Hin|Hin]; [by apply targetCount_elem|].
  rewrite (targetCount_map _ _ (mRejectCallbacks (promiseAt w q)));
    [by apply targetCount_elem|apply Hp].
Qed.

(** X6: in every reachable store the promise that a stored callback
    settles is a pending promise of the store; no settlement task for it is
    queued, and among the resolve arrays of the store that callback is the
    only one that settles it. *)
Theorem waiting_promise_is_pending w q c :
  Reachable w ->
  c ∈ mResolveCallbacks (promiseAt w q) \/ c ∈ mRejectCallbacks (promiseAt w q) ->
  callbackTarget c < length (heap w)
  /\ mState (promiseAt w (callbackTarget c)) = Pending
  /\ (forall v s,
        PromiseResolverTask (callbackTarget c) v s ∉ eventQueue w)
  /\ targetCount (callbackTarget c) (mResolveCallbacks (promiseAt w q)) = 1
  /\ (forall q', q' <> q ->
        targetCount (callbackTarget c) (mResolveCallbacks (promiseAt w q')) = 0).
Proof.
  intros Hr Hin. pose proof (Reachable_single w Hr) as Hss.
  pose proof (registered_target w q c (proj1 Hss) Hin) as Hreg.
  destruct Hss as (Hp & Hle & Hlive).
  set (t := callbackTarget c) in *. specialize (Hle t). simpl in Hle.
  pose proof (registrations_ge w q t) as Hge. unfold sources in Hle.
  destruct (Hlive t) as [Hin' Hst]; [unfold sources; simpl; lia|].
  split; [done|]. split; [done|]. split; [|split].
  - intros v s Ht. apply resolverTasks_elem in Ht. lia.
  - lia.
  - intros q' Hne.
    destruct (decide (q < length (heap w))) as [Hq|Hq].
    2:{ rewrite promiseAt_outside in Hreg by lia. simpl in Hreg. lia. }
    pose proof (registrations_updPromise t q clearCallbacks w Hq) as Hu.
    simpl in Hu.
    pose proof (registrations_ge (updPromise q clearCallbacks w) q' t) as Hge'.
    rewrite promiseAt_updPromise_ne in Hge' by done. lia.
Qed.

(** X7: a promise is not settled before the promise it waits on.  When a
    promise [q] of a reachable store holds a callback that settles [t] (the
    derived promise of a [then], or a promise resolved with [q]), then in
    every later store in which [q] is still pending, [t] is pending too. *)
Theorem derived_promise_settles_after_parent w w' q c :
  Reachable w ->
  c ∈ mResolveCallbacks (promiseAt w q) \/ c ∈ mRejectCallbacks (promiseAt w q) ->
  rtc Step w w' ->
  mState (promiseAt w' q) = Pending ->
  mState (promiseAt w' (callbackTarget c)) = Pending.
Proof.
  intros Hr Hin Hsteps Hq. pose proof (Reachable_single w Hr) as Hss.
  pose proof (registered_target w q c (proj1 Hss) Hin) as Hreg.
  assert (waitsOn (callbackTarget c) q w') as Hw.
  { eapply Steps_waitsOn; [exact Hss| |exact Hsteps]. by intros _. }
  assert (1 <= targetCount (callbackTarget c)
                 (mResolveCallbacks (promiseAt w' q))) as Hreg'.
  { apply Hw. unfold statePending. by rewrite Hq. }
  destruct (Steps_single w w' Hss Hsteps) as [(_ & _ & Hlive) _].
  apply (Hlive (callbackTarget c)).
  pose proof (registrations_ge w' q (callbackTarget c)).
  unfold sources. simpl. lia.
Qed.

(** X8: a promise resolved with itself never settles.  When the resolve
    capability of a promise not yet requested to settle is called with the
    promise itself, [ResolveInternal] appends to the promise the adapters
    that settle it and dispatches nothing; in every later store the promise
    is pending and has no result. *)
Theorem self_resolution_never_settles fuel w callee t :
  Reachable w ->
  functions w !! callee = Some (t, PromiseCallback_Resolve) ->
  mResolvePending (promiseAt w t) = false ->
  exists w1,
    JSCallback fuel callee [ObjectValue (PromiseObject t)] w = Ok (true, w1)
    /\ eventQueue w1 = eventQueue w
    /\ forall w', rtc Step w1 w' ->
         mState (promiseAt w' t) = Pending
         /\ mResult (promiseAt w' t) = UndefinedValue.
Proof.
  intros Hr Hfn Hflag. pose proof (Reachable_single w Hr) as Hss.
  destruct (open_capability_free t w Hss (hasFunction_lookup _ _ _ _ Hfn) Hflag)
    as (Hin & Hst & Hfree).
  set (w1 := AppendCallbacks t (Some (ResolvePromiseCallback t))
               (Some (RejectPromiseCallback t))
               (updPromise t (set_mResolvePending true) w)).
  assert (JSCallback fuel callee [ObjectValue (PromiseObject t)] w
          = Ok (true, w1)) as Hcall.
  { rewrite (JSCallback_capability _ _ _ _ _ _ Hfn).
    unfold defaultTaskSync. rewrite MaybeResolveInternal_first by done.
    by rewrite (ResolveInternal_chain _ _ _ t). }
  exists w1. split; [done|].
  assert (statePending (promiseAt w1 t) = true) as Hs1.
  { unfold w1, statePending. rewrite mState_AppendCallbacks.
    rewrite (field_updPromise mState) by done. by rewrite Hst. }
  split.
  { unfold w1. rewrite eventQueue_AppendCallbacks.
    unfold needsDrainTask, statePending.
    rewrite (field_updPromise mState) by done. by rewrite Hst. }
  assert (selfChained t w1) as Hself.
  { split; [done|]. unfold w1.
    destruct (callbacks_AppendCallbacks t (ResolvePromiseCallback t)
                (RejectPromiseCallback t)
                (updPromise t (set_mResolvePending true) w)) as [-> _].
    { by rewrite length_heap_updPromise. }
    rewrite targetCount_app. simpl. rewrite decide_True by done. lia. }
  assert (singleSettlement [] w1 /\ settledKept w w1) as [Hss1 _].
  { eapply JSCallback_single; [exact Hss|exact Hcall]. }
  assert (Reachable w1) as Hr1.
  { eapply Reachable_Step; [exact Hr|]. by eapply Step_JSCallback. }
  intros w' Hsteps.
  destruct (Steps_selfChained t w1 w' Hss1 Hself Hsteps) as [Hs' _].
  split.
  - unfold statePending in Hs'. by apply bool_decide_eq_true in Hs'.
  - pose proof (Reachable_Steps w1 w' Hr1 Hsteps) as Hr'.
    destruct (Reachable_consistent w' Hr') as [Ha _].
    destruct (Ha t) as (_ & _ & _ & _ & H5). by apply H5.
Qed.

(** ** Reports are made by teardown only *)

Lemma dispatchedReports_AppendCallbacks q a b w :
  dispatchedReports (AppendCallbacks q a b w) = dispatchedReports w.
Proof.
  unfold dispatchedReports. rewrite eventQueue_AppendCallbacks.
  assert (mainThreadQueue (AppendCallbacks q a b w) = mainThreadQueue w) as ->.
  { unfold AppendCallbacks. destruct a, b; simpl; case_match; done. }
  destruct (needsDrainTask _); [|done]. rewrite reportTasks_app. simpl. lia.
Qed.

Lemma console_AppendCallbacks q a b w :
  console (AppendCallbacks q a b w) = console w.
Proof. unfold AppendCallbacks. destruct a, b; simpl; case_match; done. Qed.

Lemma mutation_reportsMade w w' :
  mutation w w' -> reportsMade w' = reportsMade w.
Proof.
  unfold reportsMade.
  destruct 1 as [w w' Hp|win w|q t w|q rest w Hq|q v s rest w Hq
                |r c win rest w Hq].
  - destruct Hp as [q a b w|q w|q v s w|q v s w|q w|c v w]; try done.
    + by rewrite dispatchedReports_AppendCallbacks, console_AppendCallbacks.
    + unfold dispatchedReports. simpl. rewrite reportTasks_app. simpl. lia.
  - done.
  - done.
  - unfold dispatchedReports. simpl. by rewrite Hq.
  - unfold dispatchedReports. simpl. by rewrite Hq.
  - unfold dispatchedReports. simpl. rewrite Hq, length_app. simpl. lia.
Qed.

Lemma mutation_console w w' :
  mutation w w' -> console w `prefix_of` console w'.
Proof.
  destruct 1 as [w w' Hp|win w|q t w|q rest w Hq|q v s rest w Hq
                |r c win rest w Hq]; try done.
  - destruct Hp as [q a b w|q w|q v s w|q v s w|q w|c v w]; try done.
    by rewrite console_AppendCallbacks.
  - simpl. by apply prefix_app_r.
Qed.

(** X5: no operation of the script-facing surface and no turn of the
    event loop makes a rejection report.  Through any sequence of operations
    the reports dispatched and delivered stay as many as they were, the
    console being only extended, by the reporters that run; a store reached
    without a teardown holds none. *)
Theorem operations_make_no_report w w' :
  rtc Step w w' ->
  reportsMade w' = reportsMade w
  /\ console w `prefix_of` console w'
  /\ (Reachable w -> dispatchedReports w = 0 /\ console w = []).
Proof.
  intros Hs. apply Steps_mutations in Hs.
  assert (forall x y, rtc mutation x y ->
            reportsMade y = reportsMade x /\ console x `prefix_of` console y)
    as Hall.
  { induction 1 as [|x y z Hxy _ [IH1 IH2]]; [done|].
    split.
    - rewrite IH1. by apply mutation_reportsMade.
    - etrans; [by apply mutation_console|done]. }
  destruct (Hall _ _ Hs) as [H1 H2]. split; [done|]. split; [done|].
  intros [t Hr]. apply Steps_mutations in Hr.
  destruct (Hall _ _ Hr) as [H3 _]. unfold reportsMade in H3. simpl in H3.
  split; [lia|]. destruct (console w); [done|simpl in H3; lia].
Qed.

(** ** The script-facing calls settle nothing and call nothing *)

Lemma quiet_refl w : quiet w w.
Proof. by repeat split. Qed.

Lemma quiet_trans w1 w2 w3 : quiet w1 w2 -> quiet w2 w3 -> quiet w1 w3.
Proof.
  intros (H1 & H2 & H3) (H4 & H5 & H6). split; [congruence|].
  split; [congruence|]. intros p. destruct (H3 p), (H6 p). split; congruence.
Qed.

Lemma quiet_updPromise p f w :
  (forall x, mState (f x) = mState x) ->
  (forall x, mResult (f x) = mResult x) ->
  quiet w (updPromise p f w).
Proof.
  intros Hs Hr. split; [done|]. split; [done|]. intros q.
  by rewrite (field_updPromise mState), (field_updPromise mResult).
Qed.

Lemma quiet_AppendCallbacks q a b w : quiet w (AppendCallbacks q a b w).
Proof.
  split; [apply invoked_AppendCallbacks|].
  split; [apply console_AppendCallbacks|]. intros p.
  by rewrite mState_AppendCallbacks, mResult_AppendCallbacks.
Qed.

Lemma quiet_allocPromise win w : quiet w (snd (allocPromise win w)).
Proof.
  split; [done|]. split; [done|]. intros p.
  rewrite promiseAt_allocPromise. case_decide; [subst|done].
  by rewrite promiseAt_outside.
Qed.

Lemma quiet_dispatch r w : quiet w (DispatchToCurrentThread r w).
Proof. split; [done|]. split; [done|]. by intros p. Qed.

Lemma quiet_request t w : quiet w (updPromise t (set_mResolvePending true) w).
Proof. by apply quiet_updPromise. Qed.

Lemma ResolveInternal_async_quiet fuel t v w w' :
  ResolveInternal fuel t v AsyncTask w = Ok w' -> quiet w w'.
Proof.
  destruct (nextPromiseOf v) as [q|] eqn:Hv.
  - rewrite (ResolveInternal_chain _ _ _ q) by done.
    intros H; inversion H; subst.
    eapply quiet_trans; [apply quiet_request|apply quiet_AppendCallbacks].
  - rewrite ResolveInternal_async_plain by done.
    intros H; inversion H; subst.
    eapply quiet_trans; [apply quiet_request|apply quiet_dispatch].
Qed.

Lemma MaybeResolveInternal_async_quiet fuel t v w w' :
  MaybeResolveInternal fuel t v AsyncTask w = Ok w' -> quiet w w'.
Proof.
  unfold MaybeResolveInternal. destruct (mResolvePending _).
  - intros H; inversion H; subst. apply quiet_refl.
  - apply ResolveInternal_async_quiet.
Qed.

Lemma MaybeRejectInternal_async_quiet fuel t v w w' :
  MaybeRejectInternal fuel t v AsyncTask w = Ok w' -> quiet w w'.
Proof.
  unfold MaybeRejectInternal. destruct (mResolvePending _).
  - intros H; inversion H; subst. apply quiet_refl.
  - rewrite RejectInternal_async. intros H; inversion H; subst.
    eapply quiet_trans; [apply quiet_request|apply quiet_dispatch].
Qed.

Lemma JSCallback_quiet fuel callee args w r w' :
  JSCallback fuel callee args w = Ok (r, w') -> quiet w w'.
Proof.
  unfold JSCallback. destruct (functions w !! callee) as [[p task]|].
  - intros H. apply bind_Ok in H as (w1 & H1 & H2). inversion H2; subst.
    destruct task;
      eauto using MaybeResolveInternal_async_quiet,
        MaybeRejectInternal_async_quiet.
  - intros H; inversion H; subst. apply quiet_refl.
Qed.

Lemma runExecutorSteps_quiet fuel f1 f2 steps w w' :
  runExecutorSteps fuel f1 f2 steps w = Ok w' -> quiet w w'.
Proof.
  revert w. induction steps as [|[args|args] rest IH]; intros w; simpl.
  - intros H; inversion H; subst. apply quiet_refl.
  - intros H. apply bind_Ok in H as ([b w1] & H1 & H2).
    eapply quiet_trans; [by eapply JSCallback_quiet|by apply IH].
  - intros H. apply bind_Ok in H as ([b w1] & H1 & H2).
    eapply quiet_trans; [by eapply JSCallback_quiet|by apply IH].
Qed.

Lemma Constructor_quiet fuel aGlobal aInit w r w' :
  Constructor fuel aGlobal aInit w = Ok (r, w') -> quiet w w'.
Proof.
  unfold Constructor. destruct (windowOfGlobal aGlobal w) as [win|].
  2:{ intros H; inversion H; subst. apply quiet_refl. }
  pose proof (quiet_allocPromise win w) as Ha.
  destruct (allocPromise win w) as [p w1]. simpl in Ha.
  destruct (canCreateResolveFunc aGlobal).
  2:{ rewrite CreateFunction_false. by intros H; inversion H; subst. }
  rewrite CreateFunction_true.
  assert (quiet w (snd (CreateFunction true p PromiseCallback_Resolve w1)))
    as Hf1 by exact Ha.
  set (w2 := snd (CreateFunction true p PromiseCallback_Resolve w1)) in *.
  cbv beta iota.
  destruct (canCreateRejectFunc aGlobal).
  2:{ rewrite CreateFunction_false. by intros H; inversion H; subst. }
  rewrite CreateFunction_true.
  assert (quiet w (snd (CreateFunction true p PromiseCallback_Reject w2)))
    as Hf2 by exact Hf1.
  set (w3 := snd (CreateFunction true p PromiseCallback_Reject w2)) in *.
  cbv beta iota.
  intros H. apply bind_Ok in H as ([exn w4] & H1 & H2).
  unfold PromiseInit_Call in H1.
  apply bind_Ok in H1 as (w5 & H1 & H3). inversion H3; subst.
  apply runExecutorSteps_quiet in H1.
  simpl in H2. destruct (initThrows aInit).
  - apply bind_Ok in H2 as (w6 & H2 & H4). inversion H4; subst.
    apply MaybeRejectInternal_async_quiet in H2.
    eapply quiet_trans; [exact Hf2|]. by eapply quiet_trans.
  - inversion H2; subst. by eapply quiet_trans.
Qed.

Lemma Resolve_quiet fuel aGlobal aValue w r w' :
  Resolve fuel aGlobal aValue w = Ok (r, w') -> quiet w w'.
Proof.
  unfold Resolve. destruct (windowOfGlobal aGlobal w) as [win|].
  2:{ intros H; inversion H; subst. apply quiet_refl. }
  pose proof (quiet_allocPromise win w) as Ha.
  destruct (allocPromise win w) as [p w1]. simpl in Ha.
  intros H. apply bind_Ok in H as (w2 & H1 & H2). inversion H2; subst.
  eapply quiet_trans; [exact Ha|]. by eapply MaybeResolveInternal_async_quiet.
Qed.

Lemma Reject_quiet fuel aGlobal aValue w r w' :
  Reject fuel aGlobal aValue w = Ok (r, w') -> quiet w w'.
Proof.
  unfold Reject. destruct (windowOfGlobal aGlobal w) as [win|].
  2:{ intros H; inversion H; subst. apply quiet_refl. }
  pose proof (quiet_allocPromise win w) as Ha.
  destruct (allocPromise win w) as [p w1]. simpl in Ha.
  intros H. apply bind_Ok in H as (w2 & H1 & H2). inversion H2; subst.
  eapply quiet_trans; [exact Ha|]. by eapply MaybeRejectInternal_async_quiet.
Qed.

Lemma Then_quiet this a b w : quiet w (snd (Then this a b w)).
Proof.
  rewrite Then_result. cbn [snd].
  eapply quiet_trans; [apply quiet_allocPromise|apply quiet_AppendCallbacks].
Qed.

(** X10: the script-facing calls settle nothing and call nothing.  The
    constructor, its executor included, the factories, [then], [catch], the
    capabilities and [MaybeResolve]/[MaybeReject] leave the state and the
    result of every promise, the record of invocations and the console as
    they were: settlements and callbacks happen in the tasks of the event
    loop only. *)
Theorem script_calls_settle_and_call_nothing w :
  (forall fuel aGlobal aInit r w',
     Constructor fuel aGlobal aInit w = Ok (r, w') -> quiet w w')
  /\ (forall fuel aGlobal aValue r w',
        Resolve fuel aGlobal aValue w = Ok (r, w') -> quiet w w')
  /\ (forall fuel aGlobal aValue r w',
        Reject fuel aGlobal aValue w = Ok (r, w') -> quiet w w')
  /\ (forall this a b,
        quiet w (snd (Then this a b w)) /\ quiet w (snd (Catch this b w)))
  /\ (forall fuel callee args r w',
        JSCallback fuel callee args w = Ok (r, w') -> quiet w w')
  /\ (forall fuel this v w',
        MaybeResolve fuel this v w = Ok w' \/ MaybeReject fuel this v w = Ok w' ->
        quiet w w').
Proof.
  split; [intros *; apply Constructor_quiet|].
  split; [intros *; apply Resolve_quiet|].
  split; [intros *; apply Reject_quiet|].
  split; [intros this a b; split; apply Then_quiet|].
  split; [intros *; apply JSCallback_quiet|].
  intros fuel this v w' [H|H].
  - by eapply MaybeResolveInternal_async_quiet.
  - by eapply MaybeRejectInternal_async_quiet.
Qed.

(** ** The queue is served in the order of dispatch *)

Lemma ProcessNextEvent_queue fuel w w' r rest :
  eventQueue w = r :: rest ->
  ProcessNextEvent fuel w = Ok w' ->
  rest `prefix_of` eventQueue w'.
Proof.
  intros Hq. unfold ProcessNextEvent. rewrite Hq.
  destruct r as [p|p v s|r c win]; unfold Runnable_Run.
  - intros H. apply RunTask_prims, prims_eventQueue in H. exact H.
  - intros H. apply RunResolveTask_prims, prims_eventQueue in H. exact H.
  - by intros H; inversion H; subst.
Qed.


(** ** [then] allocates, and touches one promise *)

(** X12: [then] on a promise of the store returns a new promise: the next
    identifier, pending, without callbacks, bound to the window of the
    promise it was called on.  It changes no other promise of the store,
    creates no function, and leaves the window and the settlement request
    of its promise alone.  [catch] is [then] without a fulfilment
    callback. *)
Theorem then_allocates_a_fresh_promise this a b w :
  this < length (heap w) ->
  let derived := fst (Then this a b w) in
  let w' := snd (Then this a b w) in
  derived = length (heap w)
  /\ length (heap w') = S (length (heap w))
  /\ promiseAt w' derived = new_Promise (mWindow (promiseAt w this))
  /\ (forall p, p <> this -> p < length (heap w) ->
        promiseAt w' p = promiseAt w p)
  /\ mWindow (promiseAt w' this) = mWindow (promiseAt w this)
  /\ mResolvePending (promiseAt w' this) = mResolvePending (promiseAt w this)
  /\ functions w' = functions w
  /\ Catch this b w = Then this None b w.
Proof.
  intros Hin. cbv zeta. rewrite Then_result. cbn [fst snd].
  split; [done|]. split.
  { by rewrite length_heap_AppendCallbacks, length_heap_allocPromise. }
  split.
  { rewrite promiseAt_AppendCallbacks_ne by lia.
    apply promiseAt_allocPromise_new. }
  split.
  { intros p Hne Hp. rewrite promiseAt_AppendCallbacks_ne by done.
    by apply promiseAt_allocPromise_old. }
  rewrite mWindow_AppendCallbacks, mResolvePending_AppendCallbacks,
    functions_AppendCallbacks.
  by rewrite promiseAt_allocPromise_old.
Qed.

(** ** Constructing without a window or without the capabilities *)

(** X13: on the main thread the constructor and both factories return
    null, the store unchanged, when the global is not a window; on a worker
    they ask for no window and the new promise has none; when one of the two
    capabilities cannot be created the constructor returns null without
    running the executor: nothing is dispatched or invoked, no settlement is
    requested, and the promises of the store are as they were. *)
Theorem construction_fails_without_window_or_capability fuel aGlobal w :
  (* on the main thread, a global that is not a window *)
  (NS_IsMainThread (thread w) = true -> GetAsSupports aGlobal = None ->
   (forall aInit, Constructor fuel aGlobal aInit w = Ok (None, w))
   /\ (forall v, Resolve fuel aGlobal v w = Ok (None, w))
   /\ (forall v, Reject fuel aGlobal v w = Ok (None, w)))
  (* on a worker no window is asked for, and the promise has none *)
  /\ (NS_IsMainThread (thread w) = false ->
      forall v, exists w1 w2,
        Resolve fuel aGlobal v w = Ok (Some (length (heap w)), w1)
        /\ Reject fuel aGlobal v w = Ok (Some (length (heap w)), w2)
        /\ mWindow (promiseAt w1 (length (heap w))) = None
        /\ mWindow (promiseAt w2 (length (heap w))) = None)
  (* a capability that cannot be created: the executor is not run *)
  /\ (forall win aInit,
        windowOfGlobal aGlobal w = Some win ->
        canCreateResolveFunc aGlobal = false
        \/ canCreateRejectFunc aGlobal = false ->
        exists w',
          Constructor fuel aGlobal aInit w = Ok (None, w')
          /\ eventQueue w' = eventQueue w
          /\ invoked w' = invoked w
          /\ mResolvePending (promiseAt w' (length (heap w))) = false
          /\ forall p, p < length (heap w) -> promiseAt w' p = promiseAt w p).
Proof.
  split; [|split].
  - intros Hmain Hnone.
    assert (windowOfGlobal aGlobal w = None) as Hw.
    { unfold windowOfGlobal. by rewrite Hmain, Hnone. }
    unfold Constructor, Resolve, Reject. rewrite Hw. done.
  - intros Hworker v.
    assert (windowOfGlobal aGlobal w = Some None) as Hw.
    { unfold windowOfGlobal. by rewrite Hworker. }
    rewrite (Resolve_unfold _ _ _ _ _ Hw), (Reject_unfold _ _ _ _ _ Hw).
    pose proof (promiseAt_allocPromise_new None w) as Hnew.
    destruct (nextPromiseOf (Some v)) as [q|] eqn:Hv.
    + rewrite (ResolveInternal_chain _ _ _ q) by done.
      eexists. eexists. split; [done|]. split; [done|].
      rewrite mWindow_AppendCallbacks, promiseAt_DispatchToCurrentThread.
      rewrite !(field_updPromise mWindow) by done.
      by rewrite Hnew.
    + rewrite ResolveInternal_async_plain by done.
      eexists. eexists. split; [done|]. split; [done|].
      rewrite !promiseAt_DispatchToCurrentThread.
      rewrite !(field_updPromise mWindow) by done.
      by rewrite Hnew.
  - intros win aInit Hw Hcan. unfold Constructor. rewrite Hw.
    pose proof (promiseAt_allocPromise_new win w) as Hnew.
    pose proof (promiseAt_allocPromise_old win w) as Hold.
    destruct (allocPromise win w) as [p w1] eqn:Ha.
    assert (eventQueue w1 = eventQueue w /\ invoked w1 = invoked w) as [Hq Hi].
    { by inversion Ha. }
    cbn [snd] in Hnew, Hold.
    destruct (canCreateResolveFunc aGlobal) eqn:Hc1.
    + destruct Hcan as [?|Hc2]; [done|]. rewrite Hc2.
      rewrite CreateFunction_true, CreateFunction_false.
      eexists. split; [done|]. split; [done|]. split; [done|].
      split; [|exact Hold].
      change (promiseAt (snd (CreateFunction true p PromiseCallback_Resolve w1))
                (length (heap w)))
        with (promiseAt w1 (length (heap w))).
      by rewrite Hnew.
    + rewrite CreateFunction_false.
      eexists. split; [done|]. split; [done|]. split; [done|].
      split; [by rewrite Hnew|exact Hold].
Qed.

(** ** Where a rejection report goes *)

(** X14: where the report of an unhandled rejection goes.  On the main
    thread the teardown appends to the current queue a reporter that carries
    the report of the error object, whether its principal is the system
    principal, and its script global, and running the reporter puts the
    three on the console; on a worker the reporter goes to the queue of the
    main thread, with the chrome flag of the worker and no window, and the
    queue of the worker is left alone. *)
Theorem rejection_report_routing this w report :
  reportable (promiseAt w this) = true ->
  ErrorFromException (mResult (promiseAt w this)) = Some report ->
  let result := mResult (promiseAt w this) in
  match thread w with
  | MainThread =>
      let reporter :=
        AsyncErrorReporter report (IsSystemPrincipal_of result)
          (GetStaticScriptGlobal result) in
      eventQueue (Promise_destructor this w) = eventQueue w ++ [reporter]
      /\ mainThreadQueue (Promise_destructor this w) = mainThreadQueue w
      /\ (eventQueue w = [] ->
          exists w',
            ProcessNextEvent 0 (Promise_destructor this w) = Ok w'
            /\ eventQueue w' = []
            /\ console w'
               = console w ++ [(report, IsSystemPrincipal_of result,
                                GetStaticScriptGlobal result)])
  | WorkerThread isChromeWorker =>
      eventQueue (Promise_destructor this w) = eventQueue w
      /\ mainThreadQueue (Promise_destructor this w)
         = mainThreadQueue w ++ [AsyncErrorReporter report isChromeWorker None]
  end.
Proof.
  intros Hrep Herr. cbv zeta.
  assert (MaybeReportRejected this w
          = NS_DispatchToMainThread
              (let '(win, isChromeError) :=
                 match thread w with
                 | MainThread =>
                     (GetStaticScriptGlobal (mResult (promiseAt w this)),
                      IsSystemPrincipal_of (mResult (promiseAt w this)))
                 | WorkerThread chrome => (None, chrome)
                 end in AsyncErrorReporter report isChromeError win) w) as Heq.
  { apply reportable_iff in Hrep as (Hs & Hf & _).
    unfold MaybeReportRejected. rewrite Hs, Hf, Herr. simpl.
    destruct (mResult (promiseAt w this)) as [| |o]; try done.
    simpl. by destruct (thread w). }
  unfold Promise_destructor. rewrite Heq. unfold NS_DispatchToMainThread.
  destruct (thread w) eqn:Ht; simpl.
  - split; [done|]. split; [done|]. intros Hq.
    unfold ProcessNextEvent, DispatchToCurrentThread. simpl. rewrite Hq.
    simpl. eexists. split; [reflexivity|]. done.
  - done.
Qed.

(** ** Unlinking drops the callbacks *)

Lemma promiseAt_Unlink this w p :
  promiseAt (Promise_Unlink this w) p
  = if decide (this = p /\ p < length (heap w))
    then set_mResult UndefinedValue
           (set_mRejectCallbacks []
              (set_mResolveCallbacks [] (set_mWindow None (promiseAt w p))))
    else promiseAt w p.
Proof.
  unfold Promise_Unlink.
  destruct (decide (this = p)) as [->|Hne].
  - destruct (decide (p < length (heap w))) as [Hin|Hout].
    + rewrite promiseAt_updPromise_eq
        by (by rewrite length_heap_MaybeReportRejected).
      rewrite promiseAt_MaybeReportRejected.
      by rewrite decide_True.
    + rewrite updPromise_outside
        by (rewrite length_heap_MaybeReportRejected; lia).
      rewrite promiseAt_MaybeReportRejected.
      rewrite decide_False; [done|]. intros [_ ?]. lia.
  - rewrite promiseAt_updPromise_ne by done.
    rewrite promiseAt_MaybeReportRejected.
    rewrite decide_False; [done|]. by intros [? _].
Qed.

(** X15: unlinking a promise drops its callbacks, its window and its
    result and keeps its state; no other promise changes.  A drain task
    still queued for it, or a settlement that arrives later, completes and
    calls nothing. *)
Theorem unlinked_promise_calls_nothing this w :
  this < length (heap w) ->
  let w1 := Promise_Unlink this w in
  mResolveCallbacks (promiseAt w1 this) = []
  /\ mRejectCallbacks (promiseAt w1 this) = []
  /\ mWindow (promiseAt w1 this) = None
  /\ mResult (promiseAt w1 this) = UndefinedValue
  /\ mState (promiseAt w1 this) = mState (promiseAt w this)
  /\ (forall p, p <> this -> promiseAt w1 p = promiseAt w p)
  /\ invoked w1 = invoked w
  (* a drain task left in the queue finds nothing to call *)
  /\ (mState (promiseAt w this) <> Pending ->
      forall fuel, exists w2,
        Runnable_Run (S fuel) (PromiseTask this) w1 = Ok w2
        /\ invoked w2 = invoked w
        /\ eventQueue w2 = eventQueue w1
        /\ forall p, p <> this -> promiseAt w2 p = promiseAt w p)
  (* and so does a settlement that arrives later *)
  /\ (forall fuel v s, s <> Pending ->
      exists w2,
        RunResolveTask (S fuel) this v s SyncTask w1 = Ok w2
        /\ mState (promiseAt w2 this) = s
        /\ mResult (promiseAt w2 this) = v
        /\ invoked w2 = invoked w
        /\ eventQueue w2 = eventQueue w1
        /\ forall p, p <> this -> promiseAt w2 p = promiseAt w p).
Proof.
  intros Hin. cbv zeta.
  pose proof (promiseAt_Unlink this w this) as Hthis.
  rewrite decide_True in Hthis by done.
  pose proof (fun p (Hne : p <> this) => promiseAt_Unlink this w p) as Hother.
  assert (forall p, p <> this ->
            promiseAt (Promise_Unlink this w) p = promiseAt w p) as Hfr.
  { intros p Hne. rewrite promiseAt_Unlink.
    rewrite decide_False; [done|]. intros [? _]. congruence. }
  assert (invoked (Promise_Unlink this w) = invoked w) as Hinv.
  { unfold Promise_Unlink, MaybeReportRejected, NS_DispatchToMainThread.
    simpl. repeat case_match; done. }
  rewrite Hthis. simpl.
  split; [done|]. split; [done|]. split; [done|]. split; [done|].
  split; [done|]. split; [exact Hfr|]. split; [exact Hinv|]. split.
  - intros Hs fuel. unfold Runnable_Run. simpl. unfold RunTask_with.
    set (w2 := updPromise this (set_mTaskPending false) (Promise_Unlink this w)).
    assert (promiseAt w2 this
            = set_mTaskPending false (promiseAt (Promise_Unlink this w) this))
      as Hw2.
    { unfold w2. rewrite promiseAt_updPromise_eq; [done|].
      unfold Promise_Unlink.
      by rewrite length_heap_updPromise, length_heap_MaybeReportRejected. }
    rewrite Hw2, Hthis. unfold statePending, takenCallbacks. simpl.
    rewrite bool_decide_eq_false_2 by done. simpl.
    assert (forall b : bool, (if b then @nil PromiseCallback else []) = [])
      as -> by (by intros []).
    simpl. eexists. split; [done|]. split; [exact Hinv|]. split; [done|].
    intros p Hne. unfold w2.
    rewrite !promiseAt_updPromise_ne by done. by apply Hfr.
  - intros fuel v s Hs. unfold RunResolveTask, RunResolveTask_with.
    simpl. unfold RunTask_with.
    set (w2 := SetState this s (SetResult this v (Promise_Unlink this w))).
    assert (length (heap (Promise_Unlink this w)) = length (heap w)) as Hlen.
    { unfold Promise_Unlink.
      by rewrite length_heap_updPromise, length_heap_MaybeReportRejected. }
    assert (promiseAt w2 this
            = set_mState s (set_mResult v
                (promiseAt (Promise_Unlink this w) this))) as Hw2.
    { unfold w2, SetState, SetResult.
      rewrite !promiseAt_updPromise_eq; rewrite ?length_heap_updPromise;
        try done; lia. }
    rewrite Hw2, Hthis. unfold statePending, takenCallbacks. simpl.
    rewrite bool_decide_eq_false_2 by done. simpl.
    assert (forall b : bool, (if b then @nil PromiseCallback else []) = [])
      as -> by (by intros []).
    simpl. eexists. split; [done|].
    rewrite promiseAt_updPromise_eq
      by (unfold w2, SetState, SetResult;
          rewrite !length_heap_updPromise; lia).
    rewrite Hw2, Hthis. simpl.
    split; [done|]. split; [done|]. split; [exact Hinv|]. split; [done|].
    intros p Hne. unfold w2, SetState, SetResult.
    rewrite !promiseAt_updPromise_ne by done. by apply Hfr.
Qed.

(** ** Resolving with a promise that is already settled *)

Lemma drain_task_forwards fuel w p rest w' :
  singleSettlement [] w ->
  eventQueue w = PromiseTask p :: rest ->
  ProcessNextEvent fuel w = Ok w' ->
  Forall (fun c => forwarded c (mResult (promiseAt w p)) w')
    (takenCallbacks (promiseAt w p)).
Proof.
  intros Hss Hq. unfold ProcessNextEvent. rewrite Hq. unfold Runnable_Run.
  pose proof (beginDrain_single p rest w Hss Hq) as Hss1.
  set (w1 := updPromise p (set_mTaskPending false) (withEventQueue rest w))
    in *.
  assert (takenCallbacks (promiseAt w1 p) = takenCallbacks (promiseAt w p))
    as Htk by (unfold w1; by rewrite (field_updPromise takenCallbacks)).
  assert (mResult (promiseAt w1 p) = mResult (promiseAt w p))
    as Hres by (unfold w1; by rewrite (field_updPromise mResult)).
  destruct fuel as [|n]; [discriminate|]. simpl. unfold RunTask_with.
  intros H. apply bind_Ok in H as (u & Ha & H). apply MOZ_ASSERT_Ok in Ha.
  apply negb_true_iff in Ha.
  rewrite (field_updPromise mResult) in H by done.
  rewrite Htk, Hres in H.
  eapply (callCallbacks_forwards n []); [|exact H].
  rewrite <-Htk. by apply take_single.
Qed.

(** X17: resolving with a promise that is already settled.  From a
    reachable store with an empty queue, [Resolve] with the object of a
    settled promise returns a pending promise and dispatches the drain task
    of the settled one; when that task runs, the returned promise takes the
    state and the result of the settled promise. *)
Theorem resolve_with_settled_promise fuel aGlobal w win inner :
  Reachable w -> eventQueue w = [] ->
  windowOfGlobal aGlobal w = Some win ->
  mState (promiseAt w inner) <> Pending ->
  let outer := length (heap w) in
  exists w1 n w2,
    Resolve fuel aGlobal (ObjectValue (PromiseObject inner)) w
    = Ok (Some outer, w1)
    /\ mState (promiseAt w1 outer) = Pending
    /\ eventQueue w1 = [PromiseTask inner]
    /\ ProcessNextEvent n w1 = Ok w2
    /\ mState (promiseAt w2 outer) = mState (promiseAt w inner)
    /\ mResult (promiseAt w2 outer) = mResult (promiseAt w inner).
Proof.
  intros Hr Hq Hwin Hs. cbv zeta.
  assert (statePending (promiseAt w inner) = false) as Hsp.
  { unfold statePending. by apply bool_decide_eq_false. }
  pose proof (settled_in_heap _ _ Hsp) as Hin.
  destruct (proj1 (Reachable_consistent w Hr) inner)
    as (_ & _ & Hc3 & Hc4 & _).
  assert (mTaskPending (promiseAt w inner) = false) as Hf.
  { pose proof (Reachable_drainCoalesced w Hr inner) as Hd.
    rewrite Hq in Hd. destruct (mTaskPending _); [done|done]. }
  destruct (Hc4 Hsp Hf) as [Hres Hrej].
  set (outer := length (heap w)).
  set (w0 := updPromise outer (set_mResolvePending true)
               (snd (allocPromise win w))).
  set (w1 := AppendCallbacks inner (Some (ResolvePromiseCallback outer))
               (Some (RejectPromiseCallback outer)) w0).
  assert (Resolve fuel aGlobal (ObjectValue (PromiseObject inner)) w
          = Ok (Some outer, w1)) as HR.
  { rewrite (Resolve_unfold _ _ _ _ _ Hwin).
    by rewrite (ResolveInternal_chain _ _ _ inner). }
  assert (inner <> outer) as Hne by (unfold outer; lia).
  assert (promiseAt w0 inner = promiseAt w inner) as Hw0.
  { unfold w0. rewrite promiseAt_updPromise_ne by done.
    by apply promiseAt_allocPromise_old. }
  assert (inner < length (heap w0)) as Hin0.
  { unfold w0. rewrite length_heap_updPromise, length_heap_allocPromise. lia. }
  assert (Reachable w1) as Hr1.
  { eapply Reachable_Step; [exact Hr|]. by eapply Step_Resolve. }
  destruct (ProcessNextEvent_progress w1 Hr1) as (n & w2 & Hrun).
  assert (eventQueue w1 = [PromiseTask inner]) as Hq1.
  { unfold w1. rewrite eventQueue_AppendCallbacks. unfold needsDrainTask.
    rewrite Hw0, Hsp, Hf. simpl. unfold w0. simpl. by rewrite Hq. }
  exists w1, n, w2. split; [done|]. split.
  { unfold w1. rewrite mState_AppendCallbacks. unfold w0.
    rewrite (field_updPromise mState) by done.
    by rewrite promiseAt_allocPromise_new. }
  split; [done|]. split; [done|].
  pose proof (drain_task_forwards n w1 inner [] w2
                (Reachable_single w1 Hr1) Hq1 Hrun) as Hfw.
  destruct (callbacks_AppendCallbacks inner (ResolvePromiseCallback outer)
              (RejectPromiseCallback outer) w0 Hin0) as [Hc1 Hc2].
  fold w1 in Hc1, Hc2. rewrite Hw0, Hres in Hc1. rewrite Hw0, Hrej in Hc2.
  assert (mState (promiseAt w1 inner) = mState (promiseAt w inner)) as Hst1.
  { unfold w1. by rewrite mState_AppendCallbacks, Hw0. }
  assert (mResult (promiseAt w1 inner) = mResult (promiseAt w inner)) as Hrs1.
  { unfold w1. by rewrite mResult_AppendCallbacks, Hw0. }
  unfold takenCallbacks in Hfw. rewrite Hst1, Hrs1, Hc1, Hc2 in Hfw.
  destruct (mState (promiseAt w inner)) eqn:Hst; [done| |].
  - rewrite bool_decide_eq_true_2 in Hfw by done. simpl in Hfw.
    rewrite Forall_singleton in Hfw. simpl in Hfw. apply Hfw. by apply Hc3.
  - rewrite bool_decide_eq_false_2 in Hfw by done. simpl in Hfw.
    rewrite Forall_singleton in Hfw. exact Hfw.
Qed.

(** ** Who may use promises *)

(** ** Who may use promises *)

(** X16: who [EnabledForScope] admits.  The main thread must be
    obtained, and then the preference is on, or the caller is a chrome
    worker, or it is on the main thread with the system principal or a
    certified app status.  A preference that is not set counts as off; on a
    worker the principal is not consulted; turning the preference on refuses
    nobody who was admitted. *)
Theorem promises_enabled_for_scope certified c :
  (* exactly who is admitted *)
  (EnabledForScope certified c = true
   <-> mainThreadAvailable c = true
       /\ (promisePref c = Some true
           \/ callerThread c = WorkerThread true
           \/ (callerThread c = MainThread
               /\ (subjectIsSystemPrincipal c = true
                   \/ subjectAppStatus c = certified))))
  (* a preference that is not set counts as off *)
  /\ EnabledForScope certified
       (mkScopeContext (mainThreadAvailable c) None (callerThread c)
          (subjectIsSystemPrincipal c) (subjectAppStatus c))
     = EnabledForScope certified
         (mkScopeContext (mainThreadAvailable c) (Some false) (callerThread c)
            (subjectIsSystemPrincipal c) (subjectAppStatus c))
  (* on a worker the principal of the caller is not consulted *)
  /\ (forall isChromeWorker sys status,
        callerThread c = WorkerThread isChromeWorker ->
        EnabledForScope certified c
        = EnabledForScope certified
            (mkScopeContext (mainThreadAvailable c) (promisePref c)
               (callerThread c) sys status))
  (* turning the preference on refuses nobody who was admitted *)
  /\ (EnabledForScope certified c = true ->
      EnabledForScope certified
        (mkScopeContext (mainThreadAvailable c) (Some true) (callerThread c)
           (subjectIsSystemPrincipal c) (subjectAppStatus c)) = true).
Proof.
  destruct c as [avail pref thr sys status].
  unfold EnabledForScope, PromisePrefEnabledRunnable_Enabled,
    Preferences_GetBool. simpl.
  split; [|split; [done|split]].
  - destruct avail; simpl; [|intuition congruence].
    destruct pref as [[]|]; simpl; [intuition congruence| |];
      (destruct thr as [|[]]; simpl;
       [rewrite orb_true_iff, bool_decide_eq_true|..];
       intuition congruence).
  - intros ch sys' status' ->. done.
  - by destruct avail.
Qed.

(** ** What a promise and a capability are bound to *)

Lemma mutation_mWindow w w' p :
  mutation w w' -> p < length (heap w) ->
  mWindow (promiseAt w' p) = mWindow (promiseAt w p).
Proof.
  intros Hm Hin. destruct Hm as [w w' Hp| | | | |].
  - destruct Hp.
    + apply mWindow_AppendCallbacks.
    + by apply field_updPromise.
    + done.
    + unfold SetState, SetResult. by rewrite !(field_updPromise mWindow).
    + by apply field_updPromise.
    + done.
  - by rewrite promiseAt_allocPromise_old.
  - done.
  - by rewrite (field_updPromise mWindow).
  - done.
  - done.
Qed.

Lemma mutation_functions w w' :
  mutation w w' -> functions w `prefix_of` functions w'.
Proof.
  destruct 1 as [w w' Hp| | | | |]; try done.
  - by rewrite (prim_functions _ _ Hp).
  - simpl. by apply prefix_app_r.
Qed.

Lemma mutations_bindings w w' :
  rtc mutation w w' ->
  (forall p, p < length (heap w) ->
             mWindow (promiseAt w' p) = mWindow (promiseAt w p))
  /\ functions w `prefix_of` functions w'.
Proof.
  induction 1 as [|x y z Hxy Hyz [IH1 IH2]]; [done|]. split.
  - intros p Hin. rewrite IH1.
    + by apply mutation_mWindow.
    + pose proof (mutation_grows _ _ Hxy) as [Hlen _]. lia.
  - etrans; [by apply mutation_functions|done].
Qed.

(** X19: what a promise and a capability are bound to never changes.
    Through any sequence of operations a promise of the store keeps its
    window, a function made by [CreateFunction] keeps the promise and the
    task of its reserved slots, the store keeps its promises, and the thread
    stays the same. *)
Theorem bindings_never_change w w' :
  rtc Step w w' ->
  (forall p, p < length (heap w) ->
             mWindow (promiseAt w' p) = mWindow (promiseAt w p))
  /\ (forall callee promise task,
        functions w !! callee = Some (promise, task) ->
        functions w' !! callee = Some (promise, task))
  /\ length (heap w) <= length (heap w')
  /\ thread w' = thread w.
Proof.
  intros Hr. apply Steps_mutations in Hr.
  destruct (mutations_bindings _ _ Hr) as [Hw Hf].
  destruct (mutations_grow _ _ Hr) as (Hlen & _ & Ht).
  split; [done|]. split; [|done].
  intros callee promise task Hc. destruct Hf as [l ->].
  by apply lookup_app_l_Some.
Qed.

(** ** The event loop empties its queue *)

Lemma pendingWork_updPromise p f w :
  p < length (heap w) ->
  pendingWork (updPromise p f w) + chainers (promiseAt w p)
  = pendingWork w + chainers (f (promiseAt w p)).
Proof.
  intros Hp.
  pose proof (sum_list_with_alter chainers f p (heap w) (promiseAt w p)
                (promiseAt_lookup w p Hp)).
  unfold pendingWork, updPromise. cbn [eventQueue heap].
  rewrite <-!Nat.add_assoc. f_equal. exact H.
Qed.

Lemma pendingWork_updPromise_same p f w :
  (forall x, chainers (f x) = chainers x) ->
  pendingWork (updPromise p f w) = pendingWork w.
Proof.
  intros Hf. destruct (decide (p < length (heap w))) as [Hin|Hout].
  - pose proof (pendingWork_updPromise p f w Hin) as H.
    rewrite Hf in H. lia.
  - rewrite updPromise_outside; [done|lia].
Qed.

Lemma pendingWork_AppendCallbacks q c1 c2 w :
  pendingWork (AppendCallbacks q (Some c1) (Some c2) w)
  <= pendingWork w + mayChain c1 + 1.
Proof.
  rewrite AppendCallbacks_unfold. cbv zeta.
  set (f1 := fun x => set_mResolveCallbacks (mResolveCallbacks x ++ [c1]) x).
  set (f2 := fun x => set_mRejectCallbacks (mRejectCallbacks x ++ [c2])
                        (set_mHadRejectCallback true x)).
  assert (pendingWork (updPromise q f2 (updPromise q f1 w))
          <= pendingWork w + mayChain c1) as Hw2.
  { rewrite pendingWork_updPromise_same by done.
    destruct (decide (q < length (heap w))) as [Hin|Hout].
    - pose proof (pendingWork_updPromise q f1 w Hin) as Ha.
      unfold chainers in Ha. simpl in Ha.
      rewrite sum_list_with_app in Ha. simpl in Ha.
      fold (chainers (promiseAt w q)) in Ha. lia.
    - rewrite updPromise_outside; lia. }
  destruct (needsDrainTask _); [|lia].
  rewrite pendingWork_updPromise_same by done.
  unfold pendingWork in *. simpl in *. rewrite length_app. simpl. lia.
Qed.

Lemma rejectDiscipline_updPromise p f w :
  (forall x,
     Forall (fun c => rejectsTarget c = true) (mRejectCallbacks x) ->
     Forall (fun c => rejectsTarget c = true) (mRejectCallbacks (f x))) ->
  rejectDiscipline w -> rejectDiscipline (updPromise p f w).
Proof.
  intros Hf Hd q. destruct (decide (p = q)) as [->|Hne].
  - destruct (decide (q < length (heap w))) as [Hin|Hout].
    + rewrite promiseAt_updPromise_eq by done. apply Hf, Hd.
    + rewrite updPromise_outside by lia. apply Hd.
  - rewrite promiseAt_updPromise_ne by done. apply Hd.
Qed.

Lemma rejectDiscipline_AppendCallbacks q c1 c2 w :
  rejectsTarget c2 = true ->
  rejectDiscipline w ->
  rejectDiscipline (AppendCallbacks q (Some c1) (Some c2) w).
Proof.
  intros Hc Hd. rewrite AppendCallbacks_unfold. cbv zeta.
  assert (rejectDiscipline
    (updPromise q
       (fun x => set_mRejectCallbacks (mRejectCallbacks x ++ [c2])
                   (set_mHadRejectCallback true x))
       (updPromise q
          (fun x => set_mResolveCallbacks (mResolveCallbacks x ++ [c1]) x) w)))
    as Hw2.
  { apply rejectDiscipline_updPromise.
    - intros x Hx. simpl. apply Forall_app. split; [done|].
      by apply Forall_singleton.
    - apply rejectDiscipline_updPromise; [|done]. by intros x. }
  destruct (needsDrainTask _); [|done].
  apply rejectDiscipline_updPromise; [by intros x|]. exact Hw2.
Qed.

Lemma rejectsTarget_mayChain l :
  Forall (fun c => rejectsTarget c = true) l ->
  sum_list_with mayChain l = 0 /\ forall v, Forall (plainFor v) l.
Proof.
  induction 1 as [|c l Hc _ [IH1 IH2]]; [done|]. split.
  - simpl. rewrite IH1. by destruct c as [| |? ? []].
  - intros v. constructor; [|apply IH2]. intros t ->. done.
Qed.

Section WorkBudget.

Variable n : nat.
Hypothesis RunTask_work_n : forall this w w',
  rejectDiscipline w -> fulfilledPlain this w ->
  RunTask n this w = Ok w' ->
  rejectDiscipline w' /\ pendingWork w' <= pendingWork w.

Lemma RunResolveTask_work_n t v s w w' :
  rejectDiscipline w ->
  (s = Resolved -> nextPromiseOf (Some v) = None) ->
  RunResolveTask n t v s SyncTask w = Ok w' ->
  rejectDiscipline w' /\ pendingWork w' <= pendingWork w.
Proof.
  intros Hd Hv H. unfold RunResolveTask, RunResolveTask_with in H.
  apply RunTask_work_n in H.
  - unfold SetState, SetResult in H.
    by rewrite !pendingWork_updPromise_same in H by done.
  - unfold SetState, SetResult.
    apply rejectDiscipline_updPromise; [by intros x|].
    apply rejectDiscipline_updPromise; [by intros x|]. done.
  - intros Hs. destruct (decide (t < length (heap w))) as [Hin|Hout].
    + destruct (promiseAt_settle t v s w Hin) as [Hst Hres].
      rewrite Hres. apply Hv. by rewrite <-Hst.
    + unfold SetState, SetResult in Hs.
      rewrite !updPromise_outside in Hs
        by (rewrite ?length_heap_updPromise; lia).
      by rewrite promiseAt_outside in Hs by lia.
Qed.

Lemma ResolveInternal_work_n t v w w' :
  rejectDiscipline w ->
  ResolveInternal n t v SyncTask w = Ok w' ->
  rejectDiscipline w'
  /\ pendingWork w'
     <= pendingWork w
        + match nextPromiseOf v with Some _ => 1 | None => 0 end.
Proof.
  intros Hd. unfold ResolveInternal, ResolveInternal_with.
  assert (rejectDiscipline (updPromise t (set_mResolvePending true) w))
    as Hd1 by (apply rejectDiscipline_updPromise; [by intros x|done]).
  pose proof (pendingWork_updPromise_same t (set_mResolvePending true) w
                (fun x => eq_refl)) as Hw1.
  destruct (nextPromiseOf v) as [q|] eqn:Hv.
  - intros H; inversion H; subst. split.
    + by apply rejectDiscipline_AppendCallbacks.
    + pose proof (pendingWork_AppendCallbacks q (ResolvePromiseCallback t)
                    (RejectPromiseCallback t)
                    (updPromise t (set_mResolvePending true) w)) as Ha.
      simpl in Ha. lia.
  - intros H. apply RunResolveTask_work_n in H; [|done|].
    + destruct H as [H1 H2]. split; [done|lia].
    + intros _. by destruct v as [[| |[]]|].
Qed.

Lemma RejectInternal_work_n t v w w' :
  rejectDiscipline w ->
  RejectInternal n t v SyncTask w = Ok w' ->
  rejectDiscipline w' /\ pendingWork w' <= pendingWork w.
Proof.
  intros Hd. unfold RejectInternal, RejectInternal_with.
  assert (rejectDiscipline (updPromise t (set_mResolvePending true) w))
    as Hd1 by (apply rejectDiscipline_updPromise; [by intros x|done]).
  pose proof (pendingWork_updPromise_same t (set_mResolvePending true) w
                (fun x => eq_refl)) as Hw1.
  intros H. apply RunResolveTask_work_n in H; [|done|done].
  destruct H as [H1 H2]. split; [done|lia].
Qed.

Lemma PromiseCallback_Call_work_n c v w w' :
  rejectDiscipline w -> plainFor v c ->
  PromiseCallback_Call n c v w = Ok w' ->
  rejectDiscipline w' /\ pendingWork w' <= pendingWork w + mayChain c.
Proof.
  intros Hd Hp.
  destruct c as [t|t|next cb task];
    unfold PromiseCallback_Call, PromiseCallback_Call_with.
  - intros H. apply ResolveInternal_work_n in H; [|done].
    rewrite (Hp t eq_refl) in H. simpl. done.
  - intros H. apply RejectInternal_work_n in H; [|done]. simpl.
    destruct H as [H1 H2]. split; [done|lia].
  - assert (rejectDiscipline (recordInvocation cb v w)) as Hd1 by exact Hd.
    assert (pendingWork (recordInvocation cb v w) = pendingWork w) as Hw1
      by done.
    destruct (callbackBody cb v) as [r|e], task; intros H; simpl.
    + apply ResolveInternal_work_n in H; [|done].
      destruct H as [H1 H2]. split; [done|].
      destruct (nextPromiseOf (Some r)); lia.
    + apply RejectInternal_work_n in H; [|done].
      destruct H as [H1 H2]. split; [done|lia].
    + apply RejectInternal_work_n in H; [|done].
      destruct H as [H1 H2]. split; [done|lia].
    + apply RejectInternal_work_n in H; [|done].
      destruct H as [H1 H2]. split; [done|lia].
Qed.

Lemma callCallbacks_work_n cbs v w w' :
  rejectDiscipline w -> Forall (plainFor v) cbs ->
  callCallbacks (RunTask n) cbs v w = Ok w' ->
  rejectDiscipline w'
  /\ pendingWork w' <= pendingWork w + sum_list_with mayChain cbs.
Proof.
  revert w. induction cbs as [|c rest IH]; intros w Hd Hp; simpl.
  - intros H; inversion H; subst. split; [done|lia].
  - apply Forall_cons in Hp as [Hc Hrest].
    intros H. apply bind_Ok in H as (w1 & H1 & H2).
    apply PromiseCallback_Call_work_n in H1 as [Hd1 Hw1]; [|done|done].
    destruct (IH w1 Hd1 Hrest H2) as [Hd2 Hw2]. split; [done|lia].
Qed.

Lemma RunTask_work_S this w w' :
  rejectDiscipline w -> fulfilledPlain this w ->
  RunTask (S n) this w = Ok w' ->
  rejectDiscipline w' /\ pendingWork w' <= pendingWork w.
Proof.
  intros Hd Hf H. simpl in H. unfold RunTask_with in H.
  apply bind_Ok in H as (u & Ha & H). apply MOZ_ASSERT_Ok in Ha.
  apply negb_true_iff in Ha.
  rewrite (field_updPromise mResult) in H by done.
  pose proof (settled_in_heap w this Ha) as Hin.
  pose proof (pendingWork_updPromise this clearCallbacks w Hin) as Hw.
  change (chainers (clearCallbacks (promiseAt w this))) with 0 in Hw.
  assert (rejectDiscipline (updPromise this clearCallbacks w)) as Hd1.
  { apply rejectDiscipline_updPromise; [|done]. intros x _. simpl. done. }
  unfold takenCallbacks in H. unfold fulfilledPlain in Hf.
  case_bool_decide as Hs.
  - apply callCallbacks_work_n in H; [|done|].
    + fold (chainers (promiseAt w this)) in H.
      destruct H as [H1 H2]. split; [done|lia].
    + apply Forall_forall. intros c _ t _. by apply Hf.
  - destruct (rejectsTarget_mayChain _ (Hd this)) as [H0 Hpl].
    apply callCallbacks_work_n in H; [|done|apply Hpl].
    rewrite H0 in H. destruct H as [H1 H2]. split; [done|lia].
Qed.

End WorkBudget.

Lemma RunTask_work fuel this w w' :
  rejectDiscipline w -> fulfilledPlain this w ->
  RunTask fuel this w = Ok w' ->
  rejectDiscipline w' /\ pendingWork w' <= pendingWork w.
Proof.
  revert this w w'. induction fuel as [|n IH]; intros this w w'.
  - discriminate.
  - by apply RunTask_work_S.
Qed.

(** One turn of the event loop on a non-empty queue leaves less work. *)
Lemma ProcessNextEvent_work fuel w w' :
  consistent w -> rejectDiscipline w -> eventQueue w <> [] ->
  ProcessNextEvent fuel w = Ok w' ->
  pendingWork w' < pendingWork w.
Proof.
  intros Hc Hd Hne. unfold ProcessNextEvent.
  destruct (eventQueue w) as [|r rest] eqn:Hq; [done|].
  assert (pendingWork (withEventQueue rest w) + 1 = pendingWork w) as Hpop.
  { unfold pendingWork. simpl. rewrite Hq. simpl. lia. }
  destruct (consistent_pop r rest w Hq Hc) as [[Hc1 _] Hr].
  destruct r as [p|p v s|r c win]; unfold Runnable_Run.
  - intros H. apply RunTask_work in H.
    + rewrite pendingWork_updPromise_same in H by done. lia.
    + apply rejectDiscipline_updPromise; [by intros x|]. exact Hd.
    + unfold fulfilledPlain.
      rewrite (field_updPromise mState), (field_updPromise mResult) by done.
      destruct (Hc1 p) as (_ & _ & H3 & _). exact H3.
  - intros H. destruct Hr as (_ & _ & Hv).
    apply (RunResolveTask_work_n fuel) in H; [lia| |exact Hd|exact Hv].
    intros this w1 w2. apply RunTask_work.
  - intros H; inversion H; subst.
    change (pendingWork (recordReport (r, c, win) (withEventQueue rest w)))
      with (pendingWork (withEventQueue rest w)). lia.
Qed.

Lemma Steps_rejectDiscipline w w' :
  singleSettlement [] w -> rejectDiscipline w -> rtc Step w w' ->
  rejectDiscipline w'.
Proof.
  apply (Steps_keep rejectDiscipline (fun _ _ _ _ => True)).
  - intros L t w0 _. apply rejectDiscipline_updPromise. by intros x.
  - intros L t q a b w0 _. apply rejectDiscipline_AppendCallbacks.
    by destruct b.
  - intros L t v s w0 _ _ _ Hd. exact Hd.
  - intros L t v s w0 _ _ _ Hd.
    apply rejectDiscipline_updPromise; [intros x _; simpl; done|].
    unfold SetState, SetResult.
    apply rejectDiscipline_updPromise; [by intros x|].
    apply rejectDiscipline_updPromise; [by intros x|]. done.
  - intros c v w0 Hd. exact Hd.
  - done.
  - done.
  - intros t w0 _ _ _. apply rejectDiscipline_updPromise. by intros x.
  - intros win w0 _ Hd p. rewrite promiseAt_allocPromise.
    case_decide; [done|apply Hd].
  - intros t task w0 _ _ Hd. exact Hd.
  - intros p rest w0 _ _ _ Hd.
    apply rejectDiscipline_updPromise; [intros x _; simpl; done|].
    apply rejectDiscipline_updPromise; [by intros x|]. exact Hd.
  - intros p v s rest w0 _ _ Hd. split; [exact Hd|done].
  - intros r c win rest w0 _ _ Hd. exact Hd.
Qed.

Lemma Reachable_rejectDiscipline w : Reachable w -> rejectDiscipline w.
Proof.
  intros [t Hr].
  eapply Steps_rejectDiscipline; [apply emptyWorld_single| |exact Hr].
  intros p. unfold promiseAt. simpl. done.
Qed.

Lemma event_loop_drains_within m w :
  pendingWork w <= m -> Reachable w ->
  exists k fuel w',
    k <= m /\ ProcessEvents k fuel w = Ok w'
    /\ eventQueue w' = [] /\ Reachable w'.
Proof.
  revert w. induction m as [|m IH]; intros w Hm Hr.
  - exists 0, 0, w. repeat split; try done.
    unfold pendingWork in Hm.
    destruct (eventQueue w); [done|simpl in Hm; lia].
  - destruct (eventQueue w) as [|r rest] eqn:Hq.
    { exists 0, 0, w. repeat split; try done. lia. }
    destruct (ProcessNextEvent_progress w Hr) as (f1 & w1 & H1).
    assert (Reachable w1) as Hr1.
    { eapply Reachable_Step; [exact Hr|]. by eapply Step_ProcessNextEvent. }
    assert (pendingWork w1 < pendingWork w) as Hlt.
    { eapply ProcessNextEvent_work; [| | |exact H1].
      - by apply Reachable_consistent.
      - by apply Reachable_rejectDiscipline.
      - by rewrite Hq. }
    destruct (IH w1) as (k & f2 & w2 & Hk & H2 & He & Hr2); [lia|done|].
    exists (S k), (f1 `max` f2), w2. split; [lia|]. split; [|done]. simpl.
    rewrite (ProcessNextEvent_fuel_le f1 (f1 `max` f2) w w1) by (done || lia).
    simpl. apply (ProcessEvents_fuel_le k f2); [lia|done].
Qed.

Lemma drained_holds_no_callback w p :
  Reachable w -> eventQueue w = [] ->
  mState (promiseAt w p) <> Pending ->
  mResolveCallbacks (promiseAt w p) = []
  /\ mRejectCallbacks (promiseAt w p) = [].
Proof.
  intros Hr Hq Hs.
  pose proof (Reachable_drainCoalesced w Hr p) as Hc.
  rewrite Hq in Hc. unfold drainTasks in Hc. simpl in Hc.
  destruct (Reachable_consistent w Hr) as [Ha _].
  destruct (Ha p) as (_ & _ & _ & H4 & _). apply H4.
  - unfold statePending. by apply bool_decide_eq_false.
  - destruct (mTaskPending (promiseAt w p)); [discriminate|done].
Qed.

(** X18: the event loop empties its queue.  From a reachable store, when
    the script makes no further call, a number of turns no larger than the
    work left (the queued runnables and the fulfilment continuations still
    registered) completes and leaves the queue empty; no settled promise
    then holds a callback. *)
Theorem event_loop_drains w :
  Reachable w ->
  exists k fuel w',
    k <= pendingWork w
    /\ ProcessEvents k fuel w = Ok w'
    /\ eventQueue w' = []
    /\ Reachable w'
    /\ (forall p,
          mState (promiseAt w' p) <> Pending ->
          mResolveCallbacks (promiseAt w' p) = []
          /\ mRejectCallbacks (promiseAt w' p) = []).
Proof.
  intros Hr.
  destruct (event_loop_drains_within (pendingWork w) w) as
    (k & fuel & w' & Hk & H & Hq & Hr'); [done|done|].
  exists k, fuel, w'. repeat split; try done.
  - by apply (drained_holds_no_callback w' p Hr' Hq).
  - by apply (drained_holds_no_callback w' p Hr' Hq).
Qed.

(** ** Every invocation uses up a registered continuation *)

Lemma continuationBudget_updPromise p f w :
  p < length (heap w) ->
  continuationBudget (updPromise p f w) + continuations (promiseAt w p)
  = continuationBudget w + continuations (f (promiseAt w p)).
Proof.
  intros Hp.
  pose proof (sum_list_with_alter continuations f p (heap w) (promiseAt w p)
                (promiseAt_lookup w p Hp)) as H.
  unfold continuationBudget, registeredContinuations, updPromise.
  cbn [invoked heap]. rewrite <-!Nat.add_assoc. f_equal. exact H.
Qed.

Lemma continuationBudget_updPromise_same p f w :
  (forall x, continuations (f x) = continuations x) ->
  continuationBudget (updPromise p f w) = continuationBudget w.
Proof.
  intros Hf. destruct (decide (p < length (heap w))) as [Hin|Hout].
  - pose proof (continuationBudget_updPromise p f w Hin) as H.
    rewrite Hf in H. lia.
  - rewrite updPromise_outside; [done|lia].
Qed.

Lemma continuationBudget_AppendCallbacks q c1 c2 w :
  continuationBudget (AppendCallbacks q (Some c1) (Some c2) w)
  <= continuationBudget w + isContinuation c1 + isContinuation c2.
Proof.
  rewrite AppendCallbacks_unfold. cbv zeta.
  set (f1 := fun x => set_mResolveCallbacks (mResolveCallbacks x ++ [c1]) x).
  set (f2 := fun x => set_mRejectCallbacks (mRejectCallbacks x ++ [c2])
                        (set_mHadRejectCallback true x)).
  assert (continuationBudget (updPromise q f2 (updPromise q f1 w))
          <= continuationBudget w + isContinuation c1 + isContinuation c2)
    as Hw2.
  { destruct (decide (q < length (heap w))) as [Hin|Hout].
    - pose proof (continuationBudget_updPromise q f1 w Hin) as Ha.
      pose proof (continuationBudget_updPromise q f2 (updPromise q f1 w))
        as Hb.
      rewrite length_heap_updPromise in Hb. specialize (Hb Hin).
      rewrite promiseAt_updPromise_eq in Hb by done.
      unfold continuations in *. simpl in *.
      rewrite !sum_list_with_app in *. simpl in *. lia.
    - rewrite !updPromise_outside; rewrite ?length_heap_updPromise; lia. }
  destruct (needsDrainTask _); [|done].
  rewrite continuationBudget_updPromise_same by done. exact Hw2.
Qed.

Lemma continuations_taken x :
  sum_list_with isContinuation (takenCallbacks x) <= continuations x.
Proof. unfold takenCallbacks, continuations. case_bool_decide; lia. Qed.

Section ContinuationBudget.

Variable n : nat.
Hypothesis RunTask_budget_n : forall this w w',
  RunTask n this w = Ok w' -> continuationBudget w' <= continuationBudget w.

Lemma RunResolveTask_budget_n t v s w w' :
  RunResolveTask n t v s SyncTask w = Ok w' ->
  continuationBudget w' <= continuationBudget w.
Proof.
  intros H. unfold RunResolveTask, RunResolveTask_with in H.
  apply RunTask_budget_n in H. unfold SetState, SetResult in H.
  by rewrite !continuationBudget_updPromise_same in H by done.
Qed.

Lemma ResolveInternal_budget_n t v w w' :
  ResolveInternal n t v SyncTask w = Ok w' ->
  continuationBudget w' <= continuationBudget w.
Proof.
  unfold ResolveInternal, ResolveInternal_with.
  pose proof (continuationBudget_updPromise_same t (set_mResolvePending true)
                w (fun x => eq_refl)) as Hw1.
  destruct (nextPromiseOf v) as [q|].
  - intros H; inversion H; subst.
    pose proof (continuationBudget_AppendCallbacks q
                  (ResolvePromiseCallback t) (RejectPromiseCallback t)
                  (updPromise t (set_mResolvePending true) w)) as Ha.
    simpl in Ha. lia.
  - intros H. apply RunResolveTask_budget_n in H. lia.
Qed.

Lemma RejectInternal_budget_n t v w w' :
  RejectInternal n t v SyncTask w = Ok w' ->
  continuationBudget w' <= continuationBudget w.
Proof.
  unfold RejectInternal, RejectInternal_with.
  pose proof (continuationBudget_updPromise_same t (set_mResolvePending true)
                w (fun x => eq_refl)) as Hw1.
  intros H. apply RunResolveTask_budget_n in H. lia.
Qed.

Lemma PromiseCallback_Call_budget_n c v w w' :
  PromiseCallback_Call n c v w = Ok w' ->
  continuationBudget w' <= continuationBudget w + isContinuation c.
Proof.
  destruct c as [t|t|next cb task];
    unfold PromiseCallback_Call, PromiseCallback_Call_with.
  - intros H. apply ResolveInternal_budget_n in H. simpl. lia.
  - intros H. apply RejectInternal_budget_n in H. simpl. lia.
  - assert (continuationBudget (recordInvocation cb v w)
            = continuationBudget w + 1) as Hw1.
    { unfold continuationBudget, registeredContinuations. simpl.
      rewrite length_app. simpl. lia. }
    destruct (callbackBody cb v) as [r|e], task; intros H; simpl;
      first [ apply ResolveInternal_budget_n in H
            | apply RejectInternal_budget_n in H ]; lia.
Qed.

Lemma callCallbacks_budget_n cbs v w w' :
  callCallbacks (RunTask n) cbs v w = Ok w' ->
  continuationBudget w'
  <= continuationBudget w + sum_list_with isContinuation cbs.
Proof.
  revert w. induction cbs as [|c rest IH]; intros w; simpl.
  - intros H; inversion H; subst. lia.
  - intros H. apply bind_Ok in H as (w1 & H1 & H2).
    apply PromiseCallback_Call_budget_n in H1. apply IH in H2. lia.
Qed.

Lemma RunTask_budget_S this w w' :
  RunTask (S n) this w = Ok w' ->
  continuationBudget w' <= continuationBudget w.
Proof.
  intros H. simpl in H. unfold RunTask_with in H.
  apply bind_Ok in H as (u & Ha & H). apply MOZ_ASSERT_Ok in Ha.
  apply negb_true_iff in Ha.
  pose proof (settled_in_heap w this Ha) as Hin.
  pose proof (continuationBudget_updPromise this clearCallbacks w Hin) as Hw.
  change (continuations (clearCallbacks (promiseAt w this))) with 0 in Hw.
  apply callCallbacks_budget_n in H.
  pose proof (continuations_taken (promiseAt w this)). lia.
Qed.

End ContinuationBudget.

Lemma RunTask_budget fuel this w w' :
  RunTask fuel this w = Ok w' ->
  continuationBudget w' <= continuationBudget w.
Proof.
  revert this w w'. induction fuel as [|n IH]; intros this w w'.
  - discriminate.
  - by apply RunTask_budget_S.
Qed.

Lemma ProcessNextEvent_budget fuel w w' :
  ProcessNextEvent fuel w = Ok w' ->
  continuationBudget w' <= continuationBudget w.
Proof.
  unfold ProcessNextEvent.
  destruct (eventQueue w) as [|r rest] eqn:Hq.
  - intros H; inversion H; subst. lia.
  - destruct r as [p|p v s|r c win]; unfold Runnable_Run.
    + intros H. apply RunTask_budget in H.
      by rewrite continuationBudget_updPromise_same in H by done.
    + intros H. apply (RunResolveTask_budget_n fuel) in H; [done|].
      intros this w1 w2. apply RunTask_budget.
    + intros H; inversion H; subst. done.
Qed.


(** ** Concrete runs of the further properties *)

Lemma waitingWorld_Reachable : Reachable waitingWorld.
Proof.
  eapply Reachable_Step; [exact pendingWorld_Reachable|].
  apply Step_Then.
Qed.

Lemma lateWorld_Reachable : Reachable lateWorld.
Proof.
  eapply Reachable_Step; [exact resolvedWorld_Reachable|].
  apply Step_Then.
Qed.

Lemma queued_tasks_meet_their_assertions_witness :
  PromiseResolverTask 0 (PrimitiveValue 5) Resolved ∈ eventQueue resolvingWorld
  /\ mState (promiseAt resolvingWorld 0) = Pending
  /\ 0 < length (heap resolvingWorld).
Proof.
  assert (PromiseResolverTask 0 (PrimitiveValue 5) Resolved
            ∈ eventQueue resolvingWorld) as Hin by (vm_compute; left).
  split; [exact Hin|].
  exact (proj2 (queued_tasks_meet_their_assertions resolvingWorld _
                  resolvingWorld_Reachable Hin)).
Defined.

Lemma event_loop_turns_complete_witness :
  exists fuel w', ProcessEvents 2 fuel resolvingWorld = Ok w' /\ Reachable w'.
Proof.
  exact (event_loop_turns_complete resolvingWorld 2 resolvingWorld_Reachable).
Defined.

Lemma fulfilment_value_is_never_a_promise_witness :
  mState (promiseAt resolvedWorld 0) = Resolved
  /\ mResult (promiseAt resolvedWorld 0) <> ObjectValue (PromiseObject 0).
Proof.
  split; [reflexivity|].
  exact (proj1 (fulfilment_value_is_never_a_promise resolvedWorld
                  resolvedWorld_Reachable) 0 0 eq_refl).
Defined.

Lemma settled_promise_ignores_requests_witness :
  mState (promiseAt resolvedWorld 0) = Resolved
  /\ MaybeReject 0 0 (Some (PrimitiveValue 2)) resolvedWorld = Ok resolvedWorld.
Proof.
  split; [reflexivity|].
  refine (proj2 (proj1 (proj2 (proj2
            (settled_promise_ignores_requests resolvedWorld 0
               resolvedWorld_Reachable _))) 0 (Some (PrimitiveValue 2)))).
  vm_compute. discriminate.
Defined.

Lemma operations_make_no_report_witness :
  rtc Step mainWorld resolvingWorld
  /\ reportsMade resolvingWorld = reportsMade mainWorld.
Proof.
  assert (rtc Step mainWorld resolvingWorld) as Hs.
  { apply rtc_once.
    apply (Step_Resolve 0 sampleGlobal (PrimitiveValue 5) _ (Some 0)).
    reflexivity. }
  split; [exact Hs|].
  exact (proj1 (operations_make_no_report mainWorld resolvingWorld Hs)).
Defined.

Lemma waiting_promise_is_pending_witness :
  WrapperPromiseCallback 1 (sampleCallback 1) PromiseCallback_Resolve
    ∈ mResolveCallbacks (promiseAt waitingWorld 0)
  /\ 1 < length (heap waitingWorld)
  /\ mState (promiseAt waitingWorld 1) = Pending.
Proof.
  assert (WrapperPromiseCallback 1 (sampleCallback 1) PromiseCallback_Resolve
            ∈ mResolveCallbacks (promiseAt waitingWorld 0)) as Hin
    by (vm_compute; left).
  split; [exact Hin|].
  destruct (waiting_promise_is_pending waitingWorld 0 _
              waitingWorld_Reachable (or_introl Hin)) as (H1 & H2 & _).
  split; [exact H1|exact H2].
Defined.

Lemma derived_promise_settles_after_parent_witness :
  mState (promiseAt waitingWorld 0) = Pending
  /\ mState (promiseAt waitingWorld 1) = Pending.
Proof.
  split; [reflexivity|].
  refine (derived_promise_settles_after_parent waitingWorld waitingWorld 0
            (WrapperPromiseCallback 1 (sampleCallback 1) PromiseCallback_Resolve)
            waitingWorld_Reachable (or_introl _) (rtc_refl _ _) eq_refl).
  vm_compute. left.
Defined.

Lemma self_resolution_never_settles_witness :
  functions pendingWorld !! 0 = Some (0, PromiseCallback_Resolve)
  /\ exists w1,
       JSCallback 0 0 [ObjectValue (PromiseObject 0)] pendingWorld
       = Ok (true, w1)
       /\ mState (promiseAt w1 0) = Pending.
Proof.
  split; [reflexivity|].
  destruct (self_resolution_never_settles 0 pendingWorld 0 0
              pendingWorld_Reachable eq_refl eq_refl) as (w1 & H1 & _ & H2).
  exists w1. split; [exact H1|]. exact (proj1 (H2 w1 (rtc_refl _ _))).
Defined.

Lemma no_callback_is_lost_witness :
  mState (promiseAt lateWorld 0) = Resolved
  /\ mResolveCallbacks (promiseAt lateWorld 0) <> []
  /\ PromiseTask 0 ∈ eventQueue lateWorld.
Proof.
  split; [reflexivity|].
  assert (mResolveCallbacks (promiseAt lateWorld 0) <> []) as Hne
    by (vm_compute; discriminate).
  split; [exact Hne|].
  refine (proj2 (no_callback_is_lost lateWorld 0 lateWorld_Reachable _
                   (or_introl Hne))).
  vm_compute. discriminate.
Defined.

Lemma script_calls_settle_and_call_nothing_witness :
  quiet resolvedWorld lateWorld.
Proof.
  exact (proj1 (proj1 (proj2 (proj2 (proj2
           (script_calls_settle_and_call_nothing resolvedWorld))))
           0 (Some (sampleCallback 1)) None)).
Defined.


Lemma then_allocates_a_fresh_promise_witness :
  fst (Then 0 None None pendingWorld) = 1
  /\ promiseAt (snd (Then 0 None None pendingWorld)) 1
     = new_Promise (Some 1).
Proof.
  destruct (then_allocates_a_fresh_promise 0 None None pendingWorld)
    as (H1 & _ & H3 & _).
  - vm_compute. lia.
  - split; [exact H1|exact H3].
Defined.

Lemma construction_fails_without_window_or_capability_witness :
  Resolve 0 plainGlobal (PrimitiveValue 5) mainWorld = Ok (None, mainWorld)
  /\ exists w1,
       Resolve 0 plainGlobal (PrimitiveValue 5) workerWorld = Ok (Some 0, w1)
       /\ mWindow (promiseAt w1 0) = None.
Proof.
  split.
  - exact (proj1 (proj2 (proj1
             (construction_fails_without_window_or_capability 0 plainGlobal
                mainWorld) eq_refl eq_refl)) (PrimitiveValue 5)).
  - destruct (proj1 (proj2
                (construction_fails_without_window_or_capability 0 plainGlobal
                   workerWorld)) eq_refl (PrimitiveValue 5))
      as (w1 & w2 & H1 & _ & H3 & _).
    exists w1. split; [exact H1|exact H3].
Defined.

Lemma rejection_report_routing_witness :
  eventQueue (Promise_destructor 0 rejectedWorld)
  = [AsyncErrorReporter 9 false (Some 1)].
Proof.
  exact (proj1 (rejection_report_routing 0 rejectedWorld 9 eq_refl eq_refl)).
Defined.

Lemma unlinked_promise_calls_nothing_witness :
  mResolveCallbacks (promiseAt (Promise_Unlink 0 lateWorld) 0) = []
  /\ mState (promiseAt (Promise_Unlink 0 lateWorld) 0) = Resolved.
Proof.
  destruct (unlinked_promise_calls_nothing 0 lateWorld)
    as (H1 & _ & _ & _ & H5 & _).
  - vm_compute. lia.
  - split; [exact H1|exact H5].
Defined.

Lemma promises_enabled_for_scope_witness :
  EnabledForScope 3 contentScope = false
  /\ EnabledForScope 3
       (mkScopeContext true (Some true) MainThread false 0) = true.
Proof.
  split; [reflexivity|].
  apply (proj1 (promises_enabled_for_scope 3
                  (mkScopeContext true (Some true) MainThread false 0))).
  split; [reflexivity|]. left. reflexivity.
Defined.

Lemma resolve_with_settled_promise_witness :
  exists w1 n w2,
    Resolve 0 sampleGlobal (ObjectValue (PromiseObject 0)) resolvedWorld
    = Ok (Some 1, w1)
    /\ mState (promiseAt w1 1) = Pending
    /\ eventQueue w1 = [PromiseTask 0]
    /\ ProcessNextEvent n w1 = Ok w2
    /\ mState (promiseAt w2 1) = Resolved
    /\ mResult (promiseAt w2 1) = PrimitiveValue 5.
Proof.
  refine (resolve_with_settled_promise 0 sampleGlobal resolvedWorld (Some 1) 0
            resolvedWorld_Reachable eq_refl eq_refl _).
  vm_compute. discriminate.
Defined.

Lemma event_loop_drains_witness :
  pendingWork lateWorld = 2
  /\ exists k fuel w',
       k <= pendingWork lateWorld
       /\ ProcessEvents k fuel lateWorld = Ok w'
       /\ eventQueue w' = []
       /\ Reachable w'
       /\ (forall p,
             mState (promiseAt w' p) <> Pending ->
             mResolveCallbacks (promiseAt w' p) = []
             /\ mRejectCallbacks (promiseAt w' p) = []).
Proof.
  split; [reflexivity|].
  exact (event_loop_drains lateWorld lateWorld_Reachable).
Defined.

Lemma bindings_never_change_witness :
  rtc Step pendingWorld waitingWorld
  /\ mWindow (promiseAt waitingWorld 0) = mWindow (promiseAt pendingWorld 0).
Proof.
  assert (rtc Step pendingWorld waitingWorld) as Hr
    by (apply rtc_once, Step_Then).
  split; [exact Hr|].
  apply (proj1 (bindings_never_change pendingWorld waitingWorld Hr)).
  vm_compute. lia.
Defined.

